(** * Staged move picker and split-point bookkeeping

    A shallow embedding of [movepick.cpp] (move picker), of the thread pool
    source ([is_available_to], [read_uci_options], [available_slave],
    [split], [cutoff_occurred]), of the options of [ucioption.cpp] and of
    the material table of [material.cpp], together with the properties the
    specification states about them and further properties of the code.

    Conventions.  C++ [int], [Depth], [Value], [Move], [Square] and [Bitboard]
    values are integers in [Z]; arrays are lists read and written by index
    through [aget] and [aset], where an index outside the array is reported as
    [OutOfBounds] instead of being given a value; a loop that can never leave
    is reported as [Hang].  The picker's read of its phase table is given a
    second time without the check ([pick_move_from_list_reading]), for the
    calls that go on after a read outside the table.  Everything the picker
    consumes from other translation units (position queries, generators,
    SEE, history) is a field of the class [Chess]. *)

From Stdlib Require Import ZArith List Bool Lia Permutation Arith Sorted.
From Stdlib Require String Ascii.
Import ListNotations.
Open Scope Z_scope.

(** ** Arrays and results *)

Inductive result (A : Type) : Type :=
| Ret (a : A)      (* the call returns *)
| Hang             (* the call loops forever *)
| OutOfBounds.     (* the call indexes an array outside its storage *)

Arguments Ret {A} a.
Arguments Hang {A}.
Arguments OutOfBounds {A}.

Definition bind {A B : Type} (r : result A) (k : A -> result B) : result B :=
  match r with
  | Ret a => k a
  | Hang => Hang
  | OutOfBounds => OutOfBounds
  end.

Notation "x <- r ;; k" := (bind r (fun x => k))
  (at level 61, r at next level, right associativity).

Definition aget {A : Type} (l : list A) (i : Z) : option A :=
  if i <? 0 then None else nth_error l (Z.to_nat i).

Fixpoint replace_nth {A : Type} (n : nat) (l : list A) (v : A) : list A :=
  match l, n with
  | [], _ => []
  | _ :: t, O => v :: t
  | h :: t, S n' => h :: replace_nth n' t v
  end.

Definition aset {A : Type} (l : list A) (i : Z) (v : A) : option (list A) :=
  if (i <? 0) || (Z.of_nat (length l) <=? i) then None
  else Some (replace_nth (Z.to_nat i) l v).

Definition read {A : Type} (l : list A) (i : Z) : result A :=
  match aget l i with Some a => Ret a | None => OutOfBounds end.

Definition write {A : Type} (l : list A) (i : Z) (v : A) : result (list A) :=
  match aset l i v with Some l' => Ret l' | None => OutOfBounds end.

(** The entries of an array at the indices from [lo] up to [hi - 1]. *)
Definition slice {A : Type} (l : list A) (lo hi : Z) : list A :=
  firstn (Z.to_nat (hi - lo)) (skipn (Z.to_nat lo) l).

(** ** The move picker ([movepick.cpp]) *)

Module MovePick.

Definition Move := Z.
Definition Square := Z.
Definition Bitboard := Z.
Definition Depth := Z.
Definition Piece := Z.

(** The enumerators of [MovePicker::MovegenPhase] that [movepick.cpp] names. *)
Inductive MovegenPhase : Type :=
| PH_TT_MOVE | PH_MATE_KILLER | PH_GOOD_CAPTURES | PH_BAD_CAPTURES
| PH_KILLER_1 | PH_KILLER_2 | PH_NONCAPTURES | PH_EVASIONS
| PH_QCAPTURES | PH_QCHECKS | PH_STOP.

(** What [movepick.cpp] uses from the headers it includes. *)
Class Chess : Type := {
  Position : Type;
  Color : Type;
  EvalInfo : Type;
  MaterialInfo : Type;
  MOVE_NONE : Move;
  SQ_NONE : Square;
  HistoryMax : Z;
  QueenValueMidgame : Z;
  (* the enumerator a value-initialised [MovegenPhase] holds *)
  phase_zero : MovegenPhase;
  opposite_color : Color -> Color;
  move_from : Move -> Square;
  move_to : Move -> Square;
  move_promotion : Move -> bool;
  side_to_move : Position -> Color;
  pieces_of_color : Position -> Color -> Bitboard;
  ep_square : Position -> Square;
  has_pawn_on_7th : Position -> Color -> bool;
  is_check : Position -> bool;
  discovered_check_candidates : Position -> Color -> Bitboard;
  pinned_pieces : Position -> Color -> Bitboard;
  see : Position -> Move -> Z;
  midgame_value_of_piece_on : Position -> Square -> Z;
  type_of_piece_on : Position -> Square -> Z;
  piece_on : Position -> Square -> Piece;
  square_is_empty : Position -> Square -> bool;
  mg_pst_delta : Position -> Move -> Z;
  pl_move_is_legal : Position -> Move -> Bitboard -> bool;
  move_is_legal : Position -> Move -> Bitboard -> bool;
  generate_captures : Position -> list Move;
  generate_noncaptures : Position -> list Move;
  generate_evasions : Position -> list Move;
  generate_checks : Position -> Bitboard -> list Move;
  (* [H.move_ordering_score] of the global history table *)
  move_ordering_score : Piece -> Move -> Z;
  attackedBy : EvalInfo -> Color -> Z -> Bitboard;
  mi : EvalInfo -> MaterialInfo;
  specialized_eval_exists : MaterialInfo -> bool
}.

Section Picker.

Context {X : Chess}.

Record MoveStack : Type := { move : Move; score : Z }.

Record SearchStack : Type := {
  ss_mateKiller : Move;
  ss_killers : Z -> Move
}.

(** *** The phase table *)

Record PhaseGlobals : Type := {
  PhaseTable : list MovegenPhase;
  MainSearchPhaseIndex : Z;
  EvasionsPhaseIndex : Z;
  QsearchWithChecksPhaseIndex : Z;
  QsearchNoCapturesPhaseIndex : Z;
  QsearchWithoutChecksPhaseIndex : Z;
  NoMovesPhaseIndex : Z
}.

(** [PhaseTable[i++] = ph] *)
Definition put (st : list MovegenPhase * Z) (ph : MovegenPhase)
  : list MovegenPhase * Z :=
  (replace_nth (Z.to_nat (snd st)) (fst st) ph, snd st + 1).

(** [init_phase_table], run on the value-initialised [PhaseTable[32]]. *)
Definition init_phase_table : PhaseGlobals :=
  let st := (repeat phase_zero 32, 0) in
  (* Main search *)
  let main := snd st - 1 in
  let st := put st PH_TT_MOVE in
  let st := put st PH_MATE_KILLER in
  let st := put st PH_GOOD_CAPTURES in
  let st := put st PH_NONCAPTURES in
  let st := put st PH_BAD_CAPTURES in
  let st := put st PH_STOP in
  (* Check evasions *)
  let evasions := snd st - 1 in
  let st := put st PH_EVASIONS in
  let st := put st PH_STOP in
  (* Quiescence search with checks *)
  let qchecks := snd st - 1 in
  let st := put st PH_QCAPTURES in
  let st := put st PH_QCHECKS in
  let st := put st PH_STOP in
  (* Quiescence search with checks only and no captures *)
  let qnocaps := snd st - 1 in
  let st := put st PH_QCHECKS in
  let st := put st PH_STOP in
  (* Quiescence search without checks *)
  let qnochecks := snd st - 1 in
  let st := put st PH_QCAPTURES in
  let st := put st PH_STOP in
  (* Do not generate any move *)
  let nomoves := snd st - 1 in
  let st := put st PH_STOP in
  {| PhaseTable := fst st;
     MainSearchPhaseIndex := main;
     EvasionsPhaseIndex := evasions;
     QsearchWithChecksPhaseIndex := qchecks;
     QsearchNoCapturesPhaseIndex := qnocaps;
     QsearchWithoutChecksPhaseIndex := qnochecks;
     NoMovesPhaseIndex := nomoves |}.

(** The globals as every picker sees them: [init_phase_table] has run once at
    program start. *)
Definition G : PhaseGlobals := init_phase_table.

(** *** Picker state *)

Record MovePicker : Type := {
  pos : Position;
  pvNode : bool;
  ttMove : Move;
  mateKiller : Move;
  killer1 : Move;
  killer2 : Move;
  depth : Depth;
  phaseIndex : Z;
  dc : Bitboard;
  pinned : Bitboard;
  moves : list MoveStack;
  badCaptures : list MoveStack;
  numOfMoves : Z;
  movesPicked : Z;
  numOfBadCaptures : Z;
  badCapturesPicked : Z;
  finished : bool
}.

Definition with_phaseIndex (mp : MovePicker) (v : Z) : MovePicker :=
  {| pos := pos mp; pvNode := pvNode mp; ttMove := ttMove mp;
     mateKiller := mateKiller mp; killer1 := killer1 mp; killer2 := killer2 mp;
     depth := depth mp; phaseIndex := v; dc := dc mp; pinned := pinned mp;
     moves := moves mp; badCaptures := badCaptures mp;
     numOfMoves := numOfMoves mp; movesPicked := movesPicked mp;
     numOfBadCaptures := numOfBadCaptures mp;
     badCapturesPicked := badCapturesPicked mp; finished := finished mp |}.

Definition with_moves (mp : MovePicker) (v : list MoveStack) : MovePicker :=
  {| pos := pos mp; pvNode := pvNode mp; ttMove := ttMove mp;
     mateKiller := mateKiller mp; killer1 := killer1 mp; killer2 := killer2 mp;
     depth := depth mp; phaseIndex := phaseIndex mp; dc := dc mp;
     pinned := pinned mp; moves := v; badCaptures := badCaptures mp;
     numOfMoves := numOfMoves mp; movesPicked := movesPicked mp;
     numOfBadCaptures := numOfBadCaptures mp;
     badCapturesPicked := badCapturesPicked mp; finished := finished mp |}.

Definition with_badCaptures (mp : MovePicker) (v : list MoveStack) : MovePicker :=
  {| pos := pos mp; pvNode := pvNode mp; ttMove := ttMove mp;
     mateKiller := mateKiller mp; killer1 := killer1 mp; killer2 := killer2 mp;
     depth := depth mp; phaseIndex := phaseIndex mp; dc := dc mp;
     pinned := pinned mp; moves := moves mp; badCaptures := v;
     numOfMoves := numOfMoves mp; movesPicked := movesPicked mp;
     numOfBadCaptures := numOfBadCaptures mp;
     badCapturesPicked := badCapturesPicked mp; finished := finished mp |}.

Definition with_numOfMoves (mp : MovePicker) (v : Z) : MovePicker :=
  {| pos := pos mp; pvNode := pvNode mp; ttMove := ttMove mp;
     mateKiller := mateKiller mp; killer1 := killer1 mp; killer2 := killer2 mp;
     depth := depth mp; phaseIndex := phaseIndex mp; dc := dc mp;
     pinned := pinned mp; moves := moves mp; badCaptures := badCaptures mp;
     numOfMoves := v; movesPicked := movesPicked mp;
     numOfBadCaptures := numOfBadCaptures mp;
     badCapturesPicked := badCapturesPicked mp; finished := finished mp |}.

Definition with_movesPicked (mp : MovePicker) (v : Z) : MovePicker :=
  {| pos := pos mp; pvNode := pvNode mp; ttMove := ttMove mp;
     mateKiller := mateKiller mp; killer1 := killer1 mp; killer2 := killer2 mp;
     depth := depth mp; phaseIndex := phaseIndex mp; dc := dc mp;
     pinned := pinned mp; moves := moves mp; badCaptures := badCaptures mp;
     numOfMoves := numOfMoves mp; movesPicked := v;
     numOfBadCaptures := numOfBadCaptures mp;
     badCapturesPicked := badCapturesPicked mp; finished := finished mp |}.

Definition with_numOfBadCaptures (mp : MovePicker) (v : Z) : MovePicker :=
  {| pos := pos mp; pvNode := pvNode mp; ttMove := ttMove mp;
     mateKiller := mateKiller mp; killer1 := killer1 mp; killer2 := killer2 mp;
     depth := depth mp; phaseIndex := phaseIndex mp; dc := dc mp;
     pinned := pinned mp; moves := moves mp; badCaptures := badCaptures mp;
     numOfMoves := numOfMoves mp; movesPicked := movesPicked mp;
     numOfBadCaptures := v;
     badCapturesPicked := badCapturesPicked mp; finished := finished mp |}.

Definition with_badCapturesPicked (mp : MovePicker) (v : Z) : MovePicker :=
  {| pos := pos mp; pvNode := pvNode mp; ttMove := ttMove mp;
     mateKiller := mateKiller mp; killer1 := killer1 mp; killer2 := killer2 mp;
     depth := depth mp; phaseIndex := phaseIndex mp; dc := dc mp;
     pinned := pinned mp; moves := moves mp; badCaptures := badCaptures mp;
     numOfMoves := numOfMoves mp; movesPicked := movesPicked mp;
     numOfBadCaptures := numOfBadCaptures mp;
     badCapturesPicked := v; finished := finished mp |}.

Definition with_finished (mp : MovePicker) (v : bool) : MovePicker :=
  {| pos := pos mp; pvNode := pvNode mp; ttMove := ttMove mp;
     mateKiller := mateKiller mp; killer1 := killer1 mp; killer2 := killer2 mp;
     depth := depth mp; phaseIndex := phaseIndex mp; dc := dc mp;
     pinned := pinned mp; moves := moves mp; badCaptures := badCaptures mp;
     numOfMoves := numOfMoves mp; movesPicked := movesPicked mp;
     numOfBadCaptures := numOfBadCaptures mp;
     badCapturesPicked := badCapturesPicked mp; finished := v |}.

(** *** Constructor *)

(** The local [noCaptures] of the constructor; [ei] is a nullable pointer. *)
Definition noCaptures (p : Position) (ei : option EvalInfo) : bool :=
  let us := side_to_move p in
  let them := opposite_color us in
  match ei with
  | None => false
  | Some e =>
      (Z.land (attackedBy e us 0) (pieces_of_color p them) =? 0)
      && negb (specialized_eval_exists (mi e))
      && (ep_square p =? SQ_NONE)
      && negb (has_pawn_on_7th p us)
  end.

(** [MovePicker::MovePicker].  The members the constructor does not assign
    ([moves], [badCaptures], [badCapturesPicked]) keep what the object's
    storage [raw] held. *)
Definition MovePicker_new (raw : MovePicker) (p : Position) (pv : bool)
    (ttm : Move) (ss : SearchStack) (d : Depth) (ei : option EvalInfo)
  : MovePicker :=
  let us := side_to_move p in
  {| pos := p;
     pvNode := pv;
     ttMove := ttm;
     mateKiller := if ss_mateKiller ss =? ttm then MOVE_NONE else ss_mateKiller ss;
     killer1 := ss_killers ss 0;
     killer2 := ss_killers ss 1;
     depth := d;
     phaseIndex :=
       if is_check p then EvasionsPhaseIndex G
       else if d >? 0 then MainSearchPhaseIndex G
       else if d =? 0 then
         (if noCaptures p ei then QsearchNoCapturesPhaseIndex G
          else QsearchWithChecksPhaseIndex G)
       else
         (if noCaptures p ei then NoMovesPhaseIndex G
          else QsearchWithoutChecksPhaseIndex G);
     dc := discovered_check_candidates p us;
     pinned := pinned_pieces p (side_to_move p);
     moves := moves raw;
     badCaptures := badCaptures raw;
     numOfMoves := 0;
     movesPicked := 0;
     numOfBadCaptures := 0;
     badCapturesPicked := badCapturesPicked raw;
     finished := false |}.

(** *** Scoring *)

Definition set_score (e : MoveStack) (v : Z) : MoveStack :=
  {| move := move e; score := v |}.

(** A generator call [numOfMoves = generate_x(pos, moves)]: the generator
    writes the [move] member of the first entries of [moves] and returns how
    many it wrote. *)
Fixpoint store_moves (buf : list MoveStack) (ms : list Move) {struct ms}
  : result (list MoveStack) :=
  match ms, buf with
  | [], _ => Ret buf
  | _ :: _, [] => OutOfBounds
  | m :: ms', e :: buf' =>
      rest <- store_moves buf' ms' ;;
      Ret ({| move := m; score := score e |} :: rest)
  end.

Definition generate (mp : MovePicker) (ms : list Move) : result MovePicker :=
  buf <- store_moves (moves mp) ms ;;
  Ret (with_numOfMoves (with_moves mp buf) (Z.of_nat (length ms))).

(** The MVV/LVA value both capture scorers assign. *)
Definition mvv_lva (p : Position) (m : Move) : Z :=
  if move_promotion m then QueenValueMidgame
  else midgame_value_of_piece_on p (move_to m) - type_of_piece_on p (move_from m).

(** [score_captures]: the loop [for (i = 0; i < numOfMoves; i++)].  Every pass
    lowers [numOfMoves - i] by one (either [i++] alone, or [i--], [--numOfMoves]
    and [i++]), so [n] counts the passes that remain. *)
Fixpoint score_captures_loop (n : nat) (i : Z) (mp : MovePicker)
  : result MovePicker :=
  match n with
  | O => Ret mp
  | S n' =>
      e <- read (moves mp) i ;;
      let m := move e in
      let seeValue := see (pos mp) m in
      if seeValue >=? 0 then
        mv <- write (moves mp) i (set_score e (mvv_lva (pos mp) m)) ;;
        score_captures_loop n' (i + 1) (with_moves mp mv)
      else
        (* Losing capture, move it to the badCaptures[] array *)
        let e' := set_score e seeValue in
        bc <- write (badCaptures mp) (numOfBadCaptures mp) e' ;;
        let last := numOfMoves mp - 1 in
        mv1 <- write (moves mp) i e' ;;
        l <- read mv1 last ;;
        mv <- write mv1 i l ;;
        score_captures_loop n' i
          (with_numOfMoves
             (with_moves
                (with_numOfBadCaptures (with_badCaptures mp bc)
                   (numOfBadCaptures mp + 1))
                mv)
             last)
  end.

Definition score_captures (mp : MovePicker) : result MovePicker :=
  score_captures_loop (Z.to_nat (numOfMoves mp)) 0 mp.

(** A loop [for (i = 0; i < numOfMoves; i++) moves[i].score = f(moves[i].move)]. *)
Fixpoint score_loop (f : Move -> Z) (n : nat) (i : Z) (mv : list MoveStack)
  : result (list MoveStack) :=
  match n with
  | O => Ret mv
  | S n' =>
      e <- read mv i ;;
      mv' <- write mv i (set_score e (f (move e))) ;;
      score_loop f n' (i + 1) mv'
  end.

Definition score_with (f : Move -> Z) (mp : MovePicker) : result MovePicker :=
  mv <- score_loop f (Z.to_nat (numOfMoves mp)) 0 (moves mp) ;;
  Ret (with_moves mp mv).

Definition noncapture_score (mp : MovePicker) (m : Move) : Z :=
  let hs :=
    if m =? killer1 mp then HistoryMax + 2
    else if m =? killer2 mp then HistoryMax + 1
    else move_ordering_score (piece_on (pos mp) (move_from m)) m in
  (* Ensure history is always preferred to pst *)
  let hs := if hs >? 0 then hs + 1000 else hs in
  hs + mg_pst_delta (pos mp) m.

Definition score_noncaptures (mp : MovePicker) : result MovePicker :=
  score_with (noncapture_score mp) mp.

Definition evasion_score (mp : MovePicker) (m : Move) : Z :=
  if m =? ttMove mp then 2 * HistoryMax
  else if negb (square_is_empty (pos mp) (move_to m)) then
    let seeScore := see (pos mp) m in
    if seeScore >=? 0 then seeScore + HistoryMax else seeScore
  else move_ordering_score (piece_on (pos mp) (move_from m)) m.

Definition score_evasions (mp : MovePicker) : result MovePicker :=
  score_with (evasion_score mp) mp.

Definition score_qcaptures (mp : MovePicker) : result MovePicker :=
  score_with (mvv_lva (pos mp)) mp.

(** *** Selection *)

(** [find_best_index()]: the loop [for (i = movesPicked; i < numOfMoves; i++)]
    runs [numOfMoves - movesPicked] passes. *)
Fixpoint find_best_loop (mv : list MoveStack) (n : nat) (i bestScore bestIndex : Z)
  : result Z :=
  match n with
  | O => Ret bestIndex
  | S n' =>
      e <- read mv i ;;
      if score e >? bestScore
      then find_best_loop mv n' (i + 1) (score e) i
      else find_best_loop mv n' (i + 1) bestScore bestIndex
  end.

Definition find_best_index (mp : MovePicker) : result Z :=
  find_best_loop (moves mp) (Z.to_nat (numOfMoves mp - movesPicked mp))
    (movesPicked mp) (-10000000) (-1).

(** The loop shared by the GOOD_CAPTURES, NONCAPTURES, EVASIONS and QCAPTURES
    cases of [pick_move_from_list]:

      while (movesPicked < numOfMoves) {
          bestIndex = choose;
          if (bestIndex != -1) {
              move = moves[bestIndex].move;
              moves[bestIndex] = moves[movesPicked++];
              if (accept(move)) return move;
          }
      }

    A pass with [bestIndex != -1] raises [movesPicked] by one, so [n] counts
    [numOfMoves - movesPicked]; a pass with [bestIndex == -1] changes nothing
    and the loop never leaves. *)
Fixpoint pick_loop (choose : MovePicker -> result Z) (accept : Move -> bool)
    (n : nat) (mp : MovePicker) : result (Move * MovePicker) :=
  match n with
  | O => Ret (MOVE_NONE, mp)
  | S n' =>
      bestIndex <- choose mp ;;
      if bestIndex =? -1 then Hang
      else
        e <- read (moves mp) bestIndex ;;
        front <- read (moves mp) (movesPicked mp) ;;
        mv <- write (moves mp) bestIndex front ;;
        let mp' := with_movesPicked (with_moves mp mv) (movesPicked mp + 1) in
        if accept (move e) then Ret (move e, mp')
        else pick_loop choose accept n' mp'
  end.

(** The QCHECKS loop: [move = moves[movesPicked++].move]. *)
Fixpoint front_loop (accept : Move -> bool) (n : nat) (mp : MovePicker)
  : result (Move * MovePicker) :=
  match n with
  | O => Ret (MOVE_NONE, mp)
  | S n' =>
      e <- read (moves mp) (movesPicked mp) ;;
      let mp' := with_movesPicked mp (movesPicked mp + 1) in
      if accept (move e) then Ret (move e, mp')
      else front_loop accept n' mp'
  end.

(** The BAD_CAPTURES loop: [move = badCaptures[badCapturesPicked++].move]. *)
Fixpoint bad_loop (accept : Move -> bool) (n : nat) (mp : MovePicker)
  : result (Move * MovePicker) :=
  match n with
  | O => Ret (MOVE_NONE, mp)
  | S n' =>
      e <- read (badCaptures mp) (badCapturesPicked mp) ;;
      let mp' := with_badCapturesPicked mp (badCapturesPicked mp + 1) in
      if accept (move e) then Ret (move e, mp')
      else bad_loop accept n' mp'
  end.

(** [move != ttMove && move != mateKiller && pos.pl_move_is_legal(move, pinned)] *)
Definition accept_main (mp : MovePicker) (m : Move) : bool :=
  negb (m =? ttMove mp) && negb (m =? mateKiller mp)
  && pl_move_is_legal (pos mp) m (pinned mp).

(** [/* move != ttMove && */ pos.pl_move_is_legal(move, pinned)] *)
Definition accept_qsearch (mp : MovePicker) (m : Move) : bool :=
  pl_move_is_legal (pos mp) m (pinned mp).

Definition remaining (mp : MovePicker) : nat :=
  Z.to_nat (numOfMoves mp - movesPicked mp).

Definition pick_move_from_list (mp : MovePicker) : result (Move * MovePicker) :=
  ph <- read (PhaseTable G) (phaseIndex mp) ;;
  match ph with
  | PH_GOOD_CAPTURES =>
      pick_loop find_best_index (accept_main mp) (remaining mp) mp
  | PH_NONCAPTURES =>
      pick_loop
        (fun s => if pvNode s || (movesPicked s <? 12)
                  then find_best_index s else Ret (movesPicked s))
        (accept_main mp) (remaining mp) mp
  | PH_EVASIONS =>
      pick_loop find_best_index (fun _ => true) (remaining mp) mp
  | PH_BAD_CAPTURES =>
      bad_loop (accept_main mp)
        (Z.to_nat (numOfBadCaptures mp - badCapturesPicked mp)) mp
  | PH_QCAPTURES =>
      pick_loop
        (fun s => if movesPicked s <? 4 then find_best_index s
                  else Ret (movesPicked s))
        (accept_qsearch mp) (remaining mp) mp
  | PH_QCHECKS =>
      front_loop (accept_qsearch mp) (remaining mp) mp
  | _ => Ret (MOVE_NONE, mp)
  end.

(** [current_move_type] *)
Definition current_move_type (mp : MovePicker) : result MovegenPhase :=
  read (PhaseTable G) (phaseIndex mp).

(** The switch of [get_next_move] after [phaseIndex++]: [inl] is a [return],
    [inr] a [break] back to the head of the [while (true)]. *)
Definition next_phase (mp : MovePicker)
  : result ((Move * MovePicker) + MovePicker) :=
  let mp := with_phaseIndex mp (phaseIndex mp + 1) in
  ph <- read (PhaseTable G) (phaseIndex mp) ;;
  match ph with
  | PH_TT_MOVE =>
      if negb (ttMove mp =? MOVE_NONE)
         && move_is_legal (pos mp) (ttMove mp) (pinned mp)
      then Ret (inl (ttMove mp, mp)) else Ret (inr mp)
  | PH_MATE_KILLER =>
      if negb (mateKiller mp =? MOVE_NONE)
         && move_is_legal (pos mp) (mateKiller mp) (pinned mp)
      then Ret (inl (mateKiller mp, mp)) else Ret (inr mp)
  | PH_GOOD_CAPTURES =>
      mp <- generate mp (generate_captures (pos mp)) ;;
      mp <- score_captures mp ;;
      Ret (inr (with_movesPicked mp 0))
  | PH_BAD_CAPTURES =>
      Ret (inr (with_badCapturesPicked mp 0))
  | PH_NONCAPTURES =>
      mp <- generate mp (generate_noncaptures (pos mp)) ;;
      mp <- score_noncaptures mp ;;
      Ret (inr (with_movesPicked mp 0))
  | PH_EVASIONS =>
      mp <- generate mp (generate_evasions (pos mp)) ;;
      mp <- score_evasions mp ;;
      Ret (inr (with_movesPicked mp 0))
  | PH_QCAPTURES =>
      mp <- generate mp (generate_captures (pos mp)) ;;
      mp <- score_qcaptures mp ;;
      Ret (inr (with_movesPicked mp 0))
  | PH_QCHECKS =>
      mp <- generate mp (generate_checks (pos mp) (dc mp)) ;;
      Ret (inr (with_movesPicked mp 0))
  | PH_STOP => Ret (inl (MOVE_NONE, mp))
  | _ => Ret (inl (MOVE_NONE, mp))
  end.

(** [get_next_move()].  Every pass of the [while (true)] raises [phaseIndex]
    by one and reads [PhaseTable] at it, so [n] counts the table entries from
    [phaseIndex] on; with none left the read is outside the table. *)
Fixpoint get_next_move_loop (n : nat) (mp : MovePicker)
  : result (Move * MovePicker) :=
  match n with
  | O => OutOfBounds
  | S n' =>
      r <- pick_move_from_list mp ;;
      if negb (fst r =? MOVE_NONE) then Ret r
      else
        nx <- next_phase (snd r) ;;
        match nx with
        | inl out => Ret out
        | inr mp' => get_next_move_loop n' mp'
        end
  end.

Definition get_next_move (mp : MovePicker) : result (Move * MovePicker) :=
  get_next_move_loop
    (Z.to_nat (Z.of_nat (length (PhaseTable G)) - phaseIndex mp)) mp.

(** *** Calls whose table read is not checked

    [PhaseTable[phaseIndex]] is a plain array read.  At an index outside the
    table it reads a neighbouring word, and where that read returns, the
    switch of [pick_move_from_list] goes on with the value found there,
    [stray]; a value that is no enumerator selects [default:], as
    [PH_TT_MOVE] does.  [read] above makes such a read a fault.  The
    definitions below follow the run past it: inside the table they read
    what [pick_move_from_list] reads.  The read that follows [phaseIndex++]
    in [get_next_move] keeps its check.  As in [pick_move_from_list], the
    [assert]s at the head of the cases are left out: they are compiled away
    under [NDEBUG]. *)

(** The switch of [pick_move_from_list], on the phase [ph]. *)
Definition pick_move_from_list_at (ph : MovegenPhase) (mp : MovePicker)
  : result (Move * MovePicker) :=
  match ph with
  | PH_GOOD_CAPTURES =>
      pick_loop find_best_index (accept_main mp) (remaining mp) mp
  | PH_NONCAPTURES =>
      pick_loop
        (fun s => if pvNode s || (movesPicked s <? 12)
                  then find_best_index s else Ret (movesPicked s))
        (accept_main mp) (remaining mp) mp
  | PH_EVASIONS =>
      pick_loop find_best_index (fun _ => true) (remaining mp) mp
  | PH_BAD_CAPTURES =>
      bad_loop (accept_main mp)
        (Z.to_nat (numOfBadCaptures mp - badCapturesPicked mp)) mp
  | PH_QCAPTURES =>
      pick_loop
        (fun s => if movesPicked s <? 4 then find_best_index s
                  else Ret (movesPicked s))
        (accept_qsearch mp) (remaining mp) mp
  | PH_QCHECKS =>
      front_loop (accept_qsearch mp) (remaining mp) mp
  | _ => Ret (MOVE_NONE, mp)
  end.

Definition pick_move_from_list_reading (stray : MovegenPhase)
    (mp : MovePicker) : result (Move * MovePicker) :=
  pick_move_from_list_at
    (match aget (PhaseTable G) (phaseIndex mp) with
     | Some ph => ph
     | None => stray
     end) mp.

Fixpoint get_next_move_loop_reading (stray : MovegenPhase) (n : nat)
    (mp : MovePicker) : result (Move * MovePicker) :=
  match n with
  | O => OutOfBounds
  | S n' =>
      r <- pick_move_from_list_reading stray mp ;;
      if negb (fst r =? MOVE_NONE) then Ret r
      else
        nx <- next_phase (snd r) ;;
        match nx with
        | inl out => Ret out
        | inr mp' => get_next_move_loop_reading stray n' mp'
        end
  end.

Definition get_next_move_reading (stray : MovegenPhase) (mp : MovePicker)
  : result (Move * MovePicker) :=
  get_next_move_loop_reading stray
    (Z.to_nat (Z.of_nat (length (PhaseTable G)) - phaseIndex mp)) mp.

(** *** The lock-taking variant *)

Inductive Lock : Type := Free | Held.

Definition lock_grab (l : Lock) : Lock := Held.
Definition lock_release (l : Lock) : Lock := Free.

(** [get_next_move(Lock&)] *)
Definition get_next_move_locked (lock : Lock) (mp : MovePicker)
  : result (Move * MovePicker * Lock) :=
  let lock := lock_grab lock in
  if finished mp then
    let lock := lock_release lock in
    Ret (MOVE_NONE, mp, lock)
  else
    r <- get_next_move mp ;;
    let m := fst r in
    let mp := if m =? MOVE_NONE then with_finished (snd r) true else snd r in
    let lock := lock_release lock in
    Ret (m, mp, lock).

End Picker.

(** *** The second [find_best_index] *)

Section Squares.

Context {X : Chess}.

(** [bit_is_set] and [set_bit] of the bitboard header; [bit_is_set] as the
    test [if (!bit_is_set(...))] makes of it. *)
Variable bit_is_set : Bitboard -> Square -> bool.
Variable set_bit : Bitboard -> Square -> Bitboard.

(** The loop of [find_best_index(Bitboard* squares, int values[])], with
    [*squares] and [values] as the passes leave them. *)
Fixpoint find_best_squares_loop (mv : list MoveStack) (n : nat)
    (i bestScore bestIndex : Z) (squares : Bitboard) (values : list Z)
  : result (Z * Bitboard * list Z) :=
  match n with
  | O => Ret (bestIndex, squares, values)
  | S n' =>
      e <- read mv i ;;
      let to := move_to (move e) in
      sv <- (if bit_is_set squares to then Ret (squares, values)
             else
               (* Init at first use *)
               vs <- write values to 0 ;;
               Ret (set_bit squares to, vs)) ;;
      v <- read (snd sv) to ;;
      let hs := score e - v in
      if hs >? bestScore
      then find_best_squares_loop mv n' (i + 1) hs i (fst sv) (snd sv)
      else find_best_squares_loop mv n' (i + 1) bestScore bestIndex
             (fst sv) (snd sv)
  end.

(** [find_best_index(Bitboard* squares, int values[])]: the index returned,
    [*squares] and [values]. *)
Definition find_best_index_squares (mp : MovePicker) (squares : Bitboard)
    (values : list Z) : result (Z * Bitboard * list Z) :=
  r <- find_best_squares_loop (moves mp)
         (Z.to_nat (numOfMoves mp - movesPicked mp))
         (movesPicked mp) (-10000000) (-1) squares values ;;
  let bestIndex := fst (fst r) in
  if bestIndex =? -1 then Ret r
  else
    (* Raise value of the picked square *)
    e <- read (moves mp) bestIndex ;;
    let to := move_to (move e) in
    v <- read (snd r) to ;;
    vs <- write (snd r) to (v + 2816) ;;
    Ret (bestIndex, snd (fst r), vs).

End Squares.

End MovePick.

(** ** Thread pool and split points (thread source, [ucioption.cpp]) *)

Module Threads.

Definition Value := Z.
Definition Move := Z.
Definition Depth := Z.

(** Pointers: a [Thread*] is the thread's place in the pool vector, a
    [SplitPoint*] the owning thread's place and the slot in its
    [splitPoints] array, a [Position*], [Stack*] or [MovePicker*] an
    address. *)
Definition ThreadPtr := Z.
Definition SplitPointPtr := (Z * Z)%type.
Definition Addr := Z.

Definition two64 : Z := 2 ^ 64.

(** [1ULL << n] *)
Definition bit (n : Z) : Z := Z.shiftl 1 n mod two64.

Record SplitPoint : Type := {
  masterThread : ThreadPtr;
  parentSplitPoint : option SplitPointPtr;
  slavesMask : Z;
  sp_depth : Depth;
  bestValue : Value;
  bestMove : Move;
  threatMove : Move;
  alpha : Value;
  beta : Value;
  nodeType : Z;
  cutNode : bool;
  movePicker : Addr;
  moveCount : Z;
  sp_pos : Addr;
  nodes : Z;
  cutoff : bool;
  sp_ss : Addr
}.

Record Thread : Type := {
  searching : bool;
  maxPly : Z;
  splitPointsSize : Z;
  splitPoints : list SplitPoint;
  activeSplitPoint : option SplitPointPtr;
  activePosition : option Addr;
  idx : Z
}.

(** The global [Threads] together with the node counters of the positions
    that [split] reaches through [Position&]. *)
Record World : Type := {
  threads : list Thread;
  maxThreadsPerSplitPoint : Z;
  minimumSplitDepth : Depth;
  nodes_searched : Addr -> Z
}.

Definition with_threads (w : World) (v : list Thread) : World :=
  {| threads := v; maxThreadsPerSplitPoint := maxThreadsPerSplitPoint w;
     minimumSplitDepth := minimumSplitDepth w;
     nodes_searched := nodes_searched w |}.

(** [pos.set_nodes_searched(n)] for the position at address [a] *)
Definition set_nodes_searched (w : World) (a : Addr) (n : Z) : World :=
  {| threads := threads w; maxThreadsPerSplitPoint := maxThreadsPerSplitPoint w;
     minimumSplitDepth := minimumSplitDepth w;
     nodes_searched := fun b => if b =? a then n else nodes_searched w b |}.

Definition with_slavesMask (sp : SplitPoint) (v : Z) : SplitPoint :=
  {| masterThread := masterThread sp; parentSplitPoint := parentSplitPoint sp;
     slavesMask := v; sp_depth := sp_depth sp; bestValue := bestValue sp;
     bestMove := bestMove sp; threatMove := threatMove sp; alpha := alpha sp;
     beta := beta sp; nodeType := nodeType sp; cutNode := cutNode sp;
     movePicker := movePicker sp; moveCount := moveCount sp;
     sp_pos := sp_pos sp; nodes := nodes sp; cutoff := cutoff sp;
     sp_ss := sp_ss sp |}.

(** [Thread::is_available_to] *)
Definition is_available_to (th master : Thread) : result bool :=
  if searching th then Ret false
  else
    (* Make a local copy *)
    let size := splitPointsSize th in
    if size =? 0 then Ret true
    else
      sp <- read (splitPoints th) (size - 1) ;;
      Ret (negb (Z.land (slavesMask sp) (bit (idx master)) =? 0)).

(** [ThreadPool::available_slave]: the first thread of the pool that is
    available to [master], as its place in the vector. *)
Fixpoint available_slave_from (ths : list Thread) (i : Z) (master : Thread)
  : result (option ThreadPtr) :=
  match ths with
  | [] => Ret None
  | th :: rest =>
      b <- is_available_to th master ;;
      if b then Ret (Some i) else available_slave_from rest (i + 1) master
  end.

Definition available_slave (w : World) (master : Thread)
  : result (option ThreadPtr) :=
  available_slave_from (threads w) 0 master.

Definition idle_threads (w : World) : nat :=
  length (filter (fun th => negb (searching th)) (threads w)).

Section Split.

(** [Thread::idle_loop], defined with the search: what the world looks like
    when the call made by thread [self] returns. *)
Variable idle_loop : ThreadPtr -> World -> World.

(** The recruiting loop of [split]:

      while (   (slave = Threads.available_slave(this)) != nullptr
             && ++slavesCnt <= Threads.maxThreadsPerSplitPoint && !Fake)

    A pass sets [searching] on a thread that was idle, so [n] counts the idle
    threads; with none left [available_slave] returns [nullptr]. *)
Fixpoint recruit (Fake : bool) (self : ThreadPtr) (k : Z) (n : nat)
    (slavesCnt : Z) (w : World) : result (Z * World) :=
  match n with
  | O => Ret (slavesCnt, w)
  | S n' =>
      me <- read (threads w) self ;;
      found <- available_slave w me ;;
      match found with
      | None => Ret (slavesCnt, w)
      | Some s =>
          let slavesCnt := slavesCnt + 1 in
          if (slavesCnt <=? maxThreadsPerSplitPoint w) && negb Fake then
            slave <- read (threads w) s ;;
            sp <- read (splitPoints me) k ;;
            sps <- write (splitPoints me) k
                     (with_slavesMask sp
                        (Z.lor (slavesMask sp) (bit (idx slave)))) ;;
            ths <- write (threads w) self
                     {| searching := searching me; maxPly := maxPly me;
                        splitPointsSize := splitPointsSize me;
                        splitPoints := sps;
                        activeSplitPoint := activeSplitPoint me;
                        activePosition := activePosition me; idx := idx me |} ;;
            slave <- read ths s ;;
            ths <- write ths s
                     {| searching := true; (* Slave leaves idle_loop() *)
                        maxPly := maxPly slave;
                        splitPointsSize := splitPointsSize slave;
                        splitPoints := splitPoints slave;
                        activeSplitPoint := Some (self, k);
                        activePosition := activePosition slave;
                        idx := idx slave |} ;;
            recruit Fake self k n' slavesCnt (with_threads w ths)
          else Ret (slavesCnt, w)
      end
  end.

(** [Thread::split<Fake>], called on the thread at place [self].  The
    out-parameters [*bestValue] and [*bestMove] are passed in and returned
    last. *)
Definition split (Fake : bool) (self : ThreadPtr) (w : World)
    (pos : Addr) (ss : Addr) (alpha0 beta0 : Value)
    (bestValue0 : Value) (bestMove0 : Move) (depth0 : Depth)
    (threatMove0 : Move) (moveCount0 : Z) (movePicker0 : Addr)
    (nodeType0 : Z) (cutNode0 : bool) : result (World * Value * Move) :=
  me <- read (threads w) self ;;
  (* Pick the next available split point from the split point stack *)
  let k := splitPointsSize me in
  sps <- write (splitPoints me) k
           {| masterThread := self;
              parentSplitPoint := activeSplitPoint me;
              slavesMask := bit (idx me);
              sp_depth := depth0;
              bestValue := bestValue0;
              bestMove := bestMove0;
              threatMove := threatMove0;
              alpha := alpha0;
              beta := beta0;
              nodeType := nodeType0;
              cutNode := cutNode0;
              movePicker := movePicker0;
              moveCount := moveCount0;
              sp_pos := pos;
              nodes := 0;
              cutoff := false;
              sp_ss := ss |} ;;
  ths <- write (threads w) self
           {| searching := searching me; maxPly := maxPly me;
              splitPointsSize := splitPointsSize me + 1;
              splitPoints := sps;
              activeSplitPoint := Some (self, k);
              activePosition := None; idx := idx me |} ;;
  let w := with_threads w ths in
  r <- recruit Fake self k (idle_threads w) 1 w ;;
  let slavesCnt := fst r in
  let w := snd r in
  let w := if (slavesCnt >? 1) || Fake then idle_loop self w else w in
  me <- read (threads w) self ;;
  sp <- read (splitPoints me) k ;;
  ths <- write (threads w) self
           {| searching := true; maxPly := maxPly me;
              splitPointsSize := splitPointsSize me - 1;
              splitPoints := splitPoints me;
              activeSplitPoint := parentSplitPoint sp;
              activePosition := Some pos; idx := idx me |} ;;
  let w := with_threads w ths in
  let w := set_nodes_searched w pos (nodes_searched w pos + nodes sp) in
  Ret (w, bestValue sp, bestMove sp).

End Split.

(** *** Options *)

(** A [UCI::Option] of type "spin"; [currentValue] holds the text of an
    integer ([std::to_string], read back by [stoi]), kept here as that
    integer. *)
Record SpinOption : Type := {
  currentValue : Z;
  opt_min : Z;
  opt_max : Z
}.

(** The keys of [Options] whose [on_change] is [on_threads]. *)
Inductive OptionName : Type :=
| Min_Split_Depth               (* "Min Split Depth" *)
| Max_Threads_per_Split_Point   (* "Max Threads per Split Point" *)
| Threads_.                     (* "Threads" *)

Definition OptionsMap := OptionName -> SpinOption.

Definition OptionName_eqb (a b : OptionName) : bool :=
  match a, b with
  | Min_Split_Depth, Min_Split_Depth => true
  | Max_Threads_per_Split_Point, Max_Threads_per_Split_Point => true
  | Threads_, Threads_ => true
  | _, _ => false
  end.

(** [Option::Option(int v, int minv, int maxv, Fn* f)] *)
Definition Option_spin (v minv maxv : Z) : SpinOption :=
  {| currentValue := v; opt_min := minv; opt_max := maxv |}.

Definition wrap_int (x : Z) : Z := (x + 2 ^ 31) mod 2 ^ 32 - 2 ^ 31.

Section ReadOptions.

(** [ONE_PLY] of [enum Depth], [MAX_THREADS], and the storage a new [Thread]
    is built in. *)
Variable ONE_PLY : Z.
Variable MAX_THREADS : Z.
Variable raw_splitPoints : list SplitPoint.

(** The three entries of [UCI::init] read by the pool. *)
Definition init : OptionsMap :=
  fun name =>
    match name with
    | Min_Split_Depth => Option_spin 0 0 12
    | Max_Threads_per_Split_Point => Option_spin 5 4 8
    | Threads_ => Option_spin 1 1 MAX_THREADS
    end.

(** [Thread::Thread()] *)
Definition Thread_new (pool_size : Z) : Thread :=
  {| searching := false; maxPly := 0; splitPointsSize := 0;
     splitPoints := raw_splitPoints;
     activeSplitPoint := None; activePosition := None;
     idx := pool_size |}.

(** [while (size() < requested) push_back(new_thread<Thread>())] *)
Fixpoint grow (n : nat) (ths : list Thread) : list Thread :=
  match n with
  | O => ths
  | S n' => grow n' (ths ++ [Thread_new (Z.of_nat (length ths))])
  end.

(** [ThreadPool::read_uci_options] *)
Definition read_uci_options (o : OptionsMap) (w : World) : World :=
  let maxThreads := currentValue (o Max_Threads_per_Split_Point) in
  let msd := wrap_int (currentValue (o Min_Split_Depth) * ONE_PLY) in
  let requested := currentValue (o Threads_) mod two64 in
  (* Value 0 has a special meaning *)
  let msd :=
    if msd =? 0 then wrap_int ((if requested <? 8 then 4 else 7) * ONE_PLY)
    else Z.max (wrap_int (4 * ONE_PLY)) msd in
  let size := Z.of_nat (length (threads w)) in
  let ths :=
    if size <? requested then grow (Z.to_nat (requested - size)) (threads w)
    else firstn (Z.to_nat requested) (threads w) in
  {| threads := ths; maxThreadsPerSplitPoint := maxThreads;
     minimumSplitDepth := msd; nodes_searched := nodes_searched w |}.

(** [Option::operator=] on one of these spin options; [v] is [stoi] of the
    assigned text.  Outside [min, max] the assignment returns at once;
    otherwise it stores the value and calls [on_threads]. *)
Definition assign (name : OptionName) (v : Z) (st : OptionsMap * World)
  : OptionsMap * World :=
  let o := fst st name in
  if (v <? opt_min o) || (v >? opt_max o) then st
  else
    let om := fun n =>
      if OptionName_eqb n name
      then {| currentValue := v; opt_min := opt_min o; opt_max := opt_max o |}
      else fst st n in
    (om, read_uci_options om (snd st)).

(** [ThreadPool::init] after [UCI::init]: the main thread is pushed, then
    the options are read. *)
Definition pool_init (nodes0 : Addr -> Z) : OptionsMap * World :=
  (init,
   read_uci_options init
     {| threads := [Thread_new 0]; maxThreadsPerSplitPoint := 0;
        minimumSplitDepth := 0; nodes_searched := nodes0 |}).

End ReadOptions.

(** *** Cutoffs *)

(** [*sp] for a [SplitPoint*] *)
Definition deref (w : World) (p : SplitPointPtr) : result SplitPoint :=
  th <- read (threads w) (fst p) ;;
  read (splitPoints th) (snd p).

(** Every [SplitPoint*] that points into the pool. *)
Definition all_slots (w : World) : list SplitPointPtr :=
  flat_map
    (fun i =>
       map (fun j => (Z.of_nat i, Z.of_nat j))
         (seq 0 (length (splitPoints (nth i (threads w)
                                        {| searching := false; maxPly := 0;
                                           splitPointsSize := 0;
                                           splitPoints := [];
                                           activeSplitPoint := None;
                                           activePosition := None;
                                           idx := 0 |})))))
    (seq 0 (length (threads w))).

(** The loop of [cutoff_occurred]:

      for (sp = activeSplitPoint; sp; sp = sp->parentSplitPoint)
          if (sp->cutoff) return true;
      return false;

    [n] bounds the split points still to be visited for the first time: a
    walk that has made as many steps as the pool has split points, plus
    one, is back on a split point it has seen and goes round forever. *)
Fixpoint cutoff_walk (w : World) (n : nat) (sp : option SplitPointPtr)
  : result bool :=
  match sp with
  | None => Ret false
  | Some p =>
      match n with
      | O => Hang
      | S n' =>
          s <- deref w p ;;
          if cutoff s then Ret true
          else cutoff_walk w n' (parentSplitPoint s)
      end
  end.

(** [Thread::cutoff_occurred] *)
Definition cutoff_occurred (w : World) (th : Thread) : result bool :=
  cutoff_walk w (S (length (all_slots w))) (activeSplitPoint th).

End Threads.

(** ** UCI options ([ucioption.cpp]) *)

Module UCI.

Import String.StringSyntax.
Local Open Scope string_scope.

Definition string := String.string.

Section Compare.

(** [tolower] of [<cctype>], applied to a [char]. *)
Variable tolower : Ascii.ascii -> Z.

(** [CaseInsensitiveLess::operator()]: [std::lexicographical_compare] of the
    two strings with [tolower(c1) < tolower(c2)] as the comparison. *)
Fixpoint CaseInsensitiveLess (s1 s2 : string) : bool :=
  match s1, s2 with
  | _, String.EmptyString => false
  | String.EmptyString, String.String _ _ => true
  | String.String c1 r1, String.String c2 r2 =>
      if tolower c1 <? tolower c2 then true
      else if tolower c2 <? tolower c1 then false
      else CaseInsensitiveLess r1 r2
  end.

End Compare.

(** The 'on change' actions. *)
Inductive Fn : Type :=
| on_logger | on_eval | on_threads | on_hash_size | on_clear_hash.

Record Option : Type := {
  defaultValue : string;
  currentValue : string;
  type : string;
  min : Z;
  max : Z;
  idx : Z;
  on_change : option Fn
}.

(** A call that either returns or leaves by the exception [std::stoi]
    throws. *)
Inductive outcome (A : Type) : Type :=
| Done (a : A)
| Throws.

Arguments Done {A} a.
Arguments Throws {A}.

Section Options.

(** [std::stoi] ([None]: it throws) and [std::to_string]. *)
Variable stoi : string -> option Z.
Variable to_string : Z -> string.

(** The four constructors; [size] is [Options.size()]. *)
Definition Option_string (v : string) (f : option Fn) (size : Z) : Option :=
  {| defaultValue := v; currentValue := v; type := "string";
     min := 0; max := 0; idx := size; on_change := f |}.

Definition Option_check (v : bool) (f : option Fn) (size : Z) : Option :=
  {| defaultValue := if v then "true" else "false";
     currentValue := if v then "true" else "false"; type := "check";
     min := 0; max := 0; idx := size; on_change := f |}.

Definition Option_button (f : option Fn) (size : Z) : Option :=
  {| defaultValue := String.EmptyString; currentValue := String.EmptyString;
     type := "button"; min := 0; max := 0; idx := size; on_change := f |}.

Definition Option_spin (v minv maxv : Z) (f : option Fn) (size : Z) : Option :=
  {| defaultValue := to_string v; currentValue := to_string v; type := "spin";
     min := minv; max := maxv; idx := size; on_change := f |}.

(** [Option::operator int()] *)
Definition to_int (o : Option) : outcome Z :=
  if String.eqb (type o) "spin" then
    match stoi (currentValue o) with
    | Some n => Done n
    | None => Throws
    end
  else Done (if String.eqb (currentValue o) "true" then 1 else 0).

Definition with_currentValue (o : Option) (v : string) : Option :=
  {| defaultValue := defaultValue o; currentValue := v; type := type o;
     min := min o; max := max o; idx := idx o; on_change := on_change o |}.

(** [Option::operator=(const string& v)]: the option after the assignment,
    and the action it calls, if any. *)
Definition assign (o : Option) (v : string) : outcome (Option * option Fn) :=
  let accepted :=
    let o' := if negb (String.eqb (type o) "button")
              then with_currentValue o v else o in
    Done (o', on_change o) in
  if negb (String.eqb (type o) "button") && String.eqb v String.EmptyString
  then Done (o, None)
  else if String.eqb (type o) "check" && negb (String.eqb v "true")
          && negb (String.eqb v "false")
  then Done (o, None)
  else if String.eqb (type o) "spin" then
    match stoi v with
    | None => Throws
    | Some n =>
        if (n <? min o) || (n >? max o) then Done (o, None) else accepted
    end
  else accepted.

(** The map [OptionsMap], as the sequence of its entries from [begin()]
    to [end()]. *)
Definition OptionsMap := list (string * Option).

(** [std::find_if(om.begin(), om.end(), ...)] with the test
    [p.second.idx == idx]; [None] is [om.end()]. *)
Fixpoint find_idx (om : OptionsMap) (i : Z) : option (string * Option) :=
  match om with
  | [] => None
  | p :: rest => if idx (snd p) =? i then Some p else find_idx rest i
  end.

Definition newline : string :=
  String.String (Ascii.ascii_of_nat 10) String.EmptyString.

Local Infix "+++" := String.append (at level 60, right associativity).

(** What one pass of the loop of [operator<<] writes for the entry [it];
    the stream writes an [int] as [std::to_string] does. *)
Definition option_line (it : string * Option) : string :=
  let o := snd it in
  newline +++ "option name " +++ fst it +++ " type " +++ type o
  +++ (if negb (String.eqb (type o) "button")
       then " default " +++ defaultValue o else String.EmptyString)
  +++ (if String.eqb (type o) "spin"
       then " min " +++ to_string (min o) +++ " max " +++ to_string (max o)
       else String.EmptyString).

(** [for (size_t idx = 0; idx < om.size(); idx++)]; [os] is the text written
    to the stream, and a pass that finds [om.end()] reads through it. *)
Fixpoint print_loop (om : OptionsMap) (n : nat) (i : Z) (os : string)
  : result string :=
  match n with
  | O => Ret os
  | S n' =>
      match find_idx om i with
      | None => OutOfBounds
      | Some it => print_loop om n' (i + 1) (os +++ option_line it)
      end
  end.

(** [operator<<(std::ostream&, const OptionsMap&)] *)
Definition operator_out (os : string) (om : OptionsMap) : result string :=
  print_loop om (length om) 0 os.

End Options.

End UCI.

(** ** The material table ([material.cpp]) *)

Module Material.

Definition Value := Z.
Definition Key := Z.
Definition Phase := Z.
Definition Score := Z.
Definition Bitboard := Z.
Definition PieceType := Z.

Inductive Color : Type := WHITE | BLACK.

(** [const Color Them = (Us == WHITE ? BLACK : WHITE)] *)
Definition Them (Us : Color) : Color :=
  match Us with WHITE => BLACK | BLACK => WHITE end.

(** An array [T a[COLOR_NB]], read and written at [WHITE] and [BLACK]. *)
Definition at_color {A : Type} (a : A * A) (c : Color) : A :=
  match c with WHITE => fst a | BLACK => snd a end.

Definition set_color {A : Type} (a : A * A) (c : Color) (v : A) : A * A :=
  match c with WHITE => (v, snd a) | BLACK => (fst a, v) end.

(** The enumerators of [PieceType] that index the tables of this file,
    numbered as the column comments of the tables and the initialiser of
    [pieceCount] order them: pair, pawn, knight, bishop, rook, queen. *)
Definition NO_PIECE_TYPE : PieceType := 0.
Definition PAWN : PieceType := 1.
Definition KNIGHT : PieceType := 2.
Definition BISHOP : PieceType := 3.
Definition ROOK : PieceType := 4.
Definition QUEEN : PieceType := 5.

(** What [material.cpp] uses from the headers it includes. *)
Class Board : Type := {
  Position : Type;
  Endgames : Type;
  (* the [EndgameBase<Value>] and [EndgameBase<ScaleFactor>] objects that
     [Endgames] holds *)
  EndgameValue : Type;
  EndgameScale : Type;
  PIECE_TYPE_NB : Z;
  VALUE_ZERO : Value;
  KnightValueMg : Value;
  BishopValueMg : Value;
  RookValueMg : Value;
  QueenValueMg : Value;
  SCALE_FACTOR_NORMAL : Z;
  PHASE_ENDGAME : Phase;
  PHASE_MIDGAME : Phase;
  make_score : Z -> Z -> Score;
  material_key : Position -> Key;
  count : Position -> PieceType -> Color -> Z;
  non_pawn_material : Position -> Color -> Value;
  pieces : Position -> PieceType -> Bitboard;
  side_to_move : Position -> Color;
  (* [endgames.probe(key, &p)]: the object stored for [key], if any *)
  endgames_value : Endgames -> Key -> option EndgameValue;
  endgames_scale : Endgames -> Key -> option EndgameScale;
  color : EndgameScale -> Color;
  (* the slot of a [Table] that [entries[key]] points to *)
  index : Key -> Z
}.

Section Probe.

Context {B : Board}.

(** *** Constants of the file *)

Definition MidgameLimit : Value := 15581.
Definition EndgameLimit : Value := 3998.

(** [const int NoPawnsSF[4] = { 6, 12, 32 }] *)
Definition NoPawnsSF : list Z := [6; 12; 32; 0].

Definition RedundantQueen : Value := 320.
Definition RedundantRook : Value := 554.

Definition LinearCoefficients : list Z := [1617; -162; -1172; -190; 105; 26].

(** A row [int r[PIECE_TYPE_NB]] with the leading entries initialised. *)
Definition row (l : list Z) : list Z :=
  l ++ repeat 0 (Z.to_nat PIECE_TYPE_NB - length l).

Definition QuadraticCoefficientsSameColor : list (list Z) :=
  [ row [7];
    row [39; 2];
    row [35; 271; -4];
    row [7; 105; 4; 7];
    row [-27; -2; 46; 100; 56];
    row [58; 29; 83; 148; -3; -25] ].

Definition QuadraticCoefficientsOppositeColor : list (list Z) :=
  [ row [41];
    row [37; 41];
    row [10; 62; 41];
    row [57; 64; 39; 41];
    row [50; 40; 23; -22; 41];
    row [106; 101; 3; 151; 171; 41] ].

(** The endgame objects an entry can point to: the file's own, indexed by
    colour, and those found in [Endgames]. *)
Inductive ValueFn : Type :=
| EvaluateKmmKm (c : Color)
| EvaluateKXK (c : Color)
| StoredValue (f : EndgameValue).

Inductive ScaleFn : Type :=
| ScaleKBPsK (c : Color)
| ScaleKQKRPs (c : Color)
| ScaleKPsK (c : Color)
| ScaleKPKP (c : Color)
| StoredScale (f : EndgameScale).

(** *** Material distributions *)

Definition is_KXK (Us : Color) (pos : Position) : bool :=
  (count pos PAWN (Them Us) =? 0)
  && (non_pawn_material pos (Them Us) =? VALUE_ZERO)
  && (RookValueMg <=? non_pawn_material pos Us).

Definition is_KBPsKs (Us : Color) (pos : Position) : bool :=
  (non_pawn_material pos Us =? BishopValueMg)
  && (count pos BISHOP Us =? 1)
  && (1 <=? count pos PAWN Us).

Definition is_KQKRPs (Us : Color) (pos : Position) : bool :=
  (count pos PAWN Us =? 0)
  && (non_pawn_material pos Us =? QueenValueMg)
  && (count pos QUEEN Us =? 1)
  && (count pos ROOK (Them Us) =? 1)
  && (1 <=? count pos PAWN (Them Us)).

(** *** [imbalance] *)

(** [for (pt2 = NO_PIECE_TYPE; pt2 <= pt1; pt2++) v += ...]; [n] counts the
    passes left. *)
Fixpoint imbalance_inner (us them : list Z) (pt1 : PieceType) (n : nat)
    (pt2 : PieceType) (v : Z) : result Z :=
  match n with
  | O => Ret v
  | S n' =>
      rs <- read QuadraticCoefficientsSameColor pt1 ;;
      qs <- read rs pt2 ;;
      cu <- read us pt2 ;;
      ro <- read QuadraticCoefficientsOppositeColor pt1 ;;
      qo <- read ro pt2 ;;
      ct <- read them pt2 ;;
      imbalance_inner us them pt1 n' (pt2 + 1) (v + (qs * cu + qo * ct))
  end.

(** [for (pt1 = NO_PIECE_TYPE; pt1 <= QUEEN; pt1++)] *)
Fixpoint imbalance_outer (us them : list Z) (n : nat) (pt1 : PieceType)
    (value : Z) : result Z :=
  match n with
  | O => Ret value
  | S n' =>
      pc <- read us pt1 ;;
      if pc =? 0 then imbalance_outer us them n' (pt1 + 1) value
      else
        l <- read LinearCoefficients pt1 ;;
        v <- imbalance_inner us them pt1
               (Z.to_nat (pt1 + 1 - NO_PIECE_TYPE)) NO_PIECE_TYPE l ;;
        imbalance_outer us them n' (pt1 + 1) (value + pc * v)
  end.

(** [imbalance<Us>(pieceCount)] *)
Definition imbalance (Us : Color) (pieceCount : list Z * list Z) : result Z :=
  let us := at_color pieceCount Us in
  let them := at_color pieceCount (Them Us) in
  r <- read us ROOK ;;
  value <- (if r >? 0
            then q <- read us QUEEN ;;
                 Ret (0 - (RedundantRook * (r - 1) + RedundantQueen * q))
            else Ret 0) ;;
  imbalance_outer us them (Z.to_nat (QUEEN + 1 - NO_PIECE_TYPE))
    NO_PIECE_TYPE value.

(** *** Entries and the table *)

Record Entry : Type := {
  key : Key;
  value : Z;                                       (* int16_t *)
  factor : Z * Z;                                  (* uint8_t [COLOR_NB] *)
  evaluationFunction : option ValueFn;
  scalingFunction : option ScaleFn * option ScaleFn;
  spaceWeight : Score;
  gamePhase : Phase
}.

Definition with_value (e : Entry) (v : Z) : Entry :=
  {| key := key e; value := v; factor := factor e;
     evaluationFunction := evaluationFunction e;
     scalingFunction := scalingFunction e; spaceWeight := spaceWeight e;
     gamePhase := gamePhase e |}.

Definition with_factor (e : Entry) (v : Z * Z) : Entry :=
  {| key := key e; value := value e; factor := v;
     evaluationFunction := evaluationFunction e;
     scalingFunction := scalingFunction e; spaceWeight := spaceWeight e;
     gamePhase := gamePhase e |}.

Definition with_evaluationFunction (e : Entry) (v : option ValueFn) : Entry :=
  {| key := key e; value := value e; factor := factor e;
     evaluationFunction := v;
     scalingFunction := scalingFunction e; spaceWeight := spaceWeight e;
     gamePhase := gamePhase e |}.

Definition with_scalingFunction (e : Entry)
    (v : option ScaleFn * option ScaleFn) : Entry :=
  {| key := key e; value := value e; factor := factor e;
     evaluationFunction := evaluationFunction e;
     scalingFunction := v; spaceWeight := spaceWeight e;
     gamePhase := gamePhase e |}.

Definition with_spaceWeight (e : Entry) (v : Score) : Entry :=
  {| key := key e; value := value e; factor := factor e;
     evaluationFunction := evaluationFunction e;
     scalingFunction := scalingFunction e; spaceWeight := v;
     gamePhase := gamePhase e |}.

(** [e->scalingFunction[c] = &f] *)
Definition set_scaling (e : Entry) (c : Color) (f : ScaleFn) : Entry :=
  with_scalingFunction e (set_color (scalingFunction e) c (Some f)).

(** A [Table]: the entry held by each slot.  A pointer to an entry is the
    number of its slot. *)
Definition Table := Z -> Entry.

Definition store (t : Table) (i : Z) (e : Entry) : Table :=
  fun j => if j =? i then e else t j.

Definition uint8 (x : Z) : Z := x mod 2 ^ 8.
Definition int16 (x : Z) : Z := (x + 2 ^ 15) mod 2 ^ 16 - 2 ^ 15.

(** *** [game_phase] *)

Definition game_phase (pos : Position) : Phase :=
  let npm := non_pawn_material pos WHITE + non_pawn_material pos BLACK in
  if MidgameLimit <=? npm then PHASE_MIDGAME
  else if npm <=? EndgameLimit then PHASE_ENDGAME
  else Z.quot ((npm - EndgameLimit) * 128) (MidgameLimit - EndgameLimit).

(** *** [probe] *)

(** The initialiser of [pieceCount]. *)
Definition pieceCount_of (pos : Position) : list Z * list Z :=
  (row [ (if count pos BISHOP WHITE >? 1 then 1 else 0); count pos PAWN WHITE;
         count pos KNIGHT WHITE; count pos BISHOP WHITE;
         count pos ROOK WHITE; count pos QUEEN WHITE ],
   row [ (if count pos BISHOP BLACK >? 1 then 1 else 0); count pos PAWN BLACK;
         count pos KNIGHT BLACK; count pos BISHOP BLACK;
         count pos ROOK BLACK; count pos QUEEN BLACK ]).

(** The blocks of [probe] that follow the search for a stored scaling
    function, in the order of the source; each takes the entry [*e] as the
    blocks before it left it. *)

(** Lines 204 to 241: the generic scaling functions. *)
Definition generic_scaling (pos : Position) (e : Entry) : Entry :=
  let e := if is_KBPsKs WHITE pos
           then set_scaling e WHITE (ScaleKBPsK WHITE) else e in
  let e := if is_KBPsKs BLACK pos
           then set_scaling e BLACK (ScaleKBPsK BLACK) else e in
  let e := if is_KQKRPs WHITE pos
           then set_scaling e WHITE (ScaleKQKRPs WHITE)
           else if is_KQKRPs BLACK pos
           then set_scaling e BLACK (ScaleKQKRPs BLACK) else e in
  let npm_w := non_pawn_material pos WHITE in
  let npm_b := non_pawn_material pos BLACK in
  if npm_w + npm_b =? VALUE_ZERO then
    if count pos PAWN BLACK =? 0
    then set_scaling e WHITE (ScaleKPsK WHITE)
    else if count pos PAWN WHITE =? 0
    then set_scaling e BLACK (ScaleKPsK BLACK)
    else if (count pos PAWN WHITE =? 1) && (count pos PAWN BLACK =? 1)
    then set_scaling (set_scaling e WHITE (ScaleKPKP WHITE))
           BLACK (ScaleKPKP BLACK)
    else e
  else e.

(** Lines 243 to 254: no pawns makes it difficult to win. *)
Definition no_pawns_factor (pos : Position) (e : Entry) : result Entry :=
  let npm_w := non_pawn_material pos WHITE in
  let npm_b := non_pawn_material pos BLACK in
  e <- (if (count pos PAWN WHITE =? 0) && (npm_w - npm_b <=? BishopValueMg)
        then
          f <- (if (npm_w =? npm_b) || (npm_w <? RookValueMg) then Ret 0
                else read NoPawnsSF (Z.min (count pos BISHOP WHITE) 2)) ;;
          Ret (with_factor e (set_color (factor e) WHITE (uint8 f)))
        else Ret e) ;;
  if (count pos PAWN BLACK =? 0) && (npm_b - npm_w <=? BishopValueMg)
  then
    f <- (if (npm_w =? npm_b) || (npm_b <? RookValueMg) then Ret 0
          else read NoPawnsSF (Z.min (count pos BISHOP BLACK) 2)) ;;
    Ret (with_factor e (set_color (factor e) BLACK (uint8 f)))
  else Ret e.

(** Lines 256 to 263: the space weight. *)
Definition space_weight (pos : Position) (e : Entry) : Entry :=
  let npm_w := non_pawn_material pos WHITE in
  let npm_b := non_pawn_material pos BLACK in
  if 2 * QueenValueMg + 4 * RookValueMg + 2 * KnightValueMg <=? npm_w + npm_b
  then
    let minorPieceCount :=
      count pos KNIGHT WHITE + count pos BISHOP WHITE
      + count pos KNIGHT BLACK + count pos BISHOP BLACK in
    with_spaceWeight e (make_score (minorPieceCount * minorPieceCount) 0)
  else e.

(** Lines 265 to 274: the material imbalance. *)
Definition material_imbalance (pos : Position) (e : Entry) : result Entry :=
  let pieceCount := pieceCount_of pos in
  w <- imbalance WHITE pieceCount ;;
  b <- imbalance BLACK pieceCount ;;
  Ret (with_value e (int16 (Z.quot (w - b) 16))).

(** [Material::probe], with the assertions compiled out.  The result is the
    pointer returned and the table as the call leaves it; [e] is the entry
    under construction, written to its slot where the function returns. *)
Definition probe (pos : Position) (entries : Table) (endgames : Endgames)
  : result (Z * Table) :=
  let k := material_key pos in
  let i := index k in
  if key (entries i) =? k then Ret (i, entries)
  else
    let done (e : Entry) : result (Z * Table) := Ret (i, store entries i e) in
    (* memset, then key, factor and gamePhase *)
    let e :=
      {| key := k; value := 0;
         factor := (uint8 SCALE_FACTOR_NORMAL, uint8 SCALE_FACTOR_NORMAL);
         evaluationFunction := None; scalingFunction := (None, None);
         spaceWeight := 0; gamePhase := game_phase pos |} in
    (* is there a suitable scaling function? *)
    let scaling (e : Entry) : result (Z * Table) :=
      match endgames_scale endgames k with
      | Some sf => done (set_scaling e (color sf) (StoredScale sf))
      | None =>
          e <- no_pawns_factor pos (generic_scaling pos e) ;;
          e <- material_imbalance pos (space_weight pos e) ;;
          done e
      end in
    match endgames_value endgames k with
    | Some f => done (with_evaluationFunction e (Some (StoredValue f)))
    | None =>
        if is_KXK WHITE pos
        then done (with_evaluationFunction e (Some (EvaluateKXK WHITE)))
        else if is_KXK BLACK pos
        then done (with_evaluationFunction e (Some (EvaluateKXK BLACK)))
        else if (pieces pos PAWN =? 0) && (pieces pos ROOK =? 0)
                && (pieces pos QUEEN =? 0)
        then
          if (count pos BISHOP WHITE + count pos KNIGHT WHITE <=? 2)
             && (count pos BISHOP BLACK + count pos KNIGHT BLACK <=? 2)
          then done (with_evaluationFunction e
                       (Some (EvaluateKmmKm (side_to_move pos))))
          else scaling e
        else scaling e
    end.

End Probe.

End Material.

(** ** Vocabulary for the statements *)

Module PickerSpec.

Import MovePick.

Section Vocabulary.

Context {X : Chess}.

(** The phases of the table row entered from index [i]: the entries after [i]
    up to and including the next [PH_STOP]. *)
Fixpoint row_from (l : list MovegenPhase) : list MovegenPhase :=
  match l with
  | [] => []
  | PH_STOP :: _ => [PH_STOP]
  | ph :: t => ph :: row_from t
  end.

Definition phase_row (i : Z) : list MovegenPhase :=
  row_from (skipn (Z.to_nat (i + 1)) (PhaseTable G)).

(** [n] successive calls of [get_next_move]: what each returned, with the
    phase index the picker was left at. *)
Fixpoint trace (n : nat) (mp : MovePicker)
  : result (list (Move * Z) * MovePicker) :=
  match n with
  | O => Ret ([], mp)
  | S n' =>
      r <- get_next_move mp ;;
      rest <- trace n' (snd r) ;;
      Ret ((fst r, phaseIndex (snd r)) :: fst rest, snd rest)
  end.

(** The same for calls whose table read is not checked. *)
Fixpoint trace_reading (stray : MovegenPhase) (n : nat) (mp : MovePicker)
  : result (list (Move * Z) * MovePicker) :=
  match n with
  | O => Ret ([], mp)
  | S n' =>
      r <- get_next_move_reading stray mp ;;
      rest <- trace_reading stray n' (snd r) ;;
      Ret ((fst r, phaseIndex (snd r)) :: fst rest, snd rest)
  end.

(** The values returned by [n] successive calls of [get_next_move(Lock&)]. *)
Fixpoint locked_calls (n : nat) (lock : Lock) (mp : MovePicker)
  : result (list Move * MovePicker * Lock) :=
  match n with
  | O => Ret ([], mp, lock)
  | S n' =>
      r <- get_next_move_locked lock mp ;;
      rest <- locked_calls n' (snd r) (snd (fst r)) ;;
      Ret (fst (fst r) :: fst (fst rest), snd (fst rest), snd rest)
  end.

(** The members a picker's constructor fixes and no later call assigns. *)
Definition same_setup (a b : MovePicker) : Prop :=
  pos b = pos a /\ pvNode b = pvNode a /\ ttMove b = ttMove a
  /\ mateKiller b = mateKiller a /\ killer1 b = killer1 a
  /\ killer2 b = killer2 a /\ depth b = depth a /\ dc b = dc a
  /\ pinned b = pinned a /\ finished b = finished a.

(** The entries of [moves] not yet drawn, and of [badCaptures] likewise. *)
Definition bucket (mp : MovePicker) : list MoveStack :=
  slice (moves mp) (movesPicked mp) (numOfMoves mp).

Definition bad_bucket (mp : MovePicker) : list MoveStack :=
  slice (badCaptures mp) (badCapturesPicked mp) (numOfBadCaptures mp).

(** [moves] seen as the drawn entries, the bucket, and the unused rest. *)
Definition layout (mp : MovePicker) (pre win post : list MoveStack) : Prop :=
  moves mp = pre ++ win ++ post
  /\ movesPicked mp = Z.of_nat (length pre)
  /\ numOfMoves mp = Z.of_nat (length pre) + Z.of_nat (length win).

Definition bad_layout (mp : MovePicker) (pre win post : list MoveStack) : Prop :=
  badCaptures mp = pre ++ win ++ post
  /\ badCapturesPicked mp = Z.of_nat (length pre)
  /\ numOfBadCaptures mp = Z.of_nat (length pre) + Z.of_nat (length win).

(** The bucket after drawing its entry [j]: the front entry takes its place. *)
Definition take_at (j : nat) (front : MoveStack) (r : list MoveStack)
  : list MoveStack :=
  match j with
  | O => r
  | S j' => replace_nth j' r front
  end.

(** [find_best_index] as a scan of the bucket, whose first entry has index
    [i]. *)
Fixpoint best_of (win : list MoveStack) (i bestScore bestIndex : Z) : Z :=
  match win with
  | [] => bestIndex
  | e :: t =>
      if score e >? bestScore then best_of t (i + 1) (score e) i
      else best_of t (i + 1) bestScore bestIndex
  end.

(** A score [find_best_index] can select. *)
Definition selectable (e : MoveStack) : Prop := -10000000 < score e.

(** How [find_best_index] ranks: no entry of the bucket scores higher. *)
Definition by_score (e : MoveStack) (win : list MoveStack) : Prop :=
  Forall (fun e' => score e' <= score e) win.

(** A capture [score_captures] moves to [badCaptures]. *)
Definition losing_move (p : Position) (m : Move) : bool := see p m <? 0.

Definition losing (p : Position) (e : MoveStack) : bool :=
  losing_move p (move e).

(** Entries as [score_captures] leaves them: in [moves], with SEE >= 0 and
    the MVV/LVA score; in [badCaptures], with SEE < 0 and SEE as score. *)
Definition scored_good (p : Position) (e : MoveStack) : Prop :=
  0 <= see p (move e) /\ score e = mvv_lva p (move e).

Definition scored_bad (p : Position) (e : MoveStack) : Prop :=
  see p (move e) < 0 /\ score e = see p (move e).

(** An entry after a scoring loop has given it the score [f] assigns. *)
Definition rescored (f : Move -> Z) (e : MoveStack) : MoveStack :=
  set_score e (f (move e)).

(** The bucket lies within [moves]. *)
Definition bucket_ok (mp : MovePicker) : Prop :=
  0 <= movesPicked mp <= numOfMoves mp
  /\ numOfMoves mp <= Z.of_nat (length (moves mp)).

Definition bad_bucket_ok (mp : MovePicker) : Prop :=
  0 <= badCapturesPicked mp <= numOfBadCaptures mp
  /\ numOfBadCaptures mp <= Z.of_nat (length (badCaptures mp)).

(** Calls that stay in a phase leave these members alone as well. *)
Definition same_phase (a b : MovePicker) : Prop :=
  same_setup a b /\ phaseIndex b = phaseIndex a
  /\ numOfMoves b = numOfMoves a
  /\ numOfBadCaptures b = numOfBadCaptures a.

(** How QCAPTURES selects after [c] draws from the bucket [win]: by best
    score for the first four draws, the front entry from then on. *)
Definition qsearch_choice (c : Z) (e : MoveStack) (win : list MoveStack)
  : Prop :=
  (c < 4 -> by_score e win) /\ (4 <= c -> hd_error win = Some e).

(** A picker with the setup of [mp] inside the main-search row from
    GOOD_CAPTURES on, whose good captures come from [goods] and whose
    [badCaptures] holds [bads]. *)
Definition in_main_row (mp : MovePicker) (goods bads : list MoveStack)
    (s : MovePicker) : Prop :=
  same_setup mp s
  /\ 2 <= phaseIndex s <= 5
  /\ slice (badCaptures s) 0 (numOfBadCaptures s) = bads
  /\ 0 <= numOfBadCaptures s <= Z.of_nat (length (badCaptures s))
  /\ (phaseIndex s = 2 -> bucket_ok s /\ incl (bucket s) goods)
  /\ (phaseIndex s = 4 -> 0 <= badCapturesPicked s <= numOfBadCaptures s).

(** What a call returned with the picker left at phase index [ph]: at 2
    (GOOD_CAPTURES) an accepted move of [goods], at 4 (BAD_CAPTURES) an
    accepted move of [bads]. *)
Definition yield_ok (mp : MovePicker) (goods bads : list MoveStack)
    (y : Move * Z) : Prop :=
  (snd y = 2 ->
     exists e, In e goods /\ fst y = move e
               /\ accept_main mp (fst y) = true)
  /\ (snd y = 4 ->
     exists e, In e bads /\ fst y = move e
               /\ accept_main mp (fst y) = true).

(** What the TT_MOVE or the MATE_KILLER step returns for the move [m]:
    [m] itself if it is a move and [move_is_legal] accepts it, or nothing. *)
Definition legal_special (mp : MovePicker) (m : Move) : bool :=
  negb (m =? MOVE_NONE) && move_is_legal (pos mp) m (pinned mp).

Definition special (mp : MovePicker) (m : Move) : list Move :=
  if legal_special mp m then [m] else [].

(** The moves [ms], each returned with the picker left at phase index [i]. *)
Definition at_phase (i : Z) (ms : list Move) : list (Move * Z) :=
  map (fun m => (m, i)) ms.

(** The captures [score_captures] keeps in [moves]. *)
Definition not_losing (p : Position) (m : Move) : bool :=
  negb (losing_move p m).

(** Moves listed so that none is followed by one that [f] scores higher. *)
Definition by_descending (f : Move -> Z) (ms : list Move) : Prop :=
  StronglySorted (fun a b => f b <= f a) ms.

End Vocabulary.

End PickerSpec.

(** ** A small concrete instance

    Positions given by the lists their generators return; a move [64 * from +
    to]; square values and piece types given by tables. *)

Module Toy.

Import MovePick.

Record ToyPosition : Type := {
  toy_check : bool;
  toy_captures : list Move;
  toy_noncaptures : list Move;
  toy_evasions : list Move;
  toy_checks : list Move;
  toy_illegal : list Move;
  toy_see : Move -> Z;
  toy_value : Square -> Z;
  toy_type : Square -> Z
}.

Definition mem (m : Move) (l : list Move) : bool := existsb (Z.eqb m) l.

#[export] Instance toy : Chess := {|
  Position := ToyPosition;
  Color := bool;
  EvalInfo := Z;
  MaterialInfo := bool;
  MOVE_NONE := 0;
  SQ_NONE := 64;
  HistoryMax := 50000;
  QueenValueMidgame := 2500;
  phase_zero := PH_TT_MOVE;
  opposite_color := negb;
  move_from := fun m => m / 64;
  move_to := fun m => m mod 64;
  move_promotion := fun _ => false;
  side_to_move := fun _ => true;
  pieces_of_color := fun _ c => if c then 255 else 65280;
  ep_square := fun _ => 64;
  has_pawn_on_7th := fun _ _ => false;
  is_check := toy_check;
  discovered_check_candidates := fun _ _ => 0;
  pinned_pieces := fun _ _ => 0;
  see := toy_see;
  midgame_value_of_piece_on := toy_value;
  type_of_piece_on := toy_type;
  piece_on := toy_type;
  square_is_empty := fun p s => toy_value p s =? 0;
  mg_pst_delta := fun _ _ => 0;
  pl_move_is_legal := fun p m _ => negb (mem m (toy_illegal p));
  move_is_legal := fun p m _ =>
    mem m (if toy_check p then toy_evasions p
           else toy_captures p ++ toy_noncaptures p)
    && negb (mem m (toy_illegal p));
  generate_captures := toy_captures;
  generate_noncaptures := toy_noncaptures;
  generate_evasions := toy_evasions;
  generate_checks := fun p _ => toy_checks p;
  move_ordering_score := fun _ _ => 0;
  attackedBy := fun e _ _ => e;
  mi := fun e => false;
  specialized_eval_exists := fun b => b
|}.

Definition blank : MoveStack := {| move := 0; score := 0 |}.

(** The storage of a picker before its constructor runs. *)
Definition raw (p : ToyPosition) : MovePicker :=
  {| pos := p; pvNode := false; ttMove := 0; mateKiller := 0; killer1 := 0;
     killer2 := 0; depth := 0; phaseIndex := 0; dc := 0; pinned := 0;
     moves := repeat blank 256; badCaptures := repeat blank 64;
     numOfMoves := 0; movesPicked := 0; numOfBadCaptures := 0;
     badCapturesPicked := 0; finished := false |}.

Definition no_killers : SearchStack :=
  {| ss_mateKiller := 0; ss_killers := fun _ => 0 |}.

(** A quiet position: two captures (e4xd5 = 28*64+35, g5xf6), three quiet
    moves; the pawn on d5 is worth 198, the knight on f6 817. *)
Definition quiet : ToyPosition :=
  {| toy_check := false;
     toy_captures := [1827; 2477];
     toy_noncaptures := [796; 861; 405];
     toy_evasions := [];
     toy_checks := [405];
     toy_illegal := [];
     toy_see := fun m => if m =? 2477 then -100 else 0;
     toy_value := fun s => if s =? 35 then 198 else if s =? 45 then 817 else 0;
     toy_type := fun s => if s =? 28 then 1 else if s =? 38 then 3 else 0 |}.

(** The same captures with nothing lost in either exchange. *)
Definition exchange : ToyPosition :=
  {| toy_check := false;
     toy_captures := [1827; 2477];
     toy_noncaptures := [796; 861; 405];
     toy_evasions := [];
     toy_checks := [405];
     toy_illegal := [];
     toy_see := fun _ => 0;
     toy_value := fun s => if s =? 35 then 198 else if s =? 45 then 817 else 0;
     toy_type := fun s => if s =? 28 then 1 else if s =? 38 then 3 else 0 |}.

(** The king on g1 is in check: it steps to h1 or f1 (6*64+7, 6*64+5), or
    the knight takes the checking piece on d5 (18*64+35). *)
Definition checked : ToyPosition :=
  {| toy_check := true;
     toy_captures := [];
     toy_noncaptures := [];
     toy_evasions := [391; 389; 1187];
     toy_checks := [];
     toy_illegal := [];
     toy_see := fun _ => 0;
     toy_value := fun s => if s =? 35 then 817 else 0;
     toy_type := fun s => if s =? 6 then 6 else if s =? 18 then 2 else 0 |}.

(** A picker in the EVASIONS phase (index 6) whose bucket holds one entry
    with the score [find_best_index] starts from. *)
Definition stuck : MovePicker :=
  {| pos := checked; pvNode := false; ttMove := 0; mateKiller := 0;
     killer1 := 0; killer2 := 0; depth := 1; phaseIndex := 6; dc := 0;
     pinned := 0;
     moves := [{| move := 391; score := -10000000 |}; blank];
     badCaptures := []; numOfMoves := 1; movesPicked := 0;
     numOfBadCaptures := 0; badCapturesPicked := 0; finished := false |}.

(** A picker with three scored entries in its bucket, one drawn before. *)
Definition scored : MovePicker :=
  {| pos := quiet; pvNode := false; ttMove := 0; mateKiller := 0;
     killer1 := 0; killer2 := 0; depth := 1; phaseIndex := 2; dc := 0;
     pinned := 0;
     moves := [{| move := 1827; score := 197 |};
               {| move := 796; score := 5 |};
               {| move := 2477; score := 814 |};
               {| move := 861; score := 814 |}; blank];
     badCaptures := []; numOfMoves := 4; movesPicked := 1;
     numOfBadCaptures := 0; badCapturesPicked := 0; finished := false |}.

(** A quiescence picker in QCAPTURES (index 8) with [k] entries drawn before
    and three in its bucket, the best-scored of them not at the front. *)
Definition in_qcaptures (k : nat) : MovePicker :=
  {| pos := quiet; pvNode := false; ttMove := 0; mateKiller := 0;
     killer1 := 0; killer2 := 0; depth := 0; phaseIndex := 8; dc := 0;
     pinned := 0;
     moves := repeat blank k
              ++ [{| move := 1827; score := 197 |};
                  {| move := 2477; score := 814 |};
                  {| move := 796; score := 5 |}; blank];
     badCaptures := []; numOfMoves := Z.of_nat k + 3;
     movesPicked := Z.of_nat k;
     numOfBadCaptures := 0; badCapturesPicked := 0; finished := false |}.

(** A main-search picker of [p] with TT move [ttm], as it stands when the
    TT_MOVE and MATE_KILLER phases are over. *)
Definition after_mate_killer (p : ToyPosition) (ttm : Move) : MovePicker :=
  with_phaseIndex (MovePicker_new (raw p) p false ttm no_killers 1 None) 1.

End Toy.

Module ThreadSpec.

Import Threads.

(** The split-point stack of a thread lies within its array. *)
Definition stack_ok (th : Thread) : Prop :=
  0 <= splitPointsSize th <= Z.of_nat (length (splitPoints th)).

(** What [split] relies on from the [idle_loop] call it makes on thread
    [self]: on return the thread's split-point stack is as high as when the
    call was made, the split point on top still has its parent link, and the
    node counter of the position that split point refers to is what it was
    (helpers search copies of it). *)
Definition idle_loop_frame (self : ThreadPtr) (w1 w2 : World) : Prop :=
  forall me1 sp1,
    aget (threads w1) self = Some me1 ->
    aget (splitPoints me1) (splitPointsSize me1 - 1) = Some sp1 ->
    nodes_searched w2 (sp_pos sp1) = nodes_searched w1 (sp_pos sp1)
    /\ exists me2 sp2,
         aget (threads w2) self = Some me2
         /\ splitPointsSize me2 = splitPointsSize me1
         /\ aget (splitPoints me2) (splitPointsSize me1 - 1) = Some sp2
         /\ parentSplitPoint sp2 = parentSplitPoint sp1.

(** A sequence of option assignments, in order. *)
Definition assign_all (ONE_PLY : Z) (raw : list SplitPoint)
    (cmds : list (OptionName * Z)) (st : OptionsMap * World)
  : OptionsMap * World :=
  fold_left (fun st c => assign ONE_PLY raw (fst c) (snd c) st) cmds st.

(** The two options hold values within the ranges [UCI::init] declares. *)
Definition in_range (MAX_THREADS : Z) (o : OptionsMap) : Prop :=
  (opt_min (o Min_Split_Depth) = 0 /\ opt_max (o Min_Split_Depth) = 12)
  /\ (opt_min (o Threads_) = 1 /\ opt_max (o Threads_) = MAX_THREADS)
  /\ 0 <= currentValue (o Min_Split_Depth) <= 12
  /\ 1 <= currentValue (o Threads_) <= MAX_THREADS.


(** What holds of the world from the moment the new split point is pushed
    at slot [k] of thread [self] until [idle_loop] is entered. *)
Definition pushed (self : ThreadPtr) (k : Z) (par : option SplitPointPtr)
    (pos : Addr) (ns : Z) (w : World) : Prop :=
  Forall stack_ok (threads w)
  /\ nodes_searched w pos = ns
  /\ exists me sp,
       aget (threads w) self = Some me
       /\ searching me = true
       /\ splitPointsSize me = k + 1
       /\ aget (splitPoints me) k = Some sp
       /\ parentSplitPoint sp = par
       /\ sp_pos sp = pos.

(** The split points met from [p] by following [parentSplitPoint] to a null
    pointer, each with the pointer that led to it. *)
Inductive chain (w : World)
  : option SplitPointPtr -> list (SplitPointPtr * SplitPoint) -> Prop :=
| chain_end : chain w None []
| chain_step (p : SplitPointPtr) (s : SplitPoint)
    (rest : list (SplitPointPtr * SplitPoint)) :
    deref w p = Ret s ->
    chain w (parentSplitPoint s) rest ->
    chain w (Some p) ((p, s) :: rest).

(** Every thread of the pool carries its place in the vector as [idx]. *)
Definition indexed (ths : list Thread) : Prop :=
  forall i th, nth_error ths i = Some th -> idx th = Z.of_nat i.

(** The thread [th] after [split] on thread [self] has booked it for the
    split point in slot [k]. *)
Definition booked (self : ThreadPtr) (k : Z) (th : Thread) : Thread :=
  {| searching := true; maxPly := maxPly th;
     splitPointsSize := splitPointsSize th; splitPoints := splitPoints th;
     activeSplitPoint := Some (self, k);
     activePosition := activePosition th; idx := idx th |}.

(** A thread with the [slavesMask] of its split point in slot [k] replaced
    and nothing else changed. *)
Definition masked (k mask : Z) (th th' : Thread) : Prop :=
  searching th' = searching th /\ maxPly th' = maxPly th
  /\ splitPointsSize th' = splitPointsSize th
  /\ activeSplitPoint th' = activeSplitPoint th
  /\ activePosition th' = activePosition th /\ idx th' = idx th
  /\ length (splitPoints th') = length (splitPoints th)
  /\ (forall j, j <> k ->
       aget (splitPoints th') j = aget (splitPoints th) j)
  /\ exists sp, aget (splitPoints th) k = Some sp
       /\ aget (splitPoints th') k = Some (with_slavesMask sp mask).

End ThreadSpec.

(** A pool of two threads: a searching master and an idle helper. *)

Module ToyThreads.

Import Threads.

Definition blank_sp : SplitPoint :=
  {| masterThread := 0; parentSplitPoint := None; slavesMask := 0;
     sp_depth := 0; bestValue := 0; bestMove := 0; threatMove := 0;
     alpha := 0; beta := 0; nodeType := 0; cutNode := false;
     movePicker := 0; moveCount := 0; sp_pos := 0; nodes := 0;
     cutoff := false; sp_ss := 0 |}.

Definition master : Thread :=
  {| searching := true; maxPly := 0; splitPointsSize := 0;
     splitPoints := repeat blank_sp 8; activeSplitPoint := None;
     activePosition := Some 500; idx := 0 |}.

Definition helper : Thread :=
  {| searching := false; maxPly := 0; splitPointsSize := 0;
     splitPoints := repeat blank_sp 8; activeSplitPoint := None;
     activePosition := None; idx := 1 |}.

Definition two_threads : World :=
  {| threads := [master; helper]; maxThreadsPerSplitPoint := 5;
     minimumSplitDepth := 8; nodes_searched := fun _ => 1000 |}.

(** The thread as its helpers leave it: the split point on top of its stack
    has collected 77 nodes and a best move, and the thread is idle. *)
Definition finish_top (th : Thread) : Thread :=
  match aget (splitPoints th) (splitPointsSize th - 1) with
  | None => th
  | Some sp =>
      let sp' :=
        {| masterThread := masterThread sp;
           parentSplitPoint := parentSplitPoint sp; slavesMask := 0;
           sp_depth := sp_depth sp; bestValue := 33; bestMove := 99;
           threatMove := threatMove sp; alpha := alpha sp; beta := beta sp;
           nodeType := nodeType sp; cutNode := cutNode sp;
           movePicker := movePicker sp; moveCount := moveCount sp + 2;
           sp_pos := sp_pos sp; nodes := nodes sp + 77; cutoff := cutoff sp;
           sp_ss := sp_ss sp |} in
      match aset (splitPoints th) (splitPointsSize th - 1) sp' with
      | None => th
      | Some sps =>
          {| searching := false; maxPly := maxPly th;
             splitPointsSize := splitPointsSize th; splitPoints := sps;
             activeSplitPoint := activeSplitPoint th;
             activePosition := None; idx := idx th |}
      end
  end.

Definition toy_idle_loop (self : ThreadPtr) (w : World) : World :=
  match aget (threads w) self with
  | None => w
  | Some me =>
      match aset (threads w) self (finish_top me) with
      | None => w
      | Some ths => with_threads w ths
      end
  end.

(** The master alone in the pool. *)
Definition alone : World :=
  {| threads := [master]; maxThreadsPerSplitPoint := 5;
     minimumSplitDepth := 8; nodes_searched := fun _ => 1000 |}.

(** A helper at work on the master's second split point, where a cutoff has
    occurred in the first. *)
Definition cut_sp : SplitPoint :=
  {| masterThread := 0; parentSplitPoint := None; slavesMask := 3;
     sp_depth := 0; bestValue := 0; bestMove := 0; threatMove := 0;
     alpha := 0; beta := 0; nodeType := 0; cutNode := false;
     movePicker := 0; moveCount := 0; sp_pos := 0; nodes := 0;
     cutoff := true; sp_ss := 0 |}.

Definition inner_sp : SplitPoint :=
  {| masterThread := 0; parentSplitPoint := Some (0, 0); slavesMask := 3;
     sp_depth := 0; bestValue := 0; bestMove := 0; threatMove := 0;
     alpha := 0; beta := 0; nodeType := 0; cutNode := false;
     movePicker := 0; moveCount := 0; sp_pos := 0; nodes := 0;
     cutoff := false; sp_ss := 0 |}.

Definition nested : World :=
  {| threads :=
       [{| searching := true; maxPly := 0; splitPointsSize := 2;
           splitPoints := [cut_sp; inner_sp; blank_sp];
           activeSplitPoint := Some (0, 1);
           activePosition := None; idx := 0 |};
        {| searching := true; maxPly := 0; splitPointsSize := 0;
           splitPoints := [blank_sp];
           activeSplitPoint := Some (0, 1);
           activePosition := None; idx := 1 |}];
     maxThreadsPerSplitPoint := 5; minimumSplitDepth := 8;
     nodes_searched := fun _ => 0 |}.

End ToyThreads.

Module OptionSpec.

Import UCI.
Import String.StringSyntax.
Local Open Scope string_scope.

(** What [CaseInsensitiveLess] looks at: the characters after [tolower]. *)
Definition lowered (tolower : Ascii.ascii -> Z) (s : string) : list Z :=
  map tolower (String.list_ascii_of_string s).

Section Sequences.

Variable stoi : string -> option Z.

(** Assignments one after the other, with the actions called on the way. *)
Fixpoint assign_each (o : Option) (vs : list string)
  : outcome (Option * list Fn) :=
  match vs with
  | [] => Done (o, [])
  | v :: vs' =>
      match assign stoi o v with
      | Throws => Throws
      | Done (o1, f) =>
          match assign_each o1 vs' with
          | Throws => Throws
          | Done (o2, fs) =>
              Done (o2, match f with Some g => g :: fs | None => fs end)
          end
      end
  end.

(** A text a spin option with the bounds of [o] takes. *)
Definition taken (o : Option) (v : string) : bool :=
  negb (String.eqb v String.EmptyString)
  && match stoi v with
     | Some n => (min o <=? n) && (n <=? max o)
     | None => false
     end.

End Sequences.

(** The text a stream holds after the lines of the entries [ps] were
    written to it one after the other. *)
Definition written (to_string : Z -> string) (os : string)
    (ps : OptionsMap) : string :=
  fold_left (fun s p => String.append s (option_line to_string p)) ps os.

(** The [idx] fields of a map, in the order of its entries. *)
Definition indices (om : OptionsMap) : list Z :=
  map (fun p => idx (snd p)) om.

(** [std::stoi] on the texts of small numbers, and [std::to_string] on
    them. *)
Definition toy_stoi (s : string) : option Z :=
  if String.eqb s "0" then Some 0
  else if String.eqb s "1" then Some 1
  else if String.eqb s "4" then Some 4
  else if String.eqb s "5" then Some 5
  else if String.eqb s "8" then Some 8
  else if String.eqb s "64" then Some 64
  else None.

Definition toy_to_string (n : Z) : string :=
  if n =? 0 then "0" else if n =? 1 then "1" else if n =? 4 then "4"
  else if n =? 5 then "5" else if n =? 8 then "8" else "64".

End OptionSpec.

Module MaterialSpec.

Import Material.

Section Mirror.

Context {B : Board}.

(** [q] shows [material.cpp] what [p] shows it with the colours exchanged:
    the counts and the non-pawn material of the two sides are swapped, the
    same piece types are on the board, and [Endgames] knows the one material
    key when it knows the other. *)
Definition mirrored (eg : Endgames) (p q : Position) : Prop :=
  (forall pt c, count q pt c = count p pt (Them c))
  /\ (forall c, non_pawn_material q c = non_pawn_material p (Them c))
  /\ (forall pt, pieces q pt = 0 <-> pieces p pt = 0)
  /\ (endgames_value eg (material_key q) = None
      <-> endgames_value eg (material_key p) = None)
  /\ (endgames_scale eg (material_key q) = None
      <-> endgames_scale eg (material_key p) = None).

(** What [imbalance] adds up, written out: [u] and [t] are the counts of
    the side [Us] and of the other side, from the bishop pair to the
    queens. *)
Definition imbalance_formula (us them : list Z) : Z :=
  let u := fun i => nth i us 0 in
  let t := fun i => nth i them 0 in
  (if u 4%nat >? 0 then 0 - (554 * (u 4%nat - 1) + 320 * u 5%nat) else 0)
  + u 0%nat * (1617 + (7 * u 0%nat + 41 * t 0%nat))
  + u 1%nat * (-162 + (39 * u 0%nat + 37 * t 0%nat)
               + (2 * u 1%nat + 41 * t 1%nat))
  + u 2%nat * (-1172 + (35 * u 0%nat + 10 * t 0%nat)
               + (271 * u 1%nat + 62 * t 1%nat)
               + (-4 * u 2%nat + 41 * t 2%nat))
  + u 3%nat * (-190 + (7 * u 0%nat + 57 * t 0%nat)
               + (105 * u 1%nat + 64 * t 1%nat)
               + (4 * u 2%nat + 39 * t 2%nat) + (7 * u 3%nat + 41 * t 3%nat))
  + u 4%nat * (105 + (-27 * u 0%nat + 50 * t 0%nat)
               + (-2 * u 1%nat + 40 * t 1%nat)
               + (46 * u 2%nat + 23 * t 2%nat)
               + (100 * u 3%nat + -22 * t 3%nat)
               + (56 * u 4%nat + 41 * t 4%nat))
  + u 5%nat * (26 + (58 * u 0%nat + 106 * t 0%nat)
               + (29 * u 1%nat + 101 * t 1%nat)
               + (83 * u 2%nat + 3 * t 2%nat)
               + (148 * u 3%nat + 151 * t 3%nat)
               + (-3 * u 4%nat + 171 * t 4%nat)
               + (-25 * u 5%nat + 41 * t 5%nat)).

(** The colour a scaling function was built for: [Endgame<E>(c)] for the
    objects of the file, [color()] for those of [Endgames]. *)
Definition scale_color (f : ScaleFn) : Color :=
  match f with
  | ScaleKBPsK c | ScaleKQKRPs c | ScaleKPsK c | ScaleKPKP c => c
  | StoredScale g => color g
  end.

(** The entry [*e] behind a pointer returned by [probe]. *)
Definition entry_at (r : Z * Table) : Entry := snd r (fst r).

End Mirror.

(** A board given by its piece counts, with the piece values, phases and
    scale factor of the engine, a table of 8192 slots and no stored
    endgames. *)
Record ToyBoard : Type := {
  toy_count : PieceType -> Color -> Z;
  toy_stm : Color
}.

Definition toy_npm (p : ToyBoard) (c : Color) : Z :=
  817 * toy_count p KNIGHT c + 836 * toy_count p BISHOP c
  + 1270 * toy_count p ROOK c + 2521 * toy_count p QUEEN c.

Definition toy_key (p : ToyBoard) : Z :=
  fold_right (fun pt k => (k * 17 + toy_count p pt WHITE) * 17
                          + toy_count p pt BLACK)
    0 [PAWN; KNIGHT; BISHOP; ROOK; QUEEN].

#[export] Instance toy_board : Board := {|
  Position := ToyBoard;
  Endgames := unit;
  EndgameValue := Empty_set;
  EndgameScale := Empty_set;
  PIECE_TYPE_NB := 8;
  VALUE_ZERO := 0;
  KnightValueMg := 817;
  BishopValueMg := 836;
  RookValueMg := 1270;
  QueenValueMg := 2521;
  SCALE_FACTOR_NORMAL := 64;
  PHASE_ENDGAME := 0;
  PHASE_MIDGAME := 128;
  make_score := fun mg eg => mg * 65536 + eg;
  material_key := toy_key;
  count := toy_count;
  non_pawn_material := toy_npm;
  pieces := fun p pt => toy_count p pt WHITE + toy_count p pt BLACK;
  side_to_move := toy_stm;
  endgames_value := fun _ _ => None;
  endgames_scale := fun _ _ => None;
  color := fun _ => WHITE;
  index := fun k => k mod 8192
|}.

(** Queen and two pawns against rook, bishop and pawn, and the same with
    the colours exchanged. *)
Definition queen_vs_rook_bishop : ToyBoard :=
  {| toy_count := fun pt c =>
       match c with
       | WHITE => if pt =? QUEEN then 1 else if pt =? PAWN then 2 else 0
       | BLACK => if pt =? ROOK then 1 else if pt =? BISHOP then 1
                  else if pt =? PAWN then 1 else 0
       end;
     toy_stm := WHITE |}.

Definition rook_bishop_vs_queen : ToyBoard :=
  {| toy_count := fun pt c => toy_count queen_vs_rook_bishop pt (Them c);
     toy_stm := BLACK |}.

(** A table whose slots hold a key no position has. *)
Definition fresh_table : Table :=
  fun _ => {| key := -1; value := 0; factor := (0, 0);
              evaluationFunction := None; scalingFunction := (None, None);
              spaceWeight := 0; gamePhase := 0 |}.

End MaterialSpec.

Module SquareSpec.

Import MovePick.

Section Penalty.

Context {X : Chess}.

Variable bit_is_set : Bitboard -> Square -> bool.

(** What the second [find_best_index] takes off the score of a move to
    [to]: the value kept for the square once the square is marked. *)
Definition penalty (squares : Bitboard) (values : list Z) (to : Square) : Z :=
  if bit_is_set squares to
  then match aget values to with Some v => v | None => 0 end
  else 0.

Definition penalised (squares : Bitboard) (values : list Z) (e : MoveStack)
  : MoveStack :=
  {| move := move e;
     score := score e - penalty squares values (move_to (move e)) |}.

End Penalty.

(** Bitboards of 64 squares. *)
Definition testbit_64 (b : Bitboard) (s : Square) : bool := Z.testbit b s.

Definition setbit_64 (b : Bitboard) (s : Square) : Bitboard :=
  Z.lor b (Z.shiftl 1 s).

End SquareSpec.

(** * Arrays *)

Module ArrayFacts.

Section Arrays.

Context {A : Type}.

Lemma replace_nth_length (n : nat) (l : list A) (v : A) :
  length (replace_nth n l v) = length l.
Proof.
  revert n; induction l as [|h t IH]; intros [|n]; simpl; auto.
Qed.

Lemma nth_error_replace_same (n : nat) (l : list A) (v : A) :
  (n < length l)%nat -> nth_error (replace_nth n l v) n = Some v.
Proof.
  revert n; induction l as [|h t IH]; intros [|n] H; simpl in *;
    try lia; auto.
  apply IH; lia.
Qed.

Lemma nth_error_replace_other (n m : nat) (l : list A) (v : A) :
  n <> m -> nth_error (replace_nth n l v) m = nth_error l m.
Proof.
  revert n m; induction l as [|h t IH]; intros [|n] [|m] H; simpl;
    try reflexivity; try congruence.
  apply IH; congruence.
Qed.

Lemma aget_bounds (l : list A) (i : Z) (a : A) :
  aget l i = Some a -> 0 <= i < Z.of_nat (length l).
Proof.
  unfold aget. destruct (i <? 0) eqn:E; [discriminate|].
  apply Z.ltb_ge in E. intros H.
  assert (nth_error l (Z.to_nat i) <> None) by congruence.
  apply nth_error_Some in H0. lia.
Qed.

Lemma aget_in_bounds (l : list A) (i : Z) :
  0 <= i < Z.of_nat (length l) -> exists a, aget l i = Some a.
Proof.
  intros H. unfold aget.
  destruct (i <? 0) eqn:E; [apply Z.ltb_lt in E; lia|].
  destruct (nth_error l (Z.to_nat i)) eqn:N; [eauto|].
  apply nth_error_None in N. lia.
Qed.

Lemma aget_None (l : list A) (i : Z) :
  aget l i = None <-> ~ (0 <= i < Z.of_nat (length l)).
Proof.
  split.
  - intros H B. destruct (aget_in_bounds l i B) as [a E]. congruence.
  - intros H. destruct (aget l i) eqn:E; [|reflexivity].
    apply aget_bounds in E. contradiction.
Qed.

Lemma aget_In (l : list A) (i : Z) (a : A) : aget l i = Some a -> In a l.
Proof.
  unfold aget. destruct (i <? 0); [discriminate|]. apply nth_error_In.
Qed.

Lemma aset_in_bounds (l : list A) (i : Z) (v : A) :
  0 <= i < Z.of_nat (length l) ->
  aset l i v = Some (replace_nth (Z.to_nat i) l v).
Proof.
  intros H. unfold aset.
  destruct (i <? 0) eqn:E; [apply Z.ltb_lt in E; lia|].
  destruct (Z.of_nat (length l) <=? i) eqn:E'; [apply Z.leb_le in E'; lia|].
  reflexivity.
Qed.

Lemma aset_Some (l l' : list A) (i : Z) (v : A) :
  aset l i v = Some l' ->
  0 <= i < Z.of_nat (length l) /\ l' = replace_nth (Z.to_nat i) l v.
Proof.
  unfold aset.
  destruct (i <? 0) eqn:E; [discriminate|].
  destruct (Z.of_nat (length l) <=? i) eqn:E'; [discriminate|].
  apply Z.ltb_ge in E. apply Z.leb_gt in E'. simpl.
  intros H; inversion H; subst. split; [lia|reflexivity].
Qed.

Lemma aset_length (l l' : list A) (i : Z) (v : A) :
  aset l i v = Some l' -> length l' = length l.
Proof.
  intros H. apply aset_Some in H as [_ ->]. apply replace_nth_length.
Qed.

Lemma aget_aset_same (l l' : list A) (i : Z) (v : A) :
  aset l i v = Some l' -> aget l' i = Some v.
Proof.
  intros H. apply aset_Some in H as [B ->]. unfold aget.
  destruct (i <? 0) eqn:E; [apply Z.ltb_lt in E; lia|].
  apply nth_error_replace_same. lia.
Qed.

Lemma aget_aset_other (l l' : list A) (i j : Z) (v : A) :
  aset l i v = Some l' -> j <> i -> aget l' j = aget l j.
Proof.
  intros H Hj. apply aset_Some in H as [B ->]. unfold aget.
  destruct (j <? 0) eqn:E; [reflexivity|]. apply Z.ltb_ge in E.
  apply nth_error_replace_other. lia.
Qed.

Lemma replace_nth_Forall (P : A -> Prop) (n : nat) (l : list A) (v : A) :
  Forall P l -> P v -> Forall P (replace_nth n l v).
Proof.
  intros H Hv. revert n.
  induction H as [|h t Hh Ht IH]; intros [|n]; simpl; auto.
Qed.

Lemma aset_Forall (P : A -> Prop) (l l' : list A) (i : Z) (v : A) :
  Forall P l -> P v -> aset l i v = Some l' -> Forall P l'.
Proof.
  intros H Hv E. apply aset_Some in E as [_ ->].
  apply replace_nth_Forall; assumption.
Qed.

Lemma read_Ret (l : list A) (i : Z) (a : A) :
  read l i = Ret a <-> aget l i = Some a.
Proof.
  unfold read. destruct (aget l i); split; intros H;
    inversion H; subst; reflexivity.
Qed.

Lemma write_Ret (l l' : list A) (i : Z) (v : A) :
  write l i v = Ret l' <-> aset l i v = Some l'.
Proof.
  unfold write. destruct (aset l i v); split; intros H;
    inversion H; subst; reflexivity.
Qed.

Lemma read_in_bounds (l : list A) (i : Z) :
  0 <= i < Z.of_nat (length l) -> exists a, read l i = Ret a.
Proof.
  intros H. destruct (aget_in_bounds l i H) as [a E].
  exists a. apply read_Ret. exact E.
Qed.

Lemma write_in_bounds (l : list A) (i : Z) (v : A) :
  0 <= i < Z.of_nat (length l) ->
  write l i v = Ret (replace_nth (Z.to_nat i) l v).
Proof.
  intros H. apply write_Ret. apply aset_in_bounds. exact H.
Qed.

Lemma aget_app_inner (pre win post : list A) (j : nat) :
  (j < length win)%nat ->
  aget (pre ++ win ++ post) (Z.of_nat (length pre) + Z.of_nat j)
  = nth_error win j.
Proof.
  intros H. unfold aget.
  destruct (Z.of_nat (length pre) + Z.of_nat j <? 0) eqn:E;
    [apply Z.ltb_lt in E; lia|].
  replace (Z.to_nat (Z.of_nat (length pre) + Z.of_nat j))
    with (length pre + j)%nat by lia.
  rewrite nth_error_app2 by lia.
  replace (length pre + j - length pre)%nat with j by lia.
  apply nth_error_app1. exact H.
Qed.

Lemma replace_nth_app_inner (pre win post : list A) (j : nat) (v : A) :
  (j < length win)%nat ->
  replace_nth (length pre + j) (pre ++ win ++ post) v
  = pre ++ replace_nth j win v ++ post.
Proof.
  intros H. induction pre as [|h t IH]; simpl.
  - revert j H. induction win as [|w ws IHw]; intros [|j] H; simpl in *;
      try lia; try reflexivity.
    f_equal. apply IHw. lia.
  - f_equal. exact IH.
Qed.

Lemma aset_app_inner (pre win post : list A) (j : nat) (v : A) :
  (j < length win)%nat ->
  aset (pre ++ win ++ post) (Z.of_nat (length pre) + Z.of_nat j) v
  = Some (pre ++ replace_nth j win v ++ post).
Proof.
  intros H. rewrite aset_in_bounds.
  - replace (Z.to_nat (Z.of_nat (length pre) + Z.of_nat j))
      with (length pre + j)%nat by lia.
    rewrite replace_nth_app_inner by exact H. reflexivity.
  - rewrite !length_app. lia.
Qed.

Lemma slice_app (pre win post : list A) :
  slice (pre ++ win ++ post) (Z.of_nat (length pre))
    (Z.of_nat (length pre) + Z.of_nat (length win)) = win.
Proof.
  unfold slice.
  replace (Z.to_nat (Z.of_nat (length pre) + Z.of_nat (length win)
                     - Z.of_nat (length pre))) with (length win) by lia.
  rewrite Nat2Z.id, skipn_app, skipn_all, Nat.sub_diag. simpl.
  rewrite firstn_app, firstn_all, Nat.sub_diag. simpl.
  apply app_nil_r.
Qed.

Lemma slice_split (l : list A) (lo hi : Z) :
  0 <= lo <= hi -> hi <= Z.of_nat (length l) ->
  exists pre post,
    l = pre ++ slice l lo hi ++ post
    /\ Z.of_nat (length pre) = lo
    /\ Z.of_nat (length (slice l lo hi)) = hi - lo.
Proof.
  intros H1 H2.
  exists (firstn (Z.to_nat lo) l),
    (skipn (Z.to_nat (hi - lo)) (skipn (Z.to_nat lo) l)).
  unfold slice. rewrite firstn_skipn, firstn_skipn.
  split; [reflexivity|].
  rewrite !length_firstn, length_skipn. lia.
Qed.

Lemma perm_replace (v e : A) (l : list A) :
  forall j, nth_error l j = Some e ->
  Permutation (v :: l) (e :: replace_nth j l v).
Proof.
  induction l as [|h t IH]; intros [|j] H; simpl in *; try discriminate.
  - inversion H; subst. apply perm_swap.
  - apply IH in H.
    eapply perm_trans; [apply perm_swap|].
    eapply perm_trans; [apply perm_skip; exact H|]. apply perm_swap.
Qed.

Lemma slice_0_app (pre win post : list A) :
  slice (pre ++ win ++ post) 0
    (Z.of_nat (length pre) + Z.of_nat (length win)) = pre ++ win.
Proof.
  unfold slice. rewrite Z.sub_0_r. simpl. rewrite app_assoc.
  replace (Z.to_nat (Z.of_nat (length pre) + Z.of_nat (length win)))
    with (length (pre ++ win) + 0)%nat by (rewrite length_app; lia).
  rewrite firstn_app_2. simpl. apply app_nil_r.
Qed.

Lemma last_or_nil (l : list A) :
  l = [] \/ exists mid x, l = mid ++ [x].
Proof.
  destruct l as [|a l]; [left; reflexivity|right].
  destruct (@exists_last A (a :: l)) as (m & x & E); [discriminate|].
  exists m, x. exact E.
Qed.

End Arrays.

End ArrayFacts.

(** * Properties of the move picker *)

Module PickerFacts.

Import MovePick PickerSpec ArrayFacts.

(** Case analysis on the head of a sequence of binds in a hypothesis. *)
Ltac bind_inv H :=
  repeat match type of H with
  | bind ?r _ = _ =>
      let E := fresh "E" in
      destruct r eqn:E; simpl in H; try discriminate H
  | (if ?b then _ else _) = _ =>
      let E := fresh "E" in
      destruct b eqn:E; simpl in H; try discriminate H
  end.

(** Case analysis on the phase a hypothesis switches on. *)
Ltac phase_cases H :=
  match type of H with
  | context [match ?ph with PH_TT_MOVE => _ | _ => _ end] => destruct ph
  end.

Section Facts.

Context {X : Chess}.

(** ** The table *)

Lemma PhaseTable_eq :
  PhaseTable G =
  [PH_TT_MOVE; PH_MATE_KILLER; PH_GOOD_CAPTURES; PH_NONCAPTURES;
   PH_BAD_CAPTURES; PH_STOP; PH_EVASIONS; PH_STOP; PH_QCAPTURES; PH_QCHECKS;
   PH_STOP; PH_QCHECKS; PH_STOP; PH_QCAPTURES; PH_STOP; PH_STOP]
  ++ repeat phase_zero 16.
Proof. reflexivity. Qed.

Lemma PhaseTable_length : length (PhaseTable G) = 32%nat.
Proof. reflexivity. Qed.

Lemma phase_indices :
  MainSearchPhaseIndex G = -1 /\ EvasionsPhaseIndex G = 5
  /\ QsearchWithChecksPhaseIndex G = 7 /\ QsearchNoCapturesPhaseIndex G = 10
  /\ QsearchWithoutChecksPhaseIndex G = 12 /\ NoMovesPhaseIndex G = 14.
Proof. repeat split; reflexivity. Qed.

(** ** Frame: what the calls leave alone *)

Lemma same_setup_refl (mp : MovePicker) : same_setup mp mp.
Proof. unfold same_setup; tauto. Qed.

Lemma same_setup_trans (a b c : MovePicker) :
  same_setup a b -> same_setup b c -> same_setup a c.
Proof. unfold same_setup; intuition congruence. Qed.

Lemma pick_loop_setup choose accept n : forall mp m mp',
  pick_loop choose accept n mp = Ret (m, mp') -> same_setup mp mp'.
Proof.
  induction n as [|n IH]; simpl; intros mp m mp' H.
  - inversion H; subst; apply same_setup_refl.
  - bind_inv H.
    + inversion H; subst; unfold same_setup; simpl; tauto.
    + apply IH in H. eapply same_setup_trans; [|exact H].
      unfold same_setup; simpl; tauto.
Qed.

Lemma front_loop_setup accept n : forall mp m mp',
  front_loop accept n mp = Ret (m, mp') -> same_setup mp mp'.
Proof.
  induction n as [|n IH]; simpl; intros mp m mp' H.
  - inversion H; subst; apply same_setup_refl.
  - bind_inv H.
    + inversion H; subst; unfold same_setup; simpl; tauto.
    + apply IH in H. eapply same_setup_trans; [|exact H].
      unfold same_setup; simpl; tauto.
Qed.

Lemma bad_loop_setup accept n : forall mp m mp',
  bad_loop accept n mp = Ret (m, mp') -> same_setup mp mp'.
Proof.
  induction n as [|n IH]; simpl; intros mp m mp' H.
  - inversion H; subst; apply same_setup_refl.
  - bind_inv H.
    + inversion H; subst; unfold same_setup; simpl; tauto.
    + apply IH in H. eapply same_setup_trans; [|exact H].
      unfold same_setup; simpl; tauto.
Qed.

Lemma pick_move_from_list_setup mp m mp' :
  pick_move_from_list mp = Ret (m, mp') -> same_setup mp mp'.
Proof.
  unfold pick_move_from_list. intros H. bind_inv H.
  phase_cases H;
    try (inversion H; subst; apply same_setup_refl);
    eauto using pick_loop_setup, front_loop_setup, bad_loop_setup.
Qed.

Lemma score_captures_loop_setup n : forall i mp mp',
  score_captures_loop n i mp = Ret mp' -> same_setup mp mp'.
Proof.
  induction n as [|n IH]; simpl; intros i mp mp' H.
  - inversion H; subst; apply same_setup_refl.
  - bind_inv H; apply IH in H;
      (eapply same_setup_trans; [|exact H]); unfold same_setup; simpl; tauto.
Qed.

Lemma generate_setup mp ms mp' :
  generate mp ms = Ret mp' -> same_setup mp mp'.
Proof.
  unfold generate. intros H. bind_inv H.
  inversion H; subst; unfold same_setup; simpl; tauto.
Qed.

Lemma score_with_setup f mp mp' :
  score_with f mp = Ret mp' -> same_setup mp mp'.
Proof.
  unfold score_with. intros H. bind_inv H.
  inversion H; subst; unfold same_setup; simpl; tauto.
Qed.

Lemma next_phase_setup mp r :
  next_phase mp = Ret r ->
  match r with inl (_, mp') => same_setup mp mp' | inr mp' => same_setup mp mp' end.
Proof.
  unfold next_phase. intros H. bind_inv H.
  assert (S0 : same_setup mp (with_phaseIndex mp (phaseIndex mp + 1)))
    by (unfold same_setup; simpl; tauto).
  phase_cases H; bind_inv H; inversion H; subst; clear H; try exact S0;
    repeat match goal with
    | E : generate _ _ = Ret _ |- _ => apply generate_setup in E
    | E : score_captures _ = Ret _ |- _ =>
        unfold score_captures in E; apply score_captures_loop_setup in E
    | E : score_noncaptures _ = Ret _ |- _ =>
        unfold score_noncaptures in E; apply score_with_setup in E
    | E : score_evasions _ = Ret _ |- _ =>
        unfold score_evasions in E; apply score_with_setup in E
    | E : score_qcaptures _ = Ret _ |- _ =>
        unfold score_qcaptures in E; apply score_with_setup in E
    end;
    unfold same_setup in *; simpl in *; intuition congruence.
Qed.

Lemma get_next_move_loop_setup n : forall mp m mp',
  get_next_move_loop n mp = Ret (m, mp') -> same_setup mp mp'.
Proof.
  induction n as [|n IH]; simpl; intros mp m mp' H; [discriminate|].
  destruct (pick_move_from_list mp) as [[m0 mp0]| |] eqn:E;
    simpl in H; try discriminate.
  apply pick_move_from_list_setup in E.
  destruct (negb (m0 =? MOVE_NONE)).
  - inversion H; subst; exact E.
  - destruct (next_phase mp0) as [[[m1 mp1]|mp1]| |] eqn:E1;
      simpl in H; try discriminate; apply next_phase_setup in E1.
    + inversion H; subst. eapply same_setup_trans; eauto.
    + apply IH in H. eauto using same_setup_trans.
Qed.

Lemma get_next_move_setup mp m mp' :
  get_next_move mp = Ret (m, mp') -> same_setup mp mp'.
Proof. apply get_next_move_loop_setup. Qed.

(** ** Construction *)

Lemma phase_rows :
  phase_row (EvasionsPhaseIndex G) = [PH_EVASIONS; PH_STOP]
  /\ phase_row (MainSearchPhaseIndex G) =
       [PH_TT_MOVE; PH_MATE_KILLER; PH_GOOD_CAPTURES; PH_NONCAPTURES;
        PH_BAD_CAPTURES; PH_STOP]
  /\ phase_row (QsearchNoCapturesPhaseIndex G) = [PH_QCHECKS; PH_STOP]
  /\ phase_row (QsearchWithChecksPhaseIndex G) =
       [PH_QCAPTURES; PH_QCHECKS; PH_STOP]
  /\ phase_row (NoMovesPhaseIndex G) = [PH_STOP]
  /\ phase_row (QsearchWithoutChecksPhaseIndex G) = [PH_QCAPTURES; PH_STOP].
Proof. repeat split; reflexivity. Qed.

Lemma noCaptures_iff (p : Position) (ei : option EvalInfo) :
  noCaptures p ei = true <->
  exists e, ei = Some e
    /\ Z.land (attackedBy e (side_to_move p) 0)
         (pieces_of_color p (opposite_color (side_to_move p))) = 0
    /\ specialized_eval_exists (mi e) = false
    /\ ep_square p = SQ_NONE
    /\ has_pawn_on_7th p (side_to_move p) = false.
Proof.
  unfold noCaptures. destruct ei as [e|].
  - rewrite !andb_true_iff, !negb_true_iff, !Z.eqb_eq. split.
    + intros [[[H1 H2] H3] H4]. exists e. tauto.
    + intros [e' [He H]]. inversion He; subst. tauto.
  - split; [discriminate|]. intros [e [He _]]. discriminate.
Qed.

(** C3.  The constructor clears [mateKiller] when the stack frame's mate
    killer is the TT move, and enters the table one before the row the
    position and depth call for: Evasions in check; otherwise MainSearch at
    depth > 0, QsearchNoCaptures or QsearchWithChecks at depth 0 and NoMoves
    or QsearchWithoutChecks below, by the no-captures hint; the hint holds
    exactly when eval info is given, the attack set of the side to move
    misses the opponent's pieces, no specialised evaluation exists, there is
    no en-passant square and the side to move has no pawn on the 7th rank. *)
Theorem MovePicker_new_row (raw : MovePicker) (p : Position) (pv : bool)
    (ttm : Move) (ss : SearchStack) (d : Depth) (ei : option EvalInfo) :
  (ss_mateKiller ss = ttm ->
     mateKiller (MovePicker_new raw p pv ttm ss d ei) = MOVE_NONE)
  /\ (ss_mateKiller ss <> ttm ->
     mateKiller (MovePicker_new raw p pv ttm ss d ei) = ss_mateKiller ss)
  /\ (is_check p = true ->
     phaseIndex (MovePicker_new raw p pv ttm ss d ei) = EvasionsPhaseIndex G
     /\ phase_row (phaseIndex (MovePicker_new raw p pv ttm ss d ei))
        = [PH_EVASIONS; PH_STOP])
  /\ (is_check p = false -> d > 0 ->
     phaseIndex (MovePicker_new raw p pv ttm ss d ei) = MainSearchPhaseIndex G
     /\ phase_row (phaseIndex (MovePicker_new raw p pv ttm ss d ei))
        = [PH_TT_MOVE; PH_MATE_KILLER; PH_GOOD_CAPTURES; PH_NONCAPTURES;
           PH_BAD_CAPTURES; PH_STOP])
  /\ (is_check p = false -> d = 0 -> noCaptures p ei = true ->
     phaseIndex (MovePicker_new raw p pv ttm ss d ei)
       = QsearchNoCapturesPhaseIndex G
     /\ phase_row (phaseIndex (MovePicker_new raw p pv ttm ss d ei))
        = [PH_QCHECKS; PH_STOP])
  /\ (is_check p = false -> d = 0 -> noCaptures p ei = false ->
     phaseIndex (MovePicker_new raw p pv ttm ss d ei)
       = QsearchWithChecksPhaseIndex G
     /\ phase_row (phaseIndex (MovePicker_new raw p pv ttm ss d ei))
        = [PH_QCAPTURES; PH_QCHECKS; PH_STOP])
  /\ (is_check p = false -> d < 0 -> noCaptures p ei = true ->
     phaseIndex (MovePicker_new raw p pv ttm ss d ei) = NoMovesPhaseIndex G
     /\ phase_row (phaseIndex (MovePicker_new raw p pv ttm ss d ei))
        = [PH_STOP])
  /\ (is_check p = false -> d < 0 -> noCaptures p ei = false ->
     phaseIndex (MovePicker_new raw p pv ttm ss d ei)
       = QsearchWithoutChecksPhaseIndex G
     /\ phase_row (phaseIndex (MovePicker_new raw p pv ttm ss d ei))
        = [PH_QCAPTURES; PH_STOP])
  /\ (noCaptures p ei = true <->
      exists e, ei = Some e
        /\ Z.land (attackedBy e (side_to_move p) 0)
             (pieces_of_color p (opposite_color (side_to_move p))) = 0
        /\ specialized_eval_exists (mi e) = false
        /\ ep_square p = SQ_NONE
        /\ has_pawn_on_7th p (side_to_move p) = false).
Proof.
  pose proof phase_rows as (R1 & R2 & R3 & R4 & R5 & R6).
  unfold MovePicker_new; simpl.
  split; [intros H; apply Z.eqb_eq in H; rewrite H; reflexivity|].
  split; [intros H; apply Z.eqb_neq in H; rewrite H; reflexivity|].
  split; [intros H; rewrite H; auto|].
  split.
  { intros H Hd. rewrite H.
    assert (E : (d >? 0) = true) by (apply Z.gtb_lt; lia).
    rewrite E; auto. }
  assert (D0 : forall z, z = 0 -> (z >? 0) = false /\ (z =? 0) = true).
  { intros z ->. split; reflexivity. }
  assert (DN : forall z, z < 0 -> (z >? 0) = false /\ (z =? 0) = false).
  { intros z Hz. split; [|apply Z.eqb_neq; lia].
    destruct (z >? 0) eqn:E; [apply Z.gtb_lt in E; lia|reflexivity]. }
  repeat match goal with |- _ /\ _ => split end;
    try (intros Hc Hd Hn; rewrite Hc, Hn;
         first [destruct (D0 d Hd) as [E1 E2] | destruct (DN d Hd) as [E1 E2]];
         rewrite E1, E2; split; [reflexivity|assumption]);
    apply noCaptures_iff.
Qed.

(** ** The first table read of a main-search picker *)

(** C10.  A picker built for a position not in check at depth > 0 starts at
    [MainSearchPhaseIndex], which [init_phase_table] sets to [0 - 1]: the
    first [pick_move_from_list] reads [PhaseTable[-1]], outside the table. *)
Theorem MainSearch_first_read_outside_table (raw : MovePicker) (p : Position)
    (pv : bool) (ttm : Move) (ss : SearchStack) (d : Depth)
    (ei : option EvalInfo) :
  is_check p = false -> d > 0 ->
  phaseIndex (MovePicker_new raw p pv ttm ss d ei) = MainSearchPhaseIndex G
  /\ MainSearchPhaseIndex G = -1
  /\ ~ (0 <= phaseIndex (MovePicker_new raw p pv ttm ss d ei)
          < Z.of_nat (length (PhaseTable G)))
  /\ aget (PhaseTable G) (phaseIndex (MovePicker_new raw p pv ttm ss d ei)) = None
  /\ pick_move_from_list (MovePicker_new raw p pv ttm ss d ei) = OutOfBounds.
Proof.
  intros Hc Hd.
  assert (E : (d >? 0) = true) by (apply Z.gtb_lt; lia).
  assert (P : phaseIndex (MovePicker_new raw p pv ttm ss d ei) = -1).
  { unfold MovePicker_new; simpl. rewrite Hc, E. reflexivity. }
  unfold pick_move_from_list. rewrite P.
  repeat split; try reflexivity; lia.
Qed.


(** ** The latch of the lock-taking variant *)

Lemma finished_locked_call (lock : Lock) (mp : MovePicker) :
  finished mp = true ->
  get_next_move_locked lock mp = Ret (MOVE_NONE, mp, Free).
Proof. intros H. unfold get_next_move_locked. rewrite H. reflexivity. Qed.

Lemma finished_locked_calls (n : nat) : forall (lock : Lock) (mp : MovePicker),
  finished mp = true ->
  exists l, locked_calls n lock mp = Ret (repeat MOVE_NONE n, mp, l).
Proof.
  induction n as [|n IH]; intros lock mp H; simpl.
  - eauto.
  - rewrite finished_locked_call by assumption. simpl.
    destruct (IH Free mp H) as [l E]. rewrite E. simpl. eauto.
Qed.

(** C4.  The lock-taking [get_next_move] returns [MOVE_NONE] with the picker
    untouched when [finished] is set; otherwise it returns what the inner
    call returns and sets [finished] exactly when that is [MOVE_NONE]; so
    after one locked call has returned [MOVE_NONE], every later one does. *)
Theorem locked_get_next_move_latch (lock : Lock) (mp : MovePicker) :
  (finished mp = true ->
     get_next_move_locked lock mp = Ret (MOVE_NONE, mp, Free))
  /\ (finished mp = false -> forall m mp',
       get_next_move mp = Ret (m, mp') ->
       exists mp'',
         get_next_move_locked lock mp = Ret (m, mp'', Free)
         /\ mp'' = (if m =? MOVE_NONE then with_finished mp' true else mp')
         /\ (finished mp'' = true <-> m = MOVE_NONE))
  /\ (forall mp1 l1,
       get_next_move_locked lock mp = Ret (MOVE_NONE, mp1, l1) ->
       finished mp1 = true
       /\ forall n l2, exists l3,
            locked_calls n l2 mp1 = Ret (repeat MOVE_NONE n, mp1, l3)).
Proof.
  split; [apply finished_locked_call|]. split.
  - intros Hf m mp' E.
    exists (if m =? MOVE_NONE then with_finished mp' true else mp').
    unfold get_next_move_locked. rewrite Hf, E. simpl.
    split; [reflexivity|]. split; [reflexivity|].
    apply get_next_move_setup in E.
    destruct E as (_ & _ & _ & _ & _ & _ & _ & _ & _ & Fin).
    destruct (m =? MOVE_NONE) eqn:Em.
    + apply Z.eqb_eq in Em. simpl. tauto.
    + apply Z.eqb_neq in Em. rewrite Fin, Hf.
      split; [discriminate|contradiction].
  - intros mp1 l1 H.
    assert (F : finished mp1 = true).
    { unfold get_next_move_locked in H.
      destruct (finished mp) eqn:Hf.
      - inversion H; subst; assumption.
      - destruct (get_next_move mp) as [[m mp']| |]; simpl in H;
          try discriminate.
        inversion H; subst. rewrite Z.eqb_refl. reflexivity. }
    split; [exact F|]. intros n l2. apply finished_locked_calls; exact F.
Qed.

(** ** Drawing from the bucket *)

Lemma layout_bucket mp pre win post :
  layout mp pre win post -> bucket mp = win.
Proof.
  intros (M & P & N). unfold bucket. rewrite M, P, N. apply slice_app.
Qed.

Lemma layout_remaining mp pre win post :
  layout mp pre win post -> remaining mp = length win.
Proof. intros (M & P & N). unfold remaining. lia. Qed.

Lemma bucket_layout mp :
  0 <= movesPicked mp <= numOfMoves mp ->
  numOfMoves mp <= Z.of_nat (length (moves mp)) ->
  exists pre post, layout mp pre (bucket mp) post.
Proof.
  intros H1 H2.
  destruct (slice_split (moves mp) (movesPicked mp) (numOfMoves mp) H1 H2)
    as (pre & post & E & L1 & L2).
  exists pre, post. unfold layout, bucket. repeat split; [exact E|lia|lia].
Qed.

Lemma find_best_loop_scan (win : list MoveStack) :
  forall pre post bs bi,
    find_best_loop (pre ++ win ++ post) (length win)
      (Z.of_nat (length pre)) bs bi
    = Ret (best_of win (Z.of_nat (length pre)) bs bi).
Proof.
  induction win as [|e t IH]; intros pre post bs bi; simpl.
  - reflexivity.
  - assert (R : read (pre ++ (e :: t) ++ post) (Z.of_nat (length pre)) = Ret e).
    { apply read_Ret.
      pose proof (aget_app_inner pre (e :: t) post 0) as H.
      rewrite Z.add_0_r in H. apply H. simpl; lia. }
    simpl in R. rewrite R. cbn [bind].
    specialize (IH (pre ++ [e]) post).
    rewrite <- app_assoc in IH. simpl in IH.
    rewrite length_app in IH. simpl in IH.
    replace (Z.of_nat (length pre + 1)) with (Z.of_nat (length pre) + 1)
      in IH by lia.
    destruct (score e >? bs); apply IH.
Qed.

Lemma find_best_index_scan mp pre win post :
  layout mp pre win post ->
  find_best_index mp
  = Ret (best_of win (Z.of_nat (length pre)) (-10000000) (-1)).
Proof.
  intros L. pose proof L as (M & P & N). unfold find_best_index.
  fold (remaining mp). rewrite (layout_remaining _ _ _ _ L), M, P.
  apply find_best_loop_scan.
Qed.

(** The scan returns the incoming index when no score beats the incoming
    best, and otherwise the first entry of greatest score. *)
Lemma best_of_spec (win : list MoveStack) : forall i bs bi,
  (best_of win i bs bi = bi /\ Forall (fun e => score e <= bs) win)
  \/ exists j e,
       best_of win i bs bi = i + Z.of_nat j
       /\ nth_error win j = Some e
       /\ bs < score e
       /\ Forall (fun e' => score e' <= score e) win
       /\ Forall (fun e' => score e' < score e) (firstn j win).
Proof.
  induction win as [|e t IH]; intros i bs bi; simpl.
  - left. split; [reflexivity|constructor].
  - destruct (score e >? bs) eqn:G.
    + apply Z.gtb_lt in G.
      destruct (IH (i + 1) (score e) i)
        as [[E F]|(j & e' & E & N & B & F & F1)].
      * right. exists 0%nat, e. rewrite E, Z.add_0_r.
        split; [reflexivity|]. split; [reflexivity|]. split; [exact G|].
        split; [constructor; [lia|exact F]|]. simpl. constructor.
      * right. exists (S j), e'. rewrite E.
        split; [lia|]. split; [exact N|]. split; [lia|].
        split; [constructor; [lia|exact F]|].
        simpl. constructor; [lia|exact F1].
    + assert (G' : score e <= bs).
      { destruct (Z_le_gt_dec (score e) bs) as [L|L]; [exact L|].
        apply Z.gt_lt, Z.gtb_lt in L. congruence. }
      destruct (IH (i + 1) bs bi)
        as [[E F]|(j & e' & E & N & B & F & F1)].
      * left. split; [exact E|]. constructor; assumption.
      * right. exists (S j), e'. rewrite E.
        split; [lia|]. split; [exact N|]. split; [exact B|].
        split; [constructor; [lia|exact F]|].
        simpl. constructor; [lia|exact F1].
Qed.

Lemma find_best_index_spec mp pre win post :
  layout mp pre win post -> win <> [] -> Forall selectable win ->
  exists j e,
    find_best_index mp = Ret (Z.of_nat (length pre) + Z.of_nat j)
    /\ nth_error win j = Some e
    /\ Forall (fun e' => score e' <= score e) win
    /\ Forall (fun e' => score e' < score e) (firstn j win).
Proof.
  intros L Hne Hsel. rewrite (find_best_index_scan _ _ _ _ L).
  destruct (best_of_spec win (Z.of_nat (length pre)) (-10000000) (-1))
    as [[_ F]|(j & e & E & N & _ & F & F1)].
  - destruct win as [|e t]; [contradiction|].
    inversion F; subst. inversion Hsel; subst. unfold selectable in *. lia.
  - exists j, e. rewrite E. tauto.
Qed.

(** One pass of the drawing loop that selects the bucket's entry [j]. *)
Lemma pick_step choose accept n mp pre win post j e :
  layout mp pre win post ->
  nth_error win j = Some e ->
  choose mp = Ret (Z.of_nat (length pre) + Z.of_nat j) ->
  exists front r mp1,
    win = front :: r
    /\ pick_loop choose accept (S n) mp
       = (if accept (move e) then Ret (move e, mp1)
          else pick_loop choose accept n mp1)
    /\ layout mp1 (pre ++ [front]) (take_at j front r) post
    /\ Permutation win (e :: take_at j front r)
    /\ same_phase mp mp1
    /\ badCaptures mp1 = badCaptures mp
    /\ badCapturesPicked mp1 = badCapturesPicked mp.
Proof.
  intros (M & P & N) Hj Hc.
  assert (Hlt : (j < length win)%nat).
  { apply nth_error_Some. congruence. }
  destruct win as [|front r]; [simpl in Hlt; lia|].
  exists front, r.
  cbn [pick_loop]. rewrite Hc. cbn [bind].
  destruct (Z.of_nat (length pre) + Z.of_nat j =? -1) eqn:E;
    [apply Z.eqb_eq in E; lia|].
  rewrite M, P.
  assert (R1 : read (pre ++ (front :: r) ++ post)
                 (Z.of_nat (length pre) + Z.of_nat j) = Ret e).
  { apply read_Ret. rewrite aget_app_inner by exact Hlt. exact Hj. }
  assert (R2 : read (pre ++ (front :: r) ++ post) (Z.of_nat (length pre))
               = Ret front).
  { apply read_Ret.
    pose proof (aget_app_inner pre (front :: r) post 0) as H.
    rewrite Z.add_0_r in H. apply H. simpl; lia. }
  assert (W : write (pre ++ (front :: r) ++ post)
                (Z.of_nat (length pre) + Z.of_nat j) front
              = Ret (pre ++ (front :: take_at j front r) ++ post)).
  { apply write_Ret. rewrite aset_app_inner by exact Hlt.
    destruct j; reflexivity. }
  rewrite R1. cbn [bind]. rewrite R2. cbn [bind]. rewrite W. cbn [bind].
  eexists. split; [reflexivity|]. split; [reflexivity|].
  assert (Len : length (take_at j front r) = length r).
  { destruct j; simpl; [reflexivity|apply replace_nth_length]. }
  split.
  { unfold layout. split; [|split].
    - cbn [moves with_movesPicked with_moves].
      rewrite <- app_assoc. reflexivity.
    - cbn [movesPicked with_movesPicked]. rewrite length_app. simpl. lia.
    - cbn [numOfMoves with_movesPicked with_moves]. rewrite N, length_app.
      simpl length. lia. }
  split.
  { destruct j as [|j']; simpl in *.
    - inversion Hj; subst. apply Permutation_refl.
    - apply perm_replace. exact Hj. }
  unfold same_phase, same_setup. simpl. tauto.
Qed.

Lemma take_at_incl j front r x :
  In x (take_at j front r) -> In x (front :: r).
Proof.
  destruct j as [|j]; simpl; [tauto|].
  revert j. induction r as [|h t IH]; intros [|j]; simpl; try tauto.
  intros [H|H]; [tauto|]. destruct (IH j H); tauto.
Qed.

Lemma same_phase_refl mp : same_phase mp mp.
Proof. unfold same_phase. pose proof (same_setup_refl mp). tauto. Qed.

Lemma same_phase_trans a b c :
  same_phase a b -> same_phase b c -> same_phase a c.
Proof.
  unfold same_phase. intros (S1 & ?) (S2 & ?).
  pose proof (same_setup_trans _ _ _ S1 S2). intuition congruence.
Qed.

Lemma take_at_length j front r : length (take_at j front r) = length r.
Proof. destruct j; simpl; [reflexivity|apply replace_nth_length]. Qed.

Lemma Forall_perm (P : MoveStack -> Prop) (a b : list MoveStack) :
  Permutation a b -> Forall P a -> Forall P b.
Proof.
  intros H F. rewrite Forall_forall in *. intros x Hx. apply F.
  eapply Permutation_in; [apply Permutation_sym; exact H|exact Hx].
Qed.

Section Draw.

Variable choose : MovePicker -> result Z.
Variable accept : Move -> bool.

(** What is known of the entry [choose] selects, given how many entries
    were drawn before and the bucket it selects from. *)
Variable chosen : Z -> MoveStack -> list MoveStack -> Prop.

Hypothesis choose_spec : forall mp pre win post,
  layout mp pre win post -> win <> [] -> Forall selectable win ->
  exists j e,
    choose mp = Ret (Z.of_nat (length pre) + Z.of_nat j)
    /\ nth_error win j = Some e
    /\ chosen (movesPicked mp) e win.

(** The drawing loop returns.  It either yields an accepted entry, having
    drawn and rejected some entries before it, or ends with the bucket
    empty and every entry rejected. *)
Lemma pick_loop_run (n : nat) : forall mp pre win post,
  layout mp pre win post -> Forall selectable win -> n = length win ->
  exists m mp' pre' win' rejected,
    pick_loop choose accept n mp = Ret (m, mp')
    /\ layout mp' pre' win' post
    /\ same_phase mp mp'
    /\ badCaptures mp' = badCaptures mp
    /\ badCapturesPicked mp' = badCapturesPicked mp
    /\ Forall (fun e => accept (move e) = false) rejected
    /\ ((exists e win0,
           m = move e /\ accept (move e) = true
           /\ Permutation win (rejected ++ win0)
           /\ Permutation win0 (e :: win')
           /\ chosen (movesPicked mp + Z.of_nat (length rejected)) e win0)
        \/ (m = MOVE_NONE /\ win' = [] /\ Permutation win rejected)).
Proof.
  induction n as [|n IH]; intros mp pre win post L Hsel Hn.
  - destruct win; [|discriminate]. simpl.
    exists MOVE_NONE, mp, pre, [], []. split; [reflexivity|].
    split; [exact L|]. split; [apply same_phase_refl|].
    split; [reflexivity|]. split; [reflexivity|]. split; [constructor|].
    right. auto.
  - assert (Hne : win <> []) by (destruct win; [discriminate|congruence]).
    destruct (choose_spec mp pre win post L Hne Hsel) as (j & e & Hc & Hj & Q).
    destruct (pick_step choose accept n mp pre win post j e L Hj Hc)
      as (front & r & mp1 & Ew & Eq & L1 & Pm & SP & B1 & B2).
    rewrite Eq. destruct (accept (move e)) eqn:Acc.
    + exists (move e), mp1, (pre ++ [front]), (take_at j front r), [].
      split; [reflexivity|]. split; [exact L1|]. split; [exact SP|].
      split; [exact B1|]. split; [exact B2|]. split; [constructor|].
      left. exists e, win. rewrite Z.add_0_r. simpl. auto.
    + assert (Hsel1 : Forall selectable (take_at j front r)).
      { pose proof (Forall_perm _ _ _ Pm Hsel) as F. inversion F; auto. }
      assert (Hn1 : n = length (take_at j front r)).
      { rewrite take_at_length. subst win. simpl in Hn. lia. }
      destruct (IH mp1 (pre ++ [front]) (take_at j front r) post L1 Hsel1 Hn1)
        as (m & mp' & pre' & win' & rej & E & L' & SP' & B1' & B2' & R & C).
      exists m, mp', pre', win', (e :: rej).
      split; [exact E|]. split; [exact L'|].
      split; [exact (same_phase_trans _ _ _ SP SP')|].
      split; [congruence|]. split; [congruence|].
      split; [constructor; assumption|].
      destruct C as [(e' & win0 & Em & Acc' & P1 & P2 & Q')|(Em & Ew' & P1)].
      * left. exists e', win0.
        split; [exact Em|]. split; [exact Acc'|].
        split.
        { eapply perm_trans; [exact Pm|]. simpl. apply perm_skip. exact P1. }
        split; [exact P2|].
        destruct L as (_ & P0 & _). destruct L1 as (_ & P10 & _).
        rewrite P10, length_app in Q'. simpl in Q'.
        rewrite P0. simpl length.
        replace (Z.of_nat (length pre) + Z.of_nat (S (length rej)))
          with (Z.of_nat (length pre + 1) + Z.of_nat (length rej)) by lia.
        exact Q'.
      * right. split; [exact Em|]. split; [exact Ew'|].
        eapply perm_trans; [exact Pm|]. apply perm_skip. exact P1.
Qed.

End Draw.

(** How each phase selects. *)

Lemma choose_best mp pre win post :
  layout mp pre win post -> win <> [] -> Forall selectable win ->
  exists j e,
    find_best_index mp = Ret (Z.of_nat (length pre) + Z.of_nat j)
    /\ nth_error win j = Some e
    /\ by_score e win.
Proof.
  intros L Hne Hsel.
  destruct (find_best_index_spec mp pre win post L Hne Hsel)
    as (j & e & E & N & F & _).
  exists j, e. auto.
Qed.

Lemma choose_front mp pre win post :
  layout mp pre win post -> win <> [] ->
  exists e,
    Ret (A := Z) (movesPicked mp) = Ret (Z.of_nat (length pre) + Z.of_nat 0)
    /\ nth_error win 0 = Some e.
Proof.
  intros (_ & P & _) Hne. destruct win as [|e t]; [contradiction|].
  exists e. rewrite P, Z.add_0_r. split; reflexivity.
Qed.

(** ** [score_captures] *)

Lemma read_app_inner (pre win post : list MoveStack) (j : nat) (e : MoveStack) :
  nth_error win j = Some e ->
  read (pre ++ win ++ post) (Z.of_nat (length pre) + Z.of_nat j) = Ret e.
Proof.
  intros H. apply read_Ret. rewrite aget_app_inner; [exact H|].
  apply nth_error_Some. congruence.
Qed.

Lemma read_app_head (pre post : list MoveStack) (e : MoveStack) :
  read (pre ++ e :: post) (Z.of_nat (length pre)) = Ret e.
Proof.
  pose proof (read_app_inner pre [e] post 0 e eq_refl) as H.
  rewrite Z.add_0_r in H. exact H.
Qed.

Lemma write_app_head (pre post : list MoveStack) (e v : MoveStack) :
  write (pre ++ e :: post) (Z.of_nat (length pre)) v = Ret (pre ++ v :: post).
Proof.
  apply write_Ret.
  pose proof (aset_app_inner pre [e] post 0 v) as H.
  rewrite Z.add_0_r in H. apply H. simpl; lia.
Qed.

Lemma filter_length_perm (f : MoveStack -> bool) (a b : list MoveStack) :
  Permutation a b -> length (filter f a) = length (filter f b).
Proof.
  induction 1; simpl; try congruence.
  - destruct (f x); simpl; congruence.
  - destruct (f x), (f y); reflexivity.
Qed.

Lemma score_captures_loop_spec (n : nat) :
  forall (todo done rest bdone bfree : list MoveStack) (mp : MovePicker),
    length todo = n ->
    moves mp = done ++ todo ++ rest ->
    numOfMoves mp = Z.of_nat (length done) + Z.of_nat (length todo) ->
    badCaptures mp = bdone ++ bfree ->
    numOfBadCaptures mp = Z.of_nat (length bdone) ->
    (length (filter (losing (pos mp)) todo) <= length bfree)%nat ->
    exists mp' goods bads rest' bfree',
      score_captures_loop n (Z.of_nat (length done)) mp = Ret mp'
      /\ moves mp' = done ++ goods ++ rest'
      /\ numOfMoves mp' = Z.of_nat (length done) + Z.of_nat (length goods)
      /\ badCaptures mp' = bdone ++ bads ++ bfree'
      /\ numOfBadCaptures mp'
         = Z.of_nat (length bdone) + Z.of_nat (length bads)
      /\ Permutation (map move todo) (map move goods ++ map move bads)
      /\ Forall (scored_good (pos mp)) goods
      /\ Forall (scored_bad (pos mp)) bads
      /\ same_setup mp mp'
      /\ phaseIndex mp' = phaseIndex mp
      /\ length (goods ++ rest') = length (todo ++ rest).
Proof.
  induction n as [|n IH];
    intros todo done rest bdone bfree mp Hn M N B NB Cap.
  - destruct todo; [|discriminate]. simpl.
    exists mp, [], [], rest, bfree. simpl in *.
    split; [reflexivity|]. split; [exact M|]. split; [exact N|].
    split; [exact B|]. split; [lia|]. split; [constructor|].
    split; [constructor|]. split; [constructor|].
    split; [apply same_setup_refl|]. split; reflexivity.
  - destruct todo as [|e t]; [discriminate|].
    simpl in Hn. injection Hn as Hn.
    cbn [score_captures_loop]. rewrite M.
    assert (R0 : read (done ++ (e :: t) ++ rest) (Z.of_nat (length done)) = Ret e)
      by apply read_app_head.
    rewrite R0. cbn [bind].
    destruct (see (pos mp) (move e) >=? 0) eqn:Hsee.
    + (* winning or equal capture *)
      set (e1 := set_score e (mvv_lva (pos mp) (move e))).
      assert (W0 : write (done ++ (e :: t) ++ rest) (Z.of_nat (length done)) e1
                   = Ret (done ++ (e1 :: t) ++ rest)) by apply write_app_head.
      rewrite W0. cbn [bind].
      set (mp1 := with_moves mp (done ++ (e1 :: t) ++ rest)).
      assert (Cap1 : (length (filter (losing (pos mp1)) t) <= length bfree)%nat).
      { simpl in Cap. unfold losing in Cap at 1. unfold losing_move in Cap at 1.
        destruct (see (pos mp) (move e) <? 0) eqn:L; simpl in Cap.
        - apply Z.ltb_lt in L. apply Z.geb_le in Hsee. lia.
        - exact Cap. }
      destruct (IH t (done ++ [e1]) rest bdone bfree mp1 Hn)
        as (mp' & goods & bads & rest' & bfree' & E & M' & N' & B' & NB'
            & Pm & G & Bd & SS & PI & Lg); try assumption.
      { cbn [moves mp1 with_moves]. rewrite <- app_assoc. reflexivity. }
      { cbn [numOfMoves mp1 with_moves]. rewrite N, length_app. simpl. lia. }
      rewrite length_app in E. simpl length in E.
      replace (Z.of_nat (length done + 1)) with (Z.of_nat (length done) + 1)
        in E by lia.
      exists mp', (e1 :: goods), bads, rest', bfree'.
      split; [exact E|].
      split; [rewrite M', <- app_assoc; reflexivity|].
      split; [rewrite N', length_app; simpl; lia|].
      split; [exact B'|]. split; [exact NB'|].
      split; [simpl; apply perm_skip; exact Pm|].
      split.
      { constructor; [|exact G]. unfold scored_good. simpl.
        apply Z.geb_le in Hsee. split; [lia|reflexivity]. }
      split; [exact Bd|].
      split; [|split; [exact PI|simpl; rewrite Lg; reflexivity]].
      eapply same_setup_trans; [|exact SS].
      unfold same_setup; simpl; tauto.
    + (* losing capture *)
      assert (Hneg : see (pos mp) (move e) < 0).
      { destruct (Z_lt_ge_dec (see (pos mp) (move e)) 0) as [L|L]; [exact L|].
        apply Z.ge_le, Z.geb_le in L. congruence. }
      set (e' := set_score e (see (pos mp) (move e))).
      assert (Cap0 : (S (length (filter (losing (pos mp)) t)) <= length bfree)%nat).
      { simpl in Cap. unfold losing in Cap at 1. unfold losing_move in Cap at 1.
        apply Z.ltb_lt in Hneg. rewrite Hneg in Cap. exact Cap. }
      destruct bfree as [|b0 bfree0]; [simpl in Cap0; lia|].
      rewrite B, NB.
      assert (WB : write (bdone ++ b0 :: bfree0) (Z.of_nat (length bdone)) e'
                   = Ret (bdone ++ e' :: bfree0)) by apply write_app_head.
      rewrite WB. cbn [bind].
      assert (W1 : write (done ++ (e :: t) ++ rest) (Z.of_nat (length done)) e'
                   = Ret (done ++ (e' :: t) ++ rest)) by apply write_app_head.
      rewrite W1. cbn [bind]. rewrite N.
      destruct (last_or_nil t) as [Et|(mid & l & Et)].
      * (* the capture is the last of the bucket *)
        subst t. simpl in Hn. subst n.
        simpl length. 
        replace (Z.of_nat (length done) + Z.of_nat 1 - 1)
          with (Z.of_nat (length done)) by lia.
        assert (R1 : read (done ++ [e'] ++ rest) (Z.of_nat (length done)) = Ret e')
          by apply read_app_head.
        rewrite R1. cbn [bind].
        assert (W2 : write (done ++ [e'] ++ rest) (Z.of_nat (length done)) e'
                     = Ret (done ++ [e'] ++ rest)) by apply write_app_head.
        rewrite W2. cbn [bind]. cbn [score_captures_loop].
        eexists _, [], [e'], (e' :: rest), bfree0.
        split; [reflexivity|].
        cbn [moves numOfMoves badCaptures numOfBadCaptures phaseIndex
             with_numOfMoves with_moves with_numOfBadCaptures with_badCaptures].
        split; [reflexivity|]. split; [simpl; lia|].
        split; [reflexivity|]. split; [simpl; lia|].
        split; [simpl; apply Permutation_refl|].
        split; [constructor|].
        split; [constructor; [|constructor]; unfold scored_bad; simpl; auto|].
        split; [unfold same_setup; simpl; tauto|]. split; reflexivity.
      * (* the last entry of the bucket takes its place *)
        subst t.
        assert (Hlen : Z.of_nat (length done)
                       + Z.of_nat (length (e :: mid ++ [l])) - 1
                       = Z.of_nat (length done) + Z.of_nat (S (length mid))).
        { simpl length. rewrite length_app. simpl. lia. }
        rewrite Hlen.
        assert (R1 : read (done ++ (e' :: mid ++ [l]) ++ rest)
                       (Z.of_nat (length done) + Z.of_nat (S (length mid)))
                     = Ret l).
        { apply read_app_inner. simpl.
          rewrite nth_error_app2 by lia. rewrite Nat.sub_diag. reflexivity. }
        rewrite R1. cbn [bind].
        assert (W2 : write (done ++ (e' :: mid ++ [l]) ++ rest)
                       (Z.of_nat (length done)) l
                     = Ret (done ++ (l :: mid ++ [l]) ++ rest))
          by apply write_app_head.
        rewrite W2. cbn [bind].
        match goal with
        | |- context [score_captures_loop n _ ?s] => set (mp1 := s)
        end.
        assert (Cap1 : (length (filter (losing (pos mp1)) (l :: mid))
                        <= length bfree0)%nat).
        { cbn [pos mp1 with_numOfMoves with_moves with_numOfBadCaptures
               with_badCaptures].
          rewrite (filter_length_perm _ (l :: mid) (mid ++ [l])).
          - simpl in Cap0. lia.
          - apply Permutation_cons_append. }
        destruct (IH (l :: mid) done (l :: rest) (bdone ++ [e']) bfree0 mp1)
          as (mp' & goods & bads & rest' & bfree' & E & M' & N' & B' & NB'
              & Pm & G & Bd & SS & PI & Lg); try assumption.
        { simpl. rewrite length_app in Hn. simpl in Hn. lia. }
        { cbn [moves mp1 with_numOfMoves with_moves]. simpl.
          rewrite <- !app_assoc. reflexivity. }
        { cbn [numOfMoves mp1 with_numOfMoves]. simpl length. lia. }
        { cbn [badCaptures mp1 with_numOfMoves with_moves with_numOfBadCaptures
               with_badCaptures]. rewrite <- app_assoc. reflexivity. }
        { cbn [numOfBadCaptures mp1 with_numOfMoves with_moves
               with_numOfBadCaptures]. rewrite length_app. simpl. lia. }
        exists mp', goods, (e' :: bads), rest', bfree'.
        split; [exact E|]. split; [exact M'|]. split; [exact N'|].
        split; [rewrite B', <- app_assoc; reflexivity|].
        split; [rewrite NB', length_app; simpl; lia|].
        split.
        { simpl. rewrite map_app. simpl.
          eapply perm_trans;
            [apply perm_skip; apply Permutation_sym;
             apply Permutation_cons_append|].
          simpl in Pm.
          eapply perm_trans; [apply perm_skip; exact Pm|].
          apply Permutation_cons_app. apply Permutation_refl. }
        split; [exact G|].
        split; [constructor; [unfold scored_bad; simpl; auto|exact Bd]|].
        split; [|split; [exact PI|]].
        { eapply same_setup_trans; [|exact SS].
          unfold same_setup; simpl; tauto. }
        rewrite Lg, !length_app. simpl. rewrite !length_app. simpl. lia.
Qed.

Lemma score_captures_loop_spec_phase n : forall i mp mp',
  score_captures_loop n i mp = Ret mp' -> phaseIndex mp' = phaseIndex mp.
Proof.
  induction n as [|n IH]; simpl; intros i mp mp' H.
  - inversion H; reflexivity.
  - bind_inv H; apply IH in H; simpl in H; exact H.
Qed.

(** One pass of the loop of [score_captures] over a capture that loses
    material: the entry, scored by its SEE, is appended to [badCaptures];
    the last entry of the bucket takes its slot in [moves]; the bucket is
    one entry shorter and the pass that follows looks at the same slot. *)
Lemma score_captures_pass_losing (n : nat) (i : Z) (s : MovePicker)
    (e l0 : MoveStack) :
  aget (moves s) i = Some e ->
  see (pos s) (move e) < 0 ->
  aget (moves s) (numOfMoves s - 1) = Some l0 ->
  0 <= numOfBadCaptures s < Z.of_nat (length (badCaptures s)) ->
  exists s',
    score_captures_loop (S n) i s = score_captures_loop n i s'
    /\ aget (badCaptures s') (numOfBadCaptures s)
       = Some (set_score e (see (pos s) (move e)))
    /\ numOfBadCaptures s' = numOfBadCaptures s + 1
    /\ numOfMoves s' = numOfMoves s - 1
    /\ aget (moves s') i
       = Some (if i =? numOfMoves s - 1
               then set_score e (see (pos s) (move e)) else l0)
    /\ (forall j, j <> i -> aget (moves s') j = aget (moves s) j)
    /\ (forall j, j <> numOfBadCaptures s ->
                  aget (badCaptures s') j = aget (badCaptures s) j).
Proof.
  intros Ei Hsee El Hb.
  set (e' := set_score e (see (pos s) (move e))).
  pose proof (aget_bounds _ _ _ Ei) as Bi.
  pose proof (aget_bounds _ _ _ El) as Bl.
  pose proof (aset_in_bounds (badCaptures s) (numOfBadCaptures s) e' Hb) as Wb.
  pose proof (aset_in_bounds (moves s) i e' Bi) as W1.
  set (bc := replace_nth (Z.to_nat (numOfBadCaptures s)) (badCaptures s) e')
    in Wb.
  set (mv1 := replace_nth (Z.to_nat i) (moves s) e') in W1.
  assert (L1 : length mv1 = length (moves s)) by (eapply aset_length; eauto).
  set (l := if i =? numOfMoves s - 1 then e' else l0).
  assert (Rl : aget mv1 (numOfMoves s - 1) = Some l).
  { unfold l. destruct (i =? numOfMoves s - 1) eqn:Q.
    - apply Z.eqb_eq in Q. rewrite <- Q. eapply aget_aset_same; eauto.
    - apply Z.eqb_neq in Q.
      rewrite (aget_aset_other _ _ _ _ _ W1) by congruence. exact El. }
  assert (Bi1 : 0 <= i < Z.of_nat (length mv1)) by (rewrite L1; exact Bi).
  pose proof (aset_in_bounds mv1 i l Bi1) as W2.
  set (mv := replace_nth (Z.to_nat i) mv1 l) in W2.
  exists (with_numOfMoves
            (with_moves
               (with_numOfBadCaptures (with_badCaptures s bc)
                  (numOfBadCaptures s + 1)) mv)
            (numOfMoves s - 1)).
  split.
  { cbn [score_captures_loop]. unfold read, write.
    rewrite Ei. cbn [bind].
    assert (Q : (see (pos s) (move e) >=? 0) = false).
    { rewrite Z.geb_leb. apply Z.leb_gt. exact Hsee. }
    rewrite Q. fold e'. rewrite Wb. cbn [bind]. rewrite W1. cbn [bind].
    rewrite Rl. cbn [bind]. rewrite W2. reflexivity. }
  cbn [badCaptures moves numOfMoves numOfBadCaptures with_numOfMoves
       with_moves with_numOfBadCaptures with_badCaptures].
  split; [eapply aget_aset_same; eauto|].
  split; [reflexivity|]. split; [reflexivity|].
  split; [eapply aget_aset_same; eauto|].
  split.
  - intros j Hj. rewrite (aget_aset_other _ _ _ _ _ W2 Hj).
    apply (aget_aset_other _ _ _ _ _ W1 Hj).
  - intros j Hj. apply (aget_aset_other _ _ _ _ _ Wb Hj).
Qed.

(** ** Filling and scoring the bucket *)

Lemma store_moves_spec (ms : list Move) : forall buf,
  (length ms <= length buf)%nat ->
  exists filled rest,
    store_moves buf ms = Ret (filled ++ rest)
    /\ map move filled = ms
    /\ length (filled ++ rest) = length buf.
Proof.
  induction ms as [|m ms IH]; intros buf H.
  - exists [], buf. simpl. auto.
  - destruct buf as [|e buf]; [simpl in H; lia|].
    destruct (IH buf) as (filled & rest & E & Mv & Len); [simpl in H; lia|].
    exists ({| move := m; score := score e |} :: filled), rest.
    simpl. rewrite E. simpl. rewrite Mv, Len. auto.
Qed.

Lemma generate_spec (mp : MovePicker) (ms : list Move) :
  (length ms <= length (moves mp))%nat ->
  exists filled rest,
    generate mp ms
    = Ret (with_numOfMoves (with_moves mp (filled ++ rest))
             (Z.of_nat (length ms)))
    /\ map move filled = ms
    /\ length (filled ++ rest) = length (moves mp).
Proof.
  intros H. destruct (store_moves_spec ms (moves mp) H)
    as (filled & rest & E & Mv & Len).
  exists filled, rest. unfold generate. rewrite E. simpl. auto.
Qed.

Lemma score_loop_spec (f : Move -> Z) (todo : list MoveStack) :
  forall done rest,
    score_loop f (length todo) (Z.of_nat (length done)) (done ++ todo ++ rest)
    = Ret (done ++ map (rescored f) todo ++ rest).
Proof.
  induction todo as [|e t IH]; intros done rest; simpl.
  - reflexivity.
  - pose proof (read_app_head done (t ++ rest) e) as R.
    pose proof (write_app_head done (t ++ rest) e (rescored f e)) as W.
    simpl in R, W. rewrite R. cbn [bind].
    unfold rescored in W at 1. rewrite W. cbn [bind].
    specialize (IH (done ++ [rescored f e]) rest).
    rewrite length_app in IH. simpl in IH.
    replace (Z.of_nat (length done + 1)) with (Z.of_nat (length done) + 1)
      in IH by lia.
    rewrite <- !app_assoc in IH. simpl in IH. exact IH.
Qed.

Lemma map_move_rescored (f : Move -> Z) (l : list MoveStack) :
  map move (map (rescored f) l) = map move l.
Proof. rewrite map_map. apply map_ext. reflexivity. Qed.

(** Generating [ms] and scoring with [f] leaves the bucket holding [ms] in
    order, each move with score [f]. *)
Lemma generate_score_with (f : Move -> Z) (mp : MovePicker) (ms : list Move) :
  (length ms <= length (moves mp))%nat ->
  exists win rest mp1,
    bind (generate mp ms) (score_with f) = Ret mp1
    /\ layout (with_movesPicked mp1 0) [] win rest
    /\ map move win = ms
    /\ Forall (fun e => score e = f (move e)) win
    /\ same_setup mp mp1
    /\ phaseIndex mp1 = phaseIndex mp
    /\ badCaptures mp1 = badCaptures mp
    /\ numOfBadCaptures mp1 = numOfBadCaptures mp
    /\ badCapturesPicked mp1 = badCapturesPicked mp
    /\ length (moves mp1) = length (moves mp).
Proof.
  intros H. destruct (generate_spec mp ms H) as (filled & rest & E & Mv & Len).
  rewrite E. cbn [bind]. unfold score_with.
  cbn [numOfMoves moves with_numOfMoves with_moves].
  rewrite Nat2Z.id.
  assert (Lf : length ms = length filled) by (rewrite <- Mv, length_map; auto).
  rewrite Lf.
  pose proof (score_loop_spec f filled [] rest) as S. simpl in S.
  rewrite S. cbn [bind].
  eexists (map (rescored f) filled), rest, _.
  split; [reflexivity|].
  split.
  { unfold layout. simpl. rewrite length_map. auto. }
  split; [rewrite map_move_rescored; exact Mv|].
  split.
  { rewrite Forall_forall. intros e He. apply in_map_iff in He.
    destruct He as (e0 & <- & _). reflexivity. }
  split; [unfold same_setup; simpl; tauto|].
  repeat (split; [reflexivity|]).
  cbn [moves with_moves]. rewrite <- Len, !length_app, length_map.
  reflexivity.
Qed.

(** ** Where the table sends a picker *)

Lemma pick_move_from_list_phase mp m mp' :
  pick_move_from_list mp = Ret (m, mp') -> phaseIndex mp' = phaseIndex mp.
Proof.
  unfold pick_move_from_list. intros H. bind_inv H.
  assert (PL : forall choose accept n s m s',
             pick_loop choose accept n s = Ret (m, s') ->
             phaseIndex s' = phaseIndex s).
  { intros choose accept n. induction n as [|n IH]; simpl; intros s m0 s' H0.
    - inversion H0; reflexivity.
    - bind_inv H0; [inversion H0; reflexivity|].
      apply IH in H0. exact H0. }
  assert (FL : forall accept n s m s',
             front_loop accept n s = Ret (m, s') ->
             phaseIndex s' = phaseIndex s).
  { intros accept n. induction n as [|n IH]; simpl; intros s m0 s' H0.
    - inversion H0; reflexivity.
    - bind_inv H0; [inversion H0; reflexivity|].
      apply IH in H0. exact H0. }
  assert (BL : forall accept n s m s',
             bad_loop accept n s = Ret (m, s') ->
             phaseIndex s' = phaseIndex s).
  { intros accept n. induction n as [|n IH]; simpl; intros s m0 s' H0.
    - inversion H0; reflexivity.
    - bind_inv H0; [inversion H0; reflexivity|].
      apply IH in H0. exact H0. }
  phase_cases H; try (inversion H; reflexivity); eauto.
Qed.

Lemma next_phase_index mp r :
  next_phase mp = Ret r ->
  match r with
  | inl (_, mp') => phaseIndex mp' = phaseIndex mp + 1
  | inr mp' => phaseIndex mp' = phaseIndex mp + 1
  end.
Proof.
  unfold next_phase. intros H. bind_inv H.
  phase_cases H; bind_inv H; inversion H; subst; clear H; try reflexivity;
    repeat match goal with
    | E : generate _ _ = Ret _ |- _ =>
        unfold generate in E; bind_inv E; inversion E; subst; clear E
    | E : score_captures _ = Ret _ |- _ =>
        unfold score_captures in E;
        let H := fresh in
        pose proof E as H;
        apply score_captures_loop_spec_phase in H; clear E
    | E : score_noncaptures _ = Ret _ |- _ =>
        unfold score_noncaptures, score_with in E; bind_inv E;
        inversion E; subst; clear E
    | E : score_evasions _ = Ret _ |- _ =>
        unfold score_evasions, score_with in E; bind_inv E;
        inversion E; subst; clear E
    | E : score_qcaptures _ = Ret _ |- _ =>
        unfold score_qcaptures, score_with in E; bind_inv E;
        inversion E; subst; clear E
    end; simpl in *; try congruence.
Qed.

Lemma get_next_move_loop_monotone n : forall mp m mp',
  get_next_move_loop n mp = Ret (m, mp') -> phaseIndex mp <= phaseIndex mp'.
Proof.
  induction n as [|n IH]; simpl; intros mp m mp' H; [discriminate|].
  destruct (pick_move_from_list mp) as [[m0 mp0]| |] eqn:E;
    simpl in H; try discriminate.
  apply pick_move_from_list_phase in E.
  destruct (negb (m0 =? MOVE_NONE)).
  - inversion H; subst; lia.
  - destruct (next_phase mp0) as [[[m1 mp1]|mp1]| |] eqn:E1;
      simpl in H; try discriminate; apply next_phase_index in E1.
    + inversion H; subst. lia.
    + apply IH in H. lia.
Qed.

(** The phase index never goes back. *)
Lemma get_next_move_monotone mp m mp' :
  get_next_move mp = Ret (m, mp') -> phaseIndex mp <= phaseIndex mp'.
Proof. apply get_next_move_loop_monotone. Qed.

(** ** Losing captures *)

Lemma bad_layout_bucket mp pre win post :
  bad_layout mp pre win post -> bad_bucket mp = win.
Proof.
  intros (M & P & N). unfold bad_bucket. rewrite M, P, N. apply slice_app.
Qed.

Lemma bad_bucket_layout mp :
  bad_bucket_ok mp -> exists pre post, bad_layout mp pre (bad_bucket mp) post.
Proof.
  intros [H1 H2].
  destruct (slice_split (badCaptures mp) (badCapturesPicked mp)
              (numOfBadCaptures mp) H1 H2) as (pre & post & E & L1 & L2).
  exists pre, post. unfold bad_layout, bad_bucket.
  repeat split; [exact E|lia|lia].
Qed.

Lemma layout_ok mp pre win post : layout mp pre win post -> bucket_ok mp.
Proof.
  intros (M & P & N). unfold bucket_ok. rewrite M, P, N, !length_app. lia.
Qed.

Lemma bad_layout_ok mp pre win post :
  bad_layout mp pre win post -> bad_bucket_ok mp.
Proof.
  intros (M & P & N). unfold bad_bucket_ok. rewrite M, P, N, !length_app. lia.
Qed.

(** The BAD_CAPTURES loop returns: it yields the first accepted entry of
    [badCaptures] not yet read, or ends with all of them rejected. *)
Lemma bad_loop_run accept (win : list MoveStack) : forall mp pre post,
  bad_layout mp pre win post ->
  exists m mp' pre' win' rejected,
    bad_loop accept (length win) mp = Ret (m, mp')
    /\ bad_layout mp' pre' win' post
    /\ same_phase mp mp'
    /\ badCaptures mp' = badCaptures mp
    /\ moves mp' = moves mp /\ movesPicked mp' = movesPicked mp
    /\ Forall (fun e => accept (move e) = false) rejected
    /\ ((exists e, m = move e /\ accept (move e) = true
                   /\ win = rejected ++ e :: win')
        \/ (m = MOVE_NONE /\ win' = [] /\ win = rejected)).
Proof.
  induction win as [|e t IH]; intros mp pre post L.
  - exists MOVE_NONE, mp, pre, [], []. simpl.
    split; [reflexivity|]. split; [exact L|]. split; [apply same_phase_refl|].
    repeat (split; [reflexivity|]). split; [constructor|]. right. auto.
  - pose proof L as (M & P & N).
    set (mp1 := with_badCapturesPicked mp (badCapturesPicked mp + 1)).
    assert (Step : bad_loop accept (length (e :: t)) mp
                   = if accept (move e) then Ret (move e, mp1)
                     else bad_loop accept (length t) mp1).
    { unfold mp1. cbn [length bad_loop]. rewrite M, P.
      pose proof (read_app_head pre (t ++ post) e) as R. simpl in R.
      simpl. rewrite R. reflexivity. }
    rewrite Step.
    assert (L1 : bad_layout mp1 (pre ++ [e]) t post).
    { unfold bad_layout, mp1. simpl. rewrite M, N, P, <- app_assoc, length_app.
      simpl. repeat split; lia. }
    assert (SP : same_phase mp mp1).
    { unfold same_phase, same_setup, mp1. simpl. tauto. }
    destruct (accept (move e)) eqn:Acc.
    + exists (move e), mp1, (pre ++ [e]), t, [].
      split; [reflexivity|]. split; [exact L1|]. split; [exact SP|].
      repeat (split; [reflexivity|]). split; [constructor|].
      left. exists e. auto.
    + destruct (IH mp1 (pre ++ [e]) post L1)
        as (m & mp' & pre' & win' & rej & E & L' & SP' & B' & Mv' & Mp' & R' & C).
      clear Step.
      exists m, mp', pre', win', (e :: rej).
      split; [exact E|]. split; [exact L'|].
      split; [exact (same_phase_trans _ _ _ SP SP')|].
      split; [rewrite B'; reflexivity|].
      split; [rewrite Mv'; reflexivity|].
      split; [rewrite Mp'; reflexivity|].
      split; [constructor; assumption|].
      destruct C as [(e' & Em & Acc' & Ew)|(Em & Ew' & Ew)].
      * left. exists e'. subst t. auto.
      * right. subst t. auto.
Qed.

(** ** What the calls do to [badCaptures] *)

Lemma pick_move_from_list_bad mp m mp' :
  pick_move_from_list mp = Ret (m, mp') ->
  badCaptures mp' = badCaptures mp
  /\ numOfBadCaptures mp' = numOfBadCaptures mp.
Proof.
  unfold pick_move_from_list. intros H. bind_inv H.
  assert (PL : forall choose accept n s m s',
             pick_loop choose accept n s = Ret (m, s') ->
             badCaptures s' = badCaptures s
             /\ numOfBadCaptures s' = numOfBadCaptures s).
  { intros choose accept n. induction n as [|n IH]; simpl; intros s m0 s' H0.
    - inversion H0; auto.
    - bind_inv H0; [inversion H0; auto|]. apply IH in H0. exact H0. }
  assert (FL : forall accept n s m s',
             front_loop accept n s = Ret (m, s') ->
             badCaptures s' = badCaptures s
             /\ numOfBadCaptures s' = numOfBadCaptures s).
  { intros accept n. induction n as [|n IH]; simpl; intros s m0 s' H0.
    - inversion H0; auto.
    - bind_inv H0; [inversion H0; auto|]. apply IH in H0. exact H0. }
  assert (BL : forall accept n s m s',
             bad_loop accept n s = Ret (m, s') ->
             badCaptures s' = badCaptures s
             /\ numOfBadCaptures s' = numOfBadCaptures s).
  { intros accept n. induction n as [|n IH]; simpl; intros s m0 s' H0.
    - inversion H0; auto.
    - bind_inv H0; [inversion H0; auto|]. apply IH in H0. exact H0. }
  phase_cases H; try (inversion H; auto); eauto.
Qed.

Lemma next_phase_bad mp r :
  next_phase mp = Ret r ->
  aget (PhaseTable G) (phaseIndex mp + 1) <> Some PH_GOOD_CAPTURES ->
  match r with
  | inl (_, mp') | inr mp' =>
      badCaptures mp' = badCaptures mp
      /\ numOfBadCaptures mp' = numOfBadCaptures mp
  end.
Proof.
  unfold next_phase. intros H Hne.
  cbn [phaseIndex with_phaseIndex] in H.
  unfold read in H at 1.
  destruct (aget (PhaseTable G) (phaseIndex mp + 1)) as [ph|] eqn:E;
    [|discriminate].
  cbn [bind] in H.
  destruct ph; try congruence; bind_inv H; inversion H; subst; clear H;
    try (split; reflexivity);
    repeat match goal with
    | E : generate _ _ = Ret _ |- _ =>
        unfold generate in E; bind_inv E; inversion E; subst; clear E
    | E : score_noncaptures _ = Ret _ |- _ =>
        unfold score_noncaptures, score_with in E; bind_inv E;
        inversion E; subst; clear E
    | E : score_evasions _ = Ret _ |- _ =>
        unfold score_evasions, score_with in E; bind_inv E;
        inversion E; subst; clear E
    | E : score_qcaptures _ = Ret _ |- _ =>
        unfold score_qcaptures, score_with in E; bind_inv E;
        inversion E; subst; clear E
    end; simpl; auto.
Qed.

Lemma filter_losing_map (p : Position) (l : list MoveStack) :
  length (filter (losing p) l)
  = length (filter (losing_move p) (map move l)).
Proof.
  induction l as [|e t IH]; simpl; [reflexivity|].
  unfold losing at 1. destruct (losing_move p (move e)); simpl; congruence.
Qed.

(** Entering GOOD_CAPTURES: the captures with SEE >= 0 make the bucket, in
    MVV/LVA score; those with SEE < 0 are appended to [badCaptures], in SEE
    score. *)
Lemma enter_good_captures (mp : MovePicker) :
  phaseIndex mp = 1 ->
  numOfBadCaptures mp = 0 ->
  (length (generate_captures (pos mp)) <= length (moves mp))%nat ->
  (length (filter (losing_move (pos mp)) (generate_captures (pos mp)))
   <= length (badCaptures mp))%nat ->
  exists mp1 goods bads rest bfree,
    next_phase mp = Ret (inr mp1)
    /\ phaseIndex mp1 = 2
    /\ same_setup mp mp1
    /\ layout mp1 [] goods rest
    /\ badCaptures mp1 = bads ++ bfree
    /\ numOfBadCaptures mp1 = Z.of_nat (length bads)
    /\ Permutation (generate_captures (pos mp))
         (map move goods ++ map move bads)
    /\ Forall (scored_good (pos mp)) goods
    /\ Forall (scored_bad (pos mp)) bads
    /\ length (moves mp1) = length (moves mp).
Proof.
  intros PI NB Cm Cb. unfold next_phase.
  cbn [phaseIndex with_phaseIndex pos]. rewrite PI.
  change (read (PhaseTable G) (1 + 1)) with (Ret PH_GOOD_CAPTURES).
  cbn [bind].
  set (mp0 := with_phaseIndex mp (1 + 1)).
  destruct (generate_spec mp0 (generate_captures (pos mp)) Cm)
    as (filled & rest & E & Mv & Len).
  rewrite E. cbn [bind]. unfold score_captures.
  cbn [numOfMoves with_numOfMoves]. rewrite Nat2Z.id.
  assert (Lf : length (generate_captures (pos mp)) = length filled)
    by (rewrite <- Mv, length_map; auto).
  rewrite Lf.
  match goal with
  | |- context [score_captures_loop _ 0 ?s] => set (mpg := s)
  end.
  assert (H1 : moves mpg = [] ++ filled ++ rest) by reflexivity.
  assert (H2 : numOfMoves mpg
               = Z.of_nat (length (@nil MoveStack)) + Z.of_nat (length filled))
    by (unfold mpg; simpl; lia).
  assert (H3 : badCaptures mpg = [] ++ badCaptures mp) by reflexivity.
  assert (H4 : numOfBadCaptures mpg = Z.of_nat (length (@nil MoveStack)))
    by exact NB.
  assert (H5 : (length (filter (losing (pos mpg)) filled)
                <= length (badCaptures mp))%nat).
  { unfold mpg. cbn [pos with_numOfMoves with_moves mp0 with_phaseIndex].
    rewrite filter_losing_map, Mv. exact Cb. }
  destruct (score_captures_loop_spec (length filled) filled [] rest []
              (badCaptures mp) mpg eq_refl H1 H2 H3 H4 H5)
    as (mp' & goods & bads & rest' & bfree' & E' & M' & N' & B' & NB'
        & Pm & Gd & Bd & SS & PI' & Lg).
  simpl in E'. rewrite E'. cbn [bind].
  exists (with_movesPicked mp' 0), goods, bads, rest', bfree'.
  split; [reflexivity|].
  simpl in N', NB', M', B'.
  split; [cbn [phaseIndex with_movesPicked]; rewrite PI'; reflexivity|].
  split.
  { eapply same_setup_trans with (b := mpg);
      [unfold same_setup, mpg; simpl; tauto|].
    eapply same_setup_trans; [exact SS|].
    unfold same_setup; simpl; tauto. }
  split; [unfold layout; simpl; auto|].
  split; [exact B'|]. split; [exact NB'|].
  split; [rewrite <- Mv; exact Pm|].
  split; [assumption|]. split; [assumption|].
  cbn [moves with_movesPicked]. rewrite M'. simpl.
  rewrite Lg, Len. reflexivity.
Qed.

(** ** The main-search row from GOOD_CAPTURES on *)

Lemma accept_main_setup (a b : MovePicker) (m : Move) :
  same_setup a b -> accept_main b m = accept_main a m.
Proof.
  intros (P & _ & T & K & _ & _ & _ & _ & Pin & _).
  unfold accept_main. rewrite P, T, K, Pin. reflexivity.
Qed.

Lemma PhaseTable_main_row :
  aget (PhaseTable G) 2 = Some PH_GOOD_CAPTURES
  /\ aget (PhaseTable G) 3 = Some PH_NONCAPTURES
  /\ aget (PhaseTable G) 4 = Some PH_BAD_CAPTURES
  /\ aget (PhaseTable G) 5 = Some PH_STOP.
Proof. repeat split; reflexivity. Qed.

(** A call of [pick_move_from_list] inside the row returns, and what it
    yields in GOOD_CAPTURES or BAD_CAPTURES is an accepted entry of the
    respective list. *)
Lemma pick_in_main_row mp goods bads s :
  Forall selectable goods ->
  in_main_row mp goods bads s ->
  (phaseIndex s = 2 \/ phaseIndex s = 4 ->
   exists m s', pick_move_from_list s = Ret (m, s'))
  /\ forall m s',
       pick_move_from_list s = Ret (m, s') ->
       in_main_row mp goods bads s'
       /\ (m <> MOVE_NONE -> yield_ok mp goods bads (m, phaseIndex s')).
Proof.
  intros Hsel (SS & PI & SB & NB & H2 & H4).
  assert (Cases : phaseIndex s = 2 \/ phaseIndex s = 3 \/ phaseIndex s = 4
                  \/ phaseIndex s = 5) by lia.
  destruct Cases as [C|[C|[C|C]]].
  - (* GOOD_CAPTURES *)
    destruct (H2 C) as ([B1 B2] & Inc).
    destruct (bucket_layout s B1 B2) as (pre & post & L).
    assert (Hw : Forall selectable (bucket s)).
    { rewrite Forall_forall in *. auto. }
    destruct (pick_loop_run find_best_index (accept_main s)
                (fun _ => by_score)
                (fun mp0 pre0 win0 post0 L0 N0 S0 =>
                   choose_best mp0 pre0 win0 post0 L0 N0 S0)
                (remaining s) s pre (bucket s) post L Hw
                (layout_remaining _ _ _ _ L))
      as (m & s' & pre' & win' & rej & E & L' & (SS' & PI' & NM' & NB')
          & B' & BP' & R & Cs).
    assert (P : pick_move_from_list s = Ret (m, s')).
    { unfold pick_move_from_list. rewrite C.
      change (read (PhaseTable G) 2) with (Ret PH_GOOD_CAPTURES).
      exact E. }
    split; [intros _; eauto|].
    intros m0 s0 P0. rewrite P in P0. inversion P0; subst m0 s0. clear P0.
    assert (Inc' : incl (bucket s') (bucket s)).
    { rewrite (layout_bucket _ _ _ _ L'). intros x Hx.
      destruct Cs as [(e & win0 & _ & _ & P1 & P2 & _)|(_ & Ew & _)].
      - eapply Permutation_in; [apply Permutation_sym; exact P1|].
        apply in_or_app. right.
        eapply Permutation_in; [apply Permutation_sym; exact P2|].
        right. exact Hx.
      - subst win'. contradiction. }
    split.
    + unfold in_main_row. rewrite PI', B', NB'.
      split; [eapply same_setup_trans; eauto|].
      split; [lia|]. split; [exact SB|]. split; [exact NB|].
      split; [|intros; lia].
      intros _. split; [eapply layout_ok; eauto|].
      intros x Hx. apply Inc, Inc'. exact Hx.
    + intros Hm. unfold yield_ok. cbn [fst snd]. rewrite PI'.
      split; [|intros; lia]. intros _.
      destruct Cs as [(e & win0 & Em & Acc & P1 & P2 & _)|(Em & _)];
        [|contradiction].
      exists e. split.
      * apply Inc. eapply Permutation_in; [apply Permutation_sym; exact P1|].
        apply in_or_app. right.
        eapply Permutation_in; [apply Permutation_sym; exact P2|].
        left. reflexivity.
      * split; [exact Em|]. rewrite Em.
        rewrite <- (accept_main_setup mp s) by exact SS. exact Acc.
  - (* NONCAPTURES *)
    split; [intros [?|?]; lia|].
    intros m s' P.
    pose proof (pick_move_from_list_phase _ _ _ P) as PI'.
    pose proof (pick_move_from_list_setup _ _ _ P) as SS'.
    destruct (pick_move_from_list_bad _ _ _ P) as [B' NB'].
    split.
    + unfold in_main_row. rewrite PI', B', NB'.
      split; [eapply same_setup_trans; eauto|].
      repeat split; try lia; try assumption; intros; lia.
    + intros _. unfold yield_ok. cbn [fst snd]. rewrite PI'.
      split; intros; lia.
  - (* BAD_CAPTURES *)
    assert (BO : bad_bucket_ok s) by (unfold bad_bucket_ok; specialize (H4 C); lia).
    destruct (bad_bucket_layout s BO) as (pre & post & L).
    pose proof L as (M0 & P0 & N0).
    assert (Inc : incl (bad_bucket s) bads).
    { rewrite <- SB, M0, N0, slice_0_app. intros x Hx.
      apply in_or_app. right. exact Hx. }
    destruct (bad_loop_run (accept_main s) (bad_bucket s) s pre post L)
      as (m & s' & pre' & win' & rej & E & L' & (SS' & PI' & NM' & NB')
          & B' & Mv' & Mp' & R & Cs).
    assert (P : pick_move_from_list s = Ret (m, s')).
    { unfold pick_move_from_list. rewrite C.
      change (read (PhaseTable G) 4) with (Ret PH_BAD_CAPTURES).
      cbn [bind]. rewrite N0, P0.
      replace (Z.to_nat (Z.of_nat (length pre)
                         + Z.of_nat (length (bad_bucket s))
                         - Z.of_nat (length pre)))
        with (length (bad_bucket s)) by lia.
      exact E. }
    split; [intros _; eauto|].
    intros m0 s0 P1. rewrite P in P1. inversion P1; subst m0 s0. clear P1.
    split.
    + unfold in_main_row. rewrite PI', B', NB'.
      split; [eapply same_setup_trans; eauto|].
      split; [lia|]. split; [exact SB|]. split; [exact NB|].
      split; [intros; lia|]. intros _.
      apply bad_layout_ok in L'. unfold bad_bucket_ok in L'.
      rewrite NB' in L'. lia.
    + intros Hm. unfold yield_ok. cbn [fst snd]. rewrite PI'.
      split; [intros; lia|]. intros _.
      destruct Cs as [(e & Em & Acc & Ew)|(Em & _)]; [|contradiction].
      exists e. split.
      * apply Inc. rewrite Ew. apply in_or_app. right. left. reflexivity.
      * split; [exact Em|]. rewrite Em.
        rewrite <- (accept_main_setup mp s) by exact SS. exact Acc.
  - (* STOP *)
    split; [intros [?|?]; lia|].
    intros m s' P.
    pose proof (pick_move_from_list_phase _ _ _ P) as PI'.
    pose proof (pick_move_from_list_setup _ _ _ P) as SS'.
    destruct (pick_move_from_list_bad _ _ _ P) as [B' NB'].
    split.
    + unfold in_main_row. rewrite PI', B', NB'.
      split; [eapply same_setup_trans; eauto|].
      repeat split; try lia; try assumption; intros; lia.
    + intros _. unfold yield_ok. cbn [fst snd]. rewrite PI'.
      split; intros; lia.
Qed.

Lemma next_phase_in_main_row mp goods bads s r :
  in_main_row mp goods bads s ->
  phaseIndex s + 1 <= 5 ->
  next_phase s = Ret r ->
  match r with
  | inl (_, s') => in_main_row mp goods bads s' /\ phaseIndex s' = 5
  | inr s' => in_main_row mp goods bads s'
  end.
Proof.
  intros (SS & PI & SB & NB & H2 & H4) Hle H.
  pose proof (next_phase_setup _ _ H) as F1.
  pose proof (next_phase_index _ _ H) as F2.
  assert (Hne : aget (PhaseTable G) (phaseIndex s + 1) <> Some PH_GOOD_CAPTURES).
  { assert (C : phaseIndex s = 2 \/ phaseIndex s = 3 \/ phaseIndex s = 4) by lia.
    destruct C as [C|[C|C]]; rewrite C; discriminate. }
  pose proof (next_phase_bad _ _ H Hne) as F3.
  assert (C : phaseIndex s = 2 \/ phaseIndex s = 3 \/ phaseIndex s = 4) by lia.
  destruct C as [C|[C|C]].
  - (* to NONCAPTURES *)
    assert (R : exists s', r = inr s').
    { unfold next_phase in H. cbn [phaseIndex with_phaseIndex] in H.
      rewrite C in H.
      change (read (PhaseTable G) (2 + 1)) with (Ret PH_NONCAPTURES) in H.
      cbn [bind] in H. bind_inv H. inversion H. eauto. }
    destruct R as [s' ->]. destruct F3 as [B' NB'].
    unfold in_main_row. rewrite F2, B', NB'.
    split; [eapply same_setup_trans; eauto|].
    repeat split; try lia; try assumption; intros; lia.
  - (* to BAD_CAPTURES *)
    assert (R : r = inr (with_badCapturesPicked
                           (with_phaseIndex s (phaseIndex s + 1)) 0)).
    { unfold next_phase in H. cbn [phaseIndex with_phaseIndex] in H.
      rewrite C in H.
      change (read (PhaseTable G) (3 + 1)) with (Ret PH_BAD_CAPTURES) in H.
      cbn [bind] in H. inversion H. rewrite C. reflexivity. }
    subst r. unfold in_main_row.
    cbn [phaseIndex badCaptures numOfBadCaptures badCapturesPicked
         with_badCapturesPicked with_phaseIndex].
    split; [exact (same_setup_trans _ _ _ SS F1)|].
    repeat split; try lia; try assumption; intros; lia.
  - (* to STOP *)
    assert (R : r = inl (MOVE_NONE, with_phaseIndex s (phaseIndex s + 1))).
    { unfold next_phase in H. cbn [phaseIndex with_phaseIndex] in H.
      rewrite C in H.
      change (read (PhaseTable G) (4 + 1)) with (Ret PH_STOP) in H.
      cbn [bind] in H. inversion H. rewrite C. reflexivity. }
    subst r. unfold in_main_row.
    cbn [phaseIndex badCaptures numOfBadCaptures badCapturesPicked
         with_phaseIndex].
    split; [|lia].
    split; [exact (same_setup_trans _ _ _ SS F1)|].
    repeat split; try lia; try assumption; intros; lia.
Qed.

Lemma loop_in_main_row mp goods bads (n : nat) : forall s m s',
  Forall selectable goods ->
  in_main_row mp goods bads s ->
  get_next_move_loop n s = Ret (m, s') ->
  phaseIndex s' <= 5 ->
  in_main_row mp goods bads s' /\ yield_ok mp goods bads (m, phaseIndex s').
Proof.
  induction n as [|n IH]; intros s m s' Hsel Inv H Hle; simpl in H;
    [discriminate|].
  destruct (pick_move_from_list s) as [[m0 s0]| |] eqn:P;
    simpl in H; try discriminate.
  destruct (pick_in_main_row mp goods bads s Hsel Inv) as [_ Hp].
  destruct (Hp m0 s0 P) as [Inv0 Y0].
  destruct (negb (m0 =? MOVE_NONE)) eqn:Em.
  - inversion H; subst. split; [exact Inv0|]. apply Y0.
    apply negb_true_iff, Z.eqb_neq in Em. exact Em.
  - destruct (next_phase s0) as [[[m1 s1]|s1]| |] eqn:E1;
      simpl in H; try discriminate.
    + inversion H; subst.
      pose proof (next_phase_index _ _ E1) as I1. simpl in I1.
      destruct (next_phase_in_main_row mp goods bads s0 _ Inv0 ltac:(lia) E1)
        as [Inv1 I5].
      split; [exact Inv1|]. unfold yield_ok. cbn [fst snd].
      split; intros; lia.
    + pose proof (next_phase_index _ _ E1) as I1. simpl in I1.
      pose proof (get_next_move_loop_monotone _ _ _ _ H) as Mo.
      pose proof (next_phase_in_main_row mp goods bads s0 _ Inv0 ltac:(lia) E1)
        as Inv1.
      exact (IH s1 m s' Hsel Inv1 H Hle).
Qed.

Lemma trace_monotone (n : nat) : forall s tr s',
  trace n s = Ret (tr, s') ->
  phaseIndex s <= phaseIndex s'
  /\ Forall (fun y => phaseIndex s <= snd y <= phaseIndex s') tr.
Proof.
  induction n as [|n IH]; intros s tr s' H; simpl in H.
  - inversion H; subst. split; [lia|constructor].
  - destruct (get_next_move s) as [[m1 s1]| |] eqn:E; simpl in H;
      try discriminate.
    destruct (trace n s1) as [[rest s2]| |] eqn:T; simpl in H;
      try discriminate.
    inversion H; subst. apply get_next_move_monotone in E.
    destruct (IH _ _ _ T) as [L F]. split; [lia|].
    constructor; [simpl; lia|].
    eapply Forall_impl; [|exact F]. simpl. intros; lia.
Qed.

(** The phase indices along a trace never decrease. *)
Lemma trace_sorted (n : nat) : forall s tr s',
  trace n s = Ret (tr, s') -> Sorted Z.le (map snd tr).
Proof.
  induction n as [|n IH]; intros s tr s' H; simpl in H.
  - inversion H; subst. constructor.
  - destruct (get_next_move s) as [[m1 s1]| |] eqn:E; simpl in H;
      try discriminate.
    destruct (trace n s1) as [[rest s2]| |] eqn:T; simpl in H;
      try discriminate.
    inversion H; subst. simpl. constructor; [eapply IH; eauto|].
    destruct (trace_monotone _ _ _ _ T) as [_ F].
    destruct rest as [|y rest]; simpl; constructor.
    inversion F; subst. lia.
Qed.

Lemma trace_in_main_row mp goods bads (n : nat) : forall s tr s',
  Forall selectable goods ->
  in_main_row mp goods bads s ->
  trace n s = Ret (tr, s') ->
  phaseIndex s' <= 5 ->
  Forall (yield_ok mp goods bads) tr.
Proof.
  induction n as [|n IH]; intros s tr s' Hsel Inv H Hle; simpl in H.
  - inversion H; subst. constructor.
  - destruct (get_next_move s) as [[m1 s1]| |] eqn:E; simpl in H;
      try discriminate.
    destruct (trace n s1) as [[rest s2]| |] eqn:T; simpl in H;
      try discriminate.
    inversion H; subst.
    destruct (trace_monotone _ _ _ _ T) as [Mo _].
    destruct (loop_in_main_row mp goods bads _ s m1 s1 Hsel Inv E ltac:(lia))
      as [Inv1 Y].
    constructor; [exact Y|]. eapply IH; eauto.
Qed.

Lemma get_next_move_yield s m s' :
  pick_move_from_list s = Ret (m, s') ->
  m <> MOVE_NONE ->
  get_next_move s = Ret (m, s').
Proof.
  intros P Hm. unfold get_next_move.
  assert (B : 0 <= phaseIndex s < Z.of_nat (length (PhaseTable G))).
  { unfold pick_move_from_list, read in P.
    destruct (aget (PhaseTable G) (phaseIndex s)) eqn:E; [|discriminate].
    apply aget_bounds in E. exact E. }
  destruct (Z.to_nat (Z.of_nat (length (PhaseTable G)) - phaseIndex s))
    as [|k] eqn:K; [lia|].
  simpl. rewrite P. simpl.
  apply Z.eqb_neq in Hm. rewrite Hm. reflexivity.
Qed.

(** The first draw of a bucket scored and drawn by best score: the accepted
    entry of greatest score. *)
Lemma first_good_draw s pre win post :
  aget (PhaseTable G) (phaseIndex s) = Some PH_GOOD_CAPTURES ->
  layout s pre win post ->
  Forall selectable win ->
  ~ In MOVE_NONE (map move win) ->
  (exists e, In e win /\ accept_main s (move e) = true) ->
  exists e s',
    get_next_move s = Ret (move e, s')
    /\ phaseIndex s' = phaseIndex s
    /\ In e win
    /\ accept_main s (move e) = true
    /\ forall e', In e' win -> accept_main s (move e') = true ->
                  score e' <= score e.
Proof.
  intros Ph L Hsel Hnone (e0 & In0 & Acc0).
  destruct (pick_loop_run find_best_index (accept_main s)
              (fun _ => by_score)
              (fun mp0 pre0 win0 post0 L0 N0 S0 =>
                 choose_best mp0 pre0 win0 post0 L0 N0 S0)
              (remaining s) s pre win post L Hsel
              (layout_remaining _ _ _ _ L))
    as (m & s' & pre' & win' & rej & E & L' & (SS' & PI' & _) & _ & _ & R & Cs).
  assert (P : pick_move_from_list s = Ret (m, s')).
  { unfold pick_move_from_list, read. rewrite Ph. exact E. }
  assert (NotRej : forall x, In x win -> accept_main s (move x) = true ->
                             ~ In x rej).
  { intros x _ Ax Hx. rewrite Forall_forall in R. rewrite (R x Hx) in Ax.
    discriminate. }
  destruct Cs as [(e & win0 & Em & Acc & P1 & P2 & Q)|(_ & _ & P1)].
  - assert (Ine : In e win).
    { eapply Permutation_in; [apply Permutation_sym; exact P1|].
      apply in_or_app. right.
      eapply Permutation_in; [apply Permutation_sym; exact P2|].
      left. reflexivity. }
    exists e, s'. split.
    { apply get_next_move_yield; [rewrite <- Em; exact P|].
      intros Hm. apply Hnone. rewrite <- Hm. apply in_map. exact Ine. }
    split; [exact PI'|]. split; [exact Ine|]. split; [exact Acc|].
    intros e' In' Acc'.
    assert (In0' : In e' win0).
    { pose proof (Permutation_in _ P1 In') as H.
      apply in_app_or in H. destruct H as [H|H]; [|exact H].
      exfalso. eapply NotRej; eauto. }
    unfold by_score in Q. rewrite Forall_forall in Q. apply Q. exact In0'.
  - exfalso. apply (NotRej e0 In0 Acc0).
    eapply Permutation_in; [exact P1|exact In0].
Qed.

(** C2 (amended).  From the phase before GOOD_CAPTURES, with
    [numOfBadCaptures] as the constructor left it, room for the captures in
    both arrays, scores selectable and no sentinel among the captures:
    entering GOOD_CAPTURES returns; the captures with SEE >= 0 form the
    bucket, each scored MVV/LVA ([QueenValueMidgame] for a promotion), and
    those with SEE < 0 form [badCaptures], each scored by its SEE, the two
    together being the generated captures; a pass of the scoring loop over
    a capture with SEE < 0 appends it to [badCaptures] and puts the last
    entry of the bucket in its slot.  Along any trace that stays in
    the main-search row the phase index never decreases, every move
    returned in GOOD_CAPTURES (index 2) is an accepted entry of the bucket
    and every move returned in BAD_CAPTURES (index 4) an accepted entry of
    [badCaptures]; draws in these two phases return.  The first move
    returned in GOOD_CAPTURES has the greatest score among the bucket's
    entries that are legal and differ from [ttMove] and [mateKiller]. *)
Theorem good_captures_then_bad_captures (mp : MovePicker) :
  phaseIndex mp = 1 ->
  numOfBadCaptures mp = 0 ->
  (length (generate_captures (pos mp)) <= length (moves mp))%nat ->
  (length (filter (losing_move (pos mp)) (generate_captures (pos mp)))
   <= length (badCaptures mp))%nat ->
  (forall m, In m (generate_captures (pos mp)) ->
             -10000000 < mvv_lva (pos mp) m) ->
  ~ In MOVE_NONE (generate_captures (pos mp)) ->
  exists mp1 goods bads,
    next_phase mp = Ret (inr mp1)
    /\ phaseIndex mp1 = 2
    /\ current_move_type mp1 = Ret PH_GOOD_CAPTURES
    /\ aget (PhaseTable G) 4 = Some PH_BAD_CAPTURES
    /\ bucket mp1 = goods
    /\ slice (badCaptures mp1) 0 (numOfBadCaptures mp1) = bads
    /\ Permutation (generate_captures (pos mp))
         (map move goods ++ map move bads)
    /\ Forall (scored_good (pos mp)) goods
    /\ Forall (scored_bad (pos mp)) bads
    /\ (forall n i s e l0,
          aget (moves s) i = Some e ->
          see (pos s) (move e) < 0 ->
          aget (moves s) (numOfMoves s - 1) = Some l0 ->
          0 <= numOfBadCaptures s < Z.of_nat (length (badCaptures s)) ->
          exists s',
            score_captures_loop (S n) i s = score_captures_loop n i s'
            /\ aget (badCaptures s') (numOfBadCaptures s)
               = Some (set_score e (see (pos s) (move e)))
            /\ numOfBadCaptures s' = numOfBadCaptures s + 1
            /\ numOfMoves s' = numOfMoves s - 1
            /\ aget (moves s') i
               = Some (if i =? numOfMoves s - 1
                       then set_score e (see (pos s) (move e)) else l0)
            /\ (forall j, j <> i -> aget (moves s') j = aget (moves s) j)
            /\ (forall j, j <> numOfBadCaptures s ->
                          aget (badCaptures s') j = aget (badCaptures s) j))
    /\ (forall n tr s,
          trace n mp1 = Ret (tr, s) -> phaseIndex s <= 5 ->
          Sorted Z.le (map snd tr) /\ Forall (yield_ok mp goods bads) tr)
    /\ (forall s,
          in_main_row mp goods bads s ->
          phaseIndex s = 2 \/ phaseIndex s = 4 ->
          exists m s', pick_move_from_list s = Ret (m, s'))
    /\ ((exists e, In e goods /\ accept_main mp (move e) = true) ->
        exists e s',
          get_next_move mp1 = Ret (move e, s')
          /\ phaseIndex s' = 2
          /\ In e goods
          /\ accept_main mp (move e) = true
          /\ forall e', In e' goods -> accept_main mp (move e') = true ->
                        score e' <= score e).
Proof.
  intros PI NB Cm Cb Hsc Hnone.
  destruct (enter_good_captures mp PI NB Cm Cb)
    as (mp1 & goods & bads & rest & bfree & E & PI1 & SS & L & B & NB1
        & Pm & Gd & Bd & _).
  pose proof (layout_bucket _ _ _ _ L) as Bk.
  assert (InCaps : forall e, In e goods ->
                             In (move e) (generate_captures (pos mp))).
  { intros e He. eapply Permutation_in; [apply Permutation_sym; exact Pm|].
    apply in_or_app. left. apply in_map. exact He. }
  assert (Hsel : Forall selectable goods).
  { rewrite Forall_forall in *. intros e He. unfold selectable.
    destruct (Gd e He) as [_ Sc]. rewrite Sc. apply Hsc, InCaps, He. }
  assert (SB : slice (badCaptures mp1) 0 (numOfBadCaptures mp1) = bads).
  { rewrite B, NB1.
    pose proof (slice_0_app (@nil MoveStack) bads bfree) as S0.
    simpl in S0. exact S0. }
  assert (Inv : in_main_row mp goods bads mp1).
  { unfold in_main_row. rewrite PI1, Bk.
    split; [exact SS|]. split; [lia|]. split; [exact SB|].
    split; [rewrite B, NB1, length_app; lia|].
    split; [|intros; lia].
    intros _. split; [eapply layout_ok; eauto|apply incl_refl]. }
  exists mp1, goods, bads.
  split; [exact E|]. split; [exact PI1|].
  split; [unfold current_move_type; rewrite PI1; reflexivity|].
  split; [reflexivity|]. split; [exact Bk|]. split; [exact SB|].
  split; [exact Pm|]. split; [exact Gd|]. split; [exact Bd|].
  split; [intros n i s e l0; apply score_captures_pass_losing|].
  split.
  { intros n tr s T Hle. split; [eapply trace_sorted; eauto|].
    eapply trace_in_main_row; eauto. }
  split.
  { intros s Hs Hph.
    destruct (pick_in_main_row mp goods bads s Hsel Hs) as [Tot _].
    exact (Tot Hph). }
  intros (e0 & In0 & Acc0).
  destruct (first_good_draw mp1 [] goods rest) as (e & s' & Ge & Pe & Ie & Ae & Mx).
  - rewrite PI1. reflexivity.
  - exact L.
  - exact Hsel.
  - intros Hin. apply in_map_iff in Hin. destruct Hin as (x & Ex & Hx).
    apply Hnone. rewrite <- Ex. apply InCaps. exact Hx.
  - exists e0. split; [exact In0|].
    rewrite (accept_main_setup mp mp1) by exact SS. exact Acc0.
  - exists e, s'. split; [exact Ge|]. split; [lia|]. split; [exact Ie|].
    split; [rewrite <- (accept_main_setup mp mp1) by exact SS; exact Ae|].
    intros e' In' Acc'. apply Mx; [exact In'|].
    rewrite (accept_main_setup mp mp1) by exact SS. exact Acc'.
Qed.

(** ** QCAPTURES *)

Lemma choose_qsearch mp pre win post :
  layout mp pre win post -> win <> [] -> Forall selectable win ->
  exists j e,
    (if movesPicked mp <? 4 then find_best_index mp else Ret (movesPicked mp))
    = Ret (Z.of_nat (length pre) + Z.of_nat j)
    /\ nth_error win j = Some e
    /\ qsearch_choice (movesPicked mp) e win.
Proof.
  intros L Hne Hsel. destruct (movesPicked mp <? 4) eqn:C.
  - apply Z.ltb_lt in C.
    destruct (choose_best mp pre win post L Hne Hsel) as (j & e & E & N & B).
    exists j, e. split; [exact E|]. split; [exact N|].
    split; [intros _; exact B|intros; lia].
  - apply Z.ltb_ge in C.
    destruct (choose_front mp pre win post L Hne) as (e & E & N).
    exists 0%nat, e. split; [exact E|]. split; [exact N|].
    split; [intros; lia|]. intros _. destruct win; [discriminate|exact N].
Qed.

(** A draw in QCAPTURES returns; the entries it passes over are the illegal
    ones, chosen like the one it yields by [qsearch_choice]. *)
Lemma qcaptures_draw s pre win post :
  aget (PhaseTable G) (phaseIndex s) = Some PH_QCAPTURES ->
  layout s pre win post ->
  Forall selectable win ->
  exists m s' pre' win' rejected,
    pick_move_from_list s = Ret (m, s')
    /\ layout s' pre' win' post
    /\ same_phase s s'
    /\ Forall (fun e => pl_move_is_legal (pos s) (move e) (pinned s) = false)
         rejected
    /\ ((exists e win0,
           m = move e
           /\ pl_move_is_legal (pos s) (move e) (pinned s) = true
           /\ Permutation win (rejected ++ win0)
           /\ Permutation win0 (e :: win')
           /\ qsearch_choice (movesPicked s + Z.of_nat (length rejected))
                e win0)
        \/ (m = MOVE_NONE /\ win' = [] /\ Permutation win rejected)).
Proof.
  intros Ph L Hsel.
  destruct (pick_loop_run
              (fun s0 => if movesPicked s0 <? 4 then find_best_index s0
                         else Ret (movesPicked s0))
              (accept_qsearch s) qsearch_choice
              (fun mp0 pre0 win0 post0 L0 N0 S0 =>
                 choose_qsearch mp0 pre0 win0 post0 L0 N0 S0)
              (remaining s) s pre win post L Hsel
              (layout_remaining _ _ _ _ L))
    as (m & s' & pre' & win' & rej & E & L' & SP & _ & _ & R & Cs).
  exists m, s', pre', win', rej.
  split.
  { unfold pick_move_from_list, read. rewrite Ph. exact E. }
  split; [exact L'|]. split; [exact SP|]. split; [exact R|]. exact Cs.
Qed.

Lemma get_next_move_skip s s0 s1 :
  pick_move_from_list s = Ret (MOVE_NONE, s0) ->
  next_phase s0 = Ret (inr s1) ->
  phaseIndex s1 = phaseIndex s + 1 ->
  get_next_move s = get_next_move s1.
Proof.
  intros P N I. unfold get_next_move.
  assert (B : 0 <= phaseIndex s < Z.of_nat (length (PhaseTable G))).
  { unfold pick_move_from_list, read in P.
    destruct (aget (PhaseTable G) (phaseIndex s)) eqn:E; [|discriminate].
    apply aget_bounds in E. exact E. }
  replace (Z.to_nat (Z.of_nat (length (PhaseTable G)) - phaseIndex s))
    with (S (Z.to_nat (Z.of_nat (length (PhaseTable G)) - phaseIndex s1)))
    by lia.
  simpl. rewrite P. simpl. rewrite Z.eqb_refl. simpl. rewrite N. reflexivity.
Qed.

(** Successive calls in QCAPTURES reach every legal entry of the bucket. *)
Lemma qcaptures_reaches (k : nat) : forall s pre win post target,
  (length win <= k)%nat ->
  aget (PhaseTable G) (phaseIndex s) = Some PH_QCAPTURES ->
  layout s pre win post ->
  Forall selectable win ->
  ~ In MOVE_NONE (map move win) ->
  In target (map move win) ->
  pl_move_is_legal (pos s) target (pinned s) = true ->
  exists n tr s',
    trace (S n) s = Ret (tr ++ [(target, phaseIndex s)], s')
    /\ phaseIndex s' = phaseIndex s.
Proof.
  induction k as [|k IH]; intros s pre win post target Hk Ph L Hsel Hnone Hin Acc.
  - destruct win; [contradiction|simpl in Hk; lia].
  - destruct (qcaptures_draw s pre win post Ph L Hsel)
      as (m & s1 & pre1 & win1 & rej & P & L1 & (SS & PI1 & _) & R & Cs).
    apply in_map_iff in Hin. destruct Hin as (et & Et & Hin).
    assert (NotRej : ~ In et rej).
    { intros Hx. rewrite Forall_forall in R. specialize (R et Hx).
      rewrite Et in R. congruence. }
    destruct Cs as [(e & win0 & Em & AccE & P1 & P2 & _)|(_ & _ & P1)].
    + assert (Ine : In e win).
      { eapply Permutation_in; [apply Permutation_sym; exact P1|].
        apply in_or_app. right.
        eapply Permutation_in; [apply Permutation_sym; exact P2|].
        left. reflexivity. }
      assert (Hm : m <> MOVE_NONE).
      { intros Hm. apply Hnone. rewrite <- Hm, Em. apply in_map. exact Ine. }
      pose proof (get_next_move_yield s m s1 P Hm) as G1.
      destruct (Z.eq_dec m target) as [Eq|Ne].
      * exists 0%nat, [], s1. simpl. rewrite G1. simpl.
        rewrite Eq, PI1. auto.
      * assert (In1 : In et win1).
        { pose proof (Permutation_in _ P1 Hin) as H.
          apply in_app_or in H. destruct H as [H|H]; [contradiction|].
          pose proof (Permutation_in _ P2 H) as H'.
          destruct H' as [H'|H']; [|exact H'].
          subst e. congruence. }
        assert (Len : (length win = length rej + S (length win1))%nat).
        { pose proof (Permutation_length P1) as Q1.
          pose proof (Permutation_length P2) as Q2.
          rewrite length_app in Q1. simpl in Q2. lia. }
        assert (Inc : forall x, In x win1 -> In x win).
        { intros x Hx.
          eapply Permutation_in; [apply Permutation_sym; exact P1|].
          apply in_or_app. right.
          eapply Permutation_in; [apply Permutation_sym; exact P2|].
          right. exact Hx. }
        destruct SS as (Pos1 & _ & _ & _ & _ & _ & _ & _ & Pin1 & _).
        destruct (IH s1 pre1 win1 post target) as (n & tr & s' & T & PI').
        -- lia.
        -- rewrite PI1. exact Ph.
        -- exact L1.
        -- rewrite Forall_forall in *. auto.
        -- intros Hx. apply Hnone. apply in_map_iff in Hx.
           destruct Hx as (x & Ex & Hx). rewrite <- Ex. apply in_map. auto.
        -- rewrite <- Et. apply in_map. exact In1.
        -- rewrite Pos1, Pin1. exact Acc.
        -- exists (S n), ((m, phaseIndex s1) :: tr), s'.
           change (trace (S (S n)) s)
             with (r <- get_next_move s ;;
                   rest <- trace (S n) (snd r) ;;
                   Ret ((fst r, phaseIndex (snd r)) :: fst rest, snd rest)).
           rewrite G1. cbn [bind fst snd]. rewrite T. cbn [bind fst snd].
           rewrite PI1. split; [reflexivity|lia].
    + exfalso. apply NotRej. eapply Permutation_in; [exact P1|exact Hin].
Qed.

(** A quiescence picker whose row starts with QCAPTURES enters it on the
    first call. *)
Lemma enter_qcaptures (raw : MovePicker) (p : Position) (pv : bool)
    (ttm : Move) (ss : SearchStack) (d : Depth) (ei : option EvalInfo) :
  is_check p = false -> d <= 0 -> noCaptures p ei = false ->
  (length (generate_captures p) <= length (moves raw))%nat ->
  exists mp1 win rest,
    get_next_move (MovePicker_new raw p pv ttm ss d ei) = get_next_move mp1
    /\ aget (PhaseTable G) (phaseIndex mp1) = Some PH_QCAPTURES
    /\ layout mp1 [] win rest
    /\ map move win = generate_captures p
    /\ Forall (fun e => score e = mvv_lva p (move e)) win
    /\ same_setup (MovePicker_new raw p pv ttm ss d ei) mp1.
Proof.
  intros Hc Hd Hn Cm.
  set (mp0 := MovePicker_new raw p pv ttm ss d ei).
  assert (PI : (phaseIndex mp0 = 7 \/ phaseIndex mp0 = 12)).
  { unfold mp0, MovePicker_new. cbn [phaseIndex]. rewrite Hc, Hn.
    destruct (d >? 0) eqn:G; [apply Z.gtb_lt in G; lia|].
    destruct (d =? 0); [left|right]; reflexivity. }
  assert (P0 : pick_move_from_list mp0 = Ret (MOVE_NONE, mp0)).
  { unfold pick_move_from_list. destruct PI as [-> | ->]; reflexivity. }
  set (mpi := with_phaseIndex mp0 (phaseIndex mp0 + 1)).
  assert (Cm' : (length (generate_captures (pos mpi)) <= length (moves mpi))%nat)
    by exact Cm.
  destruct (generate_score_with (mvv_lva (pos mpi)) mpi
              (generate_captures (pos mpi)) Cm')
    as (win & rest & mp1 & E & L & Mv & Sc & SS & PI1 & _).
  assert (N0 : next_phase mp0 = Ret (inr (with_movesPicked mp1 0))).
  { unfold next_phase. fold mpi.
    assert (R : read (PhaseTable G) (phaseIndex mpi) = Ret PH_QCAPTURES).
    { unfold mpi. cbn [phaseIndex with_phaseIndex].
      destruct PI as [-> | ->]; reflexivity. }
    rewrite R. cbn [bind].
    unfold score_qcaptures.
    assert (E2 : bind (generate mpi (generate_captures (pos mpi)))
                   (fun mp => score_with (mvv_lva (pos mp)) mp) = Ret mp1).
    { unfold bind in *. destruct (generate mpi (generate_captures (pos mpi)))
        as [g| |] eqn:Eg; try discriminate.
      assert (pos g = pos mpi).
      { unfold generate in Eg. bind_inv Eg. inversion Eg. reflexivity. }
      rewrite H. exact E. }
    unfold bind in E2 |- *.
    destruct (generate mpi (generate_captures (pos mpi))) as [g| |];
      try discriminate.
    rewrite E2. reflexivity. }
  exists (with_movesPicked mp1 0), win, rest.
  split.
  { apply (get_next_move_skip mp0 mp0); [exact P0|exact N0|].
    cbn [phaseIndex with_movesPicked]. rewrite PI1. reflexivity. }
  split.
  { cbn [phaseIndex with_movesPicked]. rewrite PI1. unfold mpi.
    cbn [phaseIndex with_phaseIndex]. destruct PI as [-> | ->]; reflexivity. }
  split; [exact L|]. split; [exact Mv|]. split; [exact Sc|].
  eapply same_setup_trans with (b := mpi);
    [unfold same_setup, mpi; simpl; tauto|].
  eapply same_setup_trans; [exact SS|]. unfold same_setup; simpl; tauto.
Qed.


(** ** Emptying a bucket *)

Lemma trace_app (a : nat) : forall b s tr1 s1 tr2 s2,
  trace a s = Ret (tr1, s1) ->
  trace b s1 = Ret (tr2, s2) ->
  trace (a + b) s = Ret (tr1 ++ tr2, s2).
Proof.
  induction a as [|a IH]; intros b s tr1 s1 tr2 s2 T1 T2; simpl in T1.
  - inversion T1; subst. exact T2.
  - destruct (get_next_move s) as [[m x]| |] eqn:E; simpl in T1;
      try discriminate.
    destruct (trace a x) as [[rest y]| |] eqn:T; simpl in T1;
      try discriminate.
    inversion T1; subst. simpl. rewrite E. simpl.
    rewrite (IH b x rest s1 tr2 s2 T T2). reflexivity.
Qed.

Lemma filter_rejected (accept : Move -> bool) (rej : list MoveStack) :
  Forall (fun e => accept (move e) = false) rej ->
  filter accept (map move rej) = [].
Proof.
  induction 1 as [|e t He Ht IH]; simpl; [reflexivity|].
  rewrite He. exact IH.
Qed.

Lemma filter_perm (accept : Move -> bool) (a b : list Move) :
  Permutation a b -> Permutation (filter accept a) (filter accept b).
Proof.
  induction 1; simpl.
  - constructor.
  - destruct (accept x); [apply perm_skip|]; assumption.
  - destruct (accept x), (accept y); try apply perm_swap;
      apply Permutation_refl.
  - eapply perm_trans; eauto.
Qed.

Section Drain.

Variable choose : MovePicker -> result Z.
Variable accept : Move -> bool.
Variable chosen : Z -> MoveStack -> list MoveStack -> Prop.

Hypothesis choose_spec : forall mp pre win post,
  layout mp pre win post -> win <> [] -> Forall selectable win ->
  exists j e,
    choose mp = Ret (Z.of_nat (length pre) + Z.of_nat j)
    /\ nth_error win j = Some e
    /\ chosen (movesPicked mp) e win.

(** Successive calls in a phase that draws with [choose] and [accept]
    return the accepted moves of the bucket, each as often as the bucket
    holds it; after them the next draw finds nothing. *)
Lemma drain_bucket (k : nat) : forall s pre win post,
  (length win <= k)%nat ->
  (forall s', same_phase s s' ->
     pick_move_from_list s' = pick_loop choose accept (remaining s') s') ->
  layout s pre win post ->
  Forall selectable win ->
  ~ In MOVE_NONE (map move win) ->
  exists tr s1 s2 pre2,
    trace (length tr) s = Ret (tr, s1)
    /\ Permutation (map fst tr) (filter accept (map move win))
    /\ Forall (fun y => snd y = phaseIndex s) tr
    /\ pick_move_from_list s1 = Ret (MOVE_NONE, s2)
    /\ same_phase s s2
    /\ layout s2 pre2 [] post
    /\ badCaptures s2 = badCaptures s
    /\ badCapturesPicked s2 = badCapturesPicked s.
Proof.
  induction k as [|k IH]; intros s pre win post Hk Hp L Hsel Hnone.
  - destruct win; [|simpl in Hk; lia].
    exists [], s, s, pre. simpl.
    split; [reflexivity|]. split; [constructor|]. split; [constructor|].
    split.
    { rewrite (Hp s (same_phase_refl s)).
      rewrite (layout_remaining _ _ _ _ L). reflexivity. }
    split; [apply same_phase_refl|]. split; [exact L|]. auto.
  - destruct (pick_loop_run choose accept chosen choose_spec
                (remaining s) s pre win post L Hsel
                (layout_remaining _ _ _ _ L))
      as (m & s' & pre' & win' & rej & E & L' & SP & B' & BP' & R & Cs).
    assert (P : pick_move_from_list s = Ret (m, s'))
      by (rewrite (Hp s (same_phase_refl s)); exact E).
    destruct Cs as [(e & win0 & Em & Acc & P1 & P2 & _)|(Em & Ew & P1)].
    + assert (Ine : In e win).
      { eapply Permutation_in; [apply Permutation_sym; exact P1|].
        apply in_or_app. right.
        eapply Permutation_in; [apply Permutation_sym; exact P2|].
        left. reflexivity. }
      assert (Hm : m <> MOVE_NONE).
      { intros Hm. apply Hnone. rewrite <- Hm, Em. apply in_map. exact Ine. }
      pose proof (get_next_move_yield s m s' P Hm) as G1.
      assert (Pw : Permutation win (rej ++ e :: win')).
      { eapply perm_trans; [exact P1|]. apply Permutation_app_head. exact P2. }
      assert (Len : (length win = length rej + S (length win'))%nat).
      { pose proof (Permutation_length Pw) as Q. rewrite length_app in Q.
        simpl in Q. exact Q. }
      assert (Inc : forall x, In x win' -> In x win).
      { intros x Hx. eapply Permutation_in; [apply Permutation_sym; exact Pw|].
        apply in_or_app. right. right. exact Hx. }
      destruct (IH s' pre' win' post) as (tr & s1 & s2 & pre2 & T & Pt & Ft
                                          & P2' & SP2 & L2 & B2 & BP2).
      * lia.
      * intros x Hx. apply Hp. exact (same_phase_trans _ _ _ SP Hx).
      * exact L'.
      * rewrite Forall_forall in *. auto.
      * intros Hx. apply Hnone. apply in_map_iff in Hx.
        destruct Hx as (x & Ex & Hx). rewrite <- Ex. apply in_map. auto.
      * destruct SP as (SS & PI & NM & NB).
        exists ((m, phaseIndex s') :: tr), s1, s2, pre2.
        split.
        { simpl. rewrite G1. simpl. rewrite T. reflexivity. }
        split.
        { simpl.
          eapply perm_trans;
            [|apply filter_perm, Permutation_map, Permutation_sym; exact Pw].
          rewrite map_app, filter_app, (filter_rejected accept rej R).
          simpl. rewrite Acc, Em. apply perm_skip. exact Pt. }
        split.
        { constructor; [simpl; exact PI|].
          eapply Forall_impl; [|exact Ft]. simpl. intros; congruence. }
        split; [exact P2'|].
        split; [exact (same_phase_trans _ _ _ (conj SS (conj PI (conj NM NB))) SP2)|].
        split; [exact L2|]. split; congruence.
    + subst win'. exists [], s, s', pre'. simpl.
      split; [reflexivity|].
      split.
      { assert (F : filter accept (map move win) = []).
        { apply Permutation_nil.
          eapply perm_trans;
            [|apply filter_perm, Permutation_map, Permutation_sym; exact P1].
          rewrite (filter_rejected accept rej R). constructor. }
        rewrite F. constructor. }
      split; [constructor|].
      split; [rewrite <- Em; exact P|].
      split; [exact SP|]. split; [exact L'|]. auto.
Qed.

End Drain.

(** ** The Evasions row *)

Lemma evasion_score_setup (a b : MovePicker) (m : Move) :
  same_setup a b -> evasion_score b m = evasion_score a m.
Proof.
  intros (P & _ & T & _). unfold evasion_score. rewrite P, T. reflexivity.
Qed.

Lemma get_next_move_stop s1 s2 :
  pick_move_from_list s1 = Ret (MOVE_NONE, s2) ->
  aget (PhaseTable G) (phaseIndex s2 + 1) = Some PH_STOP ->
  get_next_move s1
  = Ret (MOVE_NONE, with_phaseIndex s2 (phaseIndex s2 + 1)).
Proof.
  intros P St. unfold get_next_move.
  assert (B : 0 <= phaseIndex s1 < Z.of_nat (length (PhaseTable G))).
  { unfold pick_move_from_list, read in P.
    destruct (aget (PhaseTable G) (phaseIndex s1)) eqn:E; [|discriminate].
    apply aget_bounds in E. exact E. }
  destruct (Z.to_nat (Z.of_nat (length (PhaseTable G)) - phaseIndex s1))
    as [|k] eqn:K; [lia|].
  simpl. rewrite P. simpl. rewrite Z.eqb_refl. simpl.
  unfold next_phase. cbn [phaseIndex with_phaseIndex].
  unfold read. rewrite St. reflexivity.
Qed.

Lemma trace_first (n : nat) (a b : MovePicker) :
  get_next_move a = get_next_move b -> trace (S n) a = trace (S n) b.
Proof. intros H. simpl. rewrite H. reflexivity. Qed.

Lemma enter_evasions (raw : MovePicker) (p : Position) (pv : bool)
    (ttm : Move) (ss : SearchStack) (d : Depth) (ei : option EvalInfo) :
  is_check p = true ->
  (length (generate_evasions p) <= length (moves raw))%nat ->
  exists mp1 win rest,
    get_next_move (MovePicker_new raw p pv ttm ss d ei) = get_next_move mp1
    /\ phaseIndex mp1 = 6
    /\ layout mp1 [] win rest
    /\ map move win = generate_evasions p
    /\ Forall (fun e => score e
                        = evasion_score (MovePicker_new raw p pv ttm ss d ei)
                            (move e)) win
    /\ same_setup (MovePicker_new raw p pv ttm ss d ei) mp1.
Proof.
  intros Hc Cm.
  set (mp0 := MovePicker_new raw p pv ttm ss d ei).
  assert (PI : phaseIndex mp0 = 5).
  { unfold mp0, MovePicker_new. cbn [phaseIndex]. rewrite Hc. reflexivity. }
  assert (P0 : pick_move_from_list mp0 = Ret (MOVE_NONE, mp0)).
  { unfold pick_move_from_list. rewrite PI. reflexivity. }
  set (mpi := with_phaseIndex mp0 (phaseIndex mp0 + 1)).
  assert (Cm' : (length (generate_evasions (pos mpi)) <= length (moves mpi))%nat)
    by exact Cm.
  destruct (generate_score_with (evasion_score mpi) mpi
              (generate_evasions (pos mpi)) Cm')
    as (win & rest & mp1 & E & L & Mv & Sc & SS & PI1 & _).
  assert (N0 : next_phase mp0 = Ret (inr (with_movesPicked mp1 0))).
  { unfold next_phase. fold mpi.
    assert (R : read (PhaseTable G) (phaseIndex mpi) = Ret PH_EVASIONS).
    { unfold mpi. cbn [phaseIndex with_phaseIndex]. rewrite PI. reflexivity. }
    rewrite R. cbn [bind]. unfold score_evasions.
    unfold bind in E |- *.
    destruct (generate mpi (generate_evasions (pos mpi))) as [g| |] eqn:Eg;
      try discriminate.
    assert (Sg : same_setup mpi g) by (eapply generate_setup; eauto).
    assert (F : score_with (evasion_score g) g = score_with (evasion_score mpi) g).
    { unfold score_with. f_equal.
      assert (Hf : forall n i mv,
                 score_loop (evasion_score g) n i mv
                 = score_loop (evasion_score mpi) n i mv).
      { induction n as [|n IHn]; intros i mv; simpl; [reflexivity|].
        destruct (read mv i) as [e0| |]; simpl; try reflexivity.
        rewrite (evasion_score_setup mpi g) by exact Sg.
        destruct (write mv i _); simpl; auto. }
      apply Hf. }
    rewrite F, E. reflexivity. }
  exists (with_movesPicked mp1 0), win, rest.
  split.
  { apply (get_next_move_skip mp0 mp0); [exact P0|exact N0|].
    cbn [phaseIndex with_movesPicked]. rewrite PI1. reflexivity. }
  split.
  { cbn [phaseIndex with_movesPicked]. rewrite PI1. unfold mpi.
    cbn [phaseIndex with_phaseIndex]. rewrite PI. reflexivity. }
  split; [exact L|]. split; [exact Mv|].
  split.
  { eapply Forall_impl; [|exact Sc]. simpl. intros e He. rewrite He.
    apply evasion_score_setup. unfold same_setup, mpi; simpl; tauto. }
  eapply same_setup_trans with (b := mpi);
    [unfold same_setup, mpi; simpl; tauto|].
  eapply same_setup_trans; [exact SS|]. unfold same_setup; simpl; tauto.
Qed.

(** The Evasions row, call by call. *)
Lemma evasions_trace (raw : MovePicker) (p : Position) (pv : bool)
    (ttm : Move) (ss : SearchStack) (d : Depth) (ei : option EvalInfo) :
  is_check p = true ->
  (length (generate_evasions p) <= length (moves raw))%nat ->
  (forall m, In m (generate_evasions p) ->
     -10000000 < evasion_score (MovePicker_new raw p pv ttm ss d ei) m) ->
  ~ In MOVE_NONE (generate_evasions p) ->
  exists tr s,
    trace (S (length (generate_evasions p)))
      (MovePicker_new raw p pv ttm ss d ei)
    = Ret (tr ++ [(MOVE_NONE, 7)], s)
    /\ Permutation (map fst tr) (generate_evasions p)
    /\ Forall (fun y => snd y = 6) tr
    /\ aget (PhaseTable G) 6 = Some PH_EVASIONS
    /\ aget (PhaseTable G) 7 = Some PH_STOP.
Proof.
  intros Hc Cm Hsc Hnone.
  destruct (enter_evasions raw p pv ttm ss d ei Hc Cm)
    as (mp1 & win & rest & G0 & PI & L & Mv & Sc & SS).
  assert (Hsel : Forall selectable win).
  { rewrite Forall_forall in *. intros e He. unfold selectable.
    rewrite (Sc e He). apply Hsc. rewrite <- Mv. apply in_map. exact He. }
  destruct (drain_bucket find_best_index (fun _ => true) (fun _ => by_score)
              (fun mp0 pre0 win0 post0 L0 N0 S0 =>
                 choose_best mp0 pre0 win0 post0 L0 N0 S0)
              (length win) mp1 [] win rest (le_n _))
    as (tr & s1 & s2 & pre2 & T & Pt & Ft & P2 & (SS2 & PI2 & _) & _).
  - intros s' (_ & PI' & _). unfold pick_move_from_list. rewrite PI', PI.
    reflexivity.
  - exact L.
  - exact Hsel.
  - rewrite Mv. exact Hnone.
  - assert (Pt' : Permutation (map fst tr) (generate_evasions p)).
    { rewrite <- Mv. eapply perm_trans; [exact Pt|].
      clear. induction (map move win) as [|x l IH]; simpl;
        [constructor|apply perm_skip; exact IH]. }
    assert (St : aget (PhaseTable G) (phaseIndex s2 + 1) = Some PH_STOP)
      by (rewrite PI2, PI; reflexivity).
    pose proof (get_next_move_stop s1 s2 P2 St) as G2.
    assert (T2 : trace 1 s1
                 = Ret ([(MOVE_NONE, 7)],
                        with_phaseIndex s2 (phaseIndex s2 + 1))).
    { simpl. rewrite G2. simpl. rewrite PI2, PI. reflexivity. }
    pose proof (trace_app _ _ _ _ _ _ _ T T2) as T3.
    exists tr, (with_phaseIndex s2 (phaseIndex s2 + 1)).
    split.
    { rewrite (trace_first _ _ mp1 G0).
      rewrite <- (Permutation_length Pt'), length_map.
      rewrite Nat.add_1_r in T3. exact T3. }
    split; [exact Pt'|].
    split; [eapply Forall_impl; [|exact Ft]; simpl; intros; lia|].
    split; reflexivity.
Qed.

(** X1.  A picker built for a position in check returns the generated
    evasions,
    each as often as generated, all in the EVASIONS phase (index 6), and
    then [MOVE_NONE] on reaching [PH_STOP] (index 7). *)
Theorem evasions_complete (raw : MovePicker) (p : Position) (pv : bool)
    (ttm : Move) (ss : SearchStack) (d : Depth) (ei : option EvalInfo) :
  is_check p = true ->
  (length (generate_evasions p) <= length (moves raw))%nat ->
  (forall m, In m (generate_evasions p) ->
     -10000000 < evasion_score (MovePicker_new raw p pv ttm ss d ei) m) ->
  ~ In MOVE_NONE (generate_evasions p) ->
  exists tr s,
    trace (S (length (generate_evasions p)))
      (MovePicker_new raw p pv ttm ss d ei)
    = Ret (tr ++ [(MOVE_NONE, 7)], s)
    /\ Permutation (map fst tr) (generate_evasions p)
    /\ Forall (fun y => snd y = 6) tr
    /\ aget (PhaseTable G) 6 = Some PH_EVASIONS
    /\ aget (PhaseTable G) 7 = Some PH_STOP.
Proof. exact (evasions_trace raw p pv ttm ss d ei). Qed.

(** ** The main-search row, phase by phase *)

Lemma pick_loop_ext choose (a1 a2 : Move -> bool) :
  (forall m, a1 m = a2 m) ->
  forall n s, pick_loop choose a1 n s = pick_loop choose a2 n s.
Proof.
  intros H. induction n as [|n IH]; intros s; simpl; [reflexivity|].
  destruct (choose s) as [b| |]; simpl; try reflexivity.
  destruct (b =? -1); [reflexivity|].
  destruct (read (moves s) b) as [e| |]; simpl; try reflexivity.
  destruct (read (moves s) (movesPicked s)) as [f| |]; simpl; try reflexivity.
  destruct (write (moves s) b f) as [mv| |]; simpl; try reflexivity.
  rewrite H, IH. reflexivity.
Qed.

Lemma bad_loop_ext (a1 a2 : Move -> bool) :
  (forall m, a1 m = a2 m) ->
  forall n s, bad_loop a1 n s = bad_loop a2 n s.
Proof.
  intros H. induction n as [|n IH]; intros s; simpl; [reflexivity|].
  destruct (read (badCaptures s) (badCapturesPicked s)) as [e| |]; simpl;
    try reflexivity.
  rewrite H, IH. reflexivity.
Qed.

Lemma noncapture_score_setup (a b : MovePicker) (m : Move) :
  same_setup a b -> noncapture_score b m = noncapture_score a m.
Proof.
  intros (P & _ & _ & _ & K1 & K2 & _). unfold noncapture_score.
  rewrite P, K1, K2. reflexivity.
Qed.

Lemma score_loop_ext (f g : Move -> Z) :
  (forall m, f m = g m) ->
  forall n i mv, score_loop f n i mv = score_loop g n i mv.
Proof.
  intros H. induction n as [|n IH]; intros i mv; simpl; [reflexivity|].
  destruct (read mv i) as [e| |]; simpl; try reflexivity.
  rewrite H. destruct (write mv i _); simpl; auto.
Qed.

Lemma layout_length s pre win post :
  layout s pre win post ->
  Z.of_nat (length (moves s)) = numOfMoves s + Z.of_nat (length post).
Proof. intros (M & _ & N). rewrite M, N, !length_app. lia. Qed.

Lemma choose_noncaptures mp pre win post :
  layout mp pre win post -> win <> [] -> Forall selectable win ->
  exists j e,
    (if pvNode mp || (movesPicked mp <? 12) then find_best_index mp
     else Ret (movesPicked mp))
    = Ret (Z.of_nat (length pre) + Z.of_nat j)
    /\ nth_error win j = Some e
    /\ True.
Proof.
  intros L Hne Hsel. destruct (pvNode mp || (movesPicked mp <? 12)).
  - destruct (choose_best mp pre win post L Hne Hsel) as (j & e & E & N & _).
    exists j, e. auto.
  - destruct (choose_front mp pre win post L Hne) as (e & E & N).
    exists 0%nat, e. auto.
Qed.

(** Successive calls in BAD_CAPTURES return the accepted entries of
    [badCaptures] in order; after them the next draw finds nothing. *)
Lemma drain_bad (k : nat) : forall win s pre post,
  (length win <= k)%nat ->
  aget (PhaseTable G) (phaseIndex s) = Some PH_BAD_CAPTURES ->
  bad_layout s pre win post ->
  ~ In MOVE_NONE (map move win) ->
  exists tr s1 s2,
    trace (length tr) s = Ret (tr, s1)
    /\ map fst tr = filter (accept_main s) (map move win)
    /\ Forall (fun y => snd y = phaseIndex s) tr
    /\ pick_move_from_list s1 = Ret (MOVE_NONE, s2)
    /\ same_phase s s2.
Proof.
  induction k as [|k IH]; intros win s pre post Hk Ph L Hnone.
  { destruct win; [|simpl in Hk; lia].
    exists [], s, s. simpl. split; [reflexivity|]. split; [reflexivity|].
    split; [constructor|]. split; [|apply same_phase_refl].
    unfold pick_move_from_list, read. rewrite Ph. cbn [bind].
    destruct L as (_ & P0 & N0). rewrite N0, P0. simpl length.
    replace (Z.to_nat (Z.of_nat (length pre) + Z.of_nat 0
                       - Z.of_nat (length pre))) with 0%nat by lia.
    reflexivity. }
  destruct (bad_loop_run (accept_main s) win s pre post L)
    as (m & s' & pre' & win' & rej & E & L' & SP & _ & _ & _ & R & Cs).
  assert (P : pick_move_from_list s = Ret (m, s')).
  { unfold pick_move_from_list, read. rewrite Ph. cbn [bind].
    destruct L as (_ & P0 & N0). rewrite N0, P0.
    replace (Z.to_nat (Z.of_nat (length pre) + Z.of_nat (length win)
                       - Z.of_nat (length pre)))
      with (length win) by lia.
    exact E. }
  destruct Cs as [(e & Em & Acc & Ew)|(Em & Ew' & Ew)].
  - assert (Hm : m <> MOVE_NONE).
    { intros Hm. apply Hnone. rewrite <- Hm, Em, Ew. apply in_map.
      apply in_or_app. right. left. reflexivity. }
    pose proof (get_next_move_yield s m s' P Hm) as G1.
    pose proof SP as (SS & PI & NM & NB).
    destruct (IH win' s' pre' post)
      as (tr & s1 & s2 & T & Mt & Ft & P2 & SP2).
    + rewrite Ew, length_app in Hk. simpl in Hk. lia.
    + rewrite PI. exact Ph.
    + exact L'.
    + intros Hx. apply Hnone. rewrite Ew, map_app. apply in_or_app. right.
      right. exact Hx.
    + exists ((m, phaseIndex s') :: tr), s1, s2.
      split; [simpl; rewrite G1; simpl; rewrite T; reflexivity|].
      split.
      { simpl. rewrite Mt, Ew, map_app, filter_app.
        rewrite (filter_rejected (accept_main s) rej R). simpl.
        rewrite Acc, Em. f_equal.
        apply filter_ext. intros x. apply accept_main_setup. exact SS. }
      split.
      { constructor; [simpl; exact PI|].
        eapply Forall_impl; [|exact Ft]. simpl. intros; congruence. }
      split; [exact P2|]. exact (same_phase_trans _ _ _ SP SP2).
  - exists [], s, s'. simpl.
    split; [reflexivity|].
    split; [rewrite Ew; symmetry; apply filter_rejected; exact R|].
    split; [constructor|]. split; [rewrite <- Em; exact P|exact SP].
Qed.

Lemma enter_noncaptures (s : MovePicker) :
  phaseIndex s = 2 ->
  (length (generate_noncaptures (pos s)) <= length (moves s))%nat ->
  exists n1 win rest,
    next_phase s = Ret (inr n1)
    /\ phaseIndex n1 = 3
    /\ layout n1 [] win rest
    /\ map move win = generate_noncaptures (pos s)
    /\ Forall (fun e => score e = noncapture_score s (move e)) win
    /\ same_setup s n1
    /\ badCaptures n1 = badCaptures s
    /\ numOfBadCaptures n1 = numOfBadCaptures s.
Proof.
  intros PI Cm.
  set (si := with_phaseIndex s (phaseIndex s + 1)).
  assert (Cm' : (length (generate_noncaptures (pos si)) <= length (moves si))%nat)
    by exact Cm.
  destruct (generate_score_with (noncapture_score si) si
              (generate_noncaptures (pos si)) Cm')
    as (win & rest & n1 & E & L & Mv & Sc & SS & PI1 & B1 & NB1 & _).
  exists (with_movesPicked n1 0), win, rest.
  split.
  { unfold next_phase. fold si.
    assert (R : read (PhaseTable G) (phaseIndex si) = Ret PH_NONCAPTURES).
    { unfold si. cbn [phaseIndex with_phaseIndex]. rewrite PI. reflexivity. }
    rewrite R. cbn [bind]. unfold score_noncaptures.
    unfold bind in E |- *.
    destruct (generate si (generate_noncaptures (pos si))) as [g| |] eqn:Eg;
      try discriminate.
    assert (Sg : same_setup si g) by (eapply generate_setup; eauto).
    assert (F : score_with (noncapture_score g) g
                = score_with (noncapture_score si) g).
    { unfold score_with. f_equal. apply score_loop_ext.
      intros m. apply noncapture_score_setup. exact Sg. }
    rewrite F, E. reflexivity. }
  split.
  { cbn [phaseIndex with_movesPicked]. rewrite PI1. unfold si.
    cbn [phaseIndex with_phaseIndex]. lia. }
  split; [exact L|]. split; [exact Mv|].
  split.
  { eapply Forall_impl; [|exact Sc]. simpl. intros e He. rewrite He.
    apply noncapture_score_setup. unfold same_setup, si; simpl; tauto. }
  split.
  { eapply same_setup_trans with (b := si);
      [unfold same_setup, si; simpl; tauto|].
    eapply same_setup_trans; [exact SS|]. unfold same_setup; simpl; tauto. }
  split; [exact B1|exact NB1].
Qed.

Lemma get_next_move_return s s0 out :
  pick_move_from_list s = Ret (MOVE_NONE, s0) ->
  next_phase s0 = Ret (inl out) ->
  get_next_move s = Ret out.
Proof.
  intros P N. unfold get_next_move.
  assert (B : 0 <= phaseIndex s < Z.of_nat (length (PhaseTable G))).
  { unfold pick_move_from_list, read in P.
    destruct (aget (PhaseTable G) (phaseIndex s)) eqn:E; [|discriminate].
    apply aget_bounds in E. exact E. }
  destruct (Z.to_nat (Z.of_nat (length (PhaseTable G)) - phaseIndex s))
    as [|k] eqn:K; [lia|].
  simpl. rewrite P. simpl. rewrite Z.eqb_refl. simpl. rewrite N. reflexivity.
Qed.

Lemma mem_accept_main (a : MovePicker) (l : list Move) (m : Move) :
  In m (filter (accept_main a) l)
  <-> In m l /\ m <> ttMove a /\ m <> mateKiller a
      /\ pl_move_is_legal (pos a) m (pinned a) = true.
Proof.
  rewrite filter_In. unfold accept_main.
  rewrite !andb_true_iff, !negb_true_iff, !Z.eqb_neq. tauto.
Qed.


(** ** The order of the moves drawn by score *)

Lemma filter_entries_perm (f : MoveStack -> bool) (a b : list MoveStack) :
  Permutation a b -> Permutation (filter f a) (filter f b).
Proof.
  induction 1; simpl.
  - constructor.
  - destruct (f x); [apply perm_skip|]; assumption.
  - destruct (f x), (f y); try apply perm_swap; apply Permutation_refl.
  - eapply perm_trans; eauto.
Qed.

Section Ranked.

Variable choose : MovePicker -> result Z.
Variable accept : Move -> bool.
Variable chosen : Z -> MoveStack -> list MoveStack -> Prop.

Hypothesis choose_spec : forall mp pre win post,
  layout mp pre win post -> win <> [] -> Forall selectable win ->
  exists j e,
    choose mp = Ret (Z.of_nat (length pre) + Z.of_nat j)
    /\ nth_error win j = Some e
    /\ chosen (movesPicked mp) e win.

Hypothesis chosen_by_score : forall c e win, chosen c e win -> by_score e win.

(** When every draw takes an entry of greatest score, successive calls
    return the accepted entries of the bucket in non-increasing order of
    score. *)
Lemma drain_ranked (k : nat) : forall s pre win post,
  (length win <= k)%nat ->
  (forall s', same_phase s s' ->
     pick_move_from_list s' = pick_loop choose accept (remaining s') s') ->
  layout s pre win post ->
  Forall selectable win ->
  ~ In MOVE_NONE (map move win) ->
  exists es s1 s2 pre2,
    trace (length es) s = Ret (map (fun e => (move e, phaseIndex s)) es, s1)
    /\ Permutation es (filter (fun e => accept (move e)) win)
    /\ StronglySorted (fun a b => score b <= score a) es
    /\ pick_move_from_list s1 = Ret (MOVE_NONE, s2)
    /\ same_phase s s2
    /\ layout s2 pre2 [] post.
Proof.
  induction k as [|k IH]; intros s pre win post Hk Hp L Hsel Hnone.
  - destruct win; [|simpl in Hk; lia].
    exists [], s, s, pre. simpl.
    split; [reflexivity|]. split; [constructor|]. split; [constructor|].
    split.
    { rewrite (Hp s (same_phase_refl s)).
      rewrite (layout_remaining _ _ _ _ L). reflexivity. }
    split; [apply same_phase_refl|exact L].
  - destruct (pick_loop_run choose accept chosen choose_spec
                (remaining s) s pre win post L Hsel
                (layout_remaining _ _ _ _ L))
      as (m & s' & pre' & win' & rej & E & L' & SP & B' & BP' & R & Cs).
    assert (P : pick_move_from_list s = Ret (m, s'))
      by (rewrite (Hp s (same_phase_refl s)); exact E).
    assert (Frej : filter (fun e => accept (move e)) rej = []).
    { clear - R. induction R as [|e t He Ht IHt]; simpl; [reflexivity|].
      rewrite He. exact IHt. }
    destruct Cs as [(e & win0 & Em & Acc & P1 & P2 & Ch)|(Em & Ew & P1)].
    + assert (Pw : Permutation win (rej ++ e :: win')).
      { eapply perm_trans; [exact P1|]. apply Permutation_app_head. exact P2. }
      assert (Ine : In e win).
      { eapply Permutation_in; [apply Permutation_sym; exact Pw|].
        apply in_or_app. right. left. reflexivity. }
      assert (Hm : m <> MOVE_NONE).
      { intros Hm. apply Hnone. rewrite <- Hm, Em. apply in_map. exact Ine. }
      pose proof (get_next_move_yield s m s' P Hm) as G1.
      assert (Len : (length win = length rej + S (length win'))%nat).
      { pose proof (Permutation_length Pw) as Q. rewrite length_app in Q.
        simpl in Q. exact Q. }
      assert (Inc : forall x, In x win' -> In x win).
      { intros x Hx. eapply Permutation_in; [apply Permutation_sym; exact Pw|].
        apply in_or_app. right. right. exact Hx. }
      destruct (IH s' pre' win' post) as (es & s1 & s2 & pre2 & T & Pt & St
                                          & P2' & SP2 & L2).
      * lia.
      * intros x Hx. apply Hp. exact (same_phase_trans _ _ _ SP Hx).
      * exact L'.
      * rewrite Forall_forall in *. auto.
      * intros Hx. apply Hnone. apply in_map_iff in Hx.
        destruct Hx as (x & Ex & Hx). rewrite <- Ex. apply in_map. auto.
      * pose proof SP as (SS & PI & NM & NB).
        exists (e :: es), s1, s2, pre2.
        split.
        { cbn [length map trace]. rewrite G1. cbn [bind fst snd].
          rewrite T. cbn [bind fst snd]. rewrite PI, Em. reflexivity. }
        split.
        { eapply perm_trans;
            [|apply Permutation_sym;
              apply (filter_entries_perm (fun e => accept (move e))); exact Pw].
          rewrite filter_app, Frej. simpl. rewrite Acc.
          apply perm_skip. exact Pt. }
        split.
        { constructor; [exact St|].
          apply chosen_by_score in Ch. unfold by_score in Ch.
          rewrite Forall_forall in *. intros x Hx. apply Ch.
          eapply Permutation_in; [apply Permutation_sym; exact P2|].
          right. pose proof (Permutation_in _ Pt Hx) as Q.
          apply filter_In in Q. apply Q. }
        split; [exact P2'|].
        split; [exact (same_phase_trans _ _ _ SP SP2)|exact L2].
    + subst win'. exists [], s, s', pre'. simpl.
      split; [reflexivity|].
      split.
      { assert (F : filter (fun e => accept (move e)) win = []).
        { apply Permutation_nil. rewrite <- Frej.
          apply Permutation_sym, filter_entries_perm. exact P1. }
        rewrite F. constructor. }
      split; [constructor|].
      split; [rewrite <- Em; exact P|].
      split; [exact SP|exact L'].
Qed.

End Ranked.

Lemma filter_all (l : list MoveStack) : filter (fun _ => true) l = l.
Proof. induction l as [|x l IH]; simpl; [reflexivity|rewrite IH; reflexivity]. Qed.

Lemma sorted_moves (f : Move -> Z) (es : list MoveStack) :
  Forall (fun e => score e = f (move e)) es ->
  StronglySorted (fun a b => score b <= score a) es ->
  by_descending f (map move es).
Proof.
  unfold by_descending. intros Hf Hs. induction Hs as [|e t Ht IH He]; simpl.
  - constructor.
  - inversion Hf as [|? ? Fe Ft]; subst. constructor; [apply IH, Ft|].
    rewrite Forall_forall in *. intros m Hm.
    apply in_map_iff in Hm. destruct Hm as (x & <- & Hx).
    rewrite <- Fe, <- (Ft x Hx). apply He, Hx.
Qed.

Lemma trace_pairs (es : list MoveStack) (i : Z) :
  map (fun e => (move e, i)) es = map (fun m => (m, i)) (map move es).
Proof. rewrite map_map. reflexivity. Qed.

(** A list sorted by descending score starts with the one move that scores
    above all the others. *)
Lemma descending_head (f : Move -> Z) (ms : list Move) (top : Move) :
  by_descending f ms -> In top ms ->
  (forall m, In m ms -> m <> top -> f m < f top) ->
  hd_error ms = Some top.
Proof.
  unfold by_descending. intros Hs Hin Hlt.
  destruct ms as [|h t]; [destruct Hin|]. simpl.
  destruct (Z.eq_dec h top) as [->|Hne]; [reflexivity|].
  exfalso. inversion Hs as [|? ? _ Hh]; subst.
  destruct Hin as [E|Hin]; [congruence|].
  rewrite Forall_forall in Hh. pose proof (Hh top Hin) as Q.
  pose proof (Hlt h (or_introl eq_refl) Hne). lia.
Qed.

(** X3.  A picker built for a position in check returns the generated
    evasions in non-increasing order of the score [score_evasions] gives
    them, and then [MOVE_NONE]; the TT move, if it is among the evasions and
    every other one scores below [2 * HistoryMax], is returned first. *)
Theorem evasions_by_score (raw : MovePicker) (p : Position) (pv : bool)
    (ttm : Move) (ss : SearchStack) (d : Depth) (ei : option EvalInfo) :
  let mp := MovePicker_new raw p pv ttm ss d ei in
  is_check p = true ->
  (length (generate_evasions p) <= length (moves raw))%nat ->
  (forall m, In m (generate_evasions p) -> -10000000 < evasion_score mp m) ->
  ~ In MOVE_NONE (generate_evasions p) ->
  exists ms s,
    trace (S (length ms)) mp
    = Ret (map (fun m => (m, 6)) ms ++ [(MOVE_NONE, 7)], s)
    /\ Permutation ms (generate_evasions p)
    /\ by_descending (evasion_score mp) ms
    /\ (In ttm (generate_evasions p) ->
        (forall m, In m (generate_evasions p) -> m <> ttm ->
                   evasion_score mp m < 2 * HistoryMax) ->
        hd_error ms = Some ttm).
Proof.
  intros mp Hc Cm Hsc Hnone.
  destruct (enter_evasions raw p pv ttm ss d ei Hc Cm)
    as (mp1 & win & rest & G0 & PI & L & Mv & Sc & SS).
  fold mp in G0, Sc, SS.
  assert (Hsel : Forall selectable win).
  { rewrite Forall_forall in *. intros e He. unfold selectable.
    rewrite (Sc e He). apply Hsc. rewrite <- Mv. apply in_map. exact He. }
  destruct (drain_ranked find_best_index (fun _ => true) (fun _ => by_score)
              (fun mp0 pre0 win0 post0 L0 N0 S0 =>
                 choose_best mp0 pre0 win0 post0 L0 N0 S0)
              (fun _ _ _ H => H)
              (length win) mp1 [] win rest (le_n _))
    as (es & s1 & s2 & pre2 & T & Pt & St & P2 & (SS2 & PI2 & _) & _).
  - intros s' (_ & PI' & _). unfold pick_move_from_list. rewrite PI', PI.
    reflexivity.
  - exact L.
  - exact Hsel.
  - rewrite Mv. exact Hnone.
  - rewrite filter_all in Pt.
    assert (Pm : Permutation (map move es) (generate_evasions p)).
    { rewrite <- Mv. apply Permutation_map. exact Pt. }
    assert (Sce : Forall (fun e => score e = evasion_score mp (move e)) es).
    { rewrite Forall_forall in *. intros e He. apply Sc.
      eapply Permutation_in; [exact Pt|exact He]. }
    pose proof (sorted_moves _ es Sce St) as Srt.
    assert (Stp : aget (PhaseTable G) (phaseIndex s2 + 1) = Some PH_STOP)
      by (rewrite PI2, PI; reflexivity).
    pose proof (get_next_move_stop s1 s2 P2 Stp) as G2.
    assert (T2 : trace 1 s1
                 = Ret ([(MOVE_NONE, 7)],
                        with_phaseIndex s2 (phaseIndex s2 + 1))).
    { unfold trace. rewrite G2. cbn [bind fst snd phaseIndex with_phaseIndex].
      rewrite PI2, PI. reflexivity. }
    pose proof (trace_app _ _ _ _ _ _ _ T T2) as T3.
    rewrite Nat.add_1_r, PI, trace_pairs in T3.
    exists (map move es), (with_phaseIndex s2 (phaseIndex s2 + 1)).
    split.
    { rewrite (trace_first _ _ mp1 G0), length_map. exact T3. }
    split; [exact Pm|]. split; [exact Srt|].
    intros Htt Hlt. apply (descending_head (evasion_score mp)); [exact Srt| |].
    + eapply Permutation_in; [apply Permutation_sym; exact Pm|exact Htt].
    + intros m Hm Hne.
      assert (Ett : evasion_score mp ttm = 2 * HistoryMax).
      { unfold evasion_score. change (ttMove mp) with ttm.
        rewrite Z.eqb_refl. reflexivity. }
      rewrite Ett. apply Hlt; [|exact Hne].
      eapply Permutation_in; [exact Pm|exact Hm].
Qed.

Lemma filter_good_captures (p : Position) (caps : list Move)
    (goods bads : list MoveStack) :
  Permutation caps (map move goods ++ map move bads) ->
  Forall (scored_good p) goods ->
  Forall (scored_bad p) bads ->
  Permutation (map move goods) (filter (fun m => negb (losing_move p m)) caps).
Proof.
  intros Pm Gd Bd.
  eapply perm_trans; [|apply filter_perm, Permutation_sym; exact Pm].
  rewrite filter_app.
  assert (Fg : filter (fun m => negb (losing_move p m)) (map move goods)
               = map move goods).
  { clear - Gd. induction Gd as [|e t [He _] Ht IH]; simpl; [reflexivity|].
    unfold losing_move at 1.
    destruct (see p (move e) <? 0) eqn:Q; [apply Z.ltb_lt in Q; lia|].
    simpl. rewrite IH. reflexivity. }
  assert (Fb : filter (fun m => negb (losing_move p m)) (map move bads) = []).
  { clear - Bd. induction Bd as [|e t [He _] Ht IH]; simpl; [reflexivity|].
    unfold losing_move at 1.
    destruct (see p (move e) <? 0) eqn:Q; [|apply Z.ltb_ge in Q; lia].
    simpl. exact IH. }
  rewrite Fg, Fb, app_nil_r. apply Permutation_refl.
Qed.

Lemma filter_accept_entries (acc : Move -> bool) (l : list MoveStack) :
  map move (filter (fun e => acc (move e)) l) = filter acc (map move l).
Proof.
  induction l as [|e l IH]; simpl; [reflexivity|].
  destruct (acc (move e)); simpl; rewrite IH; reflexivity.
Qed.

(** X4.  Entered from the phase before it, GOOD_CAPTURES returns the
    generated captures with SEE >= 0 that are legal and are neither the TT
    move nor the mate killer, in non-increasing order of their MVV/LVA score,
    and the draw after the last of them finds the bucket empty. *)
Theorem good_captures_by_score (a : MovePicker) :
  phaseIndex a = 1 ->
  numOfBadCaptures a = 0 ->
  (length (generate_captures (pos a)) <= length (moves a))%nat ->
  (length (filter (losing_move (pos a)) (generate_captures (pos a)))
   <= length (badCaptures a))%nat ->
  (forall m, In m (generate_captures (pos a)) ->
             -10000000 < mvv_lva (pos a) m) ->
  ~ In MOVE_NONE (generate_captures (pos a)) ->
  exists mp1 ms s1 s2,
    next_phase a = Ret (inr mp1)
    /\ current_move_type mp1 = Ret PH_GOOD_CAPTURES
    /\ trace (length ms) mp1 = Ret (map (fun m => (m, 2)) ms, s1)
    /\ pick_move_from_list s1 = Ret (MOVE_NONE, s2)
    /\ Permutation ms
         (filter (accept_main a)
            (filter (fun m => negb (losing_move (pos a) m))
               (generate_captures (pos a))))
    /\ by_descending (mvv_lva (pos a)) ms.
Proof.
  intros PI NB Cc Cb Hsc Hnone.
  destruct (enter_good_captures a PI NB Cc Cb)
    as (mp1 & goods & bads & rest & bfree & E & PI1 & SS1 & L1 & B1 & NB1
        & Pm & Gd & Bd & _).
  assert (InCaps : forall e, In e goods ->
                             In (move e) (generate_captures (pos a))).
  { intros e He. eapply Permutation_in; [apply Permutation_sym; exact Pm|].
    apply in_or_app. left. apply in_map. exact He. }
  assert (Hsel : Forall selectable goods).
  { rewrite Forall_forall in *. intros e He. unfold selectable.
    destruct (Gd e He) as [_ Sc]. rewrite Sc. apply Hsc, InCaps, He. }
  destruct (drain_ranked find_best_index (accept_main a) (fun _ => by_score)
              (fun mp0 pre0 win0 post0 L0 N0 S0 =>
                 choose_best mp0 pre0 win0 post0 L0 N0 S0)
              (fun _ _ _ H => H)
              (length goods) mp1 [] goods rest (le_n _))
    as (es & s1 & s2 & pre2 & T & Pt & St & P2 & _).
  { intros s' (SS' & PI' & _). unfold pick_move_from_list.
    rewrite PI', PI1.
    change (read (PhaseTable G) 2) with (Ret PH_GOOD_CAPTURES). cbn [bind].
    apply pick_loop_ext. intros m. apply accept_main_setup.
    exact (same_setup_trans _ _ _ SS1 SS'). }
  { exact L1. }
  { exact Hsel. }
  { intros H. apply in_map_iff in H. destruct H as (e & Ee & He).
    apply Hnone. rewrite <- Ee. apply InCaps, He. }
  exists mp1, (map move es), s1, s2.
  split; [exact E|].
  split; [unfold current_move_type; rewrite PI1; reflexivity|].
  split.
  { rewrite length_map, <- trace_pairs, <- PI1. exact T. }
  split; [exact P2|].
  split.
  { eapply perm_trans; [apply Permutation_map; exact Pt|].
    rewrite filter_accept_entries. apply filter_perm.
    apply (filter_good_captures _ _ goods bads Pm Gd Bd). }
  apply sorted_moves; [|exact St].
  rewrite Forall_forall in *. intros e He.
  apply Gd. pose proof (Permutation_in _ Pt He) as Q.
  apply filter_In in Q. apply Q.
Qed.

Lemma pick_loop_pv (acc : Move -> bool) (n : nat) : forall s,
  pvNode s = true ->
  pick_loop
    (fun s0 => if pvNode s0 || (movesPicked s0 <? 12)
               then find_best_index s0 else Ret (movesPicked s0)) acc n s
  = pick_loop find_best_index acc n s.
Proof.
  induction n as [|n IH]; intros s Hpv; [reflexivity|].
  cbn [pick_loop]. rewrite Hpv. cbn [orb].
  destruct (find_best_index s) as [b| |]; cbn [bind]; try reflexivity.
  destruct (b =? -1); [reflexivity|].
  destruct (read (moves s) b) as [e| |]; cbn [bind]; try reflexivity.
  destruct (read (moves s) (movesPicked s)) as [f| |]; cbn [bind];
    try reflexivity.
  destruct (write (moves s) b f) as [mv| |]; cbn [bind]; try reflexivity.
  rewrite IH; [reflexivity|exact Hpv].
Qed.

(** ** Draws that take the front entry *)

(** [pick_loop] with a chooser that returns [movesPicked] in the states of
    [Inv]: the bucket is scanned from its front and left in place. *)
Lemma pick_front_run (choose : MovePicker -> result Z) (acc : Move -> bool)
    (Inv : MovePicker -> Prop) :
  (forall t, Inv t -> choose t = Ret (movesPicked t)) ->
  (forall t t', Inv t -> same_phase t t' ->
                movesPicked t <= movesPicked t' -> Inv t') ->
  forall win s pre post,
    Inv s -> layout s pre win post ->
    exists m s' pre' win' rej,
      pick_loop choose acc (length win) s = Ret (m, s')
      /\ layout s' pre' win' post
      /\ same_phase s s'
      /\ movesPicked s <= movesPicked s'
      /\ Forall (fun e => acc (move e) = false) rej
      /\ ((exists e, m = move e /\ acc (move e) = true
                     /\ win = rej ++ e :: win')
          \/ (m = MOVE_NONE /\ win' = [] /\ win = rej)).
Proof.
  intros Hch Hstep.
  induction win as [|e t IH]; intros s pre post HI L.
  - exists MOVE_NONE, s, pre, [], []. simpl.
    split; [reflexivity|]. split; [exact L|]. split; [apply same_phase_refl|].
    split; [lia|]. split; [constructor|]. right. auto.
  - assert (Hc : choose s = Ret (Z.of_nat (length pre) + Z.of_nat 0)).
    { rewrite (Hch s HI). destruct L as (_ & P & _). rewrite P, Z.add_0_r.
      reflexivity. }
    destruct (pick_step choose acc (length t) s pre (e :: t) post 0 e L
                eq_refl Hc)
      as (front & r & mp1 & Ew & Step & L1 & _ & SP & _).
    inversion Ew; subst front r. cbn [take_at] in L1.
    change (length (e :: t)) with (S (length t)). rewrite Step.
    assert (Mp : movesPicked s <= movesPicked mp1).
    { destruct L as (_ & P & _). destruct L1 as (_ & P1 & _).
      rewrite P, P1, length_app. simpl. lia. }
    destruct (acc (move e)) eqn:Acc.
    + exists (move e), mp1, (pre ++ [e]), t, [].
      split; [reflexivity|]. split; [exact L1|]. split; [exact SP|].
      split; [exact Mp|]. split; [constructor|]. left. exists e. auto.
    + destruct (IH mp1 (pre ++ [e]) post (Hstep s mp1 HI SP Mp) L1)
        as (m & s' & pre' & win' & rej & E & L' & SP' & Mp' & R' & C).
      exists m, s', pre', win', (e :: rej).
      split; [exact E|]. split; [exact L'|].
      split; [exact (same_phase_trans _ _ _ SP SP')|].
      split; [lia|]. split; [constructor; assumption|].
      destruct C as [(e' & Em & Acc' & Et)|(Em & Ew' & Et)].
      * left. exists e'. subst t. auto.
      * right. subst t. auto.
Qed.

(** The QCHECKS loop likewise. *)
Lemma front_loop_run (acc : Move -> bool) (win : list MoveStack) :
  forall s pre post,
    layout s pre win post ->
    exists m s' pre' win' rej,
      front_loop acc (length win) s = Ret (m, s')
      /\ layout s' pre' win' post
      /\ same_phase s s'
      /\ movesPicked s <= movesPicked s'
      /\ Forall (fun e => acc (move e) = false) rej
      /\ ((exists e, m = move e /\ acc (move e) = true
                     /\ win = rej ++ e :: win')
          \/ (m = MOVE_NONE /\ win' = [] /\ win = rej)).
Proof.
  induction win as [|e t IH]; intros s pre post L.
  - exists MOVE_NONE, s, pre, [], []. simpl.
    split; [reflexivity|]. split; [exact L|]. split; [apply same_phase_refl|].
    split; [lia|]. split; [constructor|]. right. auto.
  - pose proof L as (M & P & N).
    set (mp1 := with_movesPicked s (movesPicked s + 1)).
    assert (Step : front_loop acc (length (e :: t)) s
                   = if acc (move e) then Ret (move e, mp1)
                     else front_loop acc (length t) mp1).
    { unfold mp1. cbn [length front_loop]. rewrite M, P.
      pose proof (read_app_head pre (t ++ post) e) as R. simpl in R.
      simpl. rewrite R. reflexivity. }
    rewrite Step.
    assert (L1 : layout mp1 (pre ++ [e]) t post).
    { unfold layout, mp1. simpl. rewrite M, N, P, <- app_assoc, length_app.
      simpl. repeat split; lia. }
    assert (SP : same_phase s mp1).
    { unfold same_phase, same_setup, mp1. simpl. tauto. }
    assert (Mp : movesPicked s <= movesPicked mp1)
      by (unfold mp1; simpl; lia).
    destruct (acc (move e)) eqn:Acc.
    + exists (move e), mp1, (pre ++ [e]), t, [].
      split; [reflexivity|]. split; [exact L1|]. split; [exact SP|].
      split; [exact Mp|]. split; [constructor|]. left. exists e. auto.
    + destruct (IH mp1 (pre ++ [e]) post L1)
        as (m & s' & pre' & win' & rej & E & L' & SP' & Mp' & R' & C).
      clear Step.
      exists m, s', pre', win', (e :: rej).
      split; [exact E|]. split; [exact L'|].
      split; [exact (same_phase_trans _ _ _ SP SP')|].
      split; [lia|]. split; [constructor; assumption|].
      destruct C as [(e' & Em & Acc' & Et)|(Em & Ew' & Et)].
      * left. exists e'. subst t. auto.
      * right. subst t. auto.
Qed.

Section InOrder.

Variable acc : Move -> bool.
Variable Inv : MovePicker -> Prop.

Hypothesis draw_spec : forall s pre win post,
  Inv s -> layout s pre win post ->
  exists m s' pre' win' rej,
    pick_move_from_list s = Ret (m, s')
    /\ layout s' pre' win' post
    /\ same_phase s s'
    /\ Inv s'
    /\ Forall (fun e => acc (move e) = false) rej
    /\ ((exists e, m = move e /\ acc (move e) = true
                   /\ win = rej ++ e :: win')
        \/ (m = MOVE_NONE /\ win' = [] /\ win = rej)).

(** Successive calls in a phase that draws from the front return the
    accepted moves of the bucket in the order the bucket holds them. *)
Lemma drain_in_order (k : nat) : forall win s pre post,
  (length win <= k)%nat ->
  Inv s ->
  layout s pre win post ->
  ~ In MOVE_NONE (map move win) ->
  exists tr s1 s2 pre2,
    trace (length tr) s = Ret (tr, s1)
    /\ map fst tr = filter acc (map move win)
    /\ Forall (fun y => snd y = phaseIndex s) tr
    /\ pick_move_from_list s1 = Ret (MOVE_NONE, s2)
    /\ same_phase s s2
    /\ layout s2 pre2 [] post.
Proof.
  induction k as [|k IH]; intros win s pre post Hk HI L Hnone.
  { destruct win; [|simpl in Hk; lia].
    destruct (draw_spec s pre [] post HI L)
      as (m & s' & pre' & win' & rej & E & L' & SP & _ & _ & C).
    destruct C as [(e & _ & _ & Ew)|(Em & Ew' & _)].
    - destruct rej; discriminate.
    - subst m win'. exists [], s, s', pre'. simpl.
      split; [reflexivity|]. split; [reflexivity|]. split; [constructor|].
      split; [exact E|]. split; [exact SP|exact L']. }
  destruct (draw_spec s pre win post HI L)
    as (m & s' & pre' & win' & rej & P & L' & SP & HI' & R & Cs).
  destruct Cs as [(e & Em & Acc & Ew)|(Em & Ew' & Ew)].
  - assert (Hm : m <> MOVE_NONE).
    { intros Hm. apply Hnone. rewrite <- Hm, Em, Ew. apply in_map.
      apply in_or_app. right. left. reflexivity. }
    pose proof (get_next_move_yield s m s' P Hm) as G1.
    pose proof SP as (SS & PI & NM & NB).
    destruct (IH win' s' pre' post)
      as (tr & s1 & s2 & pre2 & T & Mt & Ft & P2 & SP2 & L2).
    + rewrite Ew, length_app in Hk. simpl in Hk. lia.
    + exact HI'.
    + exact L'.
    + intros Hx. apply Hnone. rewrite Ew, map_app. apply in_or_app. right.
      right. exact Hx.
    + exists ((m, phaseIndex s') :: tr), s1, s2, pre2.
      split; [simpl; rewrite G1; simpl; rewrite T; reflexivity|].
      split.
      { simpl. rewrite Mt, Ew, map_app, filter_app.
        rewrite (filter_rejected acc rej R). simpl.
        rewrite Acc, Em. reflexivity. }
      split.
      { constructor; [simpl; exact PI|].
        eapply Forall_impl; [|exact Ft]. simpl. intros; congruence. }
      split; [exact P2|].
      split; [exact (same_phase_trans _ _ _ SP SP2)|exact L2].
  - subst win'. exists [], s, s', pre'. simpl.
    split; [reflexivity|].
    split; [rewrite Ew; symmetry; apply filter_rejected; exact R|].
    split; [constructor|]. split; [rewrite <- Em; exact P|].
    split; [exact SP|exact L'].
Qed.

End InOrder.

Lemma front_loop_ext (a1 a2 : Move -> bool) :
  (forall m, a1 m = a2 m) ->
  forall n s, front_loop a1 n s = front_loop a2 n s.
Proof.
  intros H. induction n as [|n IH]; intros s; simpl; [reflexivity|].
  destruct (read (moves s) (movesPicked s)) as [e| |]; simpl;
    try reflexivity.
  rewrite H, IH. reflexivity.
Qed.

Lemma accept_qsearch_setup (a b : MovePicker) (m : Move) :
  same_setup a b -> accept_qsearch b m = accept_qsearch a m.
Proof.
  intros (P & _ & _ & _ & _ & _ & _ & _ & Pn & _). unfold accept_qsearch.
  rewrite P, Pn. reflexivity.
Qed.

(** A draw in QCHECKS. *)
Lemma qchecks_draw (a s : MovePicker) pre win post :
  aget (PhaseTable G) (phaseIndex s) = Some PH_QCHECKS /\ same_setup a s ->
  layout s pre win post ->
  exists m s' pre' win' rej,
    pick_move_from_list s = Ret (m, s')
    /\ layout s' pre' win' post
    /\ same_phase s s'
    /\ (aget (PhaseTable G) (phaseIndex s') = Some PH_QCHECKS
        /\ same_setup a s')
    /\ Forall (fun e => accept_qsearch a (move e) = false) rej
    /\ ((exists e, m = move e /\ accept_qsearch a (move e) = true
                   /\ win = rej ++ e :: win')
        \/ (m = MOVE_NONE /\ win' = [] /\ win = rej)).
Proof.
  intros (Ph & SS) L.
  destruct (front_loop_run (accept_qsearch a) win s pre post L)
    as (m & s' & pre' & win' & rej & E & L' & SP & _ & R & C).
  exists m, s', pre', win', rej.
  split.
  { unfold pick_move_from_list, read. rewrite Ph. cbn [bind].
    rewrite (layout_remaining _ _ _ _ L).
    rewrite (front_loop_ext (accept_qsearch s) (accept_qsearch a)); [exact E|].
    intros x. apply accept_qsearch_setup. exact SS. }
  split; [exact L'|]. split; [exact SP|].
  split.
  { destruct SP as (SS' & PI & _). rewrite PI. split; [exact Ph|].
    exact (same_setup_trans _ _ _ SS SS'). }
  split; [exact R|exact C].
Qed.

(** A draw in NONCAPTURES at a node that is not a PV node, once twelve
    entries have been drawn. *)
Lemma late_noncaptures_draw (a s : MovePicker) pre win post :
  aget (PhaseTable G) (phaseIndex s) = Some PH_NONCAPTURES
  /\ same_setup a s /\ pvNode a = false /\ 12 <= movesPicked s ->
  layout s pre win post ->
  exists m s' pre' win' rej,
    pick_move_from_list s = Ret (m, s')
    /\ layout s' pre' win' post
    /\ same_phase s s'
    /\ (aget (PhaseTable G) (phaseIndex s') = Some PH_NONCAPTURES
        /\ same_setup a s' /\ pvNode a = false /\ 12 <= movesPicked s')
    /\ Forall (fun e => accept_main a (move e) = false) rej
    /\ ((exists e, m = move e /\ accept_main a (move e) = true
                   /\ win = rej ++ e :: win')
        \/ (m = MOVE_NONE /\ win' = [] /\ win = rej)).
Proof.
  intros (Ph & SS & Hpv & H12) L.
  destruct (pick_front_run
              (fun s0 => if pvNode s0 || (movesPicked s0 <? 12)
                         then find_best_index s0 else Ret (movesPicked s0))
              (accept_main a)
              (fun t => pvNode t = false /\ 12 <= movesPicked t))
    with (win := win) (s := s) (pre := pre) (post := post)
    as (m & s' & pre' & win' & rej & E & L' & SP & Mp & R & C).
  { intros t (Hp & Ht). rewrite Hp. cbn [orb].
    destruct (movesPicked t <? 12) eqn:Q; [apply Z.ltb_lt in Q; lia|].
    reflexivity. }
  { intros t t' (Hp & Ht) ((_ & Pv & _) & _) Hle. split; [congruence|lia]. }
  { split; [|exact H12]. destruct SS as (_ & Pv & _). congruence. }
  { exact L. }
  exists m, s', pre', win', rej.
  split.
  { unfold pick_move_from_list, read. rewrite Ph. cbn [bind].
    rewrite (layout_remaining _ _ _ _ L).
    rewrite (pick_loop_ext _ (accept_main s) (accept_main a)); [exact E|].
    intros x. apply accept_main_setup. exact SS. }
  split; [exact L'|]. split; [exact SP|].
  split.
  { destruct SP as (SS' & PI & _). rewrite PI. split; [exact Ph|].
    split; [exact (same_setup_trans _ _ _ SS SS')|]. split; [exact Hpv|lia]. }
  split; [exact R|exact C].
Qed.

(** X5.  NONCAPTURES, entered from the phase before it.  At a PV node the
    quiet moves that are legal and are neither the TT move nor the mate
    killer are returned in non-increasing order of the score
    [score_noncaptures] gives them.  At any other node, once twelve entries
    of the bucket have been drawn, the rest is returned in the order the
    bucket holds it. *)
Theorem noncaptures_selection (a : MovePicker) :
  phaseIndex a = 2 ->
  (length (generate_noncaptures (pos a)) <= length (moves a))%nat ->
  (forall m, In m (generate_noncaptures (pos a)) ->
             -10000000 < noncapture_score a m) ->
  ~ In MOVE_NONE (generate_noncaptures (pos a)) ->
  exists n1,
    next_phase a = Ret (inr n1)
    /\ current_move_type n1 = Ret PH_NONCAPTURES
    /\ map move (bucket n1) = generate_noncaptures (pos a)
    /\ (pvNode a = true ->
        exists ms s1 s2,
          trace (length ms) n1 = Ret (map (fun m => (m, 3)) ms, s1)
          /\ pick_move_from_list s1 = Ret (MOVE_NONE, s2)
          /\ Permutation ms
               (filter (accept_main a) (generate_noncaptures (pos a)))
          /\ by_descending (noncapture_score a) ms)
    /\ (pvNode a = false ->
        forall s pre win post,
          same_phase n1 s -> 12 <= movesPicked s ->
          layout s pre win post ->
          ~ In MOVE_NONE (map move win) ->
          exists tr s1 s2,
            trace (length tr) s = Ret (tr, s1)
            /\ map fst tr = filter (accept_main a) (map move win)
            /\ pick_move_from_list s1 = Ret (MOVE_NONE, s2)).
Proof.
  intros PI Cq Hsq Hnone.
  destruct (enter_noncaptures a PI Cq)
    as (n1 & win & rest & EN & PIN & LN & MvN & ScN & SSN & _).
  assert (Hsel : Forall selectable win).
  { rewrite Forall_forall in *. intros e He. unfold selectable.
    rewrite (ScN e He). apply Hsq. rewrite <- MvN. apply in_map. exact He. }
  exists n1. split; [exact EN|].
  split; [unfold current_move_type; rewrite PIN; reflexivity|].
  split; [rewrite (layout_bucket _ _ _ _ LN); exact MvN|].
  split.
  - intros Hpv.
    destruct (drain_ranked find_best_index (accept_main a)
                (fun _ => by_score)
                (fun mp0 pre0 win0 post0 L0 N0 S0 =>
                   choose_best mp0 pre0 win0 post0 L0 N0 S0)
                (fun _ _ _ H => H)
                (length win) n1 [] win rest (le_n _))
      as (es & s1 & s2 & pre2 & T & Pt & St & P2 & _).
    { intros s' (SS' & PI' & _). unfold pick_move_from_list.
      rewrite PI', PIN.
      change (read (PhaseTable G) 3) with (Ret PH_NONCAPTURES). cbn [bind].
      rewrite pick_loop_pv.
      - apply pick_loop_ext. intros m. apply accept_main_setup.
        exact (same_setup_trans _ _ _ SSN SS').
      - destruct (same_setup_trans _ _ _ SSN SS') as (_ & Pv & _).
        congruence. }
    { exact LN. }
    { exact Hsel. }
    { rewrite MvN. exact Hnone. }
    exists (map move es), s1, s2.
    split; [rewrite length_map, <- trace_pairs, <- PIN; exact T|].
    split; [exact P2|].
    split.
    { eapply perm_trans; [apply Permutation_map; exact Pt|].
      rewrite filter_accept_entries, MvN. apply Permutation_refl. }
    apply sorted_moves; [|exact St].
    rewrite Forall_forall in *. intros e He.
    apply ScN. pose proof (Permutation_in _ Pt He) as Q.
    apply filter_In in Q. apply Q.
  - intros Hpv s pre0 win0 post0 SP H12 L0 Hn0.
    destruct (drain_in_order (accept_main a)
                (fun t => aget (PhaseTable G) (phaseIndex t)
                          = Some PH_NONCAPTURES
                          /\ same_setup a t /\ pvNode a = false
                          /\ 12 <= movesPicked t)
                (late_noncaptures_draw a)
                (length win0) win0 s pre0 post0 (le_n _))
      as (tr & s1 & s2 & pre2 & T & Mt & _ & P2 & _).
    { destruct SP as (SS' & PI' & _). rewrite PI', PIN.
      split; [reflexivity|].
      split; [exact (same_setup_trans _ _ _ SSN SS')|]. split; [exact Hpv|lia]. }
    { exact L0. }
    { exact Hn0. }
    exists tr, s1, s2. auto.
Qed.

(** ** The quiescence rows *)

Lemma enter_qcaptures_from (s : MovePicker) :
  aget (PhaseTable G) (phaseIndex s + 1) = Some PH_QCAPTURES ->
  (length (generate_captures (pos s)) <= length (moves s))%nat ->
  exists n1 win rest,
    next_phase s = Ret (inr n1)
    /\ phaseIndex n1 = phaseIndex s + 1
    /\ layout n1 [] win rest
    /\ map move win = generate_captures (pos s)
    /\ Forall (fun e => score e = mvv_lva (pos s) (move e)) win
    /\ same_setup s n1
    /\ length (moves n1) = length (moves s).
Proof.
  intros Ph Cm.
  set (si := with_phaseIndex s (phaseIndex s + 1)).
  assert (Cm' : (length (generate_captures (pos si)) <= length (moves si))%nat)
    by exact Cm.
  destruct (generate_score_with (mvv_lva (pos si)) si
              (generate_captures (pos si)) Cm')
    as (win & rest & n1 & E & L & Mv & Sc & SS & PI1 & _ & _ & _ & Len).
  exists (with_movesPicked n1 0), win, rest.
  split.
  { unfold next_phase. fold si. unfold read.
    change (phaseIndex si) with (phaseIndex s + 1). rewrite Ph. cbn [bind].
    unfold score_qcaptures. unfold bind in E |- *.
    destruct (generate si (generate_captures (pos si))) as [g| |] eqn:Eg;
      try discriminate.
    assert (Pg : pos g = pos si).
    { unfold generate in Eg. bind_inv Eg. inversion Eg. reflexivity. }
    rewrite Pg, E. reflexivity. }
  split; [cbn [phaseIndex with_movesPicked]; rewrite PI1; reflexivity|].
  split; [exact L|]. split; [exact Mv|]. split; [exact Sc|].
  split.
  { eapply same_setup_trans with (b := si);
      [unfold same_setup, si; simpl; tauto|].
    eapply same_setup_trans; [exact SS|]. unfold same_setup; simpl; tauto. }
  exact Len.
Qed.

Lemma enter_qchecks_from (s : MovePicker) :
  aget (PhaseTable G) (phaseIndex s + 1) = Some PH_QCHECKS ->
  (length (generate_checks (pos s) (dc s)) <= length (moves s))%nat ->
  exists n1 win rest,
    next_phase s = Ret (inr n1)
    /\ phaseIndex n1 = phaseIndex s + 1
    /\ layout n1 [] win rest
    /\ map move win = generate_checks (pos s) (dc s)
    /\ same_setup s n1.
Proof.
  intros Ph Cm.
  set (si := with_phaseIndex s (phaseIndex s + 1)).
  destruct (generate_spec si (generate_checks (pos s) (dc s)) Cm)
    as (filled & rest & E & Mv & Len).
  eexists _, filled, rest.
  split.
  { unfold next_phase. fold si. unfold read.
    change (phaseIndex si) with (phaseIndex s + 1). rewrite Ph. cbn [bind].
    change (pos si) with (pos s). change (dc si) with (dc s).
    rewrite E. cbn [bind]. reflexivity. }
  split; [reflexivity|].
  split.
  { unfold layout. cbn. split; [reflexivity|]. split; [reflexivity|].
    rewrite <- Mv, length_map. reflexivity. }
  split; [exact Mv|].
  unfold same_setup, si; simpl; tauto.
Qed.

Lemma tagged (i : Z) (tr : list (Move * Z)) :
  Forall (fun y => snd y = i) tr -> tr = map (fun m => (m, i)) (map fst tr).
Proof.
  induction 1 as [|[m j] t Hj Ht IH]; simpl; [reflexivity|].
  simpl in Hj. subst j. rewrite <- IH. reflexivity.
Qed.

(** Calls that drain a phase entered through [n1], followed by the calls
    [tl] made from the state the drain ends in. *)
Lemma trace_segment (s0 n1 s1 z : MovePicker) (tr tl : list (Move * Z))
    (k : nat) :
  get_next_move s0 = get_next_move n1 ->
  trace (length tr) n1 = Ret (tr, s1) ->
  trace (S k) s1 = Ret (tl, z) ->
  trace (S (length tr + k)) s0 = Ret (tr ++ tl, z).
Proof.
  intros G0 T Tl.
  pose proof (trace_app _ _ _ _ _ _ _ T Tl) as Q.
  rewrite Nat.add_succ_r in Q.
  rewrite (trace_first _ s0 n1 G0). exact Q.
Qed.

Lemma trace_stop (s1 s2 : MovePicker) :
  pick_move_from_list s1 = Ret (MOVE_NONE, s2) ->
  aget (PhaseTable G) (phaseIndex s2 + 1) = Some PH_STOP ->
  trace 1 s1
  = Ret ([(MOVE_NONE, phaseIndex s2 + 1)],
         with_phaseIndex s2 (phaseIndex s2 + 1)).
Proof.
  intros P St. unfold trace. rewrite (get_next_move_stop s1 s2 P St).
  reflexivity.
Qed.

(** Draining QCAPTURES. *)
Lemma drain_qcaptures (a n1 : MovePicker) (win rest : list MoveStack) :
  aget (PhaseTable G) (phaseIndex n1) = Some PH_QCAPTURES ->
  same_setup a n1 ->
  layout n1 [] win rest ->
  Forall selectable win ->
  ~ In MOVE_NONE (map move win) ->
  exists tr s1 s2,
    trace (length tr) n1 = Ret (tr, s1)
    /\ Permutation (map fst tr) (filter (accept_qsearch a) (map move win))
    /\ Forall (fun y => snd y = phaseIndex n1) tr
    /\ pick_move_from_list s1 = Ret (MOVE_NONE, s2)
    /\ same_phase n1 s2
    /\ length (moves s2) = length (moves n1).
Proof.
  intros Ph SS L Hsel Hnone.
  destruct (drain_bucket
              (fun s0 => if movesPicked s0 <? 4 then find_best_index s0
                         else Ret (movesPicked s0))
              (accept_qsearch a) qsearch_choice
              (fun mp0 pre0 win0 post0 L0 N0 S0 =>
                 choose_qsearch mp0 pre0 win0 post0 L0 N0 S0)
              (length win) n1 [] win rest (le_n _))
    as (tr & s1 & s2 & pre2 & T & Pt & Ft & P2 & SP & L2 & _).
  { intros s' (SS' & PI' & _). unfold pick_move_from_list, read.
    rewrite PI', Ph. cbn [bind].
    apply pick_loop_ext. intros m. apply accept_qsearch_setup.
    exact (same_setup_trans _ _ _ SS SS'). }
  { exact L. }
  { exact Hsel. }
  { exact Hnone. }
  exists tr, s1, s2.
  split; [exact T|]. split; [exact Pt|]. split; [exact Ft|].
  split; [exact P2|]. split; [exact SP|].
  pose proof (layout_length _ _ _ _ L) as Q1.
  pose proof (layout_length _ _ _ _ L2) as Q2.
  destruct SP as (_ & _ & NM & _). lia.
Qed.

(** Draining QCHECKS. *)
Lemma drain_qchecks (a n1 : MovePicker) (win rest : list MoveStack) :
  aget (PhaseTable G) (phaseIndex n1) = Some PH_QCHECKS ->
  same_setup a n1 ->
  layout n1 [] win rest ->
  ~ In MOVE_NONE (map move win) ->
  exists tr s1 s2,
    trace (length tr) n1 = Ret (tr, s1)
    /\ map fst tr = filter (accept_qsearch a) (map move win)
    /\ Forall (fun y => snd y = phaseIndex n1) tr
    /\ pick_move_from_list s1 = Ret (MOVE_NONE, s2)
    /\ same_phase n1 s2.
Proof.
  intros Ph SS L Hnone.
  destruct (drain_in_order (accept_qsearch a)
              (fun t => aget (PhaseTable G) (phaseIndex t) = Some PH_QCHECKS
                        /\ same_setup a t)
              (qchecks_draw a)
              (length win) win n1 [] rest (le_n _) (conj Ph SS) L Hnone)
    as (tr & s1 & s2 & pre2 & T & Mt & Ft & P2 & SP & _).
  exists tr, s1, s2. auto.
Qed.

Lemma qsearch_start (raw : MovePicker) (p : Position) (pv : bool)
    (ttm : Move) (ss : SearchStack) (d : Depth) (ei : option EvalInfo) :
  is_check p = false -> d <= 0 ->
  phaseIndex (MovePicker_new raw p pv ttm ss d ei)
  = (if d =? 0 then (if noCaptures p ei then 10 else 7)
     else (if noCaptures p ei then 14 else 12))
  /\ pick_move_from_list (MovePicker_new raw p pv ttm ss d ei)
     = Ret (MOVE_NONE, MovePicker_new raw p pv ttm ss d ei).
Proof.
  intros Hc Hd.
  assert (PI : phaseIndex (MovePicker_new raw p pv ttm ss d ei)
               = (if d =? 0 then (if noCaptures p ei then 10 else 7)
                  else (if noCaptures p ei then 14 else 12))).
  { unfold MovePicker_new. cbn [phaseIndex]. rewrite Hc.
    destruct (d >? 0) eqn:Q; [rewrite Z.gtb_ltb in Q; apply Z.ltb_lt in Q; lia|].
    destruct (d =? 0), (noCaptures p ei); reflexivity. }
  split; [exact PI|].
  unfold pick_move_from_list. rewrite PI.
  destruct (d =? 0), (noCaptures p ei); reflexivity.
Qed.

(** The quiescence row with checks, call by call. *)
Lemma qsearch_trace_with_checks (raw : MovePicker) (p : Position) (pv : bool)
    (ttm : Move) (ss : SearchStack) (d : Depth) (ei : option EvalInfo) :
  let mp := MovePicker_new raw p pv ttm ss d ei in
  let legal := fun m => pl_move_is_legal p m (pinned mp) in
  let checks := generate_checks p (dc mp) in
  is_check p = false -> d = 0 -> noCaptures p ei = false ->
  (length (generate_captures p) <= length (moves raw))%nat ->
  (length checks <= length (moves raw))%nat ->
  (forall m, In m (generate_captures p) -> -10000000 < mvv_lva p m) ->
  ~ In MOVE_NONE (generate_captures p ++ checks) ->
  exists cs s,
    trace (S (length cs + length (filter legal checks))) mp
    = Ret (map (fun m => (m, 8)) cs
           ++ map (fun m => (m, 9)) (filter legal checks)
           ++ [(MOVE_NONE, 10)], s)
    /\ Permutation cs (filter legal (generate_captures p)).
Proof.
  intros mp legal checks Hc Hd Hn Cc Cq Hsc Hnone.
  destruct (qsearch_start raw p pv ttm ss d ei Hc) as (PI & P0); [lia|].
  fold mp in PI, P0. rewrite Hn in PI. subst d. rewrite Z.eqb_refl in PI.
  (* QCAPTURES *)
  destruct (enter_qcaptures_from mp) as (n1 & win & rest & E1 & PI1 & L1 & Mv1
                                         & Sc1 & SS1 & Len1).
  { rewrite PI. reflexivity. }
  { exact Cc. }
  assert (G0 : get_next_move mp = get_next_move n1)
    by (apply (get_next_move_skip mp mp n1 P0 E1); lia).
  destruct (drain_qcaptures mp n1 win rest)
    as (trC & s1 & s2 & TC & PC & FC & P2 & SP2 & Len2).
  { rewrite PI1, PI. reflexivity. }
  { exact SS1. }
  { exact L1. }
  { rewrite Forall_forall in *. intros e He. unfold selectable.
    rewrite (Sc1 e He). apply Hsc. change (pos mp) with p in Mv1.
    rewrite <- Mv1. apply in_map. exact He. }
  { rewrite Mv1. intros H. apply Hnone. apply in_or_app. left. exact H. }
  pose proof SP2 as (SS2 & PI2 & _).
  assert (SSm2 : same_setup mp s2) by exact (same_setup_trans _ _ _ SS1 SS2).
  assert (Pos2 : pos s2 = p) by (destruct SSm2 as (Q & _); exact Q).
  assert (Dc2 : dc s2 = dc mp)
    by (destruct SSm2 as (_ & _ & _ & _ & _ & _ & _ & Q & _); exact Q).
  (* QCHECKS *)
  destruct (enter_qchecks_from s2) as (n2 & winQ & restQ & E2 & PIn2 & Lq & Mvq
                                       & SSq).
  { rewrite PI2, PI1, PI. reflexivity. }
  { rewrite Pos2, Dc2, Len2, Len1. exact Cq. }
  rewrite Pos2, Dc2 in Mvq. fold checks in Mvq.
  assert (G1 : get_next_move s1 = get_next_move n2).
  { apply (get_next_move_skip s1 s2 n2 P2 E2).
    rewrite <- (pick_move_from_list_phase _ _ _ P2). exact PIn2. }
  destruct (drain_qchecks mp n2 winQ restQ)
    as (trQ & q1 & q2 & TQ & MQ & FQ & PQ & SPq).
  { rewrite PIn2, PI2, PI1, PI. reflexivity. }
  { exact (same_setup_trans _ _ _ SSm2 SSq). }
  { exact Lq. }
  { rewrite Mvq. intros H. apply Hnone. apply in_or_app. right. exact H. }
  pose proof SPq as (_ & PIq & _).
  (* STOP *)
  assert (PIq2 : phaseIndex q2 = 9) by lia.
  assert (PIn1 : phaseIndex n1 = 8) by lia.
  assert (PIn9 : phaseIndex n2 = 9) by lia.
  pose proof (trace_stop q1 q2 PQ) as TS. rewrite PIq2 in TS.
  specialize (TS eq_refl).
  pose proof (trace_segment s1 n2 q1 _ trQ _ 0 G1 TQ TS) as T1.
  pose proof (trace_segment mp n1 s1 _ trC _ _ G0 TC T1) as T0.
  rewrite (tagged _ _ FC), (tagged _ _ FQ), PIn1, PIn9, MQ, Mvq in T0.
  rewrite !length_map in T0.
  change (accept_qsearch mp) with legal in T0, PC.
  exists (map fst trC), (with_phaseIndex q2 (9 + 1)).
  split.
  { rewrite length_map, Nat.add_0_r in *. exact T0. }
  rewrite Mv1 in PC. exact PC.
Qed.

(** X6.  A picker built at depth 0 for a position not in check, without the
    no-captures hint, returns the legal captures, each as often as
    generated (index 8, QCAPTURES), then the legal moves of the check
    generator in the order generated (index 9, QCHECKS), then [MOVE_NONE]
    (index 10).  No move is withheld for being the TT move, and a move both
    generators list is returned in both phases. *)
Theorem qsearch_with_checks_row (raw : MovePicker) (p : Position) (pv : bool)
    (ttm : Move) (ss : SearchStack) (d : Depth) (ei : option EvalInfo) :
  let mp := MovePicker_new raw p pv ttm ss d ei in
  let legal := fun m => pl_move_is_legal p m (pinned mp) in
  let checks := generate_checks p (dc mp) in
  is_check p = false -> d = 0 -> noCaptures p ei = false ->
  (length (generate_captures p) <= length (moves raw))%nat ->
  (length checks <= length (moves raw))%nat ->
  (forall m, In m (generate_captures p) -> -10000000 < mvv_lva p m) ->
  ~ In MOVE_NONE (generate_captures p ++ checks) ->
  exists cs s,
    trace (S (length cs + length (filter legal checks))) mp
    = Ret (map (fun m => (m, 8)) cs
           ++ map (fun m => (m, 9)) (filter legal checks)
           ++ [(MOVE_NONE, 10)], s)
    /\ Permutation cs (filter legal (generate_captures p)).
Proof. exact (qsearch_trace_with_checks raw p pv ttm ss d ei). Qed.

(** The quiescence row without checks, call by call. *)
Lemma qsearch_trace_without_checks (raw : MovePicker) (p : Position)
    (pv : bool) (ttm : Move) (ss : SearchStack) (d : Depth)
    (ei : option EvalInfo) :
  let mp := MovePicker_new raw p pv ttm ss d ei in
  let legal := fun m => pl_move_is_legal p m (pinned mp) in
  is_check p = false -> d < 0 -> noCaptures p ei = false ->
  (length (generate_captures p) <= length (moves raw))%nat ->
  (forall m, In m (generate_captures p) -> -10000000 < mvv_lva p m) ->
  ~ In MOVE_NONE (generate_captures p) ->
  exists cs s,
    trace (S (length cs)) mp
    = Ret (map (fun m => (m, 13)) cs ++ [(MOVE_NONE, 14)], s)
    /\ Permutation cs (filter legal (generate_captures p)).
Proof.
  intros mp legal Hc Hd Hn Cc Hsc Hnone.
  destruct (qsearch_start raw p pv ttm ss d ei Hc) as (PI & P0); [lia|].
  fold mp in PI, P0. rewrite Hn in PI.
  destruct (d =? 0) eqn:Q; [apply Z.eqb_eq in Q; lia|clear Q].
  destruct (enter_qcaptures_from mp) as (n1 & win & rest & E1 & PI1 & L1 & Mv1
                                         & Sc1 & SS1 & Len1).
  { rewrite PI. reflexivity. }
  { exact Cc. }
  assert (G0 : get_next_move mp = get_next_move n1)
    by (apply (get_next_move_skip mp mp n1 P0 E1); lia).
  destruct (drain_qcaptures mp n1 win rest)
    as (trC & s1 & s2 & TC & PC & FC & P2 & SP2 & Len2).
  { rewrite PI1, PI. reflexivity. }
  { exact SS1. }
  { exact L1. }
  { rewrite Forall_forall in *. intros e He. unfold selectable.
    rewrite (Sc1 e He). apply Hsc. change (pos mp) with p in Mv1.
    rewrite <- Mv1. apply in_map. exact He. }
  { rewrite Mv1. exact Hnone. }
  pose proof SP2 as (_ & PI2 & _).
  assert (PI13 : phaseIndex s2 = 13) by lia.
  assert (PIn1 : phaseIndex n1 = 13) by lia.
  pose proof (trace_stop s1 s2 P2) as TS. rewrite PI13 in TS.
  specialize (TS eq_refl).
  pose proof (trace_segment mp n1 s1 _ trC _ 0 G0 TC TS) as T0.
  rewrite (tagged _ _ FC), PIn1, length_map, Nat.add_0_r in T0.
  exists (map fst trC), (with_phaseIndex s2 (13 + 1)).
  split; [exact T0|].
  rewrite Mv1 in PC. exact PC.
Qed.

(** X7.  A picker built at negative depth for a position not in check,
    without the no-captures hint, returns the legal captures, each as often
    as generated (index 13, QCAPTURES), then [MOVE_NONE] (index 14): the
    check generator is not called. *)
Theorem qsearch_without_checks_row (raw : MovePicker) (p : Position)
    (pv : bool) (ttm : Move) (ss : SearchStack) (d : Depth)
    (ei : option EvalInfo) :
  let mp := MovePicker_new raw p pv ttm ss d ei in
  let legal := fun m => pl_move_is_legal p m (pinned mp) in
  is_check p = false -> d < 0 -> noCaptures p ei = false ->
  (length (generate_captures p) <= length (moves raw))%nat ->
  (forall m, In m (generate_captures p) -> -10000000 < mvv_lva p m) ->
  ~ In MOVE_NONE (generate_captures p) ->
  exists cs s,
    trace (S (length cs)) mp
    = Ret (map (fun m => (m, 13)) cs ++ [(MOVE_NONE, 14)], s)
    /\ Permutation cs (filter legal (generate_captures p)).
Proof. exact (qsearch_trace_without_checks raw p pv ttm ss d ei). Qed.

(** The rows entered with the no-captures hint, call by call. *)
Lemma qsearch_trace_no_captures (raw : MovePicker) (p : Position)
    (pv : bool) (ttm : Move) (ss : SearchStack) (d : Depth)
    (ei : option EvalInfo) :
  let mp := MovePicker_new raw p pv ttm ss d ei in
  let legal := fun m => pl_move_is_legal p m (pinned mp) in
  let checks := generate_checks p (dc mp) in
  is_check p = false -> d <= 0 -> noCaptures p ei = true ->
  (length checks <= length (moves raw))%nat ->
  ~ In MOVE_NONE checks ->
  (d = 0 ->
   exists s,
     trace (S (length (filter legal checks))) mp
     = Ret (map (fun m => (m, 11)) (filter legal checks)
            ++ [(MOVE_NONE, 12)], s))
  /\ (d < 0 ->
      get_next_move mp = Ret (MOVE_NONE, with_phaseIndex mp 15)).
Proof.
  intros mp legal checks Hc Hd Hn Cq Hnone.
  destruct (qsearch_start raw p pv ttm ss d ei Hc Hd) as (PI & P0).
  fold mp in PI, P0. rewrite Hn in PI.
  split.
  - intros D0. subst d. rewrite Z.eqb_refl in PI.
    destruct (enter_qchecks_from mp) as (n2 & winQ & restQ & E2 & PIn2 & Lq
                                         & Mvq & SSq).
    { rewrite PI. reflexivity. }
    { exact Cq. }
    change (generate_checks (pos mp) (dc mp)) with checks in Mvq.
    assert (G0 : get_next_move mp = get_next_move n2)
      by (apply (get_next_move_skip mp mp n2 P0 E2); lia).
    destruct (drain_qchecks mp n2 winQ restQ)
      as (trQ & q1 & q2 & TQ & MQ & FQ & PQ & SPq).
    { rewrite PIn2, PI. reflexivity. }
    { exact SSq. }
    { exact Lq. }
    { rewrite Mvq. exact Hnone. }
    pose proof SPq as (_ & PIq & _).
    assert (PIq2 : phaseIndex q2 = 11) by lia.
    assert (PIn11 : phaseIndex n2 = 11) by lia.
    pose proof (trace_stop q1 q2 PQ) as TS. rewrite PIq2 in TS.
    specialize (TS eq_refl).
    pose proof (trace_segment mp n2 q1 _ trQ _ 0 G0 TQ TS) as T0.
    rewrite (tagged _ _ FQ), PIn11, MQ, Mvq, length_map, Nat.add_0_r in T0.
    change (accept_qsearch mp) with legal in T0.
    eexists. exact T0.
  - intros D. destruct (d =? 0) eqn:Q; [apply Z.eqb_eq in Q; lia|clear Q].
    rewrite (get_next_move_stop mp mp P0); rewrite PI; reflexivity.
Qed.

(** X8.  With the no-captures hint the capture generator is never called:
    at depth 0 the picker returns the legal moves of the check generator in
    the order generated (index 11, QCHECKS) and then [MOVE_NONE] (index 12);
    at negative depth its first call returns [MOVE_NONE] (index 15) with
    [moves] untouched. *)
Theorem qsearch_no_captures_rows (raw : MovePicker) (p : Position)
    (pv : bool) (ttm : Move) (ss : SearchStack) (d : Depth)
    (ei : option EvalInfo) :
  let mp := MovePicker_new raw p pv ttm ss d ei in
  let legal := fun m => pl_move_is_legal p m (pinned mp) in
  let checks := generate_checks p (dc mp) in
  is_check p = false -> d <= 0 -> noCaptures p ei = true ->
  (length checks <= length (moves raw))%nat ->
  ~ In MOVE_NONE checks ->
  (d = 0 ->
   exists s,
     trace (S (length (filter legal checks))) mp
     = Ret (map (fun m => (m, 11)) (filter legal checks)
            ++ [(MOVE_NONE, 12)], s))
  /\ (d < 0 ->
      get_next_move mp = Ret (MOVE_NONE, with_phaseIndex mp 15)).
Proof. exact (qsearch_trace_no_captures raw p pv ttm ss d ei). Qed.

(** ** Edges of the selection *)

(** X9.  [find_best_index] over a bucket that lies in [moves]: it returns
    either -1, and then no entry of the bucket scores above -10000000, or
    the index of the first entry that holds the greatest score of the
    bucket. *)
Theorem find_best_index_first_max (s : MovePicker)
    (pre win post : list MoveStack) :
  layout s pre win post ->
  exists r,
    find_best_index s = Ret r
    /\ ((r = -1 /\ Forall (fun e => score e <= -10000000) win)
        \/ exists j e,
             r = movesPicked s + Z.of_nat j
             /\ nth_error win j = Some e
             /\ -10000000 < score e
             /\ Forall (fun e' => score e' <= score e) win
             /\ Forall (fun e' => score e' < score e) (firstn j win)).
Proof.
  intros L. rewrite (find_best_index_scan s pre win post L).
  eexists. split; [reflexivity|].
  destruct (best_of_spec win (Z.of_nat (length pre)) (-10000000) (-1))
    as [(E & F)|(j & e & E & N & B & F1 & F2)].
  - left. split; [exact E|exact F].
  - right. exists j, e. destruct L as (_ & P & _). rewrite P.
    split; [exact E|]. split; [exact N|]. split; [exact B|].
    split; [exact F1|exact F2].
Qed.

Lemma find_best_index_none (s : MovePicker) (pre win post : list MoveStack) :
  layout s pre win post ->
  Forall (fun e => score e <= -10000000) win ->
  find_best_index s = Ret (-1).
Proof.
  intros L F. rewrite (find_best_index_scan s pre win post L). f_equal.
  destruct (best_of_spec win (Z.of_nat (length pre)) (-10000000) (-1))
    as [(E & _)|(j & e & _ & N & B & _)]; [exact E|].
  exfalso. apply nth_error_In in N. rewrite Forall_forall in F.
  pose proof (F e N). lia.
Qed.

(** X10.  In a phase that selects by [find_best_index], a bucket that is not
    empty and holds no score above -10000000 is never left: the draw loops
    forever, and so does [get_next_move]. *)
Theorem pick_never_returns_without_selectable (s : MovePicker)
    (pre win post : list MoveStack) (ph : MovegenPhase) :
  aget (PhaseTable G) (phaseIndex s) = Some ph ->
  ph = PH_GOOD_CAPTURES \/ ph = PH_EVASIONS
  \/ (ph = PH_NONCAPTURES /\ (pvNode s = true \/ movesPicked s < 12))
  \/ (ph = PH_QCAPTURES /\ movesPicked s < 4) ->
  layout s pre win post ->
  win <> [] ->
  Forall (fun e => score e <= -10000000) win ->
  pick_move_from_list s = Hang /\ get_next_move s = Hang.
Proof.
  intros Ph Hph L Hne F.
  pose proof (find_best_index_none s pre win post L F) as Fb.
  assert (R : exists n, remaining s = S n).
  { rewrite (layout_remaining _ _ _ _ L). destruct win; [congruence|].
    simpl. eauto. }
  destruct R as (n & R).
  assert (P : pick_move_from_list s = Hang).
  { unfold pick_move_from_list, read. rewrite Ph. cbn [bind]. rewrite R.
    destruct Hph as [->|[->|[(-> & Hc)|(-> & Hc)]]];
      cbn [pick_loop].
    - rewrite Fb. reflexivity.
    - rewrite Fb. reflexivity.
    - assert (Q : pvNode s || (movesPicked s <? 12) = true).
      { destruct Hc as [Hc|Hc]; [rewrite Hc; reflexivity|].
        apply Z.ltb_lt in Hc. rewrite Hc. apply orb_true_r. }
      rewrite Q, Fb. reflexivity.
    - apply Z.ltb_lt in Hc. rewrite Hc, Fb. reflexivity. }
  split; [exact P|].
  unfold get_next_move.
  apply aget_bounds in Ph.
  destruct (Z.to_nat (Z.of_nat (length (PhaseTable G)) - phaseIndex s))
    as [|k] eqn:K; [lia|].
  cbn [get_next_move_loop]. rewrite P. reflexivity.
Qed.

Lemma enter_evasions_from (s : MovePicker) :
  aget (PhaseTable G) (phaseIndex s + 1) = Some PH_EVASIONS ->
  (length (generate_evasions (pos s)) <= length (moves s))%nat ->
  exists n1 win rest,
    next_phase s = Ret (inr n1)
    /\ phaseIndex n1 = phaseIndex s + 1
    /\ layout n1 [] win rest
    /\ map move win = generate_evasions (pos s)
    /\ Forall (fun e => score e = evasion_score s (move e)) win
    /\ same_setup s n1.
Proof.
  intros Ph Cm.
  set (si := with_phaseIndex s (phaseIndex s + 1)).
  assert (Cm' : (length (generate_evasions (pos si)) <= length (moves si))%nat)
    by exact Cm.
  destruct (generate_score_with (evasion_score si) si
              (generate_evasions (pos si)) Cm')
    as (win & rest & n1 & E & L & Mv & Sc & SS & PI1 & _).
  exists (with_movesPicked n1 0), win, rest.
  split.
  { unfold next_phase. fold si. unfold read.
    change (phaseIndex si) with (phaseIndex s + 1). rewrite Ph. cbn [bind].
    unfold score_evasions. unfold bind in E |- *.
    destruct (generate si (generate_evasions (pos si))) as [g| |] eqn:Eg;
      try discriminate.
    assert (Sg : same_setup si g) by (eapply generate_setup; eauto).
    assert (F : score_with (evasion_score g) g
                = score_with (evasion_score si) g).
    { unfold score_with. f_equal. apply score_loop_ext.
      intros m. apply evasion_score_setup. exact Sg. }
    rewrite F, E. reflexivity. }
  split; [cbn [phaseIndex with_movesPicked]; rewrite PI1; reflexivity|].
  split; [exact L|]. split; [exact Mv|].
  split.
  { eapply Forall_impl; [|exact Sc]. simpl. intros e He. rewrite He.
    apply evasion_score_setup. unfold same_setup, si; simpl; tauto. }
  eapply same_setup_trans with (b := si);
    [unfold same_setup, si; simpl; tauto|].
  eapply same_setup_trans; [exact SS|]. unfold same_setup; simpl; tauto.
Qed.

(** X11.  [get_next_move()] keeps no record of having returned [MOVE_NONE].
    Called on a picker that stands on the [PH_STOP] of the main-search row
    (index 5), it goes on to the entry after it, [PH_EVASIONS]: it calls the
    evasion generator and returns the evasion of greatest score. *)
Theorem get_next_move_past_stop (s : MovePicker) :
  phaseIndex s = 5 ->
  (length (generate_evasions (pos s)) <= length (moves s))%nat ->
  (forall m, In m (generate_evasions (pos s)) ->
             -10000000 < evasion_score s m) ->
  ~ In MOVE_NONE (generate_evasions (pos s)) ->
  generate_evasions (pos s) <> [] ->
  current_move_type s = Ret PH_STOP
  /\ exists m s',
       get_next_move s = Ret (m, s')
       /\ m <> MOVE_NONE
       /\ In m (generate_evasions (pos s))
       /\ current_move_type s' = Ret PH_EVASIONS
       /\ forall m', In m' (generate_evasions (pos s)) ->
                     evasion_score s m' <= evasion_score s m.
Proof.
  intros PI Cm Hsc Hnone Hne.
  split; [unfold current_move_type; rewrite PI; reflexivity|].
  assert (P0 : pick_move_from_list s = Ret (MOVE_NONE, s)).
  { unfold pick_move_from_list. rewrite PI. reflexivity. }
  destruct (enter_evasions_from s) as (n1 & win & rest & E & PI1 & L & Mv & Sc
                                       & SS).
  { rewrite PI. reflexivity. }
  { exact Cm. }
  assert (G0 : get_next_move s = get_next_move n1)
    by (apply (get_next_move_skip s s n1 P0 E); exact PI1).
  assert (Hsel : Forall selectable win).
  { rewrite Forall_forall in *. intros e He. unfold selectable.
    rewrite (Sc e He). apply Hsc. rewrite <- Mv. apply in_map. exact He. }
  destruct (pick_loop_run find_best_index (fun _ => true) (fun _ => by_score)
              (fun mp0 pre0 win0 post0 L0 N0 S0 =>
                 choose_best mp0 pre0 win0 post0 L0 N0 S0)
              (remaining n1) n1 [] win rest L Hsel
              (layout_remaining _ _ _ _ L))
    as (m & s' & pre' & win' & rej & Ep & L' & SP & _ & _ & R & Cs).
  assert (P1 : pick_move_from_list n1 = Ret (m, s')).
  { unfold pick_move_from_list. rewrite PI1, PI. exact Ep. }
  assert (Rn : rej = []).
  { destruct rej as [|x r]; [reflexivity|]. inversion R; discriminate. }
  subst rej.
  destruct Cs as [(e & win0 & Em & _ & Pw & P2 & By)|(_ & _ & Pw)].
  - simpl in Pw.
    assert (Ine : In e win).
    { eapply Permutation_in; [apply Permutation_sym; exact Pw|].
      eapply Permutation_in; [apply Permutation_sym; exact P2|].
      left. reflexivity. }
    assert (Inm : In m (generate_evasions (pos s))).
    { rewrite <- Mv, Em. apply in_map. exact Ine. }
    assert (Hm : m <> MOVE_NONE) by (intros Q; apply Hnone; rewrite <- Q; exact Inm).
    exists m, s'. split.
    { rewrite G0. apply get_next_move_yield; assumption. }
    split; [exact Hm|]. split; [exact Inm|].
    split.
    { unfold current_move_type. destruct SP as (_ & PI' & _).
      rewrite PI', PI1, PI. reflexivity. }
    intros m' Hm'. rewrite <- Mv in Hm'. apply in_map_iff in Hm'.
    destruct Hm' as (e' & <- & He'). rewrite Forall_forall in Sc.
    rewrite Em, <- (Sc e Ine), <- (Sc e' He').
    unfold by_score in By. rewrite Forall_forall in By. apply By.
    eapply Permutation_in; [exact Pw|exact He'].
  - simpl in Pw. apply Permutation_sym, Permutation_nil in Pw. subst win.
    simpl in Mv. congruence.
Qed.

(** ** More losing captures than [badCaptures] holds *)

Lemma write_past_end (l : list MoveStack) (v : MoveStack) :
  write l (Z.of_nat (length l)) v = OutOfBounds.
Proof.
  unfold write, aset.
  destruct (Z.of_nat (length l) <? 0) eqn:Q; [reflexivity|].
  rewrite Z.leb_refl. reflexivity.
Qed.

Lemma score_captures_loop_overflow (n : nat) :
  forall (todo done rest bdone bfree : list MoveStack) (mp : MovePicker),
    length todo = n ->
    moves mp = done ++ todo ++ rest ->
    numOfMoves mp = Z.of_nat (length done) + Z.of_nat (length todo) ->
    badCaptures mp = bdone ++ bfree ->
    numOfBadCaptures mp = Z.of_nat (length bdone) ->
    (length bfree < length (filter (losing (pos mp)) todo))%nat ->
    score_captures_loop n (Z.of_nat (length done)) mp = OutOfBounds.
Proof.
  induction n as [|n IH];
    intros todo done rest bdone bfree mp Hn M N B NB Cap.
  - destruct todo; [simpl in Cap; lia|discriminate].
  - destruct todo as [|e t]; [discriminate|].
    simpl in Hn. injection Hn as Hn.
    cbn [score_captures_loop]. rewrite M.
    assert (R0 : read (done ++ (e :: t) ++ rest) (Z.of_nat (length done)) = Ret e)
      by apply read_app_head.
    rewrite R0. cbn [bind].
    destruct (see (pos mp) (move e) >=? 0) eqn:Hsee.
    + set (e1 := set_score e (mvv_lva (pos mp) (move e))).
      assert (W0 : write (done ++ (e :: t) ++ rest) (Z.of_nat (length done)) e1
                   = Ret (done ++ (e1 :: t) ++ rest)) by apply write_app_head.
      rewrite W0. cbn [bind].
      set (mp1 := with_moves mp (done ++ (e1 :: t) ++ rest)).
      assert (Cap1 : (length bfree < length (filter (losing (pos mp1)) t))%nat).
      { simpl in Cap. unfold losing in Cap at 1. unfold losing_move in Cap at 1.
        destruct (see (pos mp) (move e) <? 0) eqn:L; simpl in Cap.
        - apply Z.ltb_lt in L. apply Z.geb_le in Hsee. lia.
        - exact Cap. }
      pose proof (IH t (done ++ [e1]) rest bdone bfree mp1 Hn) as Q.
      rewrite length_app in Q. simpl length in Q.
      replace (Z.of_nat (length done + 1)) with (Z.of_nat (length done) + 1)
        in Q by lia.
      apply Q; try assumption.
      * cbn [moves mp1 with_moves]. rewrite <- app_assoc. reflexivity.
      * cbn [numOfMoves mp1 with_moves]. rewrite N. simpl length. lia.
    + assert (Hneg : see (pos mp) (move e) < 0).
      { destruct (Z_lt_ge_dec (see (pos mp) (move e)) 0) as [L|L]; [exact L|].
        apply Z.ge_le, Z.geb_le in L. congruence. }
      set (e' := set_score e (see (pos mp) (move e))).
      assert (Cap0 : (length bfree
                      < S (length (filter (losing (pos mp)) t)))%nat).
      { simpl in Cap. unfold losing in Cap at 1. unfold losing_move in Cap at 1.
        apply Z.ltb_lt in Hneg. rewrite Hneg in Cap. exact Cap. }
      rewrite B, NB.
      destruct bfree as [|b0 bfree0].
      { rewrite app_nil_r, write_past_end. reflexivity. }
      assert (WB : write (bdone ++ b0 :: bfree0) (Z.of_nat (length bdone)) e'
                   = Ret (bdone ++ e' :: bfree0)) by apply write_app_head.
      rewrite WB. cbn [bind].
      assert (W1 : write (done ++ (e :: t) ++ rest) (Z.of_nat (length done)) e'
                   = Ret (done ++ (e' :: t) ++ rest)) by apply write_app_head.
      rewrite W1. cbn [bind]. rewrite N.
      destruct (last_or_nil t) as [Et|(mid & l & Et)].
      * subst t. simpl in Cap0. simpl in Cap0. lia.
      * subst t.
        assert (Hlen : Z.of_nat (length done)
                       + Z.of_nat (length (e :: mid ++ [l])) - 1
                       = Z.of_nat (length done) + Z.of_nat (S (length mid))).
        { simpl length. rewrite length_app. simpl. lia. }
        rewrite Hlen.
        assert (R1 : read (done ++ (e' :: mid ++ [l]) ++ rest)
                       (Z.of_nat (length done) + Z.of_nat (S (length mid)))
                     = Ret l).
        { apply read_app_inner. simpl.
          rewrite nth_error_app2 by lia. rewrite Nat.sub_diag. reflexivity. }
        rewrite R1. cbn [bind].
        assert (W2 : write (done ++ (e' :: mid ++ [l]) ++ rest)
                       (Z.of_nat (length done)) l
                     = Ret (done ++ (l :: mid ++ [l]) ++ rest))
          by apply write_app_head.
        rewrite W2. cbn [bind].
        match goal with
        | |- context [score_captures_loop n _ ?s] => set (mp1 := s)
        end.
        apply (IH (l :: mid) done (l :: rest) (bdone ++ [e']) bfree0 mp1).
        { simpl. rewrite length_app in Hn. simpl in Hn. lia. }
        { cbn [moves mp1 with_numOfMoves with_moves]. simpl.
          rewrite <- !app_assoc. reflexivity. }
        { cbn [numOfMoves mp1 with_numOfMoves]. simpl length. lia. }
        { cbn [badCaptures mp1 with_numOfMoves with_moves with_numOfBadCaptures
               with_badCaptures]. rewrite <- app_assoc. reflexivity. }
        { cbn [numOfBadCaptures mp1 with_numOfMoves with_moves
               with_numOfBadCaptures]. rewrite length_app. simpl. lia. }
        { cbn [pos mp1 with_numOfMoves with_moves with_numOfBadCaptures
               with_badCaptures].
          rewrite (filter_length_perm _ (l :: mid) (mid ++ [l])).
          - simpl in Cap0. lia.
          - apply Permutation_cons_append. }
Qed.

Lemma get_next_move_fault s s0 :
  pick_move_from_list s = Ret (MOVE_NONE, s0) ->
  next_phase s0 = OutOfBounds ->
  get_next_move s = OutOfBounds.
Proof.
  intros P N. unfold get_next_move.
  destruct (Z.to_nat (Z.of_nat (length (PhaseTable G)) - phaseIndex s))
    as [|k]; [reflexivity|].
  simpl. rewrite P. simpl. rewrite Z.eqb_refl. simpl. rewrite N. reflexivity.
Qed.

(** X12.  [score_captures] does not check the room left in [badCaptures]
    (the [assert] is compiled out of a release build): when the capture
    generator yields more captures with SEE < 0 than [badCaptures] has
    entries, entering GOOD_CAPTURES writes past the end of the array. *)
Theorem bad_captures_overflow (a : MovePicker) :
  phaseIndex a = 1 ->
  numOfBadCaptures a = 0 ->
  (length (generate_captures (pos a)) <= length (moves a))%nat ->
  (length (badCaptures a)
   < length (filter (losing_move (pos a)) (generate_captures (pos a))))%nat ->
  next_phase a = OutOfBounds /\ get_next_move a = OutOfBounds.
Proof.
  intros PI NB Cm Cb.
  assert (N : next_phase a = OutOfBounds).
  { unfold next_phase.
    cbn [phaseIndex with_phaseIndex pos]. rewrite PI.
    change (read (PhaseTable G) (1 + 1)) with (Ret PH_GOOD_CAPTURES).
    cbn [bind].
    set (mp0 := with_phaseIndex a (1 + 1)).
    destruct (generate_spec mp0 (generate_captures (pos a)) Cm)
      as (filled & rest & E & Mv & Len).
    rewrite E. cbn [bind]. unfold score_captures.
    cbn [numOfMoves with_numOfMoves]. rewrite Nat2Z.id.
    assert (Lf : length (generate_captures (pos a)) = length filled)
      by (rewrite <- Mv, length_map; auto).
    rewrite Lf.
    match goal with
    | |- context [score_captures_loop _ 0 ?s] => set (mpg := s)
    end.
    assert (Ov : score_captures_loop (length filled)
                   (Z.of_nat (length (@nil MoveStack))) mpg = OutOfBounds).
    { assert (H1 : moves mpg = [] ++ filled ++ rest) by reflexivity.
      assert (H2 : numOfMoves mpg
                   = Z.of_nat (length (@nil MoveStack))
                     + Z.of_nat (length filled))
        by (unfold mpg; simpl; lia).
      assert (H3 : badCaptures mpg = [] ++ badCaptures a) by reflexivity.
      assert (H4 : numOfBadCaptures mpg = Z.of_nat (length (@nil MoveStack)))
        by exact NB.
      assert (H5 : (length (badCaptures a)
                    < length (filter (losing (pos mpg)) filled))%nat).
      { unfold mpg. cbn [pos with_numOfMoves with_moves mp0 with_phaseIndex].
        rewrite filter_losing_map, Mv. exact Cb. }
      exact (score_captures_loop_overflow (length filled) filled [] rest []
               (badCaptures a) mpg eq_refl H1 H2 H3 H4 H5). }
    simpl in Ov. rewrite Ov. reflexivity. }
  split; [exact N|].
  assert (P0 : pick_move_from_list a = Ret (MOVE_NONE, a)).
  { unfold pick_move_from_list. rewrite PI. reflexivity. }
  exact (get_next_move_fault a a P0 N).
Qed.
(** ** How QCAPTURES selects *)

(** A pass of the QCAPTURES loop that ends without an accepted move leaves the
    rest of the call to the state it produced. *)
Lemma qcaptures_rest (s s1 : MovePicker) pre win post :
  aget (PhaseTable G) (phaseIndex s) = Some PH_QCAPTURES ->
  same_phase s s1 ->
  layout s1 pre win post ->
  pick_loop
    (fun t => if movesPicked t <? 4 then find_best_index t
              else Ret (movesPicked t))
    (accept_qsearch s) (length win) s1
  = pick_move_from_list s1.
Proof.
  intros Ph (SS & PI & _) L. unfold pick_move_from_list, read.
  rewrite PI, Ph. cbn [bind]. rewrite (layout_remaining _ _ _ _ L).
  apply pick_loop_ext. intros m. symmetry. apply accept_qsearch_setup.
  exact SS.
Qed.

(** A draw in QCAPTURES once four entries have been drawn. *)
Lemma late_qcaptures_draw (a s : MovePicker) pre win post :
  aget (PhaseTable G) (phaseIndex s) = Some PH_QCAPTURES
  /\ same_setup a s /\ 4 <= movesPicked s ->
  layout s pre win post ->
  exists m s' pre' win' rej,
    pick_move_from_list s = Ret (m, s')
    /\ layout s' pre' win' post
    /\ same_phase s s'
    /\ (aget (PhaseTable G) (phaseIndex s') = Some PH_QCAPTURES
        /\ same_setup a s' /\ 4 <= movesPicked s')
    /\ Forall (fun e => accept_qsearch a (move e) = false) rej
    /\ ((exists e, m = move e /\ accept_qsearch a (move e) = true
                   /\ win = rej ++ e :: win')
        \/ (m = MOVE_NONE /\ win' = [] /\ win = rej)).
Proof.
  intros (Ph & SS & H4) L.
  destruct (pick_front_run
              (fun s0 => if movesPicked s0 <? 4 then find_best_index s0
                         else Ret (movesPicked s0))
              (accept_qsearch a)
              (fun t => 4 <= movesPicked t))
    with (win := win) (s := s) (pre := pre) (post := post)
    as (m & s' & pre' & win' & rej & E & L' & SP & Mp & R & C).
  { intros t Ht.
    destruct (movesPicked t <? 4) eqn:Q; [apply Z.ltb_lt in Q; lia|].
    reflexivity. }
  { intros t t' Ht _ Hle. lia. }
  { exact H4. }
  { exact L. }
  exists m, s', pre', win', rej.
  split.
  { unfold pick_move_from_list, read. rewrite Ph. cbn [bind].
    rewrite (layout_remaining _ _ _ _ L).
    rewrite (pick_loop_ext _ (accept_qsearch s) (accept_qsearch a));
      [exact E|].
    intros x. apply accept_qsearch_setup. exact SS. }
  split; [exact L'|]. split; [exact SP|].
  split.
  { destruct SP as (SS' & PI & _). rewrite PI. split; [exact Ph|].
    split; [exact (same_setup_trans _ _ _ SS SS')|lia]. }
  split; [exact R|exact C].
Qed.

(** C7.  QCAPTURES, for a picker [s] in that phase whose bucket is
    [front :: r], [pre] being the entries drawn before.

    - While fewer than four entries have been drawn, a pass of the loop
      draws the first entry of greatest score: the entry [e] at place [j]
      of the bucket, which no entry outscores and every entry before it
      scores below.  The front entry takes its place, and [e] is returned
      if [pl_move_is_legal] accepts it; if not, the call goes on from the
      bucket that is left.
    - Once four entries have been drawn, a pass draws [front], whatever the
      scores are, and returns it under the same test.
    - With the bucket empty the call returns [MOVE_NONE].
    - Hence, from the fifth draw on, successive calls return the legal
      moves of the bucket in the order the bucket holds them.
    - The test never compares with [ttMove]: for a quiescence picker whose
      row has QCAPTURES, a generated capture that is the TT move and legal
      is returned by some call, in QCAPTURES. *)
Theorem qcaptures_selection :
  (forall s pre front r post,
      aget (PhaseTable G) (phaseIndex s) = Some PH_QCAPTURES ->
      layout s pre (front :: r) post ->
      Forall selectable (front :: r) ->
      movesPicked s < 4 ->
      exists j e s1,
        nth_error (front :: r) j = Some e
        /\ by_score e (front :: r)
        /\ Forall (fun e' => score e' < score e) (firstn j (front :: r))
        /\ layout s1 (pre ++ [front]) (take_at j front r) post
        /\ same_phase s s1
        /\ pick_move_from_list s
           = if pl_move_is_legal (pos s) (move e) (pinned s)
             then Ret (move e, s1) else pick_move_from_list s1)
  /\ (forall s pre front r post,
      aget (PhaseTable G) (phaseIndex s) = Some PH_QCAPTURES ->
      layout s pre (front :: r) post ->
      4 <= movesPicked s ->
      exists s1,
        layout s1 (pre ++ [front]) r post
        /\ same_phase s s1
        /\ pick_move_from_list s
           = if pl_move_is_legal (pos s) (move front) (pinned s)
             then Ret (move front, s1) else pick_move_from_list s1)
  /\ (forall s pre post,
      aget (PhaseTable G) (phaseIndex s) = Some PH_QCAPTURES ->
      layout s pre [] post ->
      pick_move_from_list s = Ret (MOVE_NONE, s))
  /\ (forall s pre win post,
      aget (PhaseTable G) (phaseIndex s) = Some PH_QCAPTURES ->
      layout s pre win post ->
      4 <= movesPicked s ->
      ~ In MOVE_NONE (map move win) ->
      exists tr s1 s2,
        trace (length tr) s = Ret (tr, s1)
        /\ map fst tr
           = filter (fun m => pl_move_is_legal (pos s) m (pinned s))
               (map move win)
        /\ Forall (fun y => snd y = phaseIndex s) tr
        /\ pick_move_from_list s1 = Ret (MOVE_NONE, s2))
  /\ (forall (raw : MovePicker) (p : Position) (pv : bool) (ttm : Move)
             (ss : SearchStack) (d : Depth) (ei : option EvalInfo),
      is_check p = false -> d <= 0 -> noCaptures p ei = false ->
      (length (generate_captures p) <= length (moves raw))%nat ->
      (forall m, In m (generate_captures p) -> -10000000 < mvv_lva p m) ->
      ~ In MOVE_NONE (generate_captures p) ->
      In ttm (generate_captures p) ->
      pl_move_is_legal p ttm (pinned_pieces p (side_to_move p)) = true ->
      exists n tr s,
        trace (S n) (MovePicker_new raw p pv ttm ss d ei)
        = Ret (tr ++ [(ttm, phaseIndex s)], s)
        /\ ttMove s = ttm
        /\ current_move_type s = Ret PH_QCAPTURES).
Proof.
  split; [|split; [|split; [|split]]].
  - intros s pre front r post Ph L Hsel Hlt.
    destruct (find_best_index_spec s pre (front :: r) post L
                ltac:(discriminate) Hsel)
      as (j & e & E & N & F & F1).
    destruct (pick_step
                (fun t => if movesPicked t <? 4 then find_best_index t
                          else Ret (movesPicked t))
                (accept_qsearch s) (length r) s pre (front :: r) post j e
                L N)
      as (front' & r' & s1 & Ew & Step & L1 & _ & SP & _).
    { apply Z.ltb_lt in Hlt. rewrite Hlt. exact E. }
    inversion Ew; subst front' r'.
    exists j, e, s1.
    split; [exact N|]. split; [exact F|]. split; [exact F1|].
    split; [exact L1|]. split; [exact SP|].
    rewrite <- (qcaptures_rest s s1 _ _ _ Ph SP L1), take_at_length.
    unfold pick_move_from_list at 1, read. rewrite Ph. cbn [bind].
    rewrite (layout_remaining _ _ _ _ L). exact Step.
  - intros s pre front r post Ph L Hge.
    destruct (pick_step
                (fun t => if movesPicked t <? 4 then find_best_index t
                          else Ret (movesPicked t))
                (accept_qsearch s) (length r) s pre (front :: r) post 0 front
                L eq_refl)
      as (front' & r' & s1 & Ew & Step & L1 & _ & SP & _).
    { destruct (movesPicked s <? 4) eqn:Q; [apply Z.ltb_lt in Q; lia|].
      destruct L as (_ & P & _). rewrite P, Z.add_0_r. reflexivity. }
    inversion Ew; subst front' r'. cbn [take_at] in L1.
    exists s1. split; [exact L1|]. split; [exact SP|].
    rewrite <- (qcaptures_rest s s1 _ _ _ Ph SP L1).
    unfold pick_move_from_list at 1, read. rewrite Ph. cbn [bind].
    rewrite (layout_remaining _ _ _ _ L). exact Step.
  - intros s pre post Ph L. unfold pick_move_from_list, read.
    rewrite Ph. cbn [bind]. rewrite (layout_remaining _ _ _ _ L).
    reflexivity.
  - intros s pre win post Ph L Hge Hnone.
    destruct (drain_in_order (accept_qsearch s)
                (fun t => aget (PhaseTable G) (phaseIndex t)
                          = Some PH_QCAPTURES
                          /\ same_setup s t /\ 4 <= movesPicked t)
                (late_qcaptures_draw s)
                (length win) win s pre post (le_n _))
      as (tr & s1 & s2 & pre2 & T & Mt & Ft & P2 & _).
    { split; [exact Ph|]. split; [apply same_setup_refl|exact Hge]. }
    { exact L. }
    { exact Hnone. }
    exists tr, s1, s2. auto.
  - intros raw p pv ttm ss d ei Hc Hd Hn Cm Hsc Hnone Hin Hlegal.
    destruct (enter_qcaptures raw p pv ttm ss d ei Hc Hd Hn Cm)
      as (mp1 & win & rest & G0 & Ph & L & Mv & Sc & SS).
    pose proof SS as (Pos1 & _ & TT1 & _ & _ & _ & _ & _ & Pin1 & _).
    cbn [pos ttMove pinned MovePicker_new] in Pos1, TT1, Pin1.
    assert (Hsel : Forall selectable win).
    { rewrite Forall_forall in *. intros e He. unfold selectable.
      rewrite (Sc e He). apply Hsc. rewrite <- Mv. apply in_map. exact He. }
    destruct (qcaptures_reaches (length win) mp1 [] win rest ttm)
      as (n & tr & s & T & PI); auto.
    + rewrite Mv. exact Hnone.
    + rewrite Mv. exact Hin.
    + rewrite Pos1, Pin1. exact Hlegal.
    + exists n, tr, s. split.
      * change (trace (S n) (MovePicker_new raw p pv ttm ss d ei))
          with (r <- get_next_move (MovePicker_new raw p pv ttm ss d ei) ;;
                rest <- trace n (snd r) ;;
                Ret ((fst r, phaseIndex (snd r)) :: fst rest, snd rest)).
        rewrite G0.
        change (trace (S n) mp1)
          with (r <- get_next_move mp1 ;;
                rest <- trace n (snd r) ;;
                Ret ((fst r, phaseIndex (snd r)) :: fst rest, snd rest)) in T.
        rewrite T, PI. reflexivity.
      * assert (SSs : same_setup mp1 s).
        { clear - T. revert T. generalize (tr ++ [(ttm, phaseIndex mp1)]).
          generalize (S n). intros k. revert mp1.
          induction k as [|k IHk]; intros mp1 l T; simpl in T.
          - inversion T; subst. apply same_setup_refl.
          - destruct (get_next_move mp1) as [[m1 s1]| |] eqn:E; simpl in T;
              try discriminate.
            destruct (trace k s1) as [[rest' s2]| |] eqn:T'; simpl in T;
              try discriminate.
            inversion T; subst.
            eapply same_setup_trans;
              [eapply get_next_move_setup; eauto|eapply IHk; eauto]. }
        destruct SSs as (_ & _ & TTs & _).
        split; [congruence|].
        unfold current_move_type, read. rewrite PI, Ph. reflexivity.
Qed.

(** ** The main-search row, call by call *)

Lemma filter_bad_captures (p : Position) (caps : list Move)
    (goods bads : list MoveStack) :
  Permutation caps (map move goods ++ map move bads) ->
  Forall (scored_good p) goods ->
  Forall (scored_bad p) bads ->
  Permutation (map move bads) (filter (losing_move p) caps).
Proof.
  intros Pm Gd Bd.
  eapply perm_trans; [|apply filter_perm, Permutation_sym; exact Pm].
  rewrite filter_app.
  assert (Fg : filter (losing_move p) (map move goods) = []).
  { clear - Gd. induction Gd as [|e t [He _] Ht IH]; simpl; [reflexivity|].
    unfold losing_move at 1.
    destruct (see p (move e) <? 0) eqn:Q; [apply Z.ltb_lt in Q; lia|].
    exact IH. }
  assert (Fb : filter (losing_move p) (map move bads) = map move bads).
  { clear - Bd. induction Bd as [|e t [He _] Ht IH]; simpl; [reflexivity|].
    unfold losing_move at 1.
    destruct (see p (move e) <? 0) eqn:Q; [|apply Z.ltb_ge in Q; lia].
    rewrite IH. reflexivity. }
  rewrite Fg, Fb. apply Permutation_refl.
Qed.

(** From the MATE_KILLER phase on.  The calls return, in GOOD_CAPTURES
    (index 2), the generated captures that do not lose material and that
    [accept_main] lets through; in NONCAPTURES (index 3), the generated
    non-captures it lets through; in BAD_CAPTURES (index 4), the losing
    captures it lets through; each as often as generated; and then
    [MOVE_NONE] on reaching [PH_STOP] (index 5). *)
Lemma main_row_phases (a : MovePicker) :
  phaseIndex a = 1 ->
  numOfBadCaptures a = 0 ->
  (length (generate_captures (pos a)) <= length (moves a))%nat ->
  (length (generate_noncaptures (pos a)) <= length (moves a))%nat ->
  (length (filter (losing_move (pos a)) (generate_captures (pos a)))
   <= length (badCaptures a))%nat ->
  (forall m, In m (generate_captures (pos a)) ->
             -10000000 < mvv_lva (pos a) m) ->
  (forall m, In m (generate_noncaptures (pos a)) ->
             -10000000 < noncapture_score a m) ->
  ~ In MOVE_NONE (generate_captures (pos a) ++ generate_noncaptures (pos a)) ->
  exists goods quiets bads s,
    trace (S (length (goods ++ quiets ++ bads))) a
    = Ret (at_phase 2 goods ++ at_phase 3 quiets ++ at_phase 4 bads
           ++ [(MOVE_NONE, 5)], s)
    /\ Permutation goods
         (filter (accept_main a)
            (filter (not_losing (pos a)) (generate_captures (pos a))))
    /\ Permutation quiets
         (filter (accept_main a) (generate_noncaptures (pos a)))
    /\ Permutation bads
         (filter (accept_main a)
            (filter (losing_move (pos a)) (generate_captures (pos a)))).
Proof.
  intros PI NB Cc Cq Cb Hsc Hsq Hnone.
  (* GOOD_CAPTURES *)
  destruct (enter_good_captures a PI NB Cc Cb)
    as (mp1 & goods & bads & rest & bfree & E & PI1 & SS1 & L1 & B1 & NB1
        & Pm & Gd & Bd & Len1).
  assert (InCaps : forall m, In m (map move goods ++ map move bads) ->
                             In m (generate_captures (pos a))).
  { intros m Hm. eapply Permutation_in; [apply Permutation_sym; exact Pm|].
    exact Hm. }
  assert (NoneC : ~ In MOVE_NONE (generate_captures (pos a))).
  { intros H. apply Hnone. apply in_or_app. left. exact H. }
  assert (NoneQ : ~ In MOVE_NONE (generate_noncaptures (pos a))).
  { intros H. apply Hnone. apply in_or_app. right. exact H. }
  assert (Hsel1 : Forall selectable goods).
  { rewrite Forall_forall in *. intros e He. unfold selectable.
    destruct (Gd e He) as [_ Sc]. rewrite Sc. apply Hsc, InCaps.
    apply in_or_app. left. apply in_map. exact He. }
  assert (P0 : pick_move_from_list a = Ret (MOVE_NONE, a)).
  { unfold pick_move_from_list. rewrite PI. reflexivity. }
  assert (G0 : get_next_move a = get_next_move mp1).
  { apply (get_next_move_skip a a); [exact P0|exact E|lia]. }
  destruct (drain_bucket find_best_index (accept_main a) (fun _ => by_score)
              (fun mp0 pre0 win0 post0 L0 N0 S0 =>
                 choose_best mp0 pre0 win0 post0 L0 N0 S0)
              (length goods) mp1 [] goods rest (le_n _))
    as (trG & g1 & g2 & preG & TG & PG & FG & PkG & SPG & LG & BG & _).
  { intros s' (SS' & PI' & _). unfold pick_move_from_list.
    rewrite PI', PI1.
    change (read (PhaseTable G) 2) with (Ret PH_GOOD_CAPTURES). cbn [bind].
    apply pick_loop_ext. intros m. apply accept_main_setup.
    exact (same_setup_trans _ _ _ SS1 SS'). }
  { exact L1. }
  { exact Hsel1. }
  { intros H. apply NoneC, InCaps. apply in_or_app. left. exact H. }
  pose proof SPG as (SSG & PIG & NMG & NBG).
  (* NONCAPTURES *)
  assert (LenG : length (moves g2) = length (moves a)).
  { pose proof (layout_length _ _ _ _ L1) as Q1.
    pose proof (layout_length _ _ _ _ LG) as Q2.
    rewrite <- Len1. lia. }
  assert (PosG : pos g2 = pos a).
  { destruct SSG as (Q & _). destruct SS1 as (Q1 & _). congruence. }
  destruct (enter_noncaptures g2) as (n1 & winN & restN & EN & PIN & LN & MvN
                                      & ScN & SSN & BN & NBN).
  { lia. }
  { rewrite PosG, LenG. exact Cq. }
  assert (SSa_n1 : same_setup a n1).
  { exact (same_setup_trans _ _ _ SS1 (same_setup_trans _ _ _ SSG SSN)). }
  assert (HselN : Forall selectable winN).
  { rewrite Forall_forall in *. intros e He. unfold selectable.
    rewrite (ScN e He).
    rewrite (noncapture_score_setup a g2)
      by exact (same_setup_trans _ _ _ SS1 SSG).
    apply Hsq. rewrite <- PosG, <- MvN. apply in_map. exact He. }
  assert (G1 : get_next_move g1 = get_next_move n1).
  { apply (get_next_move_skip g1 g2); [exact PkG|exact EN|].
    pose proof (pick_move_from_list_phase _ _ _ PkG). lia. }
  destruct (drain_bucket
              (fun s0 => if pvNode s0 || (movesPicked s0 <? 12)
                         then find_best_index s0 else Ret (movesPicked s0))
              (accept_main a) (fun _ _ _ => True)
              (fun mp0 pre0 win0 post0 L0 N0 S0 =>
                 choose_noncaptures mp0 pre0 win0 post0 L0 N0 S0)
              (length winN) n1 [] winN restN (le_n _))
    as (trN & q1 & q2 & preN & TN & PN & FN & PkN & SPN & _ & BQ & _).
  { intros s' (SS' & PI' & _). unfold pick_move_from_list.
    rewrite PI', PIN.
    change (read (PhaseTable G) 3) with (Ret PH_NONCAPTURES). cbn [bind].
    apply pick_loop_ext. intros m. apply accept_main_setup.
    exact (same_setup_trans _ _ _ SSa_n1 SS'). }
  { exact LN. }
  { exact HselN. }
  { rewrite MvN, PosG. exact NoneQ. }
  pose proof SPN as (SSQ & PIQ & NMQ & NBQ).
  (* BAD_CAPTURES *)
  set (b0 := with_badCapturesPicked (with_phaseIndex q2 (phaseIndex q2 + 1)) 0).
  assert (EB : next_phase q2 = Ret (inr b0)).
  { unfold next_phase, b0. cbn [phaseIndex with_phaseIndex]. rewrite PIQ, PIN.
    change (read (PhaseTable G) (3 + 1)) with (Ret PH_BAD_CAPTURES).
    reflexivity. }
  assert (PIB : phaseIndex b0 = 4).
  { unfold b0. cbn [phaseIndex with_badCapturesPicked with_phaseIndex]. lia. }
  assert (LB : bad_layout b0 [] bads bfree).
  { unfold bad_layout, b0.
    cbn [badCaptures badCapturesPicked numOfBadCaptures
         with_badCapturesPicked with_phaseIndex].
    rewrite BQ, BN, BG, B1, NBQ, NBN, NBG, NB1. simpl. auto. }
  assert (SSa_b0 : same_setup a b0).
  { eapply same_setup_trans; [exact SSa_n1|].
    eapply same_setup_trans; [exact SSQ|].
    unfold same_setup, b0; simpl; tauto. }
  assert (G2 : get_next_move q1 = get_next_move b0).
  { apply (get_next_move_skip q1 q2); [exact PkN|exact EB|].
    pose proof (pick_move_from_list_phase _ _ _ PkN). lia. }
  destruct (drain_bad (length bads) bads b0 [] bfree (le_n _))
    as (trB & b1 & b2 & TB & MB & FB & PkB & SPB).
  { rewrite PIB. reflexivity. }
  { exact LB. }
  { intros H. apply NoneC, InCaps. apply in_or_app. right. exact H. }
  pose proof SPB as (SSB & PIB2 & _).
  (* STOP *)
  assert (St : aget (PhaseTable G) (phaseIndex b2 + 1) = Some PH_STOP)
    by (rewrite PIB2, PIB; reflexivity).
  pose proof (get_next_move_stop b1 b2 PkB St) as G3.
  set (fin := with_phaseIndex b2 (phaseIndex b2 + 1)).
  assert (T3 : trace 1 b1 = Ret ([(MOVE_NONE, 5)], fin)).
  { unfold trace, fin. rewrite G3.
    cbn [bind fst snd phaseIndex with_phaseIndex]. rewrite PIB2, PIB.
    reflexivity. }
  (* the whole trace *)
  pose proof (trace_app _ _ _ _ _ _ _ TB T3) as TB'.
  rewrite Nat.add_1_r in TB'.
  rewrite <- (trace_first _ q1 b0 G2) in TB'.
  pose proof (trace_app _ _ _ _ _ _ _ TN TB') as TN'.
  rewrite Nat.add_succ_r in TN'.
  rewrite <- (trace_first _ g1 n1 G1) in TN'.
  pose proof (trace_app _ _ _ _ _ _ _ TG TN') as TG'.
  rewrite Nat.add_succ_r in TG'.
  rewrite <- (trace_first _ a mp1 G0) in TG'.
  assert (FG2 : Forall (fun y : Move * Z => snd y = 2) trG).
  { eapply Forall_impl; [|exact FG]. simpl. intros; lia. }
  assert (FN3 : Forall (fun y : Move * Z => snd y = 3) trN).
  { eapply Forall_impl; [|exact FN]. simpl. intros; lia. }
  assert (FB4 : Forall (fun y : Move * Z => snd y = 4) trB).
  { eapply Forall_impl; [|exact FB]. simpl. intros; lia. }
  exists (map fst trG), (map fst trN), (map fst trB), fin.
  split.
  { unfold at_phase.
    rewrite <- (tagged _ _ FG2), <- (tagged _ _ FN3), <- (tagged _ _ FB4).
    rewrite !length_app, !length_map. exact TG'. }
  split.
  { eapply perm_trans; [exact PG|]. apply filter_perm.
    apply (filter_good_captures _ _ goods bads Pm Gd Bd). }
  split.
  { rewrite <- PosG, <- MvN. exact PN. }
  rewrite MB.
  assert (FE : forall l, filter (accept_main b0) l = filter (accept_main a) l).
  { intros l. apply filter_ext. intros m. apply accept_main_setup.
    exact SSa_b0. }
  rewrite FE. apply filter_perm.
  apply (filter_bad_captures _ _ goods bads Pm Gd Bd).
Qed.

Lemma filter_split (f g : Move -> bool) (l : list Move) :
  (forall m, g m = negb (f m)) ->
  Permutation (filter f l ++ filter g l) l.
Proof.
  intros H. induction l as [|x l IH]; simpl; [constructor|].
  rewrite (H x). destruct (f x); simpl.
  - apply perm_skip. exact IH.
  - eapply perm_trans; [apply Permutation_sym, Permutation_middle|].
    apply perm_skip. exact IH.
Qed.

Lemma In_special (mp : MovePicker) (x m : Move) :
  In m (special mp x)
  <-> m = x /\ m <> MOVE_NONE /\ move_is_legal (pos mp) m (pinned mp) = true.
Proof.
  unfold special, legal_special.
  destruct (negb (x =? MOVE_NONE) && move_is_legal (pos mp) x (pinned mp))
    eqn:Q.
  - apply andb_true_iff in Q. destruct Q as [Q1 Q2].
    apply negb_true_iff, Z.eqb_neq in Q1. simpl.
    split; [intros [<-|[]]; auto|intros (-> & _); auto].
  - simpl. split; [tauto|]. intros (E & H1 & H2). subst m.
    apply andb_false_iff in Q. destruct Q as [Q|Q].
    + apply negb_false_iff, Z.eqb_eq in Q. exact (H1 Q).
    + exact (eq_true_false_abs _ H2 Q).
Qed.

(** The main-search row from its first entry, for a picker as the
    constructor leaves it. *)
Lemma main_row_trace (raw : MovePicker) (p : Position) (pv : bool)
    (ttm : Move) (ss : SearchStack) (d : Depth) (ei : option EvalInfo) :
  let mp := MovePicker_new raw p pv ttm ss d ei in
  let caps := generate_captures p in
  let noncaps := generate_noncaptures p in
  let mk := special mp (mateKiller mp) in
  is_check p = false -> d > 0 ->
  (length caps <= length (moves raw))%nat ->
  (length noncaps <= length (moves raw))%nat ->
  (length (filter (losing_move p) caps) <= length (badCaptures raw))%nat ->
  (forall m, In m caps -> -10000000 < mvv_lva p m) ->
  (forall m, In m noncaps -> -10000000 < noncapture_score mp m) ->
  ~ In MOVE_NONE (caps ++ noncaps) ->
  exists a goods quiets bads s,
    a = with_phaseIndex mp (phaseIndex mp + 1)
    /\ phaseIndex a = 0
    /\ next_phase mp
       = Ret (if legal_special mp ttm then inl (ttm, a) else inr a)
    /\ trace (S (length (mk ++ goods ++ quiets ++ bads))) a
       = Ret (at_phase 1 mk ++ at_phase 2 goods ++ at_phase 3 quiets
              ++ at_phase 4 bads ++ [(MOVE_NONE, 5)], s)
    /\ Permutation goods
         (filter (accept_main mp) (filter (not_losing p) caps))
    /\ Permutation quiets (filter (accept_main mp) noncaps)
    /\ Permutation bads
         (filter (accept_main mp) (filter (losing_move p) caps))
    /\ (NoDup (caps ++ noncaps) ->
        (forall m, move_is_legal p m (pinned mp) = true
                   <-> In m (caps ++ noncaps)
                       /\ pl_move_is_legal p m (pinned mp) = true) ->
        NoDup (special mp ttm ++ mk ++ goods ++ quiets ++ bads)
        /\ forall m, In m (special mp ttm ++ mk ++ goods ++ quiets ++ bads)
                     <-> move_is_legal p m (pinned mp) = true).
Proof.
  intros mp caps noncaps mk Hc Hd Cc Cq Cb Hsc Hsq Hnone.
  assert (PI : phaseIndex mp = -1).
  { unfold mp, MovePicker_new. cbn [phaseIndex]. rewrite Hc.
    destruct (d >? 0) eqn:D; [reflexivity|].
    rewrite Z.gtb_ltb, Z.ltb_ge in D. lia. }
  set (a0 := with_phaseIndex mp (phaseIndex mp + 1)).
  set (a1 := with_phaseIndex a0 (phaseIndex a0 + 1)).
  assert (PI0 : phaseIndex a0 = 0)
    by (unfold a0; cbn [phaseIndex with_phaseIndex]; lia).
  assert (PI1 : phaseIndex a1 = 1)
    by (unfold a1; cbn [phaseIndex with_phaseIndex]; lia).
  assert (S01 : same_setup mp a1) by (unfold same_setup, a1, a0; simpl; tauto).
  assert (MKt : mateKiller mp <> ttm \/ mateKiller mp = MOVE_NONE).
  { change (mateKiller mp)
      with (if ss_mateKiller ss =? ttm then MOVE_NONE else ss_mateKiller ss).
    destruct (ss_mateKiller ss =? ttm) eqn:Q; [right; reflexivity|].
    left. apply Z.eqb_neq. exact Q. }
  (* the step after the constructor *)
  assert (N0 : next_phase mp
               = Ret (if legal_special mp ttm then inl (ttm, a0) else inr a0)).
  { unfold next_phase. fold a0.
    assert (R : read (PhaseTable G) (phaseIndex a0) = Ret PH_TT_MOVE)
      by (rewrite PI0; reflexivity).
    rewrite R. cbn [bind]. unfold legal_special.
    change (ttMove a0) with ttm. change (pos a0) with (pos mp).
    change (pinned a0) with (pinned mp).
    destruct (negb (ttm =? MOVE_NONE) && move_is_legal (pos mp) ttm (pinned mp));
      reflexivity. }
  (* the mate killer *)
  assert (P0 : pick_move_from_list a0 = Ret (MOVE_NONE, a0)).
  { unfold pick_move_from_list. rewrite PI0. reflexivity. }
  assert (N1 : next_phase a0
               = Ret (if legal_special mp (mateKiller mp)
                      then inl (mateKiller mp, a1) else inr a1)).
  { unfold next_phase. fold a1.
    assert (R : read (PhaseTable G) (phaseIndex a1) = Ret PH_MATE_KILLER)
      by (rewrite PI1; reflexivity).
    rewrite R. cbn [bind]. unfold legal_special.
    change (mateKiller a1) with (mateKiller mp).
    change (pos a1) with (pos mp). change (pinned a1) with (pinned mp).
    destruct (negb (mateKiller mp =? MOVE_NONE)
              && move_is_legal (pos mp) (mateKiller mp) (pinned mp));
      reflexivity. }
  (* the lists *)
  destruct (main_row_phases a1)
    as (goods & quiets & bads & s & T1 & Pg & Pq & Pb).
  { exact PI1. }
  { reflexivity. }
  { exact Cc. }
  { exact Cq. }
  { exact Cb. }
  { exact Hsc. }
  { intros m Hm. rewrite (noncapture_score_setup mp a1 m S01). apply Hsq, Hm. }
  { exact Hnone. }
  change (accept_main a1) with (accept_main mp) in Pg, Pq, Pb.
  change (pos a1) with p in Pg, Pq, Pb.
  fold caps in Pg, Pb. fold noncaps in Pq.
  assert (T0 : trace (S (length (mk ++ goods ++ quiets ++ bads))) a0
               = Ret (at_phase 1 mk ++ at_phase 2 goods ++ at_phase 3 quiets
                      ++ at_phase 4 bads ++ [(MOVE_NONE, 5)], s)).
  { unfold mk, special. revert N1.
    destruct (legal_special mp (mateKiller mp)); intros N1.
    - pose proof (get_next_move_return a0 a0 _ P0 N1) as G0.
      change (length ([mateKiller mp] ++ goods ++ quiets ++ bads))
        with (S (length (goods ++ quiets ++ bads))).
      change (trace (S (S (length (goods ++ quiets ++ bads)))) a0)
        with (r <- get_next_move a0 ;;
              rest <- trace (S (length (goods ++ quiets ++ bads))) (snd r) ;;
              Ret ((fst r, phaseIndex (snd r)) :: fst rest, snd rest)).
      rewrite G0. cbn [bind fst snd]. rewrite T1. cbn [bind fst snd].
      rewrite PI1. reflexivity.
    - cbn [app at_phase map].
      rewrite (trace_first _ a0 a1); [exact T1|].
      apply (get_next_move_skip a0 a0 a1 P0 N1). lia. }
  exists a0, goods, quiets, bads, s.
  split; [reflexivity|]. split; [exact PI0|]. split; [exact N0|].
  split; [exact T0|]. split; [exact Pg|]. split; [exact Pq|].
  split; [exact Pb|].
  intros Hnd Hgen.
  set (gen := caps ++ noncaps) in *.
  assert (Lists : Permutation (goods ++ quiets ++ bads)
                    (filter (accept_main mp) gen)).
  { unfold gen. rewrite filter_app.
    eapply perm_trans;
      [apply Permutation_app_head, Permutation_app_comm|].
    rewrite app_assoc. apply Permutation_app; [|exact Pq].
    eapply perm_trans; [apply Permutation_app; [exact Pg|exact Pb]|].
    rewrite <- filter_app. apply filter_perm.
    apply filter_split. intros m. unfold not_losing.
    rewrite negb_involutive. reflexivity. }
  assert (Out : Permutation
                  (special mp ttm ++ mk ++ goods ++ quiets ++ bads)
                  (special mp ttm ++ mk ++ filter (accept_main mp) gen)).
  { do 2 apply Permutation_app_head. exact Lists. }
  assert (ND : NoDup (special mp ttm ++ mk ++ filter (accept_main mp) gen)).
  { assert (NDf : NoDup (filter (accept_main mp) gen))
      by (apply NoDup_filter; exact Hnd).
    assert (NDm : NoDup (mk ++ filter (accept_main mp) gen)).
    { unfold mk, special.
      destruct (legal_special mp (mateKiller mp)); [|exact NDf].
      simpl. constructor; [|exact NDf].
      rewrite mem_accept_main. tauto. }
    unfold special at 1.
    destruct (legal_special mp ttm) eqn:Q; [|exact NDm].
    simpl. constructor; [|exact NDm].
    unfold mk. rewrite in_app_iff, In_special, mem_accept_main.
    change (ttMove mp) with ttm.
    intros [(E & NZ & _)|(_ & NE & _)]; [|tauto].
    destruct MKt as [M|M]; congruence. }
  assert (Mem : forall m,
             In m (special mp ttm ++ mk ++ filter (accept_main mp) gen)
             <-> move_is_legal p m (pinned mp) = true).
  { intros m. unfold mk.
    rewrite !in_app_iff, !In_special, mem_accept_main.
    change (ttMove mp) with ttm. change (pos mp) with p. split.
    - intros [(_ & _ & H)|[(_ & _ & H)|(Hin & _ & _ & Hpl)]];
        [exact H|exact H|apply Hgen; tauto].
    - intros H. destruct (proj1 (Hgen m) H) as (Hin & Hpl).
      assert (NZ : m <> MOVE_NONE) by (intros ->; apply Hnone, Hin).
      destruct (Z.eq_dec m ttm) as [E1|E1]; [left; tauto|].
      destruct (Z.eq_dec m (mateKiller mp)) as [E2|E2];
        [right; left; tauto|].
      right; right; tauto. }
  split.
  - eapply Permutation_NoDup; [apply Permutation_sym; exact Out|exact ND].
  - intros m. rewrite <- Mem. split; intros H.
    + eapply Permutation_in; [exact Out|exact H].
    + eapply Permutation_in; [apply Permutation_sym; exact Out|exact H].
Qed.

(** X2.  The MainSearch row read from its first entry, for a picker built
    for a position not in check at depth > 0.  The step after the
    constructor ([phaseIndex++] to 0, [PH_TT_MOVE]) returns the TT move
    exactly when it is a move and [move_is_legal] accepts it.  The calls
    that follow return the mate killer under the same condition
    ([PH_MATE_KILLER], index 1); then, of the moves that pass
    [pl_move_is_legal] and are neither the TT move nor the mate killer, the
    generated captures that do not lose material (index 2), the generated
    non-captures (index 3) and the losing captures (index 4), each as often
    as generated; then [MOVE_NONE] at [PH_STOP] (index 5).  When the two
    generators together list every legal move once, the moves returned are
    the legal moves of the position, each once. *)
Theorem main_row_complete (raw : MovePicker) (p : Position) (pv : bool)
    (ttm : Move) (ss : SearchStack) (d : Depth) (ei : option EvalInfo) :
  let mp := MovePicker_new raw p pv ttm ss d ei in
  let caps := generate_captures p in
  let noncaps := generate_noncaptures p in
  let mk := special mp (mateKiller mp) in
  is_check p = false -> d > 0 ->
  (length caps <= length (moves raw))%nat ->
  (length noncaps <= length (moves raw))%nat ->
  (length (filter (losing_move p) caps) <= length (badCaptures raw))%nat ->
  (forall m, In m caps -> -10000000 < mvv_lva p m) ->
  (forall m, In m noncaps -> -10000000 < noncapture_score mp m) ->
  ~ In MOVE_NONE (caps ++ noncaps) ->
  exists a goods quiets bads s,
    a = with_phaseIndex mp (phaseIndex mp + 1)
    /\ phaseIndex a = 0
    /\ next_phase mp
       = Ret (if legal_special mp ttm then inl (ttm, a) else inr a)
    /\ trace (S (length (mk ++ goods ++ quiets ++ bads))) a
       = Ret (at_phase 1 mk ++ at_phase 2 goods ++ at_phase 3 quiets
              ++ at_phase 4 bads ++ [(MOVE_NONE, 5)], s)
    /\ Permutation goods
         (filter (accept_main mp) (filter (not_losing p) caps))
    /\ Permutation quiets (filter (accept_main mp) noncaps)
    /\ Permutation bads
         (filter (accept_main mp) (filter (losing_move p) caps))
    /\ (NoDup (caps ++ noncaps) ->
        (forall m, move_is_legal p m (pinned mp) = true
                   <-> In m (caps ++ noncaps)
                       /\ pl_move_is_legal p m (pinned mp) = true) ->
        NoDup (special mp ttm ++ mk ++ goods ++ quiets ++ bads)
        /\ forall m, In m (special mp ttm ++ mk ++ goods ++ quiets ++ bads)
                     <-> move_is_legal p m (pinned mp) = true).
Proof. exact (main_row_trace raw p pv ttm ss d ei). Qed.

(** ** Calls whose table read is not checked *)

Lemma pick_move_from_list_switch (mp : MovePicker) :
  pick_move_from_list mp
  = (ph <- read (PhaseTable G) (phaseIndex mp) ;;
     pick_move_from_list_at ph mp).
Proof. reflexivity. Qed.

(** Where the checked calls return, the unchecked ones return the same. *)
Lemma pick_reading_in_table (stray : MovegenPhase) (mp : MovePicker)
    (r : Move * MovePicker) :
  pick_move_from_list mp = Ret r ->
  pick_move_from_list_reading stray mp = Ret r.
Proof.
  rewrite pick_move_from_list_switch.
  unfold pick_move_from_list_reading, read.
  destruct (aget (PhaseTable G) (phaseIndex mp)); [|discriminate].
  cbn [bind]. auto.
Qed.

Lemma loop_reading_in_table (stray : MovegenPhase) (n : nat) :
  forall mp r,
    get_next_move_loop n mp = Ret r ->
    get_next_move_loop_reading stray n mp = Ret r.
Proof.
  induction n as [|n IH]; intros mp r H; simpl in *; [discriminate|].
  destruct (pick_move_from_list mp) as [[m s]| |] eqn:P; simpl in H;
    try discriminate.
  rewrite (pick_reading_in_table stray _ _ P). simpl.
  destruct (negb (m =? MOVE_NONE)); [exact H|].
  destruct (next_phase s) as [[out|mp']| |]; simpl in *; try discriminate;
    auto.
Qed.

Lemma get_next_move_reading_in_table (stray : MovegenPhase) (mp : MovePicker)
    (r : Move * MovePicker) :
  get_next_move mp = Ret r -> get_next_move_reading stray mp = Ret r.
Proof. apply loop_reading_in_table. Qed.

Lemma trace_reading_in_table (stray : MovegenPhase) (n : nat) :
  forall mp x, trace n mp = Ret x -> trace_reading stray n mp = Ret x.
Proof.
  induction n as [|n IH]; intros mp x H; simpl in *; [exact H|].
  destruct (get_next_move mp) as [r| |] eqn:E; simpl in H; try discriminate.
  rewrite (get_next_move_reading_in_table stray _ _ E). simpl.
  destruct (trace n (snd r)) as [rest| |] eqn:T; simpl in H;
    try discriminate.
  rewrite (IH _ _ T). exact H.
Qed.

(** The first [pick_move_from_list] of a picker the constructor left before
    the table: both counters are 0, so whichever case the value read
    selects, its loop is not entered.  The constructor does not assign
    [badCapturesPicked]; the BAD_CAPTURES loop compares it with 0. *)
Lemma first_pick_reading (stray : MovegenPhase) (mp : MovePicker) :
  aget (PhaseTable G) (phaseIndex mp) = None ->
  numOfMoves mp = 0 -> movesPicked mp = 0 -> numOfBadCaptures mp = 0 ->
  (stray = PH_BAD_CAPTURES -> 0 <= badCapturesPicked mp) ->
  pick_move_from_list_reading stray mp = Ret (MOVE_NONE, mp).
Proof.
  intros E N M B Hb. unfold pick_move_from_list_reading. rewrite E.
  destruct stray; unfold pick_move_from_list_at, remaining;
    rewrite ?N, ?M, ?B; try reflexivity.
  replace (Z.to_nat (0 - badCapturesPicked mp)) with 0%nat
    by (specialize (Hb eq_refl); lia).
  reflexivity.
Qed.

Lemma map_fst_at_phase (i : Z) (ms : list Move) :
  map fst (at_phase i ms) = ms.
Proof.
  unfold at_phase. rewrite map_map. simpl. apply map_id.
Qed.

(** The main-search row with the first read unchecked: the calls on the
    picker the constructor built. *)
Lemma main_row_reading (stray : MovegenPhase) (raw : MovePicker)
    (p : Position) (pv : bool) (ttm : Move) (ss : SearchStack) (d : Depth)
    (ei : option EvalInfo) :
  let mp := MovePicker_new raw p pv ttm ss d ei in
  let caps := generate_captures p in
  let noncaps := generate_noncaptures p in
  let tt := special mp ttm in
  let mk := special mp (mateKiller mp) in
  is_check p = false -> d > 0 ->
  (stray = PH_BAD_CAPTURES -> 0 <= badCapturesPicked raw) ->
  (length caps <= length (moves raw))%nat ->
  (length noncaps <= length (moves raw))%nat ->
  (length (filter (losing_move p) caps) <= length (badCaptures raw))%nat ->
  (forall m, In m caps -> -10000000 < mvv_lva p m) ->
  (forall m, In m noncaps -> -10000000 < noncapture_score mp m) ->
  ~ In MOVE_NONE (caps ++ noncaps) ->
  exists goods quiets bads s,
    trace_reading stray (S (length (tt ++ mk ++ goods ++ quiets ++ bads))) mp
    = Ret (at_phase 0 tt ++ at_phase 1 mk ++ at_phase 2 goods
           ++ at_phase 3 quiets ++ at_phase 4 bads ++ [(MOVE_NONE, 5)], s)
    /\ Permutation goods
         (filter (accept_main mp) (filter (not_losing p) caps))
    /\ Permutation quiets (filter (accept_main mp) noncaps)
    /\ Permutation bads
         (filter (accept_main mp) (filter (losing_move p) caps))
    /\ (NoDup (caps ++ noncaps) ->
        (forall m, move_is_legal p m (pinned mp) = true
                   <-> In m (caps ++ noncaps)
                       /\ pl_move_is_legal p m (pinned mp) = true) ->
        NoDup (tt ++ mk ++ goods ++ quiets ++ bads)
        /\ forall m, In m (tt ++ mk ++ goods ++ quiets ++ bads)
                     <-> move_is_legal p m (pinned mp) = true).
Proof.
  intros mp caps noncaps tt mk Hc Hd Hb Cc Cq Cb Hsc Hsq Hnone.
  destruct (main_row_trace raw p pv ttm ss d ei Hc Hd Cc Cq Cb Hsc Hsq Hnone)
    as (a & goods & quiets & bads & s & _ & PI0 & N0 & T & Pg & Pq & Pb & H).
  fold mp in N0, T, Pg, Pq, Pb, H. fold caps in Pg, Pb, H.
  fold noncaps in Pq, H. fold mk in T, H. fold tt in H.
  exists goods, quiets, bads, s.
  split; [|tauto].
  assert (PI : phaseIndex mp = -1).
  { unfold mp, MovePicker_new. cbn [phaseIndex]. rewrite Hc.
    destruct (d >? 0) eqn:D; [reflexivity|].
    rewrite Z.gtb_ltb, Z.ltb_ge in D. lia. }
  assert (P0 : pick_move_from_list_reading stray mp = Ret (MOVE_NONE, mp)).
  { apply first_pick_reading; try reflexivity; [|exact Hb].
    rewrite PI. reflexivity. }
  pose proof (trace_reading_in_table stray _ _ _ T) as T'.
  assert (G0 : get_next_move_reading stray mp
               = if legal_special mp ttm then Ret (ttm, a)
                 else get_next_move_reading stray a).
  { unfold get_next_move_reading. rewrite PI, PI0.
    change (Z.to_nat (Z.of_nat (length (PhaseTable G)) - -1)) with 33%nat.
    change (Z.to_nat (Z.of_nat (length (PhaseTable G)) - 0)) with 32%nat.
    cbn [get_next_move_loop_reading]. rewrite P0. cbn [bind fst snd].
    rewrite Z.eqb_refl. cbn [negb]. rewrite N0. cbn [bind].
    destruct (legal_special mp ttm); reflexivity. }
  unfold tt, special in *. destruct (legal_special mp ttm).
  - change (length ([ttm] ++ mk ++ goods ++ quiets ++ bads))
      with (S (length (mk ++ goods ++ quiets ++ bads))).
    change (trace_reading stray
              (S (S (length (mk ++ goods ++ quiets ++ bads)))) mp)
      with (r <- get_next_move_reading stray mp ;;
            rest <- trace_reading stray
                      (S (length (mk ++ goods ++ quiets ++ bads))) (snd r) ;;
            Ret ((fst r, phaseIndex (snd r)) :: fst rest, snd rest)).
    rewrite G0. cbn [bind fst snd]. rewrite T'. cbn [bind fst snd].
    rewrite PI0. reflexivity.
  - cbn [app at_phase map].
    change (trace_reading stray
              (S (length (mk ++ goods ++ quiets ++ bads))) mp)
      with (r <- get_next_move_reading stray mp ;;
            rest <- trace_reading stray
                      (length (mk ++ goods ++ quiets ++ bads)) (snd r) ;;
            Ret ((fst r, phaseIndex (snd r)) :: fst rest, snd rest)).
    rewrite G0. exact T'.
Qed.

Lemma Forall_at_phase (i : Z) (ms : list Move) :
  Forall (fun y : Move * Z => snd y = i) (at_phase i ms).
Proof.
  unfold at_phase. apply Forall_forall. intros y Hy.
  apply in_map_iff in Hy. destruct Hy as (m & <- & _). reflexivity.
Qed.

(** C1.  Phase completeness of the calls on a picker the constructor built.
    The calls are those whose read of [PhaseTable] is not checked; [stray]
    is what the first read of a main-search picker finds before the table.

    - MainSearch (not in check, depth > 0).  When the capture and the
      non-capture generator together list every legal move once, and
      [legal_moves] lists the k legal moves of the position, the first k
      calls return k different moves, which are the legal moves, and the
      next call returns [MOVE_NONE], on reaching [PH_STOP] (index 5).
    - Evasions (in check).  The calls return the moves of the evasion
      generator, each as often as generated, all in EVASIONS (index 6), and
      then [MOVE_NONE] (index 7); when that generator lists every legal
      move once, these are the k legal moves.
    - Quiescence (not in check, depth <= 0).  At depth 0 without the
      no-captures hint: the legal captures in QCAPTURES (index 8), the legal
      moves of the check generator in QCHECKS (index 9), then [MOVE_NONE].
      At negative depth without the hint: the legal captures in QCAPTURES
      (index 13), then [MOVE_NONE].  At depth 0 with the hint: the legal
      moves of the check generator in QCHECKS (index 11), then [MOVE_NONE].
      At negative depth with the hint: [MOVE_NONE] at once.

    The hypotheses are on what the external generators and scoring
    functions deliver (the lists fit the arrays, scores are above the
    -10000000 [find_best_index] starts from, no generated move is
    [MOVE_NONE]) and, for MainSearch, on [badCapturesPicked], which the
    constructor leaves as it finds it and the BAD_CAPTURES case tests. *)
Theorem phase_completeness (stray : MovegenPhase) (raw : MovePicker)
    (p : Position) (pv : bool) (ttm : Move) (ss : SearchStack) (d : Depth)
    (ei : option EvalInfo) :
  let mp := MovePicker_new raw p pv ttm ss d ei in
  let legal := fun m => pl_move_is_legal p m (pinned mp) in
  let caps := generate_captures p in
  let noncaps := generate_noncaptures p in
  let evasions := generate_evasions p in
  let checks := generate_checks p (dc mp) in
  (is_check p = false -> d > 0 ->
   (stray = PH_BAD_CAPTURES -> 0 <= badCapturesPicked raw) ->
   (length caps <= length (moves raw))%nat ->
   (length noncaps <= length (moves raw))%nat ->
   (length (filter (losing_move p) caps) <= length (badCaptures raw))%nat ->
   (forall m, In m caps -> -10000000 < mvv_lva p m) ->
   (forall m, In m noncaps -> -10000000 < noncapture_score mp m) ->
   ~ In MOVE_NONE (caps ++ noncaps) ->
   NoDup (caps ++ noncaps) ->
   (forall m, move_is_legal p m (pinned mp) = true
              <-> In m (caps ++ noncaps) /\ legal m = true) ->
   forall legal_moves : list Move,
     NoDup legal_moves ->
     (forall m, In m legal_moves
                <-> move_is_legal p m (pinned mp) = true) ->
     exists tr s,
       trace_reading stray (S (length legal_moves)) mp
       = Ret (tr ++ [(MOVE_NONE, 5)], s)
       /\ length tr = length legal_moves
       /\ NoDup (map fst tr)
       /\ Permutation (map fst tr) legal_moves
       /\ ~ In MOVE_NONE (map fst tr)
       /\ Forall (fun y => 0 <= snd y <= 4) tr
       /\ aget (PhaseTable G) 5 = Some PH_STOP)
  /\ (is_check p = true ->
      (length evasions <= length (moves raw))%nat ->
      (forall m, In m evasions -> -10000000 < evasion_score mp m) ->
      ~ In MOVE_NONE evasions ->
      exists tr s,
        trace_reading stray (S (length evasions)) mp
        = Ret (tr ++ [(MOVE_NONE, 7)], s)
        /\ Permutation (map fst tr) evasions
        /\ Forall (fun y => snd y = 6) tr
        /\ aget (PhaseTable G) 6 = Some PH_EVASIONS
        /\ aget (PhaseTable G) 7 = Some PH_STOP
        /\ (NoDup evasions ->
            (forall m, In m evasions
                       <-> move_is_legal p m (pinned mp) = true) ->
            forall legal_moves : list Move,
              NoDup legal_moves ->
              (forall m, In m legal_moves
                         <-> move_is_legal p m (pinned mp) = true) ->
              length tr = length legal_moves
              /\ NoDup (map fst tr)
              /\ Permutation (map fst tr) legal_moves))
  /\ (is_check p = false -> d = 0 -> noCaptures p ei = false ->
      (length caps <= length (moves raw))%nat ->
      (length checks <= length (moves raw))%nat ->
      (forall m, In m caps -> -10000000 < mvv_lva p m) ->
      ~ In MOVE_NONE (caps ++ checks) ->
      exists cs s,
        trace_reading stray (S (length cs + length (filter legal checks))) mp
        = Ret (at_phase 8 cs ++ at_phase 9 (filter legal checks)
               ++ [(MOVE_NONE, 10)], s)
        /\ Permutation cs (filter legal caps)
        /\ aget (PhaseTable G) 8 = Some PH_QCAPTURES
        /\ aget (PhaseTable G) 9 = Some PH_QCHECKS
        /\ aget (PhaseTable G) 10 = Some PH_STOP)
  /\ (is_check p = false -> d < 0 -> noCaptures p ei = false ->
      (length caps <= length (moves raw))%nat ->
      (forall m, In m caps -> -10000000 < mvv_lva p m) ->
      ~ In MOVE_NONE caps ->
      exists cs s,
        trace_reading stray (S (length cs)) mp
        = Ret (at_phase 13 cs ++ [(MOVE_NONE, 14)], s)
        /\ Permutation cs (filter legal caps)
        /\ aget (PhaseTable G) 13 = Some PH_QCAPTURES
        /\ aget (PhaseTable G) 14 = Some PH_STOP)
  /\ (is_check p = false -> d = 0 -> noCaptures p ei = true ->
      (length checks <= length (moves raw))%nat ->
      ~ In MOVE_NONE checks ->
      exists s,
        trace_reading stray (S (length (filter legal checks))) mp
        = Ret (at_phase 11 (filter legal checks) ++ [(MOVE_NONE, 12)], s)
        /\ aget (PhaseTable G) 11 = Some PH_QCHECKS
        /\ aget (PhaseTable G) 12 = Some PH_STOP)
  /\ (is_check p = false -> d < 0 -> noCaptures p ei = true ->
      trace_reading stray 1 mp
      = Ret ([(MOVE_NONE, 15)], with_phaseIndex mp 15)
      /\ aget (PhaseTable G) 15 = Some PH_STOP).
Proof.
  intros mp legal caps noncaps evasions checks.
  split; [|split; [|split; [|split; [|split]]]].
  - intros Hc Hd Hb Cc Cq Cb Hsc Hsq Hnone Hnd Hgen legal_moves Lnd Lin.
    destruct (main_row_reading stray raw p pv ttm ss d ei Hc Hd Hb Cc Cq Cb
                Hsc Hsq Hnone)
      as (goods & quiets & bads & s & T & _ & _ & _ & H).
    destruct (H Hnd Hgen) as (ND & M). clear H.
    fold mp in T, ND, M.
    set (out := special mp ttm ++ special mp (mateKiller mp) ++ goods
                ++ quiets ++ bads) in *.
    set (tr := at_phase 0 (special mp ttm)
               ++ at_phase 1 (special mp (mateKiller mp))
               ++ at_phase 2 goods ++ at_phase 3 quiets ++ at_phase 4 bads).
    assert (Mf : map fst tr = out).
    { unfold tr, out. rewrite !map_app, !map_fst_at_phase. reflexivity. }
    assert (Pm : Permutation out legal_moves).
    { apply NoDup_Permutation; [exact ND|exact Lnd|].
      intros m. rewrite M, Lin. reflexivity. }
    exists tr, s.
    split.
    { rewrite <- (Permutation_length Pm). unfold tr.
      rewrite <- !app_assoc. exact T. }
    split; [rewrite <- (Permutation_length Pm), <- Mf, length_map;
            reflexivity|].
    split; [rewrite Mf; exact ND|].
    split; [rewrite Mf; exact Pm|].
    split.
    { rewrite Mf, M. intros H. apply Hgen in H. apply Hnone, H. }
    split; [|reflexivity].
    unfold tr. repeat (apply Forall_app; split);
      (eapply Forall_impl; [|apply Forall_at_phase]); simpl; intros; lia.
  - intros Hc Cm Hsc Hnone.
    destruct (evasions_trace raw p pv ttm ss d ei Hc Cm Hsc Hnone)
      as (tr & s & T & Pm & F & E6 & E7).
    exists tr, s.
    split; [exact (trace_reading_in_table stray _ _ _ T)|].
    split; [exact Pm|]. split; [exact F|]. split; [exact E6|].
    split; [exact E7|].
    intros End Ein legal_moves Lnd Lin.
    assert (Pl : Permutation evasions legal_moves).
    { apply NoDup_Permutation; [exact End|exact Lnd|].
      intros m. rewrite Ein, Lin. reflexivity. }
    split.
    { transitivity (length (map fst tr)); [symmetry; apply length_map|].
      rewrite (Permutation_length Pm). exact (Permutation_length Pl). }
    split.
    { eapply Permutation_NoDup; [apply Permutation_sym; exact Pm|exact End]. }
    exact (perm_trans Pm Pl).
  - intros Hc Hd Hn Cc Cq Hsc Hnone.
    destruct (qsearch_trace_with_checks raw p pv ttm ss d ei Hc Hd Hn Cc Cq
                Hsc Hnone) as (cs & s & T & Pm).
    exists cs, s.
    split; [exact (trace_reading_in_table stray _ _ _ T)|].
    split; [exact Pm|]. repeat split.
  - intros Hc Hd Hn Cc Hsc Hnone.
    destruct (qsearch_trace_without_checks raw p pv ttm ss d ei Hc Hd Hn Cc
                Hsc Hnone) as (cs & s & T & Pm).
    exists cs, s.
    split; [exact (trace_reading_in_table stray _ _ _ T)|].
    split; [exact Pm|]. repeat split.
  - intros Hc Hd Hn Cq Hnone.
    destruct (qsearch_trace_no_captures raw p pv ttm ss d ei Hc
                ltac:(lia) Hn Cq Hnone) as (H0 & _).
    destruct (H0 Hd) as (s & T).
    exists s.
    split; [exact (trace_reading_in_table stray _ _ _ T)|].
    repeat split.
  - intros Hc Hd Hn.
    split; [|reflexivity].
    apply (trace_reading_in_table stray 1).
    assert (Q : get_next_move mp = Ret (MOVE_NONE, with_phaseIndex mp 15)).
    { destruct (qsearch_start raw p pv ttm ss d ei Hc ltac:(lia))
        as (PI & P0).
      fold mp in PI, P0. rewrite Hn in PI.
      destruct (d =? 0) eqn:Q; [apply Z.eqb_eq in Q; lia|clear Q].
      rewrite (get_next_move_stop mp mp P0); rewrite PI; reflexivity. }
    simpl. rewrite Q. reflexivity.
Qed.


End Facts.

(** ** Instances of the statements above *)

Import Toy.

Lemma MainSearch_first_read_witness :
  phaseIndex (MovePicker_new (raw quiet) quiet false 0
                no_killers 2 None) = MainSearchPhaseIndex G
  /\ MainSearchPhaseIndex G = -1
  /\ ~ (0 <= phaseIndex (MovePicker_new (raw quiet) quiet false 0
                           no_killers 2 None)
          < Z.of_nat (length (PhaseTable G)))
  /\ aget (PhaseTable G)
        (phaseIndex (MovePicker_new (raw quiet) quiet false 0
                       no_killers 2 None)) = None
  /\ pick_move_from_list
        (MovePicker_new (raw quiet) quiet false 0
           no_killers 2 None) = OutOfBounds.
Proof.
  apply (@MainSearch_first_read_outside_table toy (raw quiet)
           quiet false 0 no_killers 2 None); [reflexivity | lia].
Defined.

Lemma good_captures_witness :
  exists mp1 goods bads,
    next_phase (after_mate_killer quiet 0) = Ret (inr mp1)
    /\ bucket mp1 = goods
    /\ slice (badCaptures mp1) 0 (numOfBadCaptures mp1) = bads
    /\ Permutation (generate_captures quiet) (map move goods ++ map move bads)
    /\ Forall (scored_good quiet) goods
    /\ Forall (scored_bad quiet) bads.
Proof.
  destruct (@good_captures_then_bad_captures toy (after_mate_killer quiet 0))
    as (mp1 & goods & bads & H1 & _ & _ & _ & H2 & H3 & H4 & H5 & H6 & _).
  - reflexivity.
  - reflexivity.
  - vm_compute. lia.
  - vm_compute. lia.
  - intros m [<-|[<-|[]]]; vm_compute; reflexivity.
  - intros [H|[H|[]]]; discriminate.
  - exists mp1, goods, bads. tauto.
Defined.

(** C2, as stated, fails: with the knight capture 2477 as TT move, legal
    and the best-scored entry of the bucket (814), the first move returned
    in GOOD_CAPTURES is the pawn capture 1827 (score 197). *)
Lemma first_good_capture_skips_tt_move :
  exists mp1 s' best first,
    next_phase (after_mate_killer exchange 2477) = Ret (inr mp1)
    /\ current_move_type mp1 = Ret PH_GOOD_CAPTURES
    /\ get_next_move mp1 = Ret (1827, s')
    /\ current_move_type s' = Ret PH_GOOD_CAPTURES
    /\ In best (bucket mp1) /\ move best = 2477 /\ score best = 814
    /\ In first (bucket mp1) /\ move first = 1827 /\ score first = 197
    /\ ttMove mp1 = 2477
    /\ 0 <= see exchange 2477
    /\ pl_move_is_legal exchange 2477 (pinned mp1) = true
    /\ move_is_legal exchange 2477 (pinned mp1) = true.
Proof.
  eexists _, _, {| move := 2477; score := 814 |},
    {| move := 1827; score := 197 |}.
  split; [vm_compute; reflexivity|].
  split; [vm_compute; reflexivity|].
  split; [vm_compute; reflexivity|].
  split; [vm_compute; reflexivity|].
  split; [vm_compute; right; left; reflexivity|].
  split; [reflexivity|]. split; [reflexivity|].
  split; [vm_compute; left; reflexivity|].
  split; [reflexivity|]. split; [reflexivity|].
  split; [reflexivity|]. split; [vm_compute; discriminate|].
  split; reflexivity.
Qed.

Lemma qcaptures_selection_witness :
  (exists s1, pick_move_from_list (in_qcaptures 1) = Ret (2477, s1))
  /\ (exists s1, pick_move_from_list (in_qcaptures 4) = Ret (1827, s1))
  /\ (exists s1,
        trace 3 (in_qcaptures 4)
        = Ret ([(1827, 8); (2477, 8); (796, 8)], s1))
  /\ exists n tr s,
       trace (S n)
         (MovePicker_new (raw quiet) quiet false 1827 no_killers 0 None)
       = Ret (tr ++ [(1827, phaseIndex s)], s)
       /\ ttMove s = 1827
       /\ current_move_type s = Ret PH_QCAPTURES.
Proof.
  destruct (@qcaptures_selection toy) as (H1 & H2 & _ & H4 & H5).
  split; [|split; [|split]].
  - destruct (H1 (in_qcaptures 1) [blank]
                {| move := 1827; score := 197 |}
                [{| move := 2477; score := 814 |};
                 {| move := 796; score := 5 |}] [blank])
      as (j & e & s1 & N & B & _ & _ & _ & E).
    + reflexivity.
    + repeat split.
    + repeat constructor.
    + simpl. lia.
    + exists s1. rewrite E.
      destruct j as [|[|[|j]]]; simpl in N.
      * injection N as <-.
        inversion B as [|? ? _ B1]; subst. inversion B1 as [|? ? Q _]; subst.
        simpl in Q. lia.
      * injection N as <-. reflexivity.
      * injection N as <-.
        inversion B as [|? ? _ B1]; subst. inversion B1 as [|? ? Q _]; subst.
        simpl in Q. lia.
      * destruct j; discriminate.
  - destruct (H2 (in_qcaptures 4) (repeat blank 4)
                {| move := 1827; score := 197 |}
                [{| move := 2477; score := 814 |};
                 {| move := 796; score := 5 |}] [blank])
      as (s1 & _ & _ & E).
    + reflexivity.
    + repeat split.
    + simpl. lia.
    + exists s1. rewrite E. reflexivity.
  - destruct (H4 (in_qcaptures 4) (repeat blank 4)
                [{| move := 1827; score := 197 |};
                 {| move := 2477; score := 814 |};
                 {| move := 796; score := 5 |}] [blank])
      as (tr & s1 & _ & T & Mt & Ft & _).
    + reflexivity.
    + repeat split.
    + simpl. lia.
    + simpl. intros [H|[H|[H|[]]]]; discriminate.
    + exists s1. rewrite (tagged _ _ Ft) in T. rewrite Mt in T.
      rewrite length_map in T. exact T.
  - apply (H5 (raw quiet) quiet false 1827 no_killers 0 None).
    + reflexivity.
    + lia.
    + reflexivity.
    + vm_compute. lia.
    + intros m [<-|[<-|[]]]; vm_compute; reflexivity.
    + intros [H|[H|[]]]; discriminate.
    + left. reflexivity.
    + reflexivity.
Defined.

Lemma evasions_complete_witness :
  exists tr s,
    trace 4 (MovePicker_new (raw checked) checked false 391 no_killers 3 None)
    = Ret (tr ++ [(MOVE_NONE, 7)], s)
    /\ Permutation (map fst tr) [391; 389; 1187].
Proof.
  destruct (@evasions_complete toy (raw checked) checked false 391 no_killers
              3 None) as (tr & s & T & P & _).
  - reflexivity.
  - vm_compute. lia.
  - intros m [<-|[<-|[<-|[]]]]; vm_compute; reflexivity.
  - intros [H|[H|[H|[]]]]; discriminate.
  - exists tr, s. split; [exact T|exact P].
Defined.

Lemma mem_In (m : Move) (l : list Move) : mem m l = true <-> In m l.
Proof.
  unfold mem. rewrite existsb_exists. split.
  - intros (x & Hx & E). apply Z.eqb_eq in E. subst x. exact Hx.
  - intros H. exists m. split; [exact H|apply Z.eqb_refl].
Qed.

Lemma phase_completeness_witness :
  (exists tr s,
      trace_reading PH_BAD_CAPTURES 6
        (MovePicker_new (raw quiet) quiet false 0 no_killers 2 None)
      = Ret (tr ++ [(MOVE_NONE, 5)], s)
      /\ length tr = 5%nat
      /\ NoDup (map fst tr)
      /\ Permutation (map fst tr) [1827; 2477; 796; 861; 405])
  /\ (exists tr s,
        trace_reading PH_BAD_CAPTURES 4
          (MovePicker_new (raw checked) checked false 391 no_killers 3 None)
        = Ret (tr ++ [(MOVE_NONE, 7)], s)
        /\ Permutation (map fst tr) [391; 389; 1187])
  /\ (exists cs s,
        trace_reading PH_BAD_CAPTURES (S (length cs + 1))
          (MovePicker_new (raw quiet) quiet false 0 no_killers 0 None)
        = Ret (at_phase 8 cs ++ [(405, 9)] ++ [(MOVE_NONE, 10)], s)
        /\ Permutation cs [1827; 2477]).
Proof.
  split; [|split].
  - destruct (@phase_completeness toy PH_BAD_CAPTURES (raw quiet) quiet false
                0 no_killers 2 None) as (H & _).
    destruct (H eq_refl) with (legal_moves := [1827; 2477; 796; 861; 405])
      as (tr & s & T & Len & ND & Pm & _).
    + lia.
    + intros _. simpl. lia.
    + vm_compute. lia.
    + vm_compute. lia.
    + vm_compute. lia.
    + intros m [<-|[<-|[]]]; vm_compute; reflexivity.
    + intros m [<-|[<-|[<-|[]]]]; vm_compute; reflexivity.
    + intros [E|[E|[E|[E|[E|[]]]]]]; discriminate.
    + repeat constructor; simpl; intuition discriminate.
    + intros m. cbn [move_is_legal pl_move_is_legal toy].
      rewrite andb_true_iff, mem_In. reflexivity.
    + repeat constructor; simpl; intuition discriminate.
    + intros m. cbn [move_is_legal toy].
      rewrite andb_true_iff, mem_In. simpl. intuition.
    + exists tr, s. auto.
  - destruct (@phase_completeness toy PH_BAD_CAPTURES (raw checked) checked
                false 391 no_killers 3 None) as (_ & H & _).
    destruct (H eq_refl) as (tr & s & T & Pm & _).
    + vm_compute. lia.
    + intros m [<-|[<-|[<-|[]]]]; vm_compute; reflexivity.
    + intros [E|[E|[E|[]]]]; discriminate.
    + exists tr, s. split; [exact T|exact Pm].
  - destruct (@phase_completeness toy PH_BAD_CAPTURES (raw quiet) quiet false
                0 no_killers 0 None) as (_ & _ & H & _).
    destruct (H eq_refl eq_refl eq_refl) as (cs & s & T & Pm & _).
    + vm_compute. lia.
    + vm_compute. lia.
    + intros m [<-|[<-|[]]]; vm_compute; reflexivity.
    + intros [E|[E|[E|[]]]]; discriminate.
    + exists cs, s. split; [exact T|exact Pm].
Defined.

Lemma main_row_complete_witness :
  exists a quiets s,
    next_phase (MovePicker_new (raw quiet) quiet false 861 no_killers 2 None)
    = Ret (inl (861, a))
    /\ trace 5 a
       = Ret ((1827, 2) :: at_phase 3 quiets
              ++ [(2477, 4); (MOVE_NONE, 5)], s)
    /\ Permutation quiets [796; 405]
    /\ NoDup (861 :: 1827 :: quiets ++ [2477])
    /\ (forall m, In m (861 :: 1827 :: quiets ++ [2477])
                  <-> In m [1827; 2477; 796; 861; 405]).
Proof.
  destruct (@main_row_complete toy (raw quiet) quiet false 861 no_killers
              2 None)
    as (a & goods & quiets & bads & s & _ & _ & N & T & Pg & Pq & Pb & H).
  - reflexivity.
  - lia.
  - vm_compute. lia.
  - vm_compute. lia.
  - vm_compute. lia.
  - intros m [<-|[<-|[]]]; vm_compute; reflexivity.
  - intros m [<-|[<-|[<-|[]]]]; vm_compute; reflexivity.
  - intros [H|[H|[H|[H|[H|[]]]]]]; discriminate.
  - destruct H as (ND & M).
    + repeat constructor; simpl; intuition discriminate.
    + intros m. cbn [move_is_legal pl_move_is_legal toy].
      rewrite andb_true_iff, mem_In. reflexivity.
    + apply Permutation_sym, Permutation_length_1_inv in Pg.
      apply Permutation_sym, Permutation_length_1_inv in Pb.
      subst goods bads.
      exists a, quiets, s.
      split; [exact N|]. split.
      { match type of T with trace ?n _ = _ => replace 5%nat with n end;
          [exact T|].
        simpl. rewrite length_app, (Permutation_length Pq). reflexivity. }
      split; [exact Pq|]. split; [exact ND|].
      intros m. rewrite (M m). cbn [move_is_legal toy].
      rewrite andb_true_iff, mem_In. simpl. intuition.
Defined.

Lemma evasions_by_score_witness :
  exists ms s,
    trace (S (length ms))
      (MovePicker_new (raw checked) checked false 389 no_killers 3 None)
    = Ret (map (fun m => (m, 6)) ms ++ [(MOVE_NONE, 7)], s)
    /\ Permutation ms [391; 389; 1187]
    /\ hd_error ms = Some 389.
Proof.
  destruct (@evasions_by_score toy (raw checked) checked false 389 no_killers
              3 None) as (ms & s & T & P & _ & H).
  - reflexivity.
  - vm_compute. lia.
  - intros m [<-|[<-|[<-|[]]]]; vm_compute; reflexivity.
  - intros [H|[H|[H|[]]]]; discriminate.
  - exists ms, s. split; [exact T|]. split; [exact P|].
    apply H; [right; left; reflexivity|].
    intros m [<-|[E|[<-|[]]]] Hne; try (vm_compute; reflexivity).
    congruence.
Defined.

Lemma good_captures_by_score_witness :
  exists mp1 ms s1 s2,
    next_phase (after_mate_killer exchange 0) = Ret (inr mp1)
    /\ trace (length ms) mp1 = Ret (map (fun m => (m, 2)) ms, s1)
    /\ pick_move_from_list s1 = Ret (MOVE_NONE, s2)
    /\ by_descending (mvv_lva exchange) ms.
Proof.
  destruct (@good_captures_by_score toy (after_mate_killer exchange 0))
    as (mp1 & ms & s1 & s2 & E & _ & T & P & _ & S).
  - reflexivity.
  - reflexivity.
  - vm_compute. lia.
  - vm_compute. lia.
  - intros m [<-|[<-|[]]]; vm_compute; reflexivity.
  - intros [H|[H|[]]]; discriminate.
  - exists mp1, ms, s1, s2. auto.
Defined.

Lemma noncaptures_selection_witness :
  exists n1,
    next_phase
      (with_phaseIndex
         (MovePicker_new (raw quiet) quiet true 0 no_killers 1 None) 2)
    = Ret (inr n1)
    /\ map move (bucket n1) = [796; 861; 405].
Proof.
  destruct (@noncaptures_selection toy
              (with_phaseIndex
                 (MovePicker_new (raw quiet) quiet true 0 no_killers 1 None) 2))
    as (n1 & E & _ & B & _).
  - reflexivity.
  - vm_compute. lia.
  - intros m [<-|[<-|[<-|[]]]]; vm_compute; reflexivity.
  - intros [H|[H|[H|[]]]]; discriminate.
  - exists n1. split; [exact E|exact B].
Defined.

Lemma qsearch_with_checks_row_witness :
  exists cs s,
    trace (S (length cs + 1))
      (MovePicker_new (raw quiet) quiet false 0 no_killers 0 None)
    = Ret (map (fun m => (m, 8)) cs ++ [(405, 9)] ++ [(MOVE_NONE, 10)], s)
    /\ Permutation cs [1827; 2477].
Proof.
  destruct (@qsearch_with_checks_row toy (raw quiet) quiet false 0 no_killers
              0 None) as (cs & s & T & P).
  - reflexivity.
  - reflexivity.
  - reflexivity.
  - vm_compute. lia.
  - vm_compute. lia.
  - intros m [<-|[<-|[]]]; vm_compute; reflexivity.
  - intros [H|[H|[H|[]]]]; discriminate.
  - exists cs, s. split; [exact T|exact P].
Defined.

Lemma qsearch_without_checks_row_witness :
  exists cs s,
    trace (S (length cs))
      (MovePicker_new (raw quiet) quiet false 0 no_killers (-1) None)
    = Ret (map (fun m => (m, 13)) cs ++ [(MOVE_NONE, 14)], s)
    /\ Permutation cs [1827; 2477].
Proof.
  destruct (@qsearch_without_checks_row toy (raw quiet) quiet false 0
              no_killers (-1) None) as (cs & s & T & P).
  - reflexivity.
  - lia.
  - reflexivity.
  - vm_compute. lia.
  - intros m [<-|[<-|[]]]; vm_compute; reflexivity.
  - intros [H|[H|[]]]; discriminate.
  - exists cs, s. split; [exact T|exact P].
Defined.

Lemma qsearch_no_captures_rows_witness :
  (exists s,
     trace 2 (MovePicker_new (raw quiet) quiet false 0 no_killers 0 (Some 1))
     = Ret ([(405, 11); (MOVE_NONE, 12)], s))
  /\ noCaptures quiet (Some 1) = true.
Proof.
  destruct (@qsearch_no_captures_rows toy (raw quiet) quiet false 0 no_killers
              0 (Some 1)) as (H & _).
  - reflexivity.
  - lia.
  - reflexivity.
  - vm_compute. lia.
  - intros [H|[]]; discriminate.
  - split; [|reflexivity]. destruct (H eq_refl) as (s & T).
    exists s. exact T.
Defined.

Lemma find_best_index_first_max_witness :
  exists r,
    find_best_index scored = Ret r
    /\ ((r = -1
         /\ Forall (fun e => score e <= -10000000)
              [{| move := 796; score := 5 |};
               {| move := 2477; score := 814 |};
               {| move := 861; score := 814 |}])
        \/ exists j e,
             r = movesPicked scored + Z.of_nat j
             /\ nth_error [{| move := 796; score := 5 |};
                           {| move := 2477; score := 814 |};
                           {| move := 861; score := 814 |}] j = Some e
             /\ -10000000 < score e
             /\ Forall (fun e' => score e' <= score e)
                  [{| move := 796; score := 5 |};
                   {| move := 2477; score := 814 |};
                   {| move := 861; score := 814 |}]
             /\ Forall (fun e' => score e' < score e)
                  (firstn j [{| move := 796; score := 5 |};
                             {| move := 2477; score := 814 |};
                             {| move := 861; score := 814 |}])).
Proof.
  apply (@find_best_index_first_max toy scored
           [{| move := 1827; score := 197 |}]
           [{| move := 796; score := 5 |};
            {| move := 2477; score := 814 |};
            {| move := 861; score := 814 |}] [blank]).
  unfold layout. repeat split.
Defined.

Lemma pick_never_returns_witness :
  pick_move_from_list stuck = Hang /\ get_next_move stuck = Hang.
Proof.
  apply (@pick_never_returns_without_selectable toy stuck []
           [{| move := 391; score := -10000000 |}] [blank] PH_EVASIONS).
  - reflexivity.
  - right. left. reflexivity.
  - unfold layout. repeat split.
  - discriminate.
  - repeat constructor. simpl. lia.
Defined.

Lemma get_next_move_past_stop_witness :
  current_move_type (with_phaseIndex (raw checked) 5) = Ret PH_STOP
  /\ exists m s',
       get_next_move (with_phaseIndex (raw checked) 5) = Ret (m, s')
       /\ m <> MOVE_NONE
       /\ In m [391; 389; 1187]
       /\ current_move_type s' = Ret PH_EVASIONS.
Proof.
  destruct (@get_next_move_past_stop toy (with_phaseIndex (raw checked) 5))
    as (H0 & m & s' & G & Hm & Hin & Hp & _).
  - reflexivity.
  - vm_compute. lia.
  - intros m [<-|[<-|[<-|[]]]]; vm_compute; reflexivity.
  - intros [H|[H|[H|[]]]]; discriminate.
  - discriminate.
  - split; [exact H0|]. exists m, s'. auto.
Defined.

Lemma bad_captures_overflow_witness :
  next_phase (with_badCaptures (after_mate_killer quiet 0) []) = OutOfBounds
  /\ get_next_move (with_badCaptures (after_mate_killer quiet 0) [])
     = OutOfBounds.
Proof.
  apply (@bad_captures_overflow toy
           (with_badCaptures (after_mate_killer quiet 0) [])).
  - reflexivity.
  - reflexivity.
  - vm_compute. lia.
  - vm_compute. lia.
Defined.

End PickerFacts.

(** * The second [find_best_index] *)

Module SquareFacts.

Import MovePick PickerSpec SquareSpec ArrayFacts PickerFacts.

Section Facts.

Context {X : Chess}.

Variable bit_is_set : Bitboard -> Square -> bool.
Variable set_bit : Bitboard -> Square -> Bitboard.

(** The two operations on a board of 64 squares. *)
Hypothesis set_bit_same : forall b s,
  0 <= s < 64 -> bit_is_set (set_bit b s) s = true.
Hypothesis set_bit_other : forall b s s',
  0 <= s < 64 -> 0 <= s' < 64 -> s' <> s ->
  bit_is_set (set_bit b s) s' = bit_is_set b s'.

Lemma penalised_ext (sq1 sq2 : Bitboard) (v1 v2 : list Z)
    (win : list MoveStack) :
  Forall (fun e => 0 <= move_to (move e) < 64) win ->
  (forall x, 0 <= x < 64 -> penalty bit_is_set sq2 v2 x = penalty bit_is_set sq1 v1 x) ->
  map (penalised bit_is_set sq2 v2) win = map (penalised bit_is_set sq1 v1) win.
Proof.
  intros R E. apply map_ext_in. intros e He.
  rewrite Forall_forall in R. unfold penalised. rewrite (E _ (R e He)).
  reflexivity.
Qed.

(** One pass: the square of the entry is marked, and what the passes to
    come will take off is what would have been taken off before. *)
Lemma squares_pass (squares : Bitboard) (values : list Z) (to : Square) :
  length values = 64%nat ->
  0 <= to < 64 ->
  exists sq1 vs1,
    (if bit_is_set squares to then Ret (squares, values)
     else vs <- write values to 0 ;; Ret (set_bit squares to, vs))
    = Ret (sq1, vs1)
    /\ read vs1 to = Ret (penalty bit_is_set squares values to)
    /\ length vs1 = 64%nat
    /\ bit_is_set sq1 to = true
    /\ (forall x, 0 <= x < 64 -> bit_is_set squares x = true ->
          bit_is_set sq1 x = true)
    /\ (forall x, 0 <= x < 64 ->
          penalty bit_is_set sq1 vs1 x = penalty bit_is_set squares values x).
Proof.
  intros Len R. unfold penalty.
  destruct (bit_is_set squares to) eqn:Bt.
  - exists squares, values. split; [reflexivity|].
    destruct (aget_in_bounds values to ltac:(lia)) as (v & Ev).
    rewrite Ev. split; [apply read_Ret; exact Ev|].
    split; [exact Len|]. split; [exact Bt|]. split; auto.
  - rewrite (write_in_bounds values to 0) by lia. cbn [bind].
    exists (set_bit squares to), (replace_nth (Z.to_nat to) values 0).
    assert (A : aset values to 0
                = Some (replace_nth (Z.to_nat to) values 0))
      by (apply aset_in_bounds; lia).
    split; [reflexivity|].
    split; [apply read_Ret; exact (aget_aset_same _ _ _ _ A)|].
    split; [rewrite replace_nth_length; exact Len|].
    split; [apply set_bit_same; exact R|].
    split.
    + intros x Hx Bx. destruct (Z.eq_dec x to) as [->|Ne];
        [apply set_bit_same; exact R|].
      rewrite set_bit_other by assumption. exact Bx.
    + intros x Hx. destruct (Z.eq_dec x to) as [->|Ne].
      * rewrite set_bit_same by exact R.
        rewrite (aget_aset_same _ _ _ _ A), Bt. reflexivity.
      * rewrite set_bit_other by assumption.
        rewrite (aget_aset_other _ _ _ _ _ A Ne). reflexivity.
Qed.

Lemma find_best_squares_loop_scan (win : list MoveStack) :
  forall pre post bs bi squares values,
    length values = 64%nat ->
    Forall (fun e => 0 <= move_to (move e) < 64) win ->
    exists sq' vs',
      find_best_squares_loop bit_is_set set_bit (pre ++ win ++ post)
        (length win) (Z.of_nat (length pre)) bs bi squares values
      = Ret (best_of (map (penalised bit_is_set squares values) win)
               (Z.of_nat (length pre)) bs bi, sq', vs')
      /\ length vs' = 64%nat
      /\ Forall (fun e => bit_is_set sq' (move_to (move e)) = true) win
      /\ (forall x, 0 <= x < 64 -> bit_is_set squares x = true ->
            bit_is_set sq' x = true)
      /\ (forall x, 0 <= x < 64 ->
            penalty bit_is_set sq' vs' x
            = penalty bit_is_set squares values x).
Proof.
  induction win as [|e t IH]; intros pre post bs bi squares values Len R.
  - exists squares, values. simpl. repeat split; auto.
  - inversion R as [|? ? Re Rt]; subst.
    cbn [find_best_squares_loop length map best_of].
    assert (Rd : read (pre ++ (e :: t) ++ post) (Z.of_nat (length pre)) = Ret e).
    { apply read_Ret.
      pose proof (aget_app_inner pre (e :: t) post 0) as H.
      rewrite Z.add_0_r in H. apply H. simpl; lia. }
    rewrite Rd. cbn [bind].
    destruct (squares_pass squares values (move_to (move e)) Len Re)
      as (sq1 & vs1 & -> & Rv & Len1 & B1 & Mono1 & P1).
    cbn [bind fst snd]. rewrite Rv. cbn [bind].
    specialize (IH (pre ++ [e]) post).
    rewrite <- app_assoc in IH. simpl in IH.
    rewrite length_app in IH. simpl in IH.
    replace (Z.of_nat (length pre + 1)) with (Z.of_nat (length pre) + 1)
      in IH by lia.
    cbn [penalised score].
    rewrite <- (penalised_ext squares sq1 values vs1 t Rt P1).
    destruct (score e - penalty bit_is_set squares values (move_to (move e)) >? bs).
    + destruct (IH (score e - penalty bit_is_set squares values (move_to (move e)))
                  (Z.of_nat (length pre)) sq1 vs1 Len1 Rt)
        as (sq' & vs' & E & Len' & B' & Mono' & P').
      exists sq', vs'. split; [exact E|]. split; [exact Len'|].
      split; [constructor; [apply Mono'; assumption|exact B']|].
      split; [intros x Hx Bx; apply Mono'; [exact Hx|apply Mono1; assumption]|].
      intros x Hx. rewrite P', P1 by exact Hx. reflexivity.
    + destruct (IH bs bi sq1 vs1 Len1 Rt)
        as (sq' & vs' & E & Len' & B' & Mono' & P').
      exists sq', vs'. split; [exact E|]. split; [exact Len'|].
      split; [constructor; [apply Mono'; assumption|exact B']|].
      split; [intros x Hx Bx; apply Mono'; [exact Hx|apply Mono1; assumption]|].
      intros x Hx. rewrite P', P1 by exact Hx. reflexivity.
Qed.

Lemma best_of_unpenalised (squares : Bitboard) (values : list Z)
    (win : list MoveStack) :
  Forall (fun e => bit_is_set squares (move_to (move e)) = false) win ->
  map (penalised bit_is_set squares values) win = win.
Proof.
  intros F. rewrite <- (map_id win) at 2. apply map_ext_in. intros e He.
  rewrite Forall_forall in F. unfold penalised, penalty. rewrite (F e He).
  destruct e as [m sc]. cbn. f_equal. lia.
Qed.

(** X25.  The second [find_best_index], over a bucket that lies in [moves],
    with 64 values and moves to squares 0 to 63.  It ranks each entry by
    its score less the value of its target square where the square is
    marked, and returns -1 when no entry ranks above -10000000, otherwise
    the first entry of greatest rank; it marks the target squares of the
    whole bucket and raises the value of the target square of the entry
    returned by 0xB00, leaving what the other squares cost as it was.  On
    a board where no target square is marked yet it returns what
    [find_best_index()] returns. *)
Theorem find_best_index_squares_ranks (s : MovePicker)
    (pre win post : list MoveStack) (squares : Bitboard) (values : list Z) :
  layout s pre win post ->
  length values = 64%nat ->
  Forall (fun e => 0 <= move_to (move e) < 64) win ->
  exists r sq' vs',
    find_best_index_squares bit_is_set set_bit s squares values
    = Ret (r, sq', vs')
    /\ Forall (fun e => bit_is_set sq' (move_to (move e)) = true) win
    /\ ((r = -1
         /\ Forall (fun e => score e
                             - penalty bit_is_set squares values
                                 (move_to (move e)) <= -10000000) win
         /\ forall x, 0 <= x < 64 ->
              penalty bit_is_set sq' vs' x
              = penalty bit_is_set squares values x)
        \/ exists j e,
             r = movesPicked s + Z.of_nat j
             /\ nth_error win j = Some e
             /\ -10000000 < score e
                             - penalty bit_is_set squares values
                                 (move_to (move e))
             /\ Forall (fun e' =>
                          score e' - penalty bit_is_set squares values
                                       (move_to (move e'))
                          <= score e - penalty bit_is_set squares values
                                         (move_to (move e))) win
             /\ Forall (fun e' =>
                          score e' - penalty bit_is_set squares values
                                       (move_to (move e'))
                          < score e - penalty bit_is_set squares values
                                        (move_to (move e))) (firstn j win)
             /\ penalty bit_is_set sq' vs' (move_to (move e))
                = penalty bit_is_set squares values (move_to (move e)) + 2816
             /\ forall x, 0 <= x < 64 -> x <> move_to (move e) ->
                  penalty bit_is_set sq' vs' x
                  = penalty bit_is_set squares values x)
    /\ (Forall (fun e => bit_is_set squares (move_to (move e)) = false) win ->
        find_best_index s = Ret r).
Proof.
  intros L Len R. pose proof L as (M & P & N).
  unfold find_best_index_squares.
  fold (remaining s). rewrite (layout_remaining _ _ _ _ L), M, P.
  destruct (find_best_squares_loop_scan win pre post (-10000000) (-1)
              squares values Len R)
    as (sq' & vs' & -> & Len' & B' & _ & P').
  cbn [bind fst snd].
  set (pw := map (penalised bit_is_set squares values) win).
  assert (Ag : Forall (fun e => bit_is_set squares (move_to (move e)) = false)
                 win ->
               find_best_index s
               = Ret (best_of pw (Z.of_nat (length pre)) (-10000000) (-1))).
  { intros F. rewrite (find_best_index_scan s pre win post L).
    unfold pw. rewrite (best_of_unpenalised squares values win F).
    reflexivity. }
  destruct (best_of_spec pw (Z.of_nat (length pre)) (-10000000) (-1))
    as [(E & F)|(j & pe & E & Nj & Bj & F1 & F2)].
  - rewrite E in *. cbn [Z.eqb].
    exists (-1), sq', vs'. split; [reflexivity|]. split; [exact B'|].
    split; [|exact Ag].
    left. split; [reflexivity|]. split; [|exact P'].
    unfold pw in F. rewrite Forall_map in F. exact F.
  - unfold pw in Nj. rewrite nth_error_map in Nj.
    destruct (nth_error win j) as [e|] eqn:Ne; [|discriminate].
    cbn in Nj. injection Nj as <-.
    assert (Hj : (j < length win)%nat)
      by (apply nth_error_Some; congruence).
    rewrite E in *.
    assert (Q : (Z.of_nat (length pre) + Z.of_nat j =? -1) = false)
      by (apply Z.eqb_neq; lia).
    rewrite Q.
    assert (Rd : read (pre ++ win ++ post)
                   (Z.of_nat (length pre) + Z.of_nat j) = Ret e).
    { apply read_Ret. rewrite (aget_app_inner pre win post j Hj). exact Ne. }
    rewrite Rd. cbn [bind].
    assert (Re : 0 <= move_to (move e) < 64).
    { rewrite Forall_forall in R. apply R. eapply nth_error_In; eauto. }
    assert (Be : bit_is_set sq' (move_to (move e)) = true).
    { rewrite Forall_forall in B'. apply B'. eapply nth_error_In; eauto. }
    assert (Bd : 0 <= move_to (move e) < Z.of_nat (length vs'))
      by (rewrite Len'; lia).
    destruct (aget_in_bounds vs' (move_to (move e)) Bd) as (v & Ev).
    rewrite (proj2 (read_Ret _ _ _) Ev). cbn [bind].
    rewrite (write_in_bounds vs' (move_to (move e)) (v + 2816)) by exact Bd.
    cbn [bind].
    assert (A : aset vs' (move_to (move e)) (v + 2816)
                = Some (replace_nth (Z.to_nat (move_to (move e))) vs'
                          (v + 2816)))
      by (apply aset_in_bounds; exact Bd).
    assert (Pv : penalty bit_is_set squares values (move_to (move e)) = v).
    { rewrite <- (P' _ Re). unfold penalty. rewrite Be, Ev. reflexivity. }
    do 3 eexists. split; [reflexivity|]. split; [exact B'|].
    split; [|exact Ag].
    right. exists j, e.
    split; [reflexivity|]. split; [exact Ne|].
    cbn [penalised score] in Bj, F1, F2.
    split; [exact Bj|].
    split; [unfold pw in F1; rewrite Forall_map in F1; exact F1|].
    split.
    { unfold pw in F2. rewrite firstn_map, Forall_map in F2. exact F2. }
    split.
    { unfold penalty at 1. rewrite Be, (aget_aset_same _ _ _ _ A).
      rewrite Pv. reflexivity. }
    intros x Hx Nx. rewrite <- (P' x Hx). unfold penalty.
    rewrite (aget_aset_other _ _ _ _ _ A Nx). reflexivity.
Qed.

End Facts.


Import Toy.

Lemma setbit_64_same (b : Bitboard) (s : Square) :
  0 <= s < 64 -> testbit_64 (setbit_64 b s) s = true.
Proof.
  intros H. unfold testbit_64, setbit_64.
  rewrite Z.lor_spec, Z.shiftl_1_l, Z.pow2_bits_true by lia.
  apply orb_true_r.
Qed.

Lemma setbit_64_other (b : Bitboard) (s s' : Square) :
  0 <= s < 64 -> 0 <= s' < 64 -> s' <> s ->
  testbit_64 (setbit_64 b s) s' = testbit_64 b s'.
Proof.
  intros H H' Ne. unfold testbit_64, setbit_64.
  rewrite Z.lor_spec, Z.shiftl_1_l, Z.pow2_bits_false by lia.
  apply orb_false_r.
Qed.

Lemma find_best_index_squares_witness :
  exists r sq' vs',
    find_best_index_squares testbit_64 setbit_64 scored 0 (repeat 7 64)
    = Ret (r, sq', vs')
    /\ find_best_index scored = Ret r.
Proof.
  destruct (@find_best_index_squares_ranks toy testbit_64 setbit_64
              setbit_64_same setbit_64_other scored
              [{| move := 1827; score := 197 |}]
              [{| move := 796; score := 5 |};
               {| move := 2477; score := 814 |};
               {| move := 861; score := 814 |}]
              [blank] 0 (repeat 7 64))
    as (r & sq' & vs' & E & _ & _ & A).
  - repeat split.
  - reflexivity.
  - repeat constructor; vm_compute; discriminate.
  - exists r, sq', vs'. split; [exact E|]. apply A.
    repeat constructor.
Defined.

End SquareFacts.

(** * Properties of the thread pool *)

Module ThreadFacts.

Import Threads ThreadSpec ArrayFacts.

(** ** Availability *)

Lemma bit_pow2 (i : Z) : 0 <= i < 64 -> bit i = 2 ^ i.
Proof.
  intros H. unfold bit, two64. rewrite Z.shiftl_1_l.
  apply Z.mod_small. split; [apply Z.pow_nonneg; lia|].
  apply Z.pow_lt_mono_r; lia.
Qed.

Lemma land_bit_testbit (m i : Z) :
  0 <= i < 64 ->
  negb (Z.land m (bit i) =? 0) = Z.testbit m i.
Proof.
  intros H. rewrite bit_pow2 by assumption.
  destruct (Z.testbit m i) eqn:T.
  - apply negb_true_iff, Z.eqb_neq. intros E.
    assert (B : Z.testbit (Z.land m (2 ^ i)) i = true).
    { rewrite Z.land_spec, T, Z.pow2_bits_true by lia. reflexivity. }
    rewrite E, Z.bits_0 in B. discriminate.
  - apply negb_false_iff, Z.eqb_eq. apply Z.bits_inj'. intros k Hk.
    rewrite Z.land_spec, Z.bits_0.
    destruct (Z.eq_dec k i) as [->|Hne].
    + rewrite T. reflexivity.
    + rewrite Z.pow2_bits_false by lia. apply andb_false_r.
Qed.

(** C5.  For a thread whose split-point stack lies within its array and a
    master whose index is a bit of the 64-bit mask, [is_available_to]
    returns, and returns true exactly when the thread is not searching and
    either has no split point or the one on top of its stack has the
    master's bit set in [slavesMask]. *)
Theorem is_available_to_iff (th master : Thread) :
  0 <= idx master < 64 ->
  0 <= splitPointsSize th <= Z.of_nat (length (splitPoints th)) ->
  exists b, is_available_to th master = Ret b
    /\ (b = true <->
        searching th = false
        /\ (splitPointsSize th = 0
            \/ exists top,
                 aget (splitPoints th) (splitPointsSize th - 1) = Some top
                 /\ Z.testbit (slavesMask top) (idx master) = true)).
Proof.
  intros Hi Hs. unfold is_available_to.
  destruct (searching th) eqn:S.
  - exists false. split; [reflexivity|]. split; [discriminate|].
    intros [F _]; discriminate.
  - destruct (splitPointsSize th =? 0) eqn:Z0.
    + apply Z.eqb_eq in Z0. exists true. split; [reflexivity|]. tauto.
    + apply Z.eqb_neq in Z0.
      destruct (aget_in_bounds (splitPoints th) (splitPointsSize th - 1))
        as [top Et]; [lia|].
      unfold read. rewrite Et. simpl.
      rewrite land_bit_testbit by assumption.
      exists (Z.testbit (slavesMask top) (idx master)).
      split; [reflexivity|]. split.
      * intros T. split; [reflexivity|]. right. exists top. tauto.
      * intros [_ [E|[top' [E T]]]]; [contradiction|]. congruence.
Qed.

(** ** Reading the options *)

Lemma wrap_int_small (x : Z) : - 2 ^ 31 <= x < 2 ^ 31 -> wrap_int x = x.
Proof.
  intros H. unfold wrap_int. rewrite Z.mod_small; lia.
Qed.

Lemma minimumSplitDepth_after_read (ONE_PLY : Z) (raw : list SplitPoint)
    (o : OptionsMap) (w : World) :
  0 < ONE_PLY -> 12 * ONE_PLY < 2 ^ 31 ->
  0 <= currentValue (o Min_Split_Depth) <= 12 ->
  0 < currentValue (o Threads_) < 2 ^ 31 ->
  4 * ONE_PLY <= minimumSplitDepth (read_uci_options ONE_PLY raw o w)
  /\ (currentValue (o Min_Split_Depth) = 0 ->
      currentValue (o Threads_) < 8 ->
      minimumSplitDepth (read_uci_options ONE_PLY raw o w) = 4 * ONE_PLY)
  /\ (currentValue (o Min_Split_Depth) = 0 ->
      8 <= currentValue (o Threads_) ->
      minimumSplitDepth (read_uci_options ONE_PLY raw o w) = 7 * ONE_PLY)
  /\ (currentValue (o Min_Split_Depth) <> 0 ->
      minimumSplitDepth (read_uci_options ONE_PLY raw o w)
      = Z.max (4 * ONE_PLY) (currentValue (o Min_Split_Depth) * ONE_PLY)).
Proof.
  intros Hp Hb Hv Ht. unfold read_uci_options; cbn [minimumSplitDepth].
  assert (T : currentValue (o Threads_) mod two64 = currentValue (o Threads_)).
  { apply Z.mod_small. unfold two64.
    assert (2 ^ 31 < 2 ^ 64) by (apply Z.pow_lt_mono_r; lia). lia. }
  rewrite T.
  rewrite (wrap_int_small (currentValue (o Min_Split_Depth) * ONE_PLY)) by nia.
  rewrite (wrap_int_small (4 * ONE_PLY)) by nia.
  destruct (currentValue (o Min_Split_Depth) * ONE_PLY =? 0) eqn:E.
  - apply Z.eqb_eq in E.
    assert (V0 : currentValue (o Min_Split_Depth) = 0) by nia.
    destruct (currentValue (o Threads_) <? 8) eqn:L.
    + apply Z.ltb_lt in L. rewrite wrap_int_small by nia.
      repeat split; intros; try lia.
    + apply Z.ltb_ge in L. rewrite wrap_int_small by nia.
      repeat split; intros; try lia.
  - apply Z.eqb_neq in E.
    assert (V0 : currentValue (o Min_Split_Depth) <> 0) by nia.
    repeat split; intros; try lia.
Qed.

Lemma assign_out_of_range (ONE_PLY : Z) (raw : list SplitPoint)
    (name : OptionName) (v : Z) (st : OptionsMap * World) :
  v < opt_min (fst st name) \/ opt_max (fst st name) < v ->
  assign ONE_PLY raw name v st = st.
Proof.
  intros H. unfold assign.
  destruct (v <? opt_min (fst st name)) eqn:A; [reflexivity|].
  destruct (v >? opt_max (fst st name)) eqn:B; [reflexivity|].
  apply Z.ltb_ge in A.
  assert (~ opt_max (fst st name) < v).
  { intros C. apply Z.gtb_lt in C. congruence. }
  lia.
Qed.


Lemma assign_in_range (ONE_PLY MAX_THREADS : Z) (raw : list SplitPoint)
    (name : OptionName) (v : Z) (st : OptionsMap * World) :
  in_range MAX_THREADS (fst st) ->
  in_range MAX_THREADS (fst (assign ONE_PLY raw name v st)).
Proof.
  intros H. unfold assign.
  destruct (v <? opt_min (fst st name)) eqn:A; [exact H|].
  destruct (v >? opt_max (fst st name)) eqn:B; [exact H|].
  apply Z.ltb_ge in A.
  assert (C : v <= opt_max (fst st name)).
  { destruct (Z_le_gt_dec v (opt_max (fst st name))) as [L|G]; [exact L|].
    apply Z.gt_lt in G. apply Z.gtb_lt in G. congruence. }
  destruct H as ([M1 M2] & [T1 T2] & HV & HT).
  unfold in_range; simpl.
  destruct name; simpl; repeat split; simpl in *; try lia.
Qed.

Lemma assign_all_floor (ONE_PLY MAX_THREADS : Z) (raw : list SplitPoint)
    (cmds : list (OptionName * Z)) :
  0 < ONE_PLY -> 12 * ONE_PLY < 2 ^ 31 -> MAX_THREADS < 2 ^ 31 ->
  forall st,
    in_range MAX_THREADS (fst st) ->
    4 * ONE_PLY <= minimumSplitDepth (snd st) ->
    in_range MAX_THREADS (fst (assign_all ONE_PLY raw cmds st))
    /\ 4 * ONE_PLY <= minimumSplitDepth (snd (assign_all ONE_PLY raw cmds st)).
Proof.
  intros Hp Hb Hm. induction cmds as [|[name v] cmds IH]; intros st R F.
  - unfold assign_all. cbn [fold_left]. tauto.
  - unfold assign_all. cbn [fold_left fst snd]. apply IH.
    + eapply assign_in_range; eauto.
    + pose proof (assign_in_range ONE_PLY MAX_THREADS raw name v st R) as R'.
      unfold assign in *.
      destruct ((v <? opt_min (fst st name)) || (v >? opt_max (fst st name)));
        [exact F|].
      cbn [fst snd] in *. destruct R' as (_ & _ & HV & HT).
      apply minimumSplitDepth_after_read; try assumption; lia.
Qed.

Lemma pool_init_floor (ONE_PLY MAX_THREADS : Z) (raw : list SplitPoint)
    (nodes0 : Addr -> Z) (cmds : list (OptionName * Z)) :
  0 < ONE_PLY -> 12 * ONE_PLY < 2 ^ 31 -> 1 <= MAX_THREADS < 2 ^ 31 ->
  4 * ONE_PLY <=
  minimumSplitDepth
    (snd (assign_all ONE_PLY raw cmds
            (pool_init ONE_PLY MAX_THREADS raw nodes0))).
Proof.
  intros Hp Hb Hm.
  apply (assign_all_floor ONE_PLY MAX_THREADS raw cmds); try assumption;
    try lia.
  - unfold pool_init, in_range, init, Option_spin; cbn. lia.
  - unfold pool_init. cbn [snd].
    apply minimumSplitDepth_after_read; try assumption;
      unfold init, Option_spin; cbn [currentValue]; lia.
Qed.

(** ** [split] *)

Lemma is_available_to_ok (th master : Thread) :
  stack_ok th ->
  exists b, is_available_to th master = Ret b
    /\ (b = true -> searching th = false).
Proof.
  intros [L U]. unfold is_available_to.
  destruct (searching th) eqn:S; [exists false; split; [reflexivity|discriminate]|].
  destruct (splitPointsSize th =? 0) eqn:Z0; [exists true; tauto|].
  apply Z.eqb_neq in Z0.
  destruct (read_in_bounds (splitPoints th) (splitPointsSize th - 1))
    as [sp E]; [lia|].
  rewrite E. cbn [bind]. eexists. split; [reflexivity|tauto].
Qed.

Lemma available_slave_from_ok (ths : list Thread) :
  forall (i : Z) (master : Thread),
    Forall stack_ok ths ->
    exists r, available_slave_from ths i master = Ret r
      /\ forall s, r = Some s ->
           i <= s
           /\ exists th, nth_error ths (Z.to_nat (s - i)) = Some th
                /\ searching th = false.
Proof.
  induction ths as [|th ths IH]; intros i master F; simpl.
  - exists None. split; [reflexivity|discriminate].
  - inversion F as [|? ? Hth Hths]; subst.
    destruct (is_available_to_ok th master Hth) as [b [E Hb]].
    rewrite E. cbn [bind]. destruct b.
    + exists (Some i). split; [reflexivity|].
      intros s Hs; inversion Hs; subst. split; [lia|].
      exists th. rewrite Z.sub_diag. simpl. auto.
    + destruct (IH (i + 1) master Hths) as [r [Er Hr]].
      exists r. split; [exact Er|].
      intros s Hs. destruct (Hr s Hs) as [Hle [th' [N S']]].
      split; [lia|]. exists th'. split; [|exact S'].
      replace (Z.to_nat (s - i)) with (S (Z.to_nat (s - (i + 1)))) by lia.
      exact N.
Qed.

Lemma available_slave_ok (w : World) (master : Thread) :
  Forall stack_ok (threads w) ->
  exists r, available_slave w master = Ret r
    /\ forall s, r = Some s ->
         exists th, aget (threads w) s = Some th /\ searching th = false.
Proof.
  intros F. unfold available_slave.
  destruct (available_slave_from_ok (threads w) 0 master F) as [r [E H]].
  exists r. split; [exact E|]. intros s Hs.
  destruct (H s Hs) as [Hle [th [N S']]]. exists th. split; [|exact S'].
  unfold aget. destruct (s <? 0) eqn:L; [apply Z.ltb_lt in L; lia|].
  rewrite Z.sub_0_r in N. exact N.
Qed.

Section SplitFacts.

Variables (Fake : bool) (self : ThreadPtr) (k : Z).
Variables (par : option SplitPointPtr) (pos : Addr) (ns : Z).

Lemma recruit_pushed (n : nat) : forall (cnt : Z) (w : World),
  pushed self k par pos ns w ->
  exists cnt' w',
    recruit Fake self k n cnt w = Ret (cnt', w')
    /\ pushed self k par pos ns w'.
Proof.
  induction n as [|n IH]; intros cnt w P.
  - simpl. eauto.
  - pose proof P as (F & N & me & sp & Eme & Sme & Zme & Esp & Psp & Qsp).
    cbn [recruit].
    rewrite (proj2 (read_Ret _ _ _) Eme). cbn [bind].
    destruct (available_slave_ok w me F) as [r [Er Hr]].
    rewrite Er. cbn [bind].
    destruct r as [s|]; [|eauto].
    destruct ((cnt + 1 <=? maxThreadsPerSplitPoint w) && negb Fake); [|eauto].
    destruct (Hr s eq_refl) as [slave [Es Ss]].
    assert (Hne : s <> self) by (intros ->; congruence).
    rewrite (proj2 (read_Ret _ _ _) Es). cbn [bind].
    rewrite (proj2 (read_Ret _ _ _) Esp). cbn [bind].
    pose proof (aget_bounds _ _ _ Esp) as Bk.
    pose proof (aget_bounds _ _ _ Eme) as Bself.
    pose proof (aget_bounds _ _ _ Es) as Bs.
    rewrite (write_in_bounds (splitPoints me) k) by exact Bk. cbn [bind].
    rewrite (write_in_bounds (threads w) self) by exact Bself. cbn [bind].
    set (sp' := with_slavesMask sp (Z.lor (slavesMask sp) (bit (idx slave)))).
    set (sps := replace_nth (Z.to_nat k) (splitPoints me) sp').
    set (me' := {| searching := searching me; maxPly := maxPly me;
                   splitPointsSize := splitPointsSize me; splitPoints := sps;
                   activeSplitPoint := activeSplitPoint me;
                   activePosition := activePosition me; idx := idx me |}).
    set (ths1 := replace_nth (Z.to_nat self) (threads w) me').
    assert (A1 : aset (threads w) self me' = Some ths1)
      by (apply aset_in_bounds; exact Bself).
    assert (Es1 : aget ths1 s = Some slave).
    { rewrite (aget_aset_other _ _ _ _ _ A1 Hne). exact Es. }
    rewrite (proj2 (read_Ret _ _ _) Es1). cbn [bind].
    assert (Bs1 : 0 <= s < Z.of_nat (length ths1)).
    { rewrite (aset_length _ _ _ _ A1). exact Bs. }
    rewrite (write_in_bounds ths1 s) by exact Bs1. cbn [bind].
    set (slave' := {| searching := true; maxPly := maxPly slave;
                      splitPointsSize := splitPointsSize slave;
                      splitPoints := splitPoints slave;
                      activeSplitPoint := Some (self, k);
                      activePosition := activePosition slave;
                      idx := idx slave |}).
    set (ths2 := replace_nth (Z.to_nat s) ths1 slave').
    assert (A2 : aset ths1 s slave' = Some ths2)
      by (apply aset_in_bounds; exact Bs1).
    apply IH. unfold pushed. cbn [threads nodes_searched with_threads].
    assert (A0 : aset (splitPoints me) k sp' = Some sps)
      by (apply aset_in_bounds; exact Bk).
    split; [|split; [exact N|]].
    + assert (Fs : stack_ok slave).
      { rewrite Forall_forall in F. apply F. eapply aget_In; eauto. }
      assert (Fm : stack_ok me).
      { rewrite Forall_forall in F. apply F. eapply aget_In; eauto. }
      eapply aset_Forall; [|..|exact A2].
      * eapply aset_Forall; [exact F| |exact A1].
        unfold stack_ok in *; cbn [splitPointsSize splitPoints me'].
        unfold sps. rewrite replace_nth_length. exact Fm.
      * exact Fs.
    + exists me', sp'. repeat split.
      * rewrite (aget_aset_other _ _ _ _ _ A2) by congruence.
        apply (aget_aset_same _ _ _ _ A1).
      * exact Sme.
      * exact Zme.
      * apply (aget_aset_same _ _ _ _ A0).
      * exact Psp.
      * exact Qsp.
Qed.

End SplitFacts.

(** C6.  When [split] returns, the node counter of the split position is
    its value before the call plus [sp.nodes], the master is searching, its
    split-point stack is as high as before, its active split point is the
    split point's parent (the one active before the call), its active
    position is the split position, and the out-parameters hold
    [sp.bestValue] and [sp.bestMove]. *)
Theorem split_restores_master (idle_loop : ThreadPtr -> World -> World)
    (Fake : bool) (self : ThreadPtr) (w : World) (pos ss : Addr)
    (alpha0 beta0 bestValue0 : Value) (bestMove0 : Move) (depth0 : Depth)
    (threatMove0 : Move) (moveCount0 : Z) (movePicker0 : Addr)
    (nodeType0 : Z) (cutNode0 : bool) (me : Thread) :
  (forall w1, idle_loop_frame self w1 (idle_loop self w1)) ->
  Forall stack_ok (threads w) ->
  aget (threads w) self = Some me ->
  searching me = true ->
  splitPointsSize me < Z.of_nat (length (splitPoints me)) ->
  exists w' bv bm me' sp,
    split idle_loop Fake self w pos ss alpha0 beta0 bestValue0 bestMove0
      depth0 threatMove0 moveCount0 movePicker0 nodeType0 cutNode0
    = Ret (w', bv, bm)
    /\ aget (threads w') self = Some me'
    /\ aget (splitPoints me') (splitPointsSize me) = Some sp
    /\ nodes_searched w' pos = nodes_searched w pos + nodes sp
    /\ searching me' = true
    /\ splitPointsSize me' = splitPointsSize me
    /\ activeSplitPoint me' = parentSplitPoint sp
    /\ parentSplitPoint sp = activeSplitPoint me
    /\ activePosition me' = Some pos
    /\ bv = bestValue sp
    /\ bm = bestMove sp.
Proof.
  intros Hidle F Eme Sme Hk.
  assert (Fm : stack_ok me).
  { rewrite Forall_forall in F. apply F. eapply aget_In; eauto. }
  pose proof (aget_bounds _ _ _ Eme) as Bself.
  assert (Bk : 0 <= splitPointsSize me < Z.of_nat (length (splitPoints me)))
    by (unfold stack_ok in Fm; lia).
  unfold split.
  rewrite (proj2 (read_Ret _ _ _) Eme). cbn [bind].
  rewrite (write_in_bounds (splitPoints me) (splitPointsSize me)) by exact Bk.
  cbn [bind].
  rewrite (write_in_bounds (threads w) self) by exact Bself. cbn [bind].
  match goal with
  | |- context [replace_nth (Z.to_nat (splitPointsSize me)) (splitPoints me) ?x] =>
      set (sp0 := x)
  end.
  set (sps := replace_nth (Z.to_nat (splitPointsSize me)) (splitPoints me) sp0).
  set (me1 := {| searching := searching me; maxPly := maxPly me;
                 splitPointsSize := splitPointsSize me + 1; splitPoints := sps;
                 activeSplitPoint := Some (self, splitPointsSize me);
                 activePosition := None; idx := idx me |}).
  set (ths1 := replace_nth (Z.to_nat self) (threads w) me1).
  set (w1 := with_threads w ths1).
  assert (A0 : aset (splitPoints me) (splitPointsSize me) sp0 = Some sps)
    by (apply aset_in_bounds; exact Bk).
  assert (A1 : aset (threads w) self me1 = Some ths1)
    by (apply aset_in_bounds; exact Bself).
  assert (P1 : pushed self (splitPointsSize me) (activeSplitPoint me) pos
                 (nodes_searched w pos) w1).
  { unfold pushed. split; [|split; [reflexivity|]].
    - eapply aset_Forall; [exact F| |exact A1].
      unfold stack_ok; cbn [splitPointsSize splitPoints me1].
      unfold sps. rewrite replace_nth_length. lia.
    - exists me1, sp0. repeat split.
      + apply (aget_aset_same _ _ _ _ A1).
      + exact Sme.
      + apply (aget_aset_same _ _ _ _ A0). }
  destruct (recruit_pushed Fake self (splitPointsSize me) (activeSplitPoint me)
              pos (nodes_searched w pos) (idle_threads w1) 1 w1 P1)
    as (cnt & w2 & Er & P2).
  rewrite Er. cbn [bind fst snd].
  set (w3 := if (cnt >? 1) || Fake then idle_loop self w2 else w2).
  assert (P3 : nodes_searched w3 pos = nodes_searched w pos
               /\ exists me3 sp3,
                    aget (threads w3) self = Some me3
                    /\ splitPointsSize me3 = splitPointsSize me + 1
                    /\ aget (splitPoints me3) (splitPointsSize me) = Some sp3
                    /\ parentSplitPoint sp3 = activeSplitPoint me).
  { destruct P2 as (_ & N2 & me2 & sp2 & E2 & _ & Z2 & S2 & Par2 & Pos2).
    unfold w3. destruct ((cnt >? 1) || Fake).
    - assert (S2' : aget (splitPoints me2) (splitPointsSize me2 - 1) = Some sp2).
      { rewrite Z2. replace (splitPointsSize me + 1 - 1)
          with (splitPointsSize me) by lia. exact S2. }
      destruct (Hidle w2 me2 sp2 E2 S2') as (N3 & me3 & sp3 & E3 & Z3 & S3 & Par3).
      split; [rewrite <- Pos2, N3, Pos2; exact N2|].
      exists me3, sp3. repeat split; try congruence.
      rewrite Z2 in S3. replace (splitPointsSize me + 1 - 1)
        with (splitPointsSize me) in S3 by lia. exact S3.
    - split; [exact N2|]. exists me2, sp2. tauto. }
  destruct P3 as (N3 & me3 & sp3 & E3 & Z3 & S3 & Par3).
  rewrite (proj2 (read_Ret _ _ _) E3). cbn [bind].
  rewrite (proj2 (read_Ret _ _ _) S3). cbn [bind].
  pose proof (aget_bounds _ _ _ E3) as B3.
  rewrite (write_in_bounds (threads w3) self) by exact B3. cbn [bind].
  eexists _, _, _, _, sp3. split; [reflexivity|].
  cbn [threads nodes_searched set_nodes_searched with_threads].
  split.
  { apply aget_aset_same with (l := threads w3).
    apply aset_in_bounds. exact B3. }
  cbn [splitPoints searching splitPointsSize activeSplitPoint activePosition].
  rewrite Z.eqb_refl.
  repeat split; try assumption; try lia.
Qed.

(** ** Instances of the statements above *)

Import ToyThreads.

Lemma is_available_to_witness :
  exists b, is_available_to helper master = Ret b
    /\ (b = true <->
        searching helper = false
        /\ (splitPointsSize helper = 0
            \/ exists top,
                 aget (splitPoints helper) (splitPointsSize helper - 1) = Some top
                 /\ Z.testbit (slavesMask top) (idx master) = true)).
Proof.
  apply (is_available_to_iff helper master); simpl; lia.
Defined.

Lemma finish_top_frame (self : ThreadPtr) (w1 : World) :
  idle_loop_frame self w1 (toy_idle_loop self w1).
Proof.
  intros me1 sp1 E1 S1. unfold toy_idle_loop. rewrite E1.
  pose proof (aget_bounds _ _ _ E1) as B1.
  rewrite (aset_in_bounds (threads w1) self) by exact B1.
  cbn [nodes_searched with_threads threads].
  split; [reflexivity|].
  unfold finish_top. rewrite S1.
  pose proof (aget_bounds _ _ _ S1) as B2.
  rewrite (aset_in_bounds (splitPoints me1) (splitPointsSize me1 - 1))
    by exact B2.
  eexists _, _. split.
  { apply aget_aset_same with (l := threads w1).
    apply aset_in_bounds. exact B1. }
  cbn [splitPointsSize splitPoints]. split; [reflexivity|]. split.
  { apply aget_aset_same with (l := splitPoints me1).
    apply aset_in_bounds. exact B2. }
  reflexivity.
Qed.

Lemma split_restores_master_witness :
  exists w' bv bm me' sp,
    split toy_idle_loop false 0 two_threads 500 600 (-10) 10 (-20) 0 8 0 3 700
      1 false
    = Ret (w', bv, bm)
    /\ aget (threads w') 0 = Some me'
    /\ aget (splitPoints me') (splitPointsSize master) = Some sp
    /\ nodes_searched w' 500 = nodes_searched two_threads 500 + nodes sp
    /\ searching me' = true
    /\ splitPointsSize me' = splitPointsSize master
    /\ activeSplitPoint me' = parentSplitPoint sp
    /\ parentSplitPoint sp = activeSplitPoint master
    /\ activePosition me' = Some 500
    /\ bv = bestValue sp
    /\ bm = bestMove sp.
Proof.
  apply (split_restores_master toy_idle_loop false 0 two_threads 500 600
           (-10) 10 (-20) 0 8 0 3 700 1 false master).
  - intros w1. apply finish_top_frame.
  - repeat constructor; simpl; lia.
  - reflexivity.
  - reflexivity.
  - simpl; lia.
Defined.



End ThreadFacts.

(** ** The pool: sizing, the search for a helper, the recruiting loop *)

Module PoolFacts.

Import Threads ThreadSpec ArrayFacts ThreadFacts.

Lemma grow_spec (raw : list SplitPoint) (n : nat) : forall ths,
  grow raw n ths
  = ths ++ map (fun i => Thread_new raw (Z.of_nat (length ths + i))) (seq 0 n).
Proof.
  induction n as [|n IH]; intros ths; simpl.
  - rewrite app_nil_r. reflexivity.
  - rewrite IH, <- app_assoc. simpl. rewrite Nat.add_0_r. f_equal. f_equal.
    rewrite <- seq_shift, map_map. apply map_ext. intros i.
    rewrite length_app. simpl. f_equal. lia.
Qed.

Lemma read_uci_options_length (ONE_PLY : Z) (raw : list SplitPoint)
    (o : OptionsMap) (w : World) :
  0 <= currentValue (o Threads_) < 2 ^ 64 ->
  length (threads (read_uci_options ONE_PLY raw o w))
  = Z.to_nat (currentValue (o Threads_)).
Proof.
  intros Hr. unfold read_uci_options. cbn [threads].
  rewrite (Z.mod_small _ two64) by exact Hr.
  destruct (Z.of_nat (length (threads w)) <? currentValue (o Threads_)) eqn:Q.
  - apply Z.ltb_lt in Q. rewrite grow_spec, length_app, length_map, length_seq.
    lia.
  - apply Z.ltb_ge in Q. rewrite length_firstn. lia.
Qed.

(** X13.  [read_uci_options] leaves the pool with exactly the requested
    number of threads.  The threads that were there are kept, in place, up
    to that number; the ones added are idle, own no split point and carry
    their place in the vector as [idx], so a pool in which every thread's
    [idx] is its place stays so. *)
Theorem read_uci_options_pool (ONE_PLY : Z) (raw : list SplitPoint)
    (o : OptionsMap) (w : World) :
  0 <= currentValue (o Threads_) < 2 ^ 64 ->
  let requested := Z.to_nat (currentValue (o Threads_)) in
  let w' := read_uci_options ONE_PLY raw o w in
  length (threads w') = requested
  /\ maxThreadsPerSplitPoint w'
     = currentValue (o Max_Threads_per_Split_Point)
  /\ (forall i, (i < requested)%nat -> (i < length (threads w))%nat ->
        nth_error (threads w') i = nth_error (threads w) i)
  /\ (forall i, (length (threads w) <= i < requested)%nat ->
        nth_error (threads w') i = Some (Thread_new raw (Z.of_nat i)))
  /\ (indexed (threads w) -> indexed (threads w')).
Proof.
  intros Hr requested w'.
  assert (Rq : currentValue (o Threads_) mod two64 = currentValue (o Threads_))
    by (apply Z.mod_small; exact Hr).
  assert (Th : threads w'
               = if Z.of_nat (length (threads w)) <? currentValue (o Threads_)
                 then grow raw (requested - length (threads w)) (threads w)
                 else firstn requested (threads w)).
  { unfold w', read_uci_options. cbn [threads]. rewrite Rq.
    destruct (Z.of_nat (length (threads w)) <? currentValue (o Threads_));
      [|reflexivity].
    f_equal. unfold requested. lia. }
  assert (Keep : forall i, (i < requested)%nat -> (i < length (threads w))%nat ->
             nth_error (threads w') i = nth_error (threads w) i).
  { intros i Hi Hl. rewrite Th.
    destruct (Z.of_nat (length (threads w)) <? currentValue (o Threads_)).
    - rewrite grow_spec, nth_error_app1 by exact Hl. reflexivity.
    - rewrite nth_error_firstn.
      destruct (i <? requested)%nat eqn:Q; [reflexivity|].
      apply Nat.ltb_ge in Q. lia. }
  assert (New : forall i, (length (threads w) <= i < requested)%nat ->
             nth_error (threads w') i = Some (Thread_new raw (Z.of_nat i))).
  { intros i Hi. rewrite Th.
    destruct (Z.of_nat (length (threads w)) <? currentValue (o Threads_)) eqn:Q.
    - rewrite grow_spec, nth_error_app2 by lia.
      rewrite nth_error_map, nth_error_seq.
      destruct (i - length (threads w) <? requested - length (threads w))%nat
        eqn:Q2; [|apply Nat.ltb_ge in Q2; lia].
      simpl. do 3 f_equal. lia.
    - apply Z.ltb_ge in Q. unfold requested in Hi. lia. }
  split.
  { rewrite Th.
    destruct (Z.of_nat (length (threads w)) <? currentValue (o Threads_)) eqn:Q.
    - apply Z.ltb_lt in Q. rewrite grow_spec, length_app, length_map, length_seq.
      unfold requested. lia.
    - apply Z.ltb_ge in Q. rewrite length_firstn. unfold requested. lia. }
  split; [reflexivity|]. split; [exact Keep|]. split; [exact New|].
  intros Hidx i th Hi.
  assert (Hlt : (i < length (threads w'))%nat)
    by (apply nth_error_Some; congruence).
  assert (Hreq : (i < requested)%nat).
  { rewrite Th in Hlt.
    destruct (Z.of_nat (length (threads w)) <? currentValue (o Threads_)) eqn:Q.
    - apply Z.ltb_lt in Q.
      rewrite grow_spec, length_app, length_map, length_seq in Hlt.
      unfold requested. lia.
    - rewrite length_firstn in Hlt. lia. }
  destruct (Nat.lt_ge_cases i (length (threads w))) as [Hl|Hl].
  - rewrite (Keep i Hreq Hl) in Hi. apply Hidx, Hi.
  - rewrite (New i (conj Hl Hreq)) in Hi. inversion Hi. reflexivity.
Qed.

(** X21.  Assigning a number to the option "Threads": within the option's
    bounds it is stored and the pool is resized to that many threads at
    once, through the 'on change' action; outside them option and pool are
    left as they were. *)
Theorem assign_Threads_resizes (ONE_PLY : Z) (raw : list SplitPoint)
    (v : Z) (st : OptionsMap * World) :
  0 <= opt_min (fst st Threads_) ->
  opt_max (fst st Threads_) < 2 ^ 64 ->
  (opt_min (fst st Threads_) <= v <= opt_max (fst st Threads_) ->
   currentValue (fst (assign ONE_PLY raw Threads_ v st) Threads_) = v
   /\ length (threads (snd (assign ONE_PLY raw Threads_ v st))) = Z.to_nat v
   /\ nodes_searched (snd (assign ONE_PLY raw Threads_ v st))
      = nodes_searched (snd st))
  /\ (v < opt_min (fst st Threads_) \/ opt_max (fst st Threads_) < v ->
      assign ONE_PLY raw Threads_ v st = st).
Proof.
  intros Hmin Hmax. split.
  - intros Hv. unfold assign.
    destruct (v <? opt_min (fst st Threads_)) eqn:Q1;
      [apply Z.ltb_lt in Q1; lia|].
    destruct (v >? opt_max (fst st Threads_)) eqn:Q2;
      [rewrite Z.gtb_ltb in Q2; apply Z.ltb_lt in Q2; lia|].
    cbn [orb fst snd]. split; [reflexivity|]. split; [|reflexivity].
    rewrite read_uci_options_length; cbn [OptionName_eqb currentValue];
      [reflexivity|lia].
  - intros Hv. apply assign_out_of_range. exact Hv.
Qed.

Lemma is_available_to_total (th master : Thread) :
  stack_ok th -> exists b, is_available_to th master = Ret b.
Proof.
  intros H. destruct (is_available_to_ok th master H) as (b & E & _). eauto.
Qed.

Lemma available_slave_from_first (ths : list Thread) :
  forall (i : Z) (master : Thread),
    Forall stack_ok ths ->
    exists r, available_slave_from ths i master = Ret r
      /\ match r with
         | None =>
             forall th, In th ths -> is_available_to th master = Ret false
         | Some s =>
             exists j th,
               s = i + Z.of_nat j
               /\ nth_error ths j = Some th
               /\ is_available_to th master = Ret true
               /\ forall j' th', (j' < j)%nat ->
                    nth_error ths j' = Some th' ->
                    is_available_to th' master = Ret false
         end.
Proof.
  induction ths as [|th ths IH]; intros i master F; simpl.
  - exists None. split; [reflexivity|]. intros th [].
  - inversion F as [|? ? Hth Hths]; subst.
    destruct (is_available_to_total th master Hth) as [b E].
    rewrite E. cbn [bind]. destruct b.
    + exists (Some i). split; [reflexivity|].
      exists 0%nat, th. split; [lia|]. split; [reflexivity|].
      split; [exact E|]. intros j' th' Hj. lia.
    + destruct (IH (i + 1) master Hths) as [r [Er Hr]].
      exists r. split; [exact Er|]. destruct r as [s|].
      * destruct Hr as (j & t & Es & N & A & B).
        exists (S j), t. split; [lia|]. split; [exact N|]. split; [exact A|].
        intros j' th' Hj N'. destruct j' as [|j'].
        -- simpl in N'. inversion N'; subst. exact E.
        -- simpl in N'. apply (B j' th'); [lia|exact N'].
      * intros t [<-|Ht]; [exact E|apply Hr, Ht].
Qed.

(** X14.  [available_slave] returns the first thread of the pool, in vector
    order, that is available to the master, and [nullptr] exactly when no
    thread of the pool is. *)
Theorem available_slave_first (w : World) (master : Thread) :
  Forall stack_ok (threads w) ->
  exists r, available_slave w master = Ret r
    /\ match r with
       | None =>
           forall th, In th (threads w) ->
                      is_available_to th master = Ret false
       | Some s =>
           exists th,
             aget (threads w) s = Some th
             /\ is_available_to th master = Ret true
             /\ forall j th', 0 <= j < s ->
                  aget (threads w) j = Some th' ->
                  is_available_to th' master = Ret false
       end.
Proof.
  intros F. unfold available_slave.
  destruct (available_slave_from_first (threads w) 0 master F) as [r [E H]].
  exists r. split; [exact E|]. destruct r as [s|]; [|exact H].
  destruct H as (j & th & Es & N & A & B). exists th.
  assert (Ej : s = Z.of_nat j) by lia. clear Es. subst s.
  split.
  { unfold aget. destruct (Z.of_nat j <? 0) eqn:Q; [apply Z.ltb_lt in Q; lia|].
    rewrite Nat2Z.id. exact N. }
  split; [exact A|].
  intros j' th' Hj Hg. unfold aget in Hg.
  destruct (j' <? 0) eqn:Q; [discriminate|].
  apply (B (Z.to_nat j') th'); [lia|exact Hg].
Qed.

(** *** The recruiting loop of [split] *)

Lemma is_available_to_idx (th m1 m2 : Thread) :
  idx m1 = idx m2 -> is_available_to th m1 = is_available_to th m2.
Proof. intros H. unfold is_available_to. rewrite H. reflexivity. Qed.

Lemma is_available_to_searching (th m : Thread) :
  searching th = true -> is_available_to th m = Ret false.
Proof. intros H. unfold is_available_to. rewrite H. reflexivity. Qed.

Lemma is_available_to_idle (th m : Thread) :
  is_available_to th m = Ret true -> searching th = false.
Proof.
  unfold is_available_to. destruct (searching th); [discriminate|reflexivity].
Qed.

Lemma idle_replace (ths : list Thread) : forall (i : nat) (th th' : Thread),
  nth_error ths i = Some th ->
  (length (filter (fun t => negb (searching t)) (replace_nth i ths th'))
   + (if searching th then 0 else 1)
   = length (filter (fun t => negb (searching t)) ths)
     + (if searching th' then 0 else 1))%nat.
Proof.
  induction ths as [|a ths IH]; intros i th th' H.
  - destruct i; discriminate.
  - destruct i as [|i]; simpl in H.
    + inversion H; subst. simpl.
      destruct (searching th), (searching th'); simpl; lia.
    + simpl. pose proof (IH i th th' H) as Q.
      destruct (searching a); simpl; lia.
Qed.

Lemma masked_refl (k : Z) (th : Thread) (sp : SplitPoint) :
  aget (splitPoints th) k = Some sp -> masked k (slavesMask sp) th th.
Proof.
  intros H. unfold masked. do 7 (split; [reflexivity|]).
  split; [intros; reflexivity|].
  exists sp. split; [exact H|]. rewrite H. destruct sp; reflexivity.
Qed.

Lemma masked_trans (k m1 m2 : Z) (a b c : Thread) :
  masked k m1 a b -> masked k m2 b c -> masked k m2 a c.
Proof.
  intros (S1 & P1 & Z1 & A1 & Q1 & I1 & L1 & O1 & sp & Ea & Eb)
         (S2 & P2 & Z2 & A2 & Q2 & I2 & L2 & O2 & sp' & Eb' & Ec).
  unfold masked. do 7 (split; [congruence|]).
  split; [intros j Hj; rewrite (O2 j Hj); apply O1, Hj|].
  exists sp. split; [exact Ea|].
  rewrite Eb in Eb'. inversion Eb'; subst sp'. rewrite Ec. reflexivity.
Qed.

Lemma none_idle (ths : list Thread) :
  length (filter (fun t => negb (searching t)) ths) = 0%nat ->
  forall th, In th ths -> searching th = true.
Proof.
  induction ths as [|a ths IH]; intros H th Hin; [destruct Hin|].
  simpl in H. destruct (searching a) eqn:S; simpl in H; [|discriminate].
  destruct Hin as [<-|Hin]; [exact S|apply IH; assumption].
Qed.

Section RecruitFacts.

Variables (Fake : bool) (self : ThreadPtr) (k : Z).

Lemma recruit_spec (n : nat) :
  forall (cnt : Z) (w : World) (me : Thread) (sp : SplitPoint),
    Forall stack_ok (threads w) ->
    aget (threads w) self = Some me ->
    searching me = true ->
    aget (splitPoints me) k = Some sp ->
    (idle_threads w <= n)%nat ->
    exists cnt' w' bk me',
      recruit Fake self k n cnt w = Ret (cnt', w')
      /\ maxThreadsPerSplitPoint w' = maxThreadsPerSplitPoint w
      /\ minimumSplitDepth w' = minimumSplitDepth w
      /\ nodes_searched w' = nodes_searched w
      /\ NoDup (map fst bk)
      /\ (forall s th, In (s, th) bk ->
            s <> self /\ aget (threads w) s = Some th
            /\ is_available_to th me = Ret true
            /\ aget (threads w') s = Some (booked self k th))
      /\ (forall j, j <> self -> ~ In j (map fst bk) ->
            aget (threads w') j = aget (threads w) j)
      /\ aget (threads w') self = Some me'
      /\ masked k
           (fold_left (fun m p => Z.lor m (bit (idx (snd p)))) bk
              (slavesMask sp)) me me'
      /\ (Fake = true -> bk = [])
      /\ (bk <> [] ->
          cnt + Z.of_nat (length bk) <= maxThreadsPerSplitPoint w)
      /\ ((cnt' = cnt + Z.of_nat (length bk)
           /\ forall j th, aget (threads w') j = Some th ->
                           is_available_to th me = Ret false)
          \/ (cnt' = cnt + Z.of_nat (length bk) + 1
              /\ (maxThreadsPerSplitPoint w < cnt' \/ Fake = true)
              /\ exists j th, aget (threads w') j = Some th
                              /\ is_available_to th me = Ret true)).
Proof.
  induction n as [|n IH]; intros cnt w me sp F Eme Sme Esp Hn.
  - exists cnt, w, [], me. simpl.
    split; [reflexivity|]. do 3 (split; [reflexivity|]).
    split; [constructor|]. split; [intros s th []|].
    split; [intros; reflexivity|]. split; [exact Eme|].
    split; [apply masked_refl; exact Esp|]. split; [reflexivity|].
    split; [congruence|]. left. split; [lia|].
    intros j th Hj. apply is_available_to_searching.
    apply (none_idle (threads w)); [unfold idle_threads in Hn; lia|].
    eapply aget_In; eauto.
  - cbn [recruit].
    rewrite (proj2 (read_Ret _ _ _) Eme). cbn [bind].
    destruct (available_slave_from_first (threads w) 0 me F) as [r [Er Hr]].
    unfold available_slave. rewrite Er. cbn [bind].
    destruct r as [s|].
    2:{ exists cnt, w, [], me. simpl.
        split; [reflexivity|]. do 3 (split; [reflexivity|]).
        split; [constructor|]. split; [intros s th []|].
        split; [intros; reflexivity|]. split; [exact Eme|].
        split; [apply masked_refl; exact Esp|]. split; [reflexivity|].
        split; [congruence|]. left. split; [lia|].
        intros j th Hj. apply Hr. eapply aget_In; eauto. }
    destruct Hr as (j0 & slave & Es0 & Ns & As & _).
    assert (Es : aget (threads w) s = Some slave).
    { unfold aget. destruct (s <? 0) eqn:Q; [apply Z.ltb_lt in Q; lia|].
      replace (Z.to_nat s) with j0 by lia. exact Ns. }
    pose proof (is_available_to_idle _ _ As) as Ss.
    assert (Hne : s <> self) by (intros ->; congruence).
    destruct ((cnt + 1 <=? maxThreadsPerSplitPoint w) && negb Fake) eqn:Q.
    2:{ exists (cnt + 1), w, [], me. simpl.
        split; [reflexivity|]. do 3 (split; [reflexivity|]).
        split; [constructor|]. split; [intros s' th []|].
        split; [intros; reflexivity|]. split; [exact Eme|].
        split; [apply masked_refl; exact Esp|]. split; [reflexivity|].
        split; [congruence|]. right. split; [lia|]. split.
        - apply andb_false_iff in Q. destruct Q as [Q|Q].
          + apply Z.leb_gt in Q. left. lia.
          + right. destruct Fake; [reflexivity|discriminate].
        - exists s, slave. auto. }
    apply andb_true_iff in Q. destruct Q as [Qc Qf].
    apply Z.leb_le in Qc.
    assert (HF : Fake = false) by (destruct Fake; [discriminate|reflexivity]).
    rewrite (proj2 (read_Ret _ _ _) Es). cbn [bind].
    rewrite (proj2 (read_Ret _ _ _) Esp). cbn [bind].
    pose proof (aget_bounds _ _ _ Esp) as Bk.
    pose proof (aget_bounds _ _ _ Eme) as Bself.
    pose proof (aget_bounds _ _ _ Es) as Bs.
    rewrite (write_in_bounds (splitPoints me) k) by exact Bk. cbn [bind].
    rewrite (write_in_bounds (threads w) self) by exact Bself. cbn [bind].
    set (sp' := with_slavesMask sp (Z.lor (slavesMask sp) (bit (idx slave)))).
    set (sps := replace_nth (Z.to_nat k) (splitPoints me) sp').
    set (me1 := {| searching := searching me; maxPly := maxPly me;
                   splitPointsSize := splitPointsSize me; splitPoints := sps;
                   activeSplitPoint := activeSplitPoint me;
                   activePosition := activePosition me; idx := idx me |}).
    set (ths1 := replace_nth (Z.to_nat self) (threads w) me1).
    assert (A0 : aset (splitPoints me) k sp' = Some sps)
      by (apply aset_in_bounds; exact Bk).
    assert (A1 : aset (threads w) self me1 = Some ths1)
      by (apply aset_in_bounds; exact Bself).
    assert (Es1 : aget ths1 s = Some slave).
    { rewrite (aget_aset_other _ _ _ _ _ A1 Hne). exact Es. }
    rewrite (proj2 (read_Ret _ _ _) Es1). cbn [bind].
    assert (Bs1 : 0 <= s < Z.of_nat (length ths1)).
    { rewrite (aset_length _ _ _ _ A1). exact Bs. }
    rewrite (write_in_bounds ths1 s) by exact Bs1. cbn [bind].
    fold (booked self k slave).
    set (ths2 := replace_nth (Z.to_nat s) ths1 (booked self k slave)).
    assert (A2 : aset ths1 s (booked self k slave) = Some ths2)
      by (apply aset_in_bounds; exact Bs1).
    set (w1 := with_threads w ths2).
    assert (Fs : stack_ok slave).
    { rewrite Forall_forall in F. apply F. eapply aget_In; eauto. }
    assert (Fm : stack_ok me).
    { rewrite Forall_forall in F. apply F. eapply aget_In; eauto. }
    assert (F1 : Forall stack_ok (threads w1)).
    { cbn [threads w1 with_threads].
      eapply aset_Forall; [|..|exact A2].
      - eapply aset_Forall; [exact F| |exact A1].
        unfold stack_ok in *; cbn [splitPointsSize splitPoints me1].
        unfold sps. rewrite replace_nth_length. exact Fm.
      - exact Fs. }
    assert (Eme1 : aget (threads w1) self = Some me1).
    { cbn [threads w1 with_threads].
      rewrite (aget_aset_other _ _ _ _ _ A2) by congruence.
      apply (aget_aset_same _ _ _ _ A1). }
    assert (Esp1 : aget (splitPoints me1) k = Some sp')
      by apply (aget_aset_same _ _ _ _ A0).
    assert (Idle1 : (idle_threads w1 <= n)%nat).
    { unfold idle_threads in *. cbn [threads w1 with_threads].
      assert (N1 : nth_error (threads w) (Z.to_nat self) = Some me).
      { unfold aget in Eme. destruct (self <? 0); [discriminate|exact Eme]. }
      assert (N2 : nth_error ths1 (Z.to_nat s) = Some slave).
      { unfold aget in Es1. destruct (s <? 0); [discriminate|exact Es1]. }
      pose proof (idle_replace (threads w) _ me me1 N1) as Q1.
      pose proof (idle_replace ths1 _ slave (booked self k slave) N2) as Q2.
      fold ths1 in Q1. fold ths2 in Q2.
      cbn [searching me1 booked] in Q1, Q2. rewrite Sme in Q1.
      rewrite Ss in Q2. lia. }
    destruct (IH (cnt + 1) w1 me1 sp' F1 Eme1 Sme Esp1 Idle1)
      as (cnt' & w' & bk1 & me' & E & Mx & Md & Nd & ND & Bk1 & Ot & Em' & Mk
          & Fk & Bd & Stop).
    assert (Snot : ~ In s (map fst bk1)).
    { intros Hin. apply in_map_iff in Hin. destruct Hin as ([s' t] & Ef & Hin).
      simpl in Ef. subst s'. destruct (Bk1 s t Hin) as (_ & Et & At & _).
      cbn [threads w1 with_threads] in Et.
      rewrite (aget_aset_same _ _ _ _ A2) in Et. inversion Et; subst t.
      apply is_available_to_idle in At. discriminate. }
    assert (Old : forall j, j <> self -> j <> s ->
                            aget (threads w1) j = aget (threads w) j).
    { intros j H1 H2. cbn [threads w1 with_threads].
      rewrite (aget_aset_other _ _ _ _ _ A2 H2).
      apply (aget_aset_other _ _ _ _ _ A1 H1). }
    exists cnt', w', ((s, slave) :: bk1), me'.
    split; [exact E|]. split; [exact Mx|]. split; [exact Md|].
    split; [exact Nd|].
    split; [simpl; constructor; assumption|].
    split.
    { intros s' th' [Heq|Hin].
      - inversion Heq; subst s' th'. split; [exact Hne|]. split; [exact Es|].
        split; [exact As|].
        rewrite (Ot s Hne Snot). cbn [threads w1 with_threads].
        apply (aget_aset_same _ _ _ _ A2).
      - destruct (Bk1 s' th' Hin) as (H1 & H2 & H3 & H4).
        assert (H5 : s' <> s).
        { intros ->. apply Snot. apply in_map_iff. exists (s, th'). auto. }
        split; [exact H1|]. split; [rewrite <- (Old s' H1 H5); exact H2|].
        split; [|exact H4].
        rewrite (is_available_to_idx th' me me1); [exact H3|reflexivity]. }
    split.
    { intros j H1 H2. simpl in H2.
      rewrite (Ot j H1) by tauto. apply Old; [exact H1|]. intros ->. tauto. }
    split; [exact Em'|].
    split.
    { eapply masked_trans; [|exact Mk].
      unfold masked. cbn [searching maxPly splitPointsSize activeSplitPoint
                          activePosition idx splitPoints me1].
      do 6 (split; [reflexivity|]).
      split; [unfold sps; apply replace_nth_length|].
      split; [intros j Hj; apply (aget_aset_other _ _ _ _ _ A0 Hj)|].
      exists sp. split; [exact Esp|exact Esp1]. }
    split; [intros Hf; congruence|].
    split.
    { intros _. cbn [length]. destruct bk1 as [|b bk1'].
      - simpl. lia.
      - assert (Hb : b :: bk1' <> []) by discriminate.
        specialize (Bd Hb). cbn [maxThreadsPerSplitPoint w1 with_threads] in Bd.
        lia. }
    cbn [length]. cbn [maxThreadsPerSplitPoint w1 with_threads] in Stop.
    destruct Stop as [(Ec & Hall)|(Ec & Hwhy & j & th & Hj & Ha)].
    + left. split; [lia|]. intros j th Hj.
      rewrite (is_available_to_idx th me me1); [apply (Hall j th Hj)|reflexivity].
    + right. split; [lia|]. split; [exact Hwhy|]. exists j, th.
      split; [exact Hj|].
      rewrite (is_available_to_idx th me me1); [exact Ha|reflexivity].
Qed.

End RecruitFacts.

(** X15.  The recruiting loop of [split], run by a searching master whose
    new split point is in slot [k].  It returns; the threads it books are
    distinct, none is the master, each was available to the master and is
    left searching with the split point as its active one; no other thread
    changes; the master changes only in the [slavesMask] of the split point,
    which gains the bit of each booked thread; a fake split books nobody;
    master and helpers together never exceed [maxThreadsPerSplitPoint]; and
    the loop ends either because no thread is available any more or, with
    one still available, because the count (or [Fake]) forbids booking it. *)
Theorem split_recruits (Fake : bool) (self : ThreadPtr) (k : Z) (w : World)
    (me : Thread) (sp : SplitPoint) :
  Forall stack_ok (threads w) ->
  aget (threads w) self = Some me ->
  searching me = true ->
  aget (splitPoints me) k = Some sp ->
  exists cnt' w' bk me',
    recruit Fake self k (idle_threads w) 1 w = Ret (cnt', w')
    /\ NoDup (map fst bk)
    /\ (forall s th, In (s, th) bk ->
          s <> self /\ aget (threads w) s = Some th
          /\ is_available_to th me = Ret true
          /\ aget (threads w') s = Some (booked self k th))
    /\ (forall j, j <> self -> ~ In j (map fst bk) ->
          aget (threads w') j = aget (threads w) j)
    /\ aget (threads w') self = Some me'
    /\ masked k
         (fold_left (fun m p => Z.lor m (bit (idx (snd p)))) bk
            (slavesMask sp)) me me'
    /\ (Fake = true -> bk = [])
    /\ (bk <> [] ->
        1 + Z.of_nat (length bk) <= maxThreadsPerSplitPoint w)
    /\ ((cnt' = 1 + Z.of_nat (length bk)
         /\ forall j th, aget (threads w') j = Some th ->
                         is_available_to th me = Ret false)
        \/ (cnt' = 1 + Z.of_nat (length bk) + 1
            /\ (maxThreadsPerSplitPoint w < cnt' \/ Fake = true)
            /\ exists j th, aget (threads w') j = Some th
                            /\ is_available_to th me = Ret true)).
Proof.
  intros F Eme Sme Esp.
  destruct (recruit_spec Fake self k (idle_threads w) 1 w me sp F Eme Sme Esp
              (le_n _))
    as (cnt' & w' & bk & me' & E & _ & _ & _ & ND & Bk & Ot & Em' & Mk & Fk
        & Bd & Stop).
  exists cnt', w', bk, me'. tauto.
Qed.

(** X16.  [split] with no thread available to the master and [Fake] false
    never enters [idle_loop]: whatever [idle_loop] is, the call returns the
    caller's [bestValue] and [bestMove]; every other thread, every node
    counter and the pool settings are as before; and the master is as
    before but for [activePosition], now the split position, and the slot of
    [splitPoints] above its stack, used as scratch. *)
Theorem split_without_helper (idle_loop : ThreadPtr -> World -> World)
    (self : ThreadPtr) (w : World) (pos ss : Addr)
    (alpha0 beta0 bestValue0 : Value) (bestMove0 : Move) (depth0 : Depth)
    (threatMove0 : Move) (moveCount0 : Z) (movePicker0 : Addr)
    (nodeType0 : Z) (cutNode0 : bool) (me : Thread) :
  Forall stack_ok (threads w) ->
  aget (threads w) self = Some me ->
  searching me = true ->
  splitPointsSize me < Z.of_nat (length (splitPoints me)) ->
  (forall th, In th (threads w) -> is_available_to th me = Ret false) ->
  exists w' me',
    split idle_loop false self w pos ss alpha0 beta0 bestValue0 bestMove0
      depth0 threatMove0 moveCount0 movePicker0 nodeType0 cutNode0
    = Ret (w', bestValue0, bestMove0)
    /\ aget (threads w') self = Some me'
    /\ searching me' = true
    /\ splitPointsSize me' = splitPointsSize me
    /\ activeSplitPoint me' = activeSplitPoint me
    /\ activePosition me' = Some pos
    /\ maxPly me' = maxPly me /\ idx me' = idx me
    /\ (forall j, j <> splitPointsSize me ->
          aget (splitPoints me') j = aget (splitPoints me) j)
    /\ (forall j, j <> self -> aget (threads w') j = aget (threads w) j)
    /\ (forall a, nodes_searched w' a = nodes_searched w a)
    /\ maxThreadsPerSplitPoint w' = maxThreadsPerSplitPoint w
    /\ minimumSplitDepth w' = minimumSplitDepth w.
Proof.
  intros F Eme Sme Hroom Hnone.
  assert (Fm : stack_ok me).
  { rewrite Forall_forall in F. apply F. eapply aget_In; eauto. }
  pose proof (aget_bounds _ _ _ Eme) as Bself.
  assert (Bk : 0 <= splitPointsSize me < Z.of_nat (length (splitPoints me)))
    by (unfold stack_ok in Fm; lia).
  unfold split.
  rewrite (proj2 (read_Ret _ _ _) Eme). cbn [bind].
  rewrite (write_in_bounds (splitPoints me) (splitPointsSize me)) by exact Bk.
  cbn [bind].
  rewrite (write_in_bounds (threads w) self) by exact Bself. cbn [bind].
  match goal with
  | |- context [replace_nth (Z.to_nat (splitPointsSize me)) (splitPoints me) ?x] =>
      set (sp0 := x)
  end.
  set (sps := replace_nth (Z.to_nat (splitPointsSize me)) (splitPoints me) sp0).
  set (me1 := {| searching := searching me; maxPly := maxPly me;
                 splitPointsSize := splitPointsSize me + 1; splitPoints := sps;
                 activeSplitPoint := Some (self, splitPointsSize me);
                 activePosition := None; idx := idx me |}).
  set (ths1 := replace_nth (Z.to_nat self) (threads w) me1).
  set (w1 := with_threads w ths1).
  assert (A0 : aset (splitPoints me) (splitPointsSize me) sp0 = Some sps)
    by (apply aset_in_bounds; exact Bk).
  assert (A1 : aset (threads w) self me1 = Some ths1)
    by (apply aset_in_bounds; exact Bself).
  assert (F1 : Forall stack_ok (threads w1)).
  { eapply aset_Forall; [exact F| |exact A1].
    unfold stack_ok; cbn [splitPointsSize splitPoints me1].
    unfold sps. rewrite replace_nth_length. lia. }
  assert (Eme1 : aget (threads w1) self = Some me1)
    by apply (aget_aset_same _ _ _ _ A1).
  assert (Esp1 : aget (splitPoints me1) (splitPointsSize me) = Some sp0)
    by apply (aget_aset_same _ _ _ _ A0).
  assert (Un1 : forall j th, aget (threads w1) j = Some th ->
                             is_available_to th me1 = Ret false).
  { intros j th Hj. destruct (Z.eq_dec j self) as [->|Hne].
    - rewrite Eme1 in Hj. inversion Hj; subst th.
      apply is_available_to_searching. exact Sme.
    - cbn [threads w1 with_threads] in Hj.
      rewrite (aget_aset_other _ _ _ _ _ A1 Hne) in Hj.
      rewrite (is_available_to_idx th me1 me); [|reflexivity].
      apply Hnone. eapply aget_In; eauto. }
  destruct (recruit_spec false self (splitPointsSize me) (idle_threads w1) 1
              w1 me1 sp0 F1 Eme1 Sme Esp1 (le_n _))
    as (cnt & w2 & bk & me2 & Er & Mx & Md & Nd & _ & Bk2 & Ot & Em2 & Mk & _
        & _ & Stop).
  assert (Ebk : bk = []).
  { destruct bk as [|[s th] bk']; [reflexivity|]. exfalso.
    destruct (Bk2 s th (or_introl eq_refl)) as (_ & Hs & Ha & _).
    rewrite (Un1 s th Hs) in Ha. discriminate. }
  subst bk. simpl in Mk, Stop, Ot.
  assert (Un2 : forall j th, aget (threads w2) j = Some th ->
                             is_available_to th me1 = Ret false).
  { intros j th Hj. destruct (Z.eq_dec j self) as [->|Hne].
    - rewrite Em2 in Hj. inversion Hj; subst th.
      apply is_available_to_searching.
      destruct Mk as (S2 & _). rewrite S2. exact Sme.
    - rewrite (Ot j Hne) in Hj by tauto. apply (Un1 j th Hj). }
  assert (Ec : cnt = 1).
  { destruct Stop as [(Ec & _)|(_ & _ & j & th & Hj & Ha)]; [lia|].
    rewrite (Un2 j th Hj) in Ha. discriminate. }
  subst cnt. rewrite Er. cbn [bind fst snd].
  change ((1 >? 1) || false) with false. cbv iota.
  rewrite (proj2 (read_Ret _ _ _) Em2). cbn [bind].
  destruct Mk as (S2 & P2 & Z2 & A2 & Q2 & I2 & L2 & O2 & sp & Esp & Esp2).
  rewrite Esp1 in Esp. inversion Esp; subst sp.
  rewrite (proj2 (read_Ret _ _ _) Esp2). cbn [bind].
  pose proof (aget_bounds _ _ _ Em2) as B2.
  rewrite (write_in_bounds (threads w2) self) by exact B2. cbn [bind].
  eexists _, _. split; [reflexivity|].
  cbn [threads nodes_searched set_nodes_searched with_threads
       maxThreadsPerSplitPoint minimumSplitDepth].
  assert (A3 : forall v, aset (threads w2) self v
                         = Some (replace_nth (Z.to_nat self) (threads w2) v))
    by (intros v; apply aset_in_bounds; exact B2).
  split; [apply (aget_aset_same _ _ _ _ (A3 _))|].
  cbn [splitPoints searching splitPointsSize activeSplitPoint activePosition
       maxPly idx].
  split; [reflexivity|].
  split; [rewrite Z2; cbn [splitPointsSize me1]; lia|].
  split; [reflexivity|]. split; [reflexivity|].
  split; [rewrite P2; reflexivity|]. split; [rewrite I2; reflexivity|].
  split.
  { intros j Hj. rewrite (O2 j Hj). cbn [splitPoints me1].
    apply (aget_aset_other _ _ _ _ _ A0 Hj). }
  split.
  { intros j Hj. rewrite (aget_aset_other _ _ _ _ _ (A3 _) Hj).
    rewrite (Ot j Hj) by tauto. cbn [threads w1 with_threads].
    apply (aget_aset_other _ _ _ _ _ A1 Hj). }
  split.
  { intros a. rewrite Nd. cbn [nodes_searched w1 with_threads].
    destruct (a =? pos) eqn:Q; [|reflexivity].
    apply Z.eqb_eq in Q. subst a. cbn [nodes sp0 with_slavesMask]. lia. }
  split; [rewrite Mx; reflexivity|rewrite Md; reflexivity].
Qed.

(** *** [cutoff_occurred] *)

Lemma deref_in_slots (w : World) (p : SplitPointPtr) (s : SplitPoint) :
  deref w p = Ret s -> In p (all_slots w).
Proof.
  destruct p as [t k]. unfold deref. cbn [fst snd]. intros H.
  destruct (read (threads w) t) as [th| |] eqn:Et; try discriminate.
  cbn [bind] in H. apply read_Ret in Et. apply read_Ret in H.
  pose proof (aget_bounds _ _ _ Et) as Bt.
  pose proof (aget_bounds _ _ _ H) as Bk.
  unfold all_slots. apply in_flat_map. exists (Z.to_nat t). split.
  - apply in_seq. lia.
  - assert (Nt : nth_error (threads w) (Z.to_nat t) = Some th).
    { unfold aget in Et. destruct (t <? 0); [discriminate|exact Et]. }
    rewrite (nth_error_nth _ _ _ Nt).
    apply in_map_iff. exists (Z.to_nat k). split.
    + f_equal; lia.
    + apply in_seq. lia.
Qed.

Lemma chain_det (w : World) p l1 :
  chain w p l1 -> forall l2, chain w p l2 -> l1 = l2.
Proof.
  induction 1 as [|p s rest D C IH]; intros l2 H2; inversion H2; subst.
  - reflexivity.
  - assert (s0 = s) by congruence. subst s0. f_equal. apply IH. assumption.
Qed.

Lemma chain_suffix (w : World) q l :
  chain w q l ->
  forall p s, In (p, s) l ->
    exists a b, l = a ++ (p, s) :: b /\ chain w (Some p) ((p, s) :: b).
Proof.
  induction 1 as [|q s0 rest D C IH]; intros p s Hin; [destruct Hin|].
  destruct Hin as [E|Hin].
  - inversion E; subst. exists [], rest. split; [reflexivity|].
    constructor; assumption.
  - destruct (IH p s Hin) as (a & b & E & Cb).
    exists ((q, s0) :: a), b. split; [rewrite E; reflexivity|exact Cb].
Qed.

Lemma chain_NoDup (w : World) q l : chain w q l -> NoDup (map fst l).
Proof.
  induction 1 as [|p s rest D C IH]; simpl; constructor; [|exact IH].
  intros Hin. apply in_map_iff in Hin. destruct Hin as ([p' s'] & E & Hin).
  simpl in E. subst p'.
  destruct (chain_suffix w _ _ C p s' Hin) as (a & b & Er & Cb).
  assert (Cp : chain w (Some p) ((p, s) :: rest)) by (constructor; assumption).
  pose proof (chain_det w _ _ Cb _ Cp) as Q. inversion Q; subst.
  apply (f_equal (@length _)) in H1. rewrite length_app in H1. simpl in H1.
  lia.
Qed.

Lemma chain_in_slots (w : World) q l :
  chain w q l -> incl (map fst l) (all_slots w).
Proof.
  induction 1 as [|p s rest D C IH]; simpl.
  - intros x [].
  - intros x [<-|Hx]; [eapply deref_in_slots; eauto|apply IH, Hx].
Qed.

Lemma cutoff_walk_chain (w : World) q l :
  chain w q l ->
  forall n, (length l <= n)%nat ->
    cutoff_walk w n q = Ret (existsb (fun x => cutoff (snd x)) l).
Proof.
  induction 1 as [|p s rest D C IH]; intros n Hn.
  - destruct n; reflexivity.
  - destruct n as [|n]; [simpl in Hn; lia|].
    cbn [cutoff_walk]. rewrite D. cbn [bind existsb snd].
    destruct (cutoff s); [reflexivity|]. simpl. apply IH. simpl in Hn. lia.
Qed.

(** X17.  When the parent links from a thread's active split point lead to
    a null pointer, [cutoff_occurred] returns, and returns true exactly when
    one of the split points on the way has [cutoff] set. *)
Theorem cutoff_occurred_chain (w : World) (th : Thread)
    (l : list (SplitPointPtr * SplitPoint)) :
  chain w (activeSplitPoint th) l ->
  exists b,
    cutoff_occurred w th = Ret b
    /\ (b = true <-> exists p s, In (p, s) l /\ cutoff s = true).
Proof.
  intros C. unfold cutoff_occurred.
  assert (Len : (length l <= S (length (all_slots w)))%nat).
  { pose proof (NoDup_incl_length (chain_NoDup w _ _ C) (chain_in_slots w _ _ C))
      as Q. rewrite length_map in Q. lia. }
  rewrite (cutoff_walk_chain w _ _ C _ Len).
  eexists. split; [reflexivity|]. rewrite existsb_exists. split.
  - intros ([p s] & Hin & Hc). exists p, s. auto.
  - intros (p & s & Hin & Hc). exists (p, s). auto.
Qed.

(** ** Instances of the statements above *)

Import ToyThreads.

Lemma read_uci_options_pool_witness :
  length (threads (read_uci_options 2 [] (init 64) alone)) = 1%nat
  /\ maxThreadsPerSplitPoint (read_uci_options 2 [] (init 64) alone) = 5.
Proof.
  destruct (read_uci_options_pool 2 [] (init 64) alone) as (H1 & H2 & _).
  - cbn. lia.
  - split; [exact H1|exact H2].
Defined.

Lemma assign_Threads_resizes_witness :
  length (threads (snd (assign 2 (repeat blank_sp 8) Threads_ 3
                          (init 64, alone)))) = 3%nat.
Proof.
  destruct (assign_Threads_resizes 2 (repeat blank_sp 8) 3 (init 64, alone))
    as (H & _).
  - cbn. lia.
  - cbn. lia.
  - destruct H as (_ & H & _); [cbn; lia|exact H].
Defined.

Lemma two_threads_ok : Forall stack_ok (threads two_threads).
Proof. repeat constructor; cbn; lia. Qed.

Lemma available_slave_first_witness :
  exists r, available_slave two_threads master = Ret r
    /\ match r with
       | None =>
           forall th, In th (threads two_threads) ->
                      is_available_to th master = Ret false
       | Some s =>
           exists th,
             aget (threads two_threads) s = Some th
             /\ is_available_to th master = Ret true
             /\ forall j th', 0 <= j < s ->
                  aget (threads two_threads) j = Some th' ->
                  is_available_to th' master = Ret false
       end.
Proof.
  apply (available_slave_first two_threads master).
  repeat constructor; cbn; lia.
Defined.

Lemma split_recruits_witness :
  exists cnt' w' bk,
    recruit false 0 0 (idle_threads two_threads) 1 two_threads
    = Ret (cnt', w')
    /\ (forall s th, In (s, th) bk ->
          aget (threads w') s = Some (booked 0 0 th))
    /\ (bk <> [] -> 1 + Z.of_nat (length bk) <= 5).
Proof.
  destruct (split_recruits false 0 0 two_threads master blank_sp)
    as (cnt' & w' & bk & me' & E & _ & B & _ & _ & _ & _ & L & _).
  - repeat constructor; cbn; lia.
  - reflexivity.
  - reflexivity.
  - reflexivity.
  - exists cnt', w', bk. split; [exact E|]. split; [|exact L].
    intros s th H. apply (B s th H).
Defined.

Lemma split_without_helper_witness :
  exists w' me',
    split toy_idle_loop false 0 alone 500 600 (-10) 10 (-20) 7 8 0 3 700
      1 false
    = Ret (w', -20, 7)
    /\ aget (threads w') 0 = Some me'
    /\ searching me' = true
    /\ splitPointsSize me' = 0
    /\ activePosition me' = Some 500.
Proof.
  destruct (split_without_helper toy_idle_loop 0 alone 500 600 (-10) 10 (-20)
              7 8 0 3 700 1 false master)
    as (w' & me' & E & A & S & Z0 & _ & P & _).
  - repeat constructor; cbn; lia.
  - reflexivity.
  - reflexivity.
  - cbn. lia.
  - intros th [<-|[]]. reflexivity.
  - exists w', me'. auto.
Defined.

Lemma cutoff_occurred_chain_witness :
  exists b,
    cutoff_occurred nested
      {| searching := true; maxPly := 0; splitPointsSize := 0;
         splitPoints := [blank_sp]; activeSplitPoint := Some (0, 1);
         activePosition := None; idx := 1 |} = Ret b
    /\ (b = true <->
        exists p s, In (p, s) [((0, 1), inner_sp); ((0, 0), cut_sp)]
                    /\ cutoff s = true).
Proof.
  apply (cutoff_occurred_chain nested _
           [((0, 1), inner_sp); ((0, 0), cut_sp)]).
  cbn [activeSplitPoint].
  apply chain_step; [reflexivity|]. cbn [parentSplitPoint inner_sp].
  apply chain_step; [reflexivity|]. cbn [parentSplitPoint cut_sp].
  apply chain_end.
Defined.

End PoolFacts.

(** ** UCI options *)

Module OptionFacts.

Import UCI OptionSpec.
Import String.StringSyntax.

Section Order.

Variable tolower : Ascii.ascii -> Z.

Lemma less_irrefl (s : string) : CaseInsensitiveLess tolower s s = false.
Proof.
  induction s as [|c r IH]; simpl; [reflexivity|].
  rewrite Z.ltb_irrefl. exact IH.
Qed.

Lemma less_trans (a : string) : forall b c,
  CaseInsensitiveLess tolower a b = true ->
  CaseInsensitiveLess tolower b c = true ->
  CaseInsensitiveLess tolower a c = true.
Proof.
  induction a as [|x a IH]; intros b c Hab Hbc.
  - destruct c as [|z c]; [|reflexivity].
    destruct b; simpl in Hbc; discriminate.
  - destruct b as [|y b]; [simpl in Hab; discriminate|].
    destruct c as [|z c]; [simpl in Hbc; discriminate|].
    simpl in *.
    destruct (tolower x <? tolower y) eqn:Q1.
    + apply Z.ltb_lt in Q1.
      destruct (tolower y <? tolower z) eqn:Q2.
      * apply Z.ltb_lt in Q2.
        assert (Q : (tolower x <? tolower z) = true) by (apply Z.ltb_lt; lia).
        rewrite Q. reflexivity.
      * destruct (tolower z <? tolower y) eqn:Q3; [discriminate|].
        apply Z.ltb_ge in Q2, Q3.
        assert (Q : (tolower x <? tolower z) = true) by (apply Z.ltb_lt; lia).
        rewrite Q. reflexivity.
    + destruct (tolower y <? tolower x) eqn:Q1'; [discriminate|].
      apply Z.ltb_ge in Q1, Q1'.
      destruct (tolower y <? tolower z) eqn:Q2.
      * apply Z.ltb_lt in Q2.
        assert (Q : (tolower x <? tolower z) = true) by (apply Z.ltb_lt; lia).
        rewrite Q. reflexivity.
      * destruct (tolower z <? tolower y) eqn:Q3; [discriminate|].
        apply Z.ltb_ge in Q2, Q3.
        assert (Qa : (tolower x <? tolower z) = false) by (apply Z.ltb_ge; lia).
        assert (Qb : (tolower z <? tolower x) = false) by (apply Z.ltb_ge; lia).
        rewrite Qa, Qb. apply (IH b c); assumption.
Qed.

Lemma less_equiv (a : string) : forall b,
  (CaseInsensitiveLess tolower a b = false
   /\ CaseInsensitiveLess tolower b a = false)
  <-> lowered tolower a = lowered tolower b.
Proof.
  unfold lowered.
  induction a as [|x a IH]; intros b; destruct b as [|y b]; simpl.
  - tauto.
  - split; [intros [H _]; discriminate|discriminate].
  - split; [intros [_ H]; discriminate|discriminate].
  - destruct (tolower x <? tolower y) eqn:Q1.
    + apply Z.ltb_lt in Q1. split; [intros [H _]; discriminate|].
      intros H. inversion H. lia.
    + destruct (tolower y <? tolower x) eqn:Q2.
      * apply Z.ltb_lt in Q2. split; [intros [_ H]; discriminate|].
        intros H. inversion H. lia.
      * apply Z.ltb_ge in Q1, Q2. rewrite IH. split.
        -- intros H. f_equal; [lia|exact H].
        -- intros H. inversion H. reflexivity.
Qed.

(** X18.  Whatever [tolower] is, [CaseInsensitiveLess] is a strict weak
    order on strings: no string is below itself, the relation is
    transitive, and two strings are below neither each other exactly when
    they have the same length and the same characters after [tolower], so
    a map ordered by it holds one entry per spelling of a name up to
    letter case. *)
Theorem CaseInsensitiveLess_strict_weak_order :
  (forall s, CaseInsensitiveLess tolower s s = false)
  /\ (forall a b c,
        CaseInsensitiveLess tolower a b = true ->
        CaseInsensitiveLess tolower b c = true ->
        CaseInsensitiveLess tolower a c = true)
  /\ (forall a b,
        CaseInsensitiveLess tolower a b = true ->
        CaseInsensitiveLess tolower b a = false)
  /\ (forall a b,
        (CaseInsensitiveLess tolower a b = false
         /\ CaseInsensitiveLess tolower b a = false)
        <-> lowered tolower a = lowered tolower b).
Proof.
  split; [exact less_irrefl|]. split; [exact less_trans|].
  split; [|exact less_equiv].
  intros a b Hab.
  destruct (CaseInsensitiveLess tolower b a) eqn:Hba; [|reflexivity].
  pose proof (less_trans a b a Hab Hba) as Q. rewrite less_irrefl in Q.
  discriminate.
Qed.

End Order.

Section Assign.

Variable stoi : string -> option Z.
Variable to_string : Z -> string.

Local Open Scope string_scope.

Lemma assign_spin (o : Option) (v : string) :
  type o = "spin" ->
  assign stoi o v
  = if String.eqb v String.EmptyString then Done (o, None)
    else match stoi v with
         | None => Throws
         | Some n =>
             if (n <? min o) || (n >? max o) then Done (o, None)
             else Done (with_currentValue o v, on_change o)
         end.
Proof.
  intros T. unfold assign. rewrite T. cbn [String.eqb Ascii.eqb Bool.eqb].
  cbn [negb andb].
  destruct (String.eqb v String.EmptyString); reflexivity.
Qed.

Lemma assign_check (o : Option) (v : string) :
  type o = "check" ->
  assign stoi o v
  = if String.eqb v "true" || String.eqb v "false"
    then Done (with_currentValue o v, on_change o) else Done (o, None).
Proof.
  intros T. unfold assign. rewrite T. cbn [String.eqb Ascii.eqb Bool.eqb].
  cbn [negb andb].
  destruct (String.eqb v String.EmptyString) eqn:E.
  - apply String.eqb_eq in E. subst v. reflexivity.
  - destruct (String.eqb v "true"), (String.eqb v "false"); reflexivity.
Qed.

Lemma taken_spec (o : Option) (v : string) :
  taken stoi o v = true
  <-> v <> String.EmptyString
      /\ exists n, stoi v = Some n /\ min o <= n <= max o.
Proof.
  unfold taken. rewrite andb_true_iff, negb_true_iff, String.eqb_neq.
  destruct (stoi v) as [n|].
  - rewrite andb_true_iff, !Z.leb_le. split.
    + intros (H1 & H2). split; [exact H1|]. exists n. split; [reflexivity|lia].
    + intros (H1 & m & E & H2). inversion E; subst. split; [exact H1|lia].
  - split; [intros (_ & H); discriminate|].
    intros (_ & m & E & _). discriminate.
Qed.

Lemma assign_spin_step (o : Option) (v : string) :
  type o = "spin" ->
  v = String.EmptyString \/ stoi v <> None ->
  assign stoi o v
  = Done (if taken stoi o v then (with_currentValue o v, on_change o)
          else (o, None)).
Proof.
  intros T Hv. rewrite (assign_spin o v T). unfold taken.
  destruct (String.eqb v String.EmptyString) eqn:E; [reflexivity|].
  apply String.eqb_neq in E. destruct Hv as [Hv|Hv]; [congruence|].
  destruct (stoi v) as [n|]; [|congruence]. cbn [negb andb].
  destruct (n <? min o) eqn:Q1.
  - apply Z.ltb_lt in Q1.
    assert (Q : (min o <=? n) = false) by (apply Z.leb_gt; lia).
    rewrite Q. reflexivity.
  - apply Z.ltb_ge in Q1.
    assert (Q : (min o <=? n) = true) by (apply Z.leb_le; lia).
    rewrite Q. cbn [orb andb].
    destruct (n >? max o) eqn:Q2.
    + rewrite Z.gtb_ltb in Q2. apply Z.ltb_lt in Q2.
      assert (Q' : (n <=? max o) = false) by (apply Z.leb_gt; lia).
      rewrite Q'. reflexivity.
    + rewrite Z.gtb_ltb in Q2. apply Z.ltb_ge in Q2.
      assert (Q' : (n <=? max o) = true) by (apply Z.leb_le; lia).
      rewrite Q'. reflexivity.
Qed.

Lemma last_In (l : list string) (d : string) : l <> [] -> In (last l d) l.
Proof.
  induction l as [|x l IH]; [congruence|]. intros _.
  destruct l as [|y l]; [left; reflexivity|].
  right. apply IH. discriminate.
Qed.

Lemma spin_sequence (vs : list string) : forall (o : Option),
  type o = "spin" ->
  Forall (fun t => t = String.EmptyString \/ stoi t <> None) vs ->
  exists o',
    assign_each stoi o vs
    = Done (o', match on_change o with
                | Some g => map (fun _ => g) (filter (taken stoi o) vs)
                | None => []
                end)
    /\ currentValue o' = last (filter (taken stoi o) vs) (currentValue o)
    /\ type o' = "spin" /\ min o' = min o /\ max o' = max o
    /\ on_change o' = on_change o.
Proof.
  induction vs as [|v vs IH]; intros o T F.
  - exists o. simpl. destruct (on_change o); repeat split; auto.
  - inversion F as [|? ? Hv Hvs]; subst.
    cbn [assign_each]. rewrite (assign_spin_step o v T Hv).
    destruct (taken stoi o v) eqn:Tk.
    + destruct (IH (with_currentValue o v) T Hvs)
        as (o' & E & Cv & T' & Mn & Mx & Oc).
      cbn [min max on_change currentValue with_currentValue] in *.
      assert (Tk' : forall t, taken stoi (with_currentValue o v) t
                              = taken stoi o t) by reflexivity.
      rewrite (filter_ext _ _ Tk') in E, Cv.
      rewrite E. exists o'. cbn [filter]. rewrite Tk.
      split; [destruct (on_change o); reflexivity|].
      split.
      { rewrite Cv. cbn [last].
        destruct (filter (taken stoi o) vs) as [|x l] eqn:Fl; [reflexivity|].
        clear. revert x. induction l as [|y l IHl]; intros x; simpl;
          [reflexivity|]. destruct l; [reflexivity|]. apply (IHl y). }
      auto.
    + destruct (IH o T Hvs) as (o' & E & Cv & T' & Mn & Mx & Oc).
      rewrite E. exists o'. cbn [filter]. rewrite Tk.
      split; [reflexivity|]. auto.
Qed.

(** X19.  A spin option built with a default inside its bounds, under any
    sequence of assignments whose non-empty texts [stoi] can read: every
    assignment returns; the option then holds the last text that was not
    empty and read as a number within the bounds (the default if there was
    none), so [operator int()] returns a value within the bounds; and the
    'on change' action ran once for each such text and for no other.  A
    non-empty text that [stoi] cannot read makes the assignment throw. *)
Theorem spin_option_assignments (v minv maxv : Z) (f : option Fn) (size : Z)
    (vs : list string) :
  let o := Option_spin to_string v minv maxv f size in
  stoi (to_string v) = Some v ->
  minv <= v <= maxv ->
  Forall (fun t => t = String.EmptyString \/ stoi t <> None) vs ->
  (exists o' n,
     assign_each stoi o vs
     = Done (o', match f with
                 | Some g => map (fun _ => g) (filter (taken stoi o) vs)
                 | None => []
                 end)
     /\ currentValue o' = last (filter (taken stoi o) vs) (to_string v)
     /\ to_int stoi o' = Done n
     /\ minv <= n <= maxv)
  /\ (forall t, t <> String.EmptyString -> stoi t = None ->
                assign stoi o t = Throws).
Proof.
  intros o Hrt Hv F.
  split.
  - destruct (spin_sequence vs o eq_refl F) as (o' & E & Cv & T & Mn & Mx & Oc).
    assert (Hl : exists n, stoi (currentValue o') = Some n
                           /\ minv <= n <= maxv).
    { rewrite Cv.
      destruct (filter (taken stoi o) vs) as [|x l] eqn:Fl.
      - simpl. exists v. auto.
      - assert (Hin : In (last (x :: l) (to_string v))
                         (filter (taken stoi o) vs)).
        { rewrite Fl. apply last_In. discriminate. }
        apply filter_In in Hin. destruct Hin as [_ Tk].
        apply taken_spec in Tk. destruct Tk as (_ & n & En & Hn).
        exists n. split; [exact En|exact Hn]. }
    destruct Hl as (n & En & Hn).
    exists o', n. split; [exact E|]. split; [exact Cv|].
    split; [|exact Hn].
    unfold to_int. rewrite T. cbn [String.eqb Ascii.eqb Bool.eqb].
    rewrite En. reflexivity.
  - intros t Ht Hs. rewrite (assign_spin o t eq_refl).
    apply String.eqb_neq in Ht. rewrite Ht, Hs. reflexivity.
Qed.

Lemma check_sequence (vs : list string) : forall (o : Option),
  type o = "check" ->
  currentValue o = "true" \/ currentValue o = "false" ->
  exists o' fs,
    assign_each stoi o vs = Done (o', fs)
    /\ type o' = "check"
    /\ (currentValue o' = "true" \/ currentValue o' = "false").
Proof.
  induction vs as [|v vs IH]; intros o T Hc.
  - exists o, []. auto.
  - cbn [assign_each]. rewrite (assign_check o v T).
    destruct (String.eqb v "true" || String.eqb v "false") eqn:Q.
    + destruct (IH (with_currentValue o v) T) as (o' & fs & E & T' & Hc').
      { cbn [currentValue with_currentValue].
        apply orb_true_iff in Q. destruct Q as [Q|Q];
          apply String.eqb_eq in Q; auto. }
      rewrite E. eexists _, _. split; [reflexivity|]. auto.
    + destruct (IH o T Hc) as (o' & fs & E & T' & Hc').
      rewrite E. eexists _, _. split; [reflexivity|]. auto.
Qed.

(** X20.  A check option never reaches [stoi]: every assignment to it
    returns, texts other than [true] and [false] are dropped, and
    [operator int()] returns 0 or 1 after any sequence of assignments. *)
Theorem check_option_assignments (b : bool) (f : option Fn) (size : Z)
    (vs : list string) :
  exists o' fs,
    assign_each stoi (Option_check b f size) vs = Done (o', fs)
    /\ (to_int stoi o' = Done 0 \/ to_int stoi o' = Done 1)
    /\ (forall t, t <> "true" -> t <> "false" ->
          assign stoi o' t = Done (o', None)).
Proof.
  destruct (check_sequence vs (Option_check b f size) eq_refl)
    as (o' & fs & E & T & Hc).
  { cbn [currentValue Option_check]. destruct b; auto. }
  exists o', fs. split; [exact E|]. split.
  - unfold to_int. rewrite T. cbn [String.eqb Ascii.eqb Bool.eqb].
    destruct Hc as [-> | ->]; [right|left]; reflexivity.
  - intros t H1 H2. rewrite (assign_check o' t T).
    apply String.eqb_neq in H1, H2. rewrite H1, H2. reflexivity.
Qed.

End Assign.

(** ** Listing the options *)

Section Listing.

Variable to_string : Z -> string.

Lemma find_idx_Some (om : OptionsMap) (i : Z) (p : string * Option) :
  find_idx om i = Some p -> In p om /\ idx (snd p) = i.
Proof.
  induction om as [|q rest IH]; simpl; [discriminate|].
  destruct (idx (snd q) =? i) eqn:E.
  - intros H. inversion H; subst. apply Z.eqb_eq in E. auto.
  - intros H. destruct (IH H). auto.
Qed.

Lemma find_idx_None (om : OptionsMap) (i : Z) :
  find_idx om i = None <-> ~ In i (indices om).
Proof.
  induction om as [|q rest IH]; simpl; [tauto|].
  destruct (idx (snd q) =? i) eqn:E.
  - apply Z.eqb_eq in E. split; [discriminate|]. intros H. tauto.
  - apply Z.eqb_neq in E. rewrite IH. tauto.
Qed.

(** A pass that finds no entry with the index it looks for reads through
    [om.end()]. *)
Lemma print_loop_fault (om : OptionsMap) (n : nat) : forall i os k,
  i <= k < i + Z.of_nat n ->
  ~ In k (indices om) ->
  print_loop to_string om n i os = OutOfBounds.
Proof.
  induction n as [|n IH]; intros i os k Hk Hn; [lia|].
  cbn [print_loop].
  destruct (find_idx om i) as [p|] eqn:F; [|reflexivity].
  apply (IH (i + 1) _ k); [|exact Hn].
  assert (k <> i).
  { intros ->. apply find_idx_Some in F as [Hin Hi].
    apply Hn. unfold indices. apply in_map_iff. exists p.
    split; assumption. }
  lia.
Qed.

Lemma print_loop_run (om : OptionsMap) (n : nat) : forall i os,
  (forall k, i <= k < i + Z.of_nat n -> In k (indices om)) ->
  exists ps,
    print_loop to_string om n i os = Ret (written to_string os ps)
    /\ indices ps = map (fun j => i + Z.of_nat j) (seq 0 n)
    /\ incl ps om.
Proof.
  induction n as [|n IH]; intros i os H.
  - exists []. repeat split. intros x [].
  - cbn [print_loop].
    destruct (find_idx om i) as [p|] eqn:F.
    + destruct (find_idx_Some _ _ _ F) as [Hin Hi].
      destruct (IH (i + 1) (String.append os (option_line to_string p)))
        as (ps & E & I & Inc).
      { intros k Hk. apply H. lia. }
      exists (p :: ps). split; [exact E|]. split.
      * cbn [indices map seq]. rewrite Hi. f_equal; [lia|].
        fold (indices ps). rewrite I. rewrite <- seq_shift, map_map.
        apply map_ext. intros j. lia.
      * intros x [<-|Hx]; [exact Hin|apply Inc; exact Hx].
    + apply find_idx_None in F. exfalso. apply F. apply H. lia.
Qed.

Lemma NoDup_indices (ps : OptionsMap) : NoDup (indices ps) -> NoDup ps.
Proof. unfold indices. apply NoDup_map_inv. Qed.

Lemma NoDup_count (n : nat) (i : Z) :
  NoDup (map (fun j => i + Z.of_nat j) (seq 0 n)).
Proof.
  apply Finite.Injective_map_NoDup; [|apply seq_NoDup].
  intros a b H. lia.
Qed.

(** X27.  [operator<<] on a map whose [idx] fields are the numbers from 0
    to [size() - 1] in some order writes one line for every entry of the
    map, the lines ordered by [idx]; on a map in which one of these numbers
    is no entry's [idx] it reads through [om.end()]. *)
Theorem operator_out_by_idx (os : string) (om : OptionsMap) :
  (Permutation (indices om) (map Z.of_nat (seq 0 (length om))) ->
   exists ps,
     operator_out to_string os om = Ret (written to_string os ps)
     /\ Permutation ps om
     /\ indices ps = map Z.of_nat (seq 0 (length om)))
  /\ ((exists k, 0 <= k < Z.of_nat (length om) /\ ~ In k (indices om)) ->
      operator_out to_string os om = OutOfBounds).
Proof.
  unfold operator_out. split.
  - intros P.
    destruct (print_loop_run om (length om) 0 os) as (ps & E & I & Inc).
    { intros k Hk. eapply Permutation_in; [apply Permutation_sym; exact P|].
      apply in_map_iff. exists (Z.to_nat k). split; [lia|].
      apply in_seq. lia. }
    exists ps. split; [exact E|].
    assert (L : length ps = length om).
    { pose proof (f_equal (@length Z) I) as Q. unfold indices in Q.
      rewrite !length_map, length_seq in Q. exact Q. }
    split; [|rewrite I; apply map_ext; intros j; lia].
    apply NoDup_Permutation_bis; [|lia|exact Inc].
    apply NoDup_indices. rewrite I. apply NoDup_count.
  - intros (k & Hk & Hn).
    apply (print_loop_fault om (length om) 0 os k); [lia|exact Hn].
Qed.

End Listing.

(** ** An instance *)

Local Open Scope string_scope.

Lemma spin_option_assignments_witness :
  exists o' n,
    assign_each toy_stoi (Option_spin toy_to_string 5 4 8 (Some on_threads) 16)
      ["8"; "64"; "4"; "1"]
    = Done (o', [on_threads; on_threads])
    /\ currentValue o' = "4"
    /\ to_int toy_stoi o' = Done n
    /\ 4 <= n <= 8.
Proof.
  destruct (spin_option_assignments toy_stoi toy_to_string 5 4 8
              (Some on_threads) 16 ["8"; "64"; "4"; "1"])
    as ((o' & n & E & C & T & R) & _).
  - reflexivity.
  - lia.
  - repeat (constructor; [right; discriminate|]). constructor.
  - exists o', n. split; [exact E|]. split; [exact C|].
    split; [exact T|exact R].
Defined.

(** Three entries in the order of their names, numbered in the order they
    were made. *)
Lemma operator_out_by_idx_witness :
  exists ps,
    operator_out toy_to_string "id name"
      [("Clear Hash", Option_button (Some on_clear_hash) 2);
       ("Max Threads per Split Point",
        Option_spin toy_to_string 5 4 8 (Some on_threads) 0);
       ("Ponder", Option_check true None 1)]
    = Ret (written toy_to_string "id name" ps)
    /\ Permutation ps
         [("Clear Hash", Option_button (Some on_clear_hash) 2);
          ("Max Threads per Split Point",
           Option_spin toy_to_string 5 4 8 (Some on_threads) 0);
          ("Ponder", Option_check true None 1)]
    /\ indices ps = [0; 1; 2].
Proof.
  apply (operator_out_by_idx toy_to_string "id name"
           [("Clear Hash", Option_button (Some on_clear_hash) 2);
            ("Max Threads per Split Point",
             Option_spin toy_to_string 5 4 8 (Some on_threads) 0);
            ("Ponder", Option_check true None 1)]).
  apply (Permutation_cons_app [0; 1] [] 2 (Permutation_refl [0; 1])).
Defined.

End OptionFacts.

(** * The material table *)

Module MaterialFacts.

Import Material MaterialSpec ArrayFacts.

Section Facts.

Context {B : Board}.

(** ** [game_phase] *)

Lemma quot_interpolation (n : Z) :
  EndgameLimit < n < MidgameLimit ->
  Z.quot ((n - EndgameLimit) * 128) (MidgameLimit - EndgameLimit)
  = (n - EndgameLimit) * 128 / 11583.
Proof.
  unfold EndgameLimit, MidgameLimit. intros H.
  rewrite Z.quot_div_nonneg by lia. reflexivity.
Qed.

(** X22.  [game_phase] never decreases when the non-pawn material grows, and
    stays between [PHASE_ENDGAME] and [PHASE_MIDGAME]; strictly between the
    two limits of the file it is a number from 0 to 127. *)
Theorem game_phase_monotone (p q : Position) :
  PHASE_ENDGAME <= 0 ->
  127 <= PHASE_MIDGAME ->
  non_pawn_material p WHITE + non_pawn_material p BLACK
  <= non_pawn_material q WHITE + non_pawn_material q BLACK ->
  game_phase p <= game_phase q
  /\ PHASE_ENDGAME <= game_phase p <= PHASE_MIDGAME
  /\ (EndgameLimit
      < non_pawn_material p WHITE + non_pawn_material p BLACK
      < MidgameLimit ->
      0 <= game_phase p <= 127).
Proof.
  intros He Hm Hle. unfold game_phase.
  set (n := non_pawn_material p WHITE + non_pawn_material p BLACK) in *.
  set (m := non_pawn_material q WHITE + non_pawn_material q BLACK) in *.
  assert (R : forall x, EndgameLimit < x < MidgameLimit ->
                0 <= (x - EndgameLimit) * 128 / 11583 <= 127).
  { intros x Hx. unfold EndgameLimit, MidgameLimit in *. split.
    - apply Z.div_pos; lia.
    - apply Z.lt_succ_r. apply Z.div_lt_upper_bound; lia. }
  destruct (MidgameLimit <=? n) eqn:A; [apply Z.leb_le in A|apply Z.leb_gt in A].
  - assert (A' : (MidgameLimit <=? m) = true) by (apply Z.leb_le; lia).
    rewrite A'. repeat split; try lia.
  - destruct (n <=? EndgameLimit) eqn:E;
      [apply Z.leb_le in E|apply Z.leb_gt in E].
    + destruct (MidgameLimit <=? m) eqn:A';
        [repeat split; lia|apply Z.leb_gt in A'].
      destruct (m <=? EndgameLimit) eqn:E';
        [repeat split; lia|apply Z.leb_gt in E'].
      rewrite quot_interpolation by lia.
      pose proof (R m ltac:(lia)). repeat split; lia.
    + rewrite quot_interpolation by lia.
      pose proof (R n ltac:(lia)) as Rn.
      destruct (MidgameLimit <=? m) eqn:A';
        [repeat split; lia|apply Z.leb_gt in A'].
      assert (E' : (m <=? EndgameLimit) = false) by (apply Z.leb_gt; lia).
      rewrite E'. rewrite quot_interpolation by lia.
      repeat split; try lia.
      apply Z.div_le_mono; lia.
Qed.

(** ** [imbalance] *)

Lemma inner_step (us them : list Z) (pt1 : Z) (n : nat) (pt2 v : Z)
    (rs ro : list Z) (qs cu qo ct : Z) :
  read QuadraticCoefficientsSameColor pt1 = Ret rs ->
  read rs pt2 = Ret qs ->
  read us pt2 = Ret cu ->
  read QuadraticCoefficientsOppositeColor pt1 = Ret ro ->
  read ro pt2 = Ret qo ->
  read them pt2 = Ret ct ->
  imbalance_inner us them pt1 (S n) pt2 v
  = imbalance_inner us them pt1 n (pt2 + 1) (v + (qs * cu + qo * ct)).
Proof.
  intros H1 H2 H3 H4 H5 H6. cbn [imbalance_inner].
  rewrite H1. cbn [bind]. rewrite H2. cbn [bind]. rewrite H3. cbn [bind].
  rewrite H4. cbn [bind]. rewrite H5. cbn [bind]. rewrite H6. reflexivity.
Qed.

(** A pass of the outer loop adds [pc * v] also when it is skipped for
    [pc = 0]. *)
Lemma outer_step (us them : list Z) (n : nat) (pt1 value pc l V : Z) :
  read us pt1 = Ret pc ->
  read LinearCoefficients pt1 = Ret l ->
  imbalance_inner us them pt1 (Z.to_nat (pt1 + 1 - NO_PIECE_TYPE))
    NO_PIECE_TYPE l = Ret V ->
  imbalance_outer us them (S n) pt1 value
  = imbalance_outer us them n (pt1 + 1) (value + pc * V).
Proof.
  intros H1 H2 H3. cbn [imbalance_outer]. rewrite H1. cbn [bind].
  destruct (pc =? 0) eqn:E.
  - apply Z.eqb_eq in E. subst pc. f_equal. lia.
  - rewrite H2. cbn [bind]. rewrite H3. reflexivity.
Qed.

Ltac passes :=
  match goal with
  | |- context [Z.to_nat ?e] =>
      let n := eval compute in (Z.to_nat e) in change (Z.to_nat e) with n
  end.

Ltac inner_run :=
  passes; repeat (erewrite inner_step; [|reflexivity..]); reflexivity.

Lemma imbalance_outer_closed (a0 a1 a2 a3 a4 a5 b0 b1 b2 b3 b4 b5 : Z)
    (ta tb : list Z) (v0 : Z) :
  let us := a0 :: a1 :: a2 :: a3 :: a4 :: a5 :: ta in
  let them := b0 :: b1 :: b2 :: b3 :: b4 :: b5 :: tb in
  imbalance_outer us them 6 0 v0
  = Ret (v0 + (imbalance_formula us them
               - (if a4 >? 0 then 0 - (554 * (a4 - 1) + 320 * a5) else 0))).
Proof.
  intros us them.
  do 6 (erewrite outer_step; [|reflexivity|reflexivity|inner_run]).
  cbn [imbalance_outer]. f_equal. unfold imbalance_formula, us, them.
  cbn [nth]. ring.
Qed.

(** Whatever the counts, [imbalance] reads inside its tables and returns
    the second-degree polynomial of the counts. *)
Lemma imbalance_closed (Us : Color)
    (a0 a1 a2 a3 a4 a5 b0 b1 b2 b3 b4 b5 : Z) :
  let w := row [a0; a1; a2; a3; a4; a5] in
  let b := row [b0; b1; b2; b3; b4; b5] in
  imbalance Us (w, b)
  = Ret (imbalance_formula (at_color (w, b) Us) (at_color (w, b) (Them Us))).
Proof.
  intros w b. unfold imbalance.
  destruct Us; cbn [at_color Them fst snd].
  - change (read w ROOK) with (Ret a4). cbn [bind].
    change (read w QUEEN) with (Ret a5).
    assert (E : forall v0,
               imbalance_outer w b (Z.to_nat (QUEEN + 1 - NO_PIECE_TYPE))
                 NO_PIECE_TYPE v0
               = Ret (v0 + (imbalance_formula w b
                            - (if a4 >? 0
                               then 0 - (554 * (a4 - 1) + 320 * a5) else 0))))
      by (intros v0;
          apply (imbalance_outer_closed a0 a1 a2 a3 a4 a5 b0 b1 b2 b3 b4 b5)).
    destruct (a4 >? 0); cbn [bind]; rewrite E; f_equal;
      unfold RedundantRook, RedundantQueen; lia.
  - change (read b ROOK) with (Ret b4). cbn [bind].
    change (read b QUEEN) with (Ret b5).
    assert (E : forall v0,
               imbalance_outer b w (Z.to_nat (QUEEN + 1 - NO_PIECE_TYPE))
                 NO_PIECE_TYPE v0
               = Ret (v0 + (imbalance_formula b w
                            - (if b4 >? 0
                               then 0 - (554 * (b4 - 1) + 320 * b5) else 0))))
      by (intros v0;
          apply (imbalance_outer_closed b0 b1 b2 b3 b4 b5 a0 a1 a2 a3 a4 a5)).
    destruct (b4 >? 0); cbn [bind]; rewrite E; f_equal;
      unfold RedundantRook, RedundantQueen; lia.
Qed.

Lemma mul_bounds (a v U lo hi : Z) :
  0 <= a <= U -> lo <= v <= hi -> lo <= 0 -> 0 <= hi ->
  U * lo <= a * v <= U * hi.
Proof. intros. nia. Qed.

Lemma imbalance_formula_bounds (a0 a1 a2 a3 a4 a5 b0 b1 b2 b3 b4 b5 : Z)
    (ta tb : list Z) :
  0 <= a0 <= 1 -> 0 <= a1 <= 16 -> 0 <= a2 <= 16 -> 0 <= a3 <= 16 ->
  0 <= a4 <= 16 -> 0 <= a5 <= 16 ->
  0 <= b0 <= 1 -> 0 <= b1 <= 16 -> 0 <= b2 <= 16 -> 0 <= b3 <= 16 ->
  0 <= b4 <= 16 -> 0 <= b5 <= 16 ->
  -50486 <= imbalance_formula (a0 :: a1 :: a2 :: a3 :: a4 :: a5 :: ta)
              (b0 :: b1 :: b2 :: b3 :: b4 :: b5 :: tb) <= 423521.
Proof.
  intros. unfold imbalance_formula. cbn [nth].
  assert (R : -(554 * 15 + 320 * 16)
              <= (if a4 >? 0 then 0 - (554 * (a4 - 1) + 320 * a5) else 0)
              <= 0)
    by (destruct (a4 >? 0) eqn:E; [apply Z.gtb_lt in E|]; lia).
  match goal with
  | |- _ <= _ + a0 * ?v0 + a1 * ?v1 + a2 * ?v2 + a3 * ?v3 + a4 * ?v4
            + a5 * ?v5 <= _ =>
      pose proof (mul_bounds a0 v0 1 0 1665
                    ltac:(lia) ltac:(lia) ltac:(lia) ltac:(lia));
      pose proof (mul_bounds a1 v1 16 (-162) 602
                    ltac:(lia) ltac:(lia) ltac:(lia) ltac:(lia));
      pose proof (mul_bounds a2 v2 16 (-1236) 4857
                    ltac:(lia) ltac:(lia) ltac:(lia) ltac:(lia));
      pose proof (mul_bounds a3 v3 16 (-190) 4034
                    ltac:(lia) ltac:(lia) ltac:(lia) ltac:(lia));
      pose proof (mul_bounds a4 v4 16 (-306) 5051
                    ltac:(lia) ltac:(lia) ltac:(lia) ltac:(lia));
      pose proof (mul_bounds a5 v5 16 (-422) 11822
                    ltac:(lia) ltac:(lia) ltac:(lia) ltac:(lia))
  end.
  lia.
Qed.

(** ** The blocks of [probe] *)

Lemma generic_scaling_shape (p : Position) (e : Entry) :
  exists s, generic_scaling p e = with_scalingFunction e s.
Proof.
  unfold generic_scaling, set_scaling.
  destruct (is_KBPsKs WHITE p), (is_KBPsKs BLACK p), (is_KQKRPs WHITE p),
    (is_KQKRPs BLACK p),
    (non_pawn_material p WHITE + non_pawn_material p BLACK =? VALUE_ZERO),
    (count p PAWN BLACK =? 0), (count p PAWN WHITE =? 0),
    ((count p PAWN WHITE =? 1) && (count p PAWN BLACK =? 1));
    try (eexists; reflexivity);
    exists (scalingFunction e); destruct e; reflexivity.
Qed.

Lemma NoPawnsSF_read (c : Z) :
  0 <= c ->
  exists f, read NoPawnsSF (Z.min c 2) = Ret f /\ In f [6; 12; 32].
Proof.
  intros H.
  assert (C : Z.min c 2 = 0 \/ Z.min c 2 = 1 \/ Z.min c 2 = 2) by lia.
  destruct C as [ -> | [ -> | -> ] ]; eexists; (split; [reflexivity|]); simpl; auto.
Qed.

Lemma no_pawns_factor_shape (p : Position) (e : Entry) :
  0 <= count p BISHOP WHITE -> 0 <= count p BISHOP BLACK ->
  exists f, no_pawns_factor p e = Ret (with_factor e f).
Proof.
  intros Hw Hb. unfold no_pawns_factor.
  destruct (NoPawnsSF_read _ Hw) as (fw & Rw & _).
  destruct (NoPawnsSF_read _ Hb) as (fb & Rb & _).
  rewrite Rw, Rb.
  destruct ((count p PAWN WHITE =? 0)
            && (non_pawn_material p WHITE - non_pawn_material p BLACK
                <=? BishopValueMg)),
    ((non_pawn_material p WHITE =? non_pawn_material p BLACK)
     || (non_pawn_material p WHITE <? RookValueMg)),
    ((count p PAWN BLACK =? 0)
     && (non_pawn_material p BLACK - non_pawn_material p WHITE
         <=? BishopValueMg)),
    ((non_pawn_material p WHITE =? non_pawn_material p BLACK)
     || (non_pawn_material p BLACK <? RookValueMg));
    cbn [bind]; try (eexists; reflexivity);
    exists (factor e); destruct e; reflexivity.
Qed.

Lemma space_weight_shape (p : Position) (e : Entry) :
  exists s, space_weight p e = with_spaceWeight e s.
Proof.
  unfold space_weight.
  destruct (_ <=? _); [eexists; reflexivity|].
  exists (spaceWeight e). destruct e; reflexivity.
Qed.

Lemma material_imbalance_closed (p : Position) (e : Entry) :
  material_imbalance p e
  = Ret (with_value e
           (int16 (Z.quot
                     (imbalance_formula (fst (pieceCount_of p))
                        (snd (pieceCount_of p))
                      - imbalance_formula (snd (pieceCount_of p))
                          (fst (pieceCount_of p))) 16))).
Proof.
  unfold material_imbalance, pieceCount_of.
  rewrite !imbalance_closed. reflexivity.
Qed.

(** On a miss [probe] returns the slot of the key, holding an entry with
    that key. *)
Lemma probe_miss (p : Position) (t : Table) (eg : Endgames) :
  0 <= count p BISHOP WHITE -> 0 <= count p BISHOP BLACK ->
  key (t (index (material_key p))) <> material_key p ->
  exists e,
    probe p t eg
    = Ret (index (material_key p), store t (index (material_key p)) e)
    /\ key e = material_key p
    /\ gamePhase e = game_phase p.
Proof.
  intros Hw Hb Miss. unfold probe. apply Z.eqb_neq in Miss. rewrite Miss.
  set (e0 := {| key := material_key p; value := 0;
                factor := (uint8 SCALE_FACTOR_NORMAL, uint8 SCALE_FACTOR_NORMAL);
                evaluationFunction := None; scalingFunction := (None, None);
                spaceWeight := 0; gamePhase := game_phase p |}).
  assert (Sc : exists e,
             match endgames_scale eg (material_key p) with
             | Some sf =>
                 Ret (index (material_key p),
                      store t (index (material_key p))
                        (set_scaling e0 (color sf) (StoredScale sf)))
             | None =>
                 e <- no_pawns_factor p (generic_scaling p e0) ;;
                 e <- material_imbalance p (space_weight p e) ;;
                 Ret (index (material_key p),
                      store t (index (material_key p)) e)
             end
             = Ret (index (material_key p),
                    store t (index (material_key p)) e)
             /\ key e = material_key p /\ gamePhase e = game_phase p).
  { destruct (endgames_scale eg (material_key p)) as [sf|].
    - eexists. split; [reflexivity|]. split; reflexivity.
    - destruct (generic_scaling_shape p e0) as (s & ->).
      destruct (no_pawns_factor_shape p (with_scalingFunction e0 s) Hw Hb)
        as (f & ->).
      cbn [bind].
      destruct (space_weight_shape p
                  (with_factor (with_scalingFunction e0 s) f)) as (w & ->).
      rewrite material_imbalance_closed. cbn [bind].
      eexists. split; [reflexivity|]. split; reflexivity. }
  destruct (endgames_value eg (material_key p)) as [f|];
    [eexists; split; [reflexivity|split; reflexivity]|].
  destruct (is_KXK WHITE p);
    [eexists; split; [reflexivity|split; reflexivity]|].
  destruct (is_KXK BLACK p);
    [eexists; split; [reflexivity|split; reflexivity]|].
  destruct ((pieces p PAWN =? 0) && (pieces p ROOK =? 0)
            && (pieces p QUEEN =? 0)); [|exact Sc].
  destruct ((count p BISHOP WHITE + count p KNIGHT WHITE <=? 2)
            && (count p BISHOP BLACK + count p KNIGHT BLACK <=? 2));
    [eexists; split; [reflexivity|split; reflexivity]|exact Sc].
Qed.

Lemma probe_hit (p : Position) (t : Table) (eg : Endgames) :
  key (t (index (material_key p))) = material_key p ->
  probe p t eg = Ret (index (material_key p), t).
Proof.
  intros Hit. unfold probe. apply Z.eqb_eq in Hit. rewrite Hit. reflexivity.
Qed.

Lemma store_same (t : Table) (i : Z) (e : Entry) : store t i e i = e.
Proof. unfold store. rewrite Z.eqb_refl. reflexivity. Qed.

Lemma store_other (t : Table) (i j : Z) (e : Entry) :
  j <> i -> store t i e j = t j.
Proof. intros H. unfold store. apply Z.eqb_neq in H. rewrite H. reflexivity. Qed.

(** A call of [probe] returns the slot of the position's key; the slot
    holds an entry with that key, and no other slot has changed. *)
Lemma probe_returns (p : Position) (t : Table) (eg : Endgames) :
  (forall pt c, 0 <= count p pt c <= 16) ->
  exists t',
    probe p t eg = Ret (index (material_key p), t')
    /\ key (t' (index (material_key p))) = material_key p
    /\ (forall j, j <> index (material_key p) -> t' j = t j)
    /\ (key (t (index (material_key p))) = material_key p -> t' = t).
Proof.
  intros Hc.
  destruct (Z.eq_dec (key (t (index (material_key p)))) (material_key p))
    as [Hit|Miss].
  - exists t. rewrite (probe_hit p t eg Hit). auto.
  - destruct (probe_miss p t eg (proj1 (Hc BISHOP WHITE))
                (proj1 (Hc BISHOP BLACK)) Miss) as (e & P & K & _).
    exists (store t (index (material_key p)) e).
    split; [exact P|]. rewrite store_same.
    split; [exact K|]. split; [|contradiction].
    intros j Hj. apply store_other. exact Hj.
Qed.

(** X23.  [probe] as a cache, for positions with at most 16 pieces of a
    kind on a side.  The call returns the slot [entries[key]] of the
    position's material key; afterwards that slot holds an entry with this
    key and every other slot is as before; when the slot held the key
    already, the table is unchanged.  A later call for any position with
    the same key, whatever its [Endgames], returns the same slot and leaves
    the table as it is.  A later call for a position with another key that
    falls on the same slot returns the same pointer with the entry
    replaced: the pointer returned first now shows the other position's
    entry. *)
Theorem probe_caches (p : Position) (t : Table) (eg : Endgames) :
  (forall pt c, 0 <= count p pt c <= 16) ->
  exists t',
    probe p t eg = Ret (index (material_key p), t')
    /\ key (t' (index (material_key p))) = material_key p
    /\ (forall j, j <> index (material_key p) -> t' j = t j)
    /\ (key (t (index (material_key p))) = material_key p -> t' = t)
    /\ (forall q eg',
          material_key q = material_key p ->
          probe q t' eg' = Ret (index (material_key p), t'))
    /\ (forall q eg',
          index (material_key q) = index (material_key p) ->
          material_key q <> material_key p ->
          (forall pt c, 0 <= count q pt c <= 16) ->
          exists t'',
            probe q t' eg' = Ret (index (material_key p), t'')
            /\ key (t'' (index (material_key p))) = material_key q).
Proof.
  intros Hc.
  destruct (probe_returns p t eg Hc) as (t' & P & K & O & H).
  exists t'. split; [exact P|]. split; [exact K|]. split; [exact O|].
  split; [exact H|]. split.
  - intros q eg' E. rewrite <- E. apply probe_hit. rewrite E. exact K.
  - intros q eg' Ei Ek Hq.
    destruct (probe_returns q t' eg' Hq) as (t'' & P' & K' & _).
    exists t''. rewrite <- Ei. split; [exact P'|exact K'].
Qed.

(** ** The entry [probe] computes *)

Lemma set_scaling_colours (e : Entry) (c : Color) (f : ScaleFn) :
  scale_color f = c ->
  (forall c' g, at_color (scalingFunction e) c' = Some g ->
                scale_color g = c') ->
  forall c' g, at_color (scalingFunction (set_scaling e c f)) c' = Some g ->
               scale_color g = c'.
Proof.
  intros Hf H c' g. unfold set_scaling. cbn [scalingFunction with_scalingFunction].
  destruct c, c'; cbn [set_color at_color fst snd]; intros E;
    try (injection E as <-; exact Hf);
    [apply (H BLACK)|apply (H WHITE)]; exact E.
Qed.

Lemma generic_scaling_colours (p : Position) (e : Entry) :
  (forall c g, at_color (scalingFunction e) c = Some g -> scale_color g = c) ->
  forall c g, at_color (scalingFunction (generic_scaling p e)) c = Some g ->
              scale_color g = c.
Proof.
  intros H. unfold generic_scaling.
  repeat match goal with
         | |- context [if ?b then _ else _] => destruct b
         end;
    repeat (apply set_scaling_colours; [reflexivity|]); exact H.
Qed.

Lemma no_pawns_factor_values (p : Position) (e : Entry) :
  0 <= count p BISHOP WHITE -> 0 <= count p BISHOP BLACK ->
  exists f,
    no_pawns_factor p e = Ret (with_factor e f)
    /\ (forall c, at_color f c = at_color (factor e) c
                  \/ In (at_color f c) [0; 6; 12; 32])
    /\ (forall c, 1 <= count p PAWN c -> at_color f c = at_color (factor e) c).
Proof.
  intros Hw Hb. unfold no_pawns_factor.
  destruct (NoPawnsSF_read _ Hw) as (fw & Rw & Iw).
  destruct (NoPawnsSF_read _ Hb) as (fb & Rb & Ib).
  rewrite Rw, Rb.
  assert (Uw : In (uint8 fw) [6; 12; 32])
    by (destruct Iw as [<-|[<-|[<-|[]]]]; simpl; auto).
  assert (Ub : In (uint8 fb) [6; 12; 32])
    by (destruct Ib as [<-|[<-|[<-|[]]]]; simpl; auto).
  destruct (count p PAWN WHITE =? 0) eqn:Pw, (count p PAWN BLACK =? 0) eqn:Pb;
    cbn [andb];
    repeat match goal with
           | |- context [if ?b then _ else _] => destruct b
           end;
    cbn [bind factor with_factor];
    eexists; (split; [try reflexivity|]);
    try (instantiate (1 := factor e); destruct e; reflexivity);
    (split; [intros c|intros c Hc]); destruct c;
    cbn [at_color set_color fst snd factor with_factor];
    try (apply Z.eqb_eq in Pw); try (apply Z.eqb_eq in Pb);
    try lia; auto;
    try (right; change (uint8 0) with 0; simpl; tauto);
    try (right; right; exact Uw); try (right; right; exact Ub).
Qed.

Lemma factor_normal_or_reduced (f : Z * Z) (c : Color) (n : Z) :
  (at_color f c = at_color (n, n) c \/ In (at_color f c) [0; 6; 12; 32]) ->
  at_color f c = n \/ In (at_color f c) [0; 6; 12; 32].
Proof. destruct c; cbn [at_color fst snd]; tauto. Qed.

(** X26.  The entry [probe] computes on a miss, for a position with at most
    16 pieces of a kind on a side.  It depends on the position and on
    [Endgames] only, not on what the slot or the table held before; it
    carries the position's key and game phase; a scaling function is filed
    under the colour it was built for; each factor is the normal one or one
    of 0, 6, 12 and 32, and the factor of a side that has a pawn is the
    normal one; with a specialised evaluation function the entry has value
    0, space weight 0, no scaling function and both factors normal. *)
Theorem probe_entry_shape (p : Position) (t : Table) (eg : Endgames) :
  (forall pt c, 0 <= count p pt c <= 16) ->
  key (t (index (material_key p))) <> material_key p ->
  exists r,
    probe p t eg = Ret r
    /\ (forall t2, key (t2 (index (material_key p))) <> material_key p ->
          exists r2, probe p t2 eg = Ret r2 /\ entry_at r2 = entry_at r)
    /\ key (entry_at r) = material_key p
    /\ gamePhase (entry_at r) = game_phase p
    /\ (forall c g, at_color (scalingFunction (entry_at r)) c = Some g ->
                    scale_color g = c)
    /\ (forall c, at_color (factor (entry_at r)) c = uint8 SCALE_FACTOR_NORMAL
                  \/ In (at_color (factor (entry_at r)) c) [0; 6; 12; 32])
    /\ (forall c, 1 <= count p PAWN c ->
                  at_color (factor (entry_at r)) c = uint8 SCALE_FACTOR_NORMAL)
    /\ (evaluationFunction (entry_at r) <> None ->
        value (entry_at r) = 0 /\ spaceWeight (entry_at r) = 0
        /\ scalingFunction (entry_at r) = (None, None)
        /\ factor (entry_at r)
           = (uint8 SCALE_FACTOR_NORMAL, uint8 SCALE_FACTOR_NORMAL)).
Proof.
  intros Hc Miss.
  set (i := index (material_key p)).
  set (e0 := {| key := material_key p; value := 0;
                factor := (uint8 SCALE_FACTOR_NORMAL, uint8 SCALE_FACTOR_NORMAL);
                evaluationFunction := None; scalingFunction := (None, None);
                spaceWeight := 0; gamePhase := game_phase p |}).
  (* the entry, as a function of the position and of [Endgames] *)
  assert (Sh : exists e,
             (forall t', key (t' i) <> material_key p ->
                probe p t' eg = Ret (i, store t' i e))
             /\ key e = material_key p
             /\ gamePhase e = game_phase p
             /\ (forall c g, at_color (scalingFunction e) c = Some g ->
                             scale_color g = c)
             /\ (forall c, at_color (factor e) c = uint8 SCALE_FACTOR_NORMAL
                           \/ In (at_color (factor e) c) [0; 6; 12; 32])
             /\ (forall c, 1 <= count p PAWN c ->
                           at_color (factor e) c = uint8 SCALE_FACTOR_NORMAL)
             /\ (evaluationFunction e <> None ->
                 value e = 0 /\ spaceWeight e = 0
                 /\ scalingFunction e = (None, None)
                 /\ factor e
                    = (uint8 SCALE_FACTOR_NORMAL, uint8 SCALE_FACTOR_NORMAL))).
  { assert (Early : forall v,
               (forall c g,
                  at_color (scalingFunction (with_evaluationFunction e0 v)) c
                  = Some g -> scale_color g = c)
               /\ (forall c,
                     at_color (factor (with_evaluationFunction e0 v)) c
                     = uint8 SCALE_FACTOR_NORMAL
                     \/ In (at_color (factor (with_evaluationFunction e0 v)) c)
                          [0; 6; 12; 32])
               /\ (forall c, 1 <= count p PAWN c ->
                     at_color (factor (with_evaluationFunction e0 v)) c
                     = uint8 SCALE_FACTOR_NORMAL)).
    { intros v. split; [intros [] g E; discriminate E|].
      split; intros []; cbn; auto. }
    assert (Sc : exists e,
               (forall t', 
                  match endgames_scale eg (material_key p) with
                  | Some sf =>
                      Ret (i, store t' i
                                (set_scaling e0 (color sf) (StoredScale sf)))
                  | None =>
                      e <- no_pawns_factor p (generic_scaling p e0) ;;
                      e <- material_imbalance p (space_weight p e) ;;
                      Ret (i, store t' i e)
                  end = Ret (i, store t' i e))
               /\ key e = material_key p
               /\ gamePhase e = game_phase p
               /\ (forall c g, at_color (scalingFunction e) c = Some g ->
                               scale_color g = c)
               /\ (forall c, at_color (factor e) c = uint8 SCALE_FACTOR_NORMAL
                             \/ In (at_color (factor e) c) [0; 6; 12; 32])
               /\ (forall c, 1 <= count p PAWN c ->
                             at_color (factor e) c = uint8 SCALE_FACTOR_NORMAL)
               /\ (evaluationFunction e <> None ->
                   value e = 0 /\ spaceWeight e = 0
                   /\ scalingFunction e = (None, None)
                   /\ factor e
                      = (uint8 SCALE_FACTOR_NORMAL, uint8 SCALE_FACTOR_NORMAL))).
    { destruct (endgames_scale eg (material_key p)) as [sf|].
      - eexists. split; [intros t'; reflexivity|].
        split; [reflexivity|]. split; [reflexivity|].
        split.
        { apply set_scaling_colours; [reflexivity|].
          intros [] g E; discriminate E. }
        split; [intros []; cbn; auto|].
        split; [intros []; cbn; auto|].
        intros N. contradiction N. reflexivity.
      - pose proof (generic_scaling_colours p e0
                      ltac:(intros [] g E; discriminate E)) as Col.
        destruct (generic_scaling_shape p e0) as (s & Es).
        rewrite Es in *.
        destruct (no_pawns_factor_values p (with_scalingFunction e0 s)
                    (proj1 (Hc BISHOP WHITE)) (proj1 (Hc BISHOP BLACK)))
          as (f & -> & Fv & Fp).
        cbn [bind].
        destruct (space_weight_shape p
                    (with_factor (with_scalingFunction e0 s) f)) as (w & ->).
        rewrite material_imbalance_closed. cbn [bind].
        eexists. split; [intros t'; reflexivity|].
        split; [reflexivity|]. split; [reflexivity|].
        split; [exact Col|].
        split.
        { intros c. cbn [factor with_value with_spaceWeight with_factor].
          apply factor_normal_or_reduced. exact (Fv c). }
        split; [|intros N; contradiction N; reflexivity].
        intros c Hp. cbn [factor with_value with_spaceWeight with_factor].
        rewrite (Fp c Hp). destruct c; reflexivity. }
    unfold probe. fold i. fold e0.
    destruct (endgames_value eg (material_key p)) as [f|].
    { destruct (Early (Some (StoredValue f))) as (A & B1 & C).
      eexists. split.
      { intros t' M. apply Z.eqb_neq in M. rewrite M. reflexivity. }
      split; [reflexivity|]. split; [reflexivity|].
      split; [exact A|]. split; [exact B1|]. split; [exact C|].
      intros _. repeat split. }
    destruct (is_KXK WHITE p).
    { destruct (Early (Some (EvaluateKXK WHITE))) as (A & B1 & C).
      eexists. split.
      { intros t' M. apply Z.eqb_neq in M. rewrite M. reflexivity. }
      split; [reflexivity|]. split; [reflexivity|].
      split; [exact A|]. split; [exact B1|]. split; [exact C|].
      intros _. repeat split. }
    destruct (is_KXK BLACK p).
    { destruct (Early (Some (EvaluateKXK BLACK))) as (A & B1 & C).
      eexists. split.
      { intros t' M. apply Z.eqb_neq in M. rewrite M. reflexivity. }
      split; [reflexivity|]. split; [reflexivity|].
      split; [exact A|]. split; [exact B1|]. split; [exact C|].
      intros _. repeat split. }
    assert (Fin : exists e,
               (forall t', key (t' i) <> material_key p ->
                  (if key (t' i) =? material_key p then Ret (i, t')
                   else
                     match endgames_scale eg (material_key p) with
                     | Some sf =>
                         Ret (i, store t' i
                                   (set_scaling e0 (color sf) (StoredScale sf)))
                     | None =>
                         e <- no_pawns_factor p (generic_scaling p e0) ;;
                         e <- material_imbalance p (space_weight p e) ;;
                         Ret (i, store t' i e)
                     end) = Ret (i, store t' i e))
               /\ key e = material_key p
               /\ gamePhase e = game_phase p
               /\ (forall c g, at_color (scalingFunction e) c = Some g ->
                               scale_color g = c)
               /\ (forall c, at_color (factor e) c = uint8 SCALE_FACTOR_NORMAL
                             \/ In (at_color (factor e) c) [0; 6; 12; 32])
               /\ (forall c, 1 <= count p PAWN c ->
                             at_color (factor e) c = uint8 SCALE_FACTOR_NORMAL)
               /\ (evaluationFunction e <> None ->
                   value e = 0 /\ spaceWeight e = 0
                   /\ scalingFunction e = (None, None)
                   /\ factor e
                      = (uint8 SCALE_FACTOR_NORMAL,
                         uint8 SCALE_FACTOR_NORMAL))).
    { destruct Sc as (e & H1 & H2).
      exists e. split; [|exact H2].
      intros t' M. apply Z.eqb_neq in M. rewrite M. apply H1. }
    destruct ((pieces p PAWN =? 0) && (pieces p ROOK =? 0)
              && (pieces p QUEEN =? 0)); [|exact Fin].
    destruct ((count p BISHOP WHITE + count p KNIGHT WHITE <=? 2)
              && (count p BISHOP BLACK + count p KNIGHT BLACK <=? 2));
      [|exact Fin].
    destruct (Early (Some (EvaluateKmmKm (side_to_move p)))) as (A & B1 & C).
    eexists. split.
    { intros t' M. apply Z.eqb_neq in M. rewrite M. reflexivity. }
    split; [reflexivity|]. split; [reflexivity|].
    split; [exact A|]. split; [exact B1|]. split; [exact C|].
    intros _. repeat split. }
  destruct Sh as (e & Pr & K & Gp & Col & Fv & Fp & Ev).
  exists (i, store t i e). split; [apply Pr; exact Miss|].
  unfold entry_at. cbn [fst snd]. rewrite store_same.
  split.
  { intros t2 M2. exists (i, store t2 i e). split; [apply Pr; exact M2|].
    cbn [fst snd]. apply store_same. }
  repeat (split; [assumption|]). exact Ev.
Qed.

(** ** Exchanging the colours *)

Lemma Them_Them (c : Color) : Them (Them c) = c.
Proof. destruct c; reflexivity. Qed.

Lemma is_KXK_mirror (eg : Endgames) (p q : Position) (c : Color) :
  mirrored eg p q -> is_KXK c q = is_KXK (Them c) p.
Proof.
  intros (Mc & Mn & _). unfold is_KXK. rewrite Mc, !Mn. reflexivity.
Qed.

Lemma game_phase_mirror (eg : Endgames) (p q : Position) :
  mirrored eg p q -> game_phase q = game_phase p.
Proof.
  intros (_ & Mn & _). unfold game_phase. rewrite !Mn. cbn [Them].
  rewrite (Z.add_comm (non_pawn_material p BLACK)). reflexivity.
Qed.

Lemma eqb_zero_iff (a b : Z) : (a = 0 <-> b = 0) -> (a =? 0) = (b =? 0).
Proof.
  intros H. destruct (Z.eqb_spec a 0) as [E|E], (Z.eqb_spec b 0) as [F|F];
    try reflexivity; tauto.
Qed.

Lemma pieceCount_of_mirror (eg : Endgames) (p q : Position) :
  mirrored eg p q ->
  pieceCount_of q = (snd (pieceCount_of p), fst (pieceCount_of p)).
Proof.
  intros (Mc & _). unfold pieceCount_of. rewrite !Mc. reflexivity.
Qed.

Lemma no_pawns_factor_mirror (eg : Endgames) (p q : Position) (e1 e2 : Entry) :
  mirrored eg p q ->
  0 <= count p BISHOP WHITE -> 0 <= count p BISHOP BLACK ->
  factor e2 = (snd (factor e1), fst (factor e1)) ->
  exists f,
    no_pawns_factor p e1 = Ret (with_factor e1 f)
    /\ no_pawns_factor q e2 = Ret (with_factor e2 (snd f, fst f)).
Proof.
  intros (Mc & Mn & _) Hw Hb F. unfold no_pawns_factor.
  rewrite !Mc, !Mn. cbn [Them].
  destruct (NoPawnsSF_read _ Hw) as (fw & Rw & _).
  destruct (NoPawnsSF_read _ Hb) as (fb & Rb & _).
  rewrite Rw, Rb.
  rewrite (Z.eqb_sym (non_pawn_material p BLACK)).
  destruct ((count p PAWN WHITE =? 0)
            && (non_pawn_material p WHITE - non_pawn_material p BLACK
                <=? BishopValueMg)),
    ((non_pawn_material p WHITE =? non_pawn_material p BLACK)
     || (non_pawn_material p WHITE <? RookValueMg)),
    ((count p PAWN BLACK =? 0)
     && (non_pawn_material p BLACK - non_pawn_material p WHITE
         <=? BishopValueMg)),
    ((non_pawn_material p WHITE =? non_pawn_material p BLACK)
     || (non_pawn_material p BLACK <? RookValueMg));
    cbn [bind with_factor factor set_color fst snd]; rewrite ?F;
    cbn [fst snd];
    try (eexists; split; reflexivity);
    exists (factor e1); destruct e1, e2; cbn in F |- *; subst;
    destruct factor0; split; reflexivity.
Qed.

Lemma space_weight_mirror (eg : Endgames) (p q : Position) (e1 e2 : Entry) :
  mirrored eg p q ->
  spaceWeight e2 = spaceWeight e1 ->
  exists w,
    space_weight p e1 = with_spaceWeight e1 w
    /\ space_weight q e2 = with_spaceWeight e2 w.
Proof.
  intros (Mc & Mn & _) W. unfold space_weight. rewrite !Mc, !Mn. cbn [Them].
  rewrite (Z.add_comm (non_pawn_material p BLACK)).
  destruct (_ <=? _).
  - eexists. split; [reflexivity|]. do 2 f_equal. f_equal; lia.
  - exists (spaceWeight e1). split; [destruct e1; reflexivity|].
    rewrite <- W. destruct e2; reflexivity.
Qed.

Lemma int16_small (x : Z) : -32768 <= x <= 32767 -> int16 x = x.
Proof.
  intros H. unfold int16. rewrite Z.mod_small; lia.
Qed.

Lemma quot_16_bounds (d : Z) :
  -474007 <= d <= 474007 -> -29625 <= Z.quot d 16 <= 29625.
Proof.
  intros (L & U). split.
  - change (-29625) with (Z.quot (-474007) 16).
    apply Z.quot_le_mono; lia.
  - change 29625 with (Z.quot 474007 16).
    apply Z.quot_le_mono; lia.
Qed.

(** The imbalance of a position whose counts lie between 0 and 16. *)
Lemma pieceCount_bounds (p : Position) :
  (forall pt c, 0 <= count p pt c <= 16) ->
  -50486 <= imbalance_formula (fst (pieceCount_of p)) (snd (pieceCount_of p))
         <= 423521
  /\ -50486 <= imbalance_formula (snd (pieceCount_of p))
                 (fst (pieceCount_of p)) <= 423521.
Proof.
  intros H. unfold pieceCount_of. cbn [fst snd].
  assert (Pw : 0 <= (if count p BISHOP WHITE >? 1 then 1 else 0) <= 1)
    by (destruct (count p BISHOP WHITE >? 1); lia).
  assert (Pb : 0 <= (if count p BISHOP BLACK >? 1 then 1 else 0) <= 1)
    by (destruct (count p BISHOP BLACK >? 1); lia).
  split; apply imbalance_formula_bounds; auto.
Qed.

(** X24.  The entry [probe] computes for a position with at most 16 pieces
    of a kind on a side, and the entry it computes for the position with
    the colours exchanged: the material value is negated, the two factors
    change places, game phase and space weight are the same, and the one
    has a specialised evaluation function when the other has.  The value
    lies between -29625 and 29625. *)
Theorem mirrored_entry (eg : Endgames) (p q : Position) (t1 t2 : Table) :
  mirrored eg p q ->
  (forall pt c, 0 <= count p pt c <= 16) ->
  key (t1 (index (material_key p))) <> material_key p ->
  key (t2 (index (material_key q))) <> material_key q ->
  exists r1 r2,
    probe p t1 eg = Ret r1
    /\ probe q t2 eg = Ret r2
    /\ value (entry_at r2) = - value (entry_at r1)
    /\ -29625 <= value (entry_at r1) <= 29625
    /\ factor (entry_at r2)
       = (snd (factor (entry_at r1)), fst (factor (entry_at r1)))
    /\ gamePhase (entry_at r2) = gamePhase (entry_at r1)
    /\ spaceWeight (entry_at r2) = spaceWeight (entry_at r1)
    /\ (evaluationFunction (entry_at r2) = None
        <-> evaluationFunction (entry_at r1) = None).
Proof.
  intros M Hc Miss1 Miss2.
  pose proof (is_KXK_mirror eg p q WHITE M) as Kw.
  pose proof (is_KXK_mirror eg p q BLACK M) as Kb.
  pose proof (game_phase_mirror eg p q M) as Gp.
  pose proof (pieceCount_of_mirror eg p q M) as Pc.
  pose proof (pieceCount_bounds p Hc) as (Bw & Bb).
  destruct M as (Mc & Mn & Mp & Mv & Ms).
  unfold probe.
  apply Z.eqb_neq in Miss1. apply Z.eqb_neq in Miss2. rewrite Miss1, Miss2.
  rewrite Kw, Kb, Gp. cbn [Them].
  rewrite (eqb_zero_iff _ _ (Mp PAWN)), (eqb_zero_iff _ _ (Mp ROOK)),
    (eqb_zero_iff _ _ (Mp QUEEN)).
  rewrite !Mc. cbn [Them].
  set (e1 := {| key := material_key p; value := 0;
                factor := (uint8 SCALE_FACTOR_NORMAL, uint8 SCALE_FACTOR_NORMAL);
                evaluationFunction := None; scalingFunction := (None, None);
                spaceWeight := 0; gamePhase := game_phase p |}).
  set (e2 := {| key := material_key q; value := 0;
                factor := (uint8 SCALE_FACTOR_NORMAL, uint8 SCALE_FACTOR_NORMAL);
                evaluationFunction := None; scalingFunction := (None, None);
                spaceWeight := 0; gamePhase := game_phase p |}).
  rewrite (andb_comm (count p BISHOP BLACK + count p KNIGHT BLACK <=? 2)).
  (* the blocks after the search for a stored scaling function *)
  assert (G : exists E1 E2,
             (e <- no_pawns_factor p (generic_scaling p e1) ;;
              e0 <- material_imbalance p (space_weight p e) ;;
              Ret (index (material_key p),
                   store t1 (index (material_key p)) e0))
             = Ret (index (material_key p),
                    store t1 (index (material_key p)) E1)
             /\ (e <- no_pawns_factor q (generic_scaling q e2) ;;
                 e0 <- material_imbalance q (space_weight q e) ;;
                 Ret (index (material_key q),
                      store t2 (index (material_key q)) e0))
                = Ret (index (material_key q),
                       store t2 (index (material_key q)) E2)
             /\ value E2 = - value E1
             /\ -29625 <= value E1 <= 29625
             /\ factor E2 = (snd (factor E1), fst (factor E1))
             /\ gamePhase E2 = gamePhase E1
             /\ spaceWeight E2 = spaceWeight E1
             /\ evaluationFunction E1 = None
             /\ evaluationFunction E2 = None).
  { destruct (generic_scaling_shape p e1) as (s1 & ->).
    destruct (generic_scaling_shape q e2) as (s2 & ->).
    destruct (no_pawns_factor_mirror eg p q (with_scalingFunction e1 s1)
                (with_scalingFunction e2 s2)
                (conj Mc (conj Mn (conj Mp (conj Mv Ms))))
                (proj1 (Hc BISHOP WHITE)) (proj1 (Hc BISHOP BLACK))
                eq_refl) as (f & -> & ->).
    cbn [bind].
    destruct (space_weight_mirror eg p q
                (with_factor (with_scalingFunction e1 s1) f)
                (with_factor (with_scalingFunction e2 s2) (snd f, fst f))
                (conj Mc (conj Mn (conj Mp (conj Mv Ms)))) eq_refl)
      as (w & -> & ->).
    rewrite !material_imbalance_closed. cbn [bind]. rewrite Pc.
    cbn [fst snd].
    set (a := imbalance_formula (fst (pieceCount_of p))
                (snd (pieceCount_of p))) in *.
    set (b := imbalance_formula (snd (pieceCount_of p))
                (fst (pieceCount_of p))) in *.
    pose proof (quot_16_bounds (a - b) ltac:(lia)) as Q.
    do 2 eexists. split; [reflexivity|]. split; [reflexivity|].
    cbn [value factor gamePhase spaceWeight evaluationFunction with_value
         with_spaceWeight with_factor with_scalingFunction e1 e2 fst snd].
    replace (b - a) with (- (a - b)) by lia.
    rewrite Z.quot_opp_l by lia.
    rewrite !int16_small by lia.
    repeat split; try reflexivity; lia. }
  destruct G as (E1 & E2 & G1 & G2 & Gv & Gb & Gf & Gg & Gw & Ge1 & Ge2).
  assert (Sc : exists r1 r2,
             match endgames_scale eg (material_key p) with
             | Some sf =>
                 Ret (index (material_key p),
                      store t1 (index (material_key p))
                        (set_scaling e1 (color sf) (StoredScale sf)))
             | None =>
                 e <- no_pawns_factor p (generic_scaling p e1) ;;
                 e0 <- material_imbalance p (space_weight p e) ;;
                 Ret (index (material_key p),
                      store t1 (index (material_key p)) e0)
             end = Ret r1
             /\ match endgames_scale eg (material_key q) with
                | Some sf =>
                    Ret (index (material_key q),
                         store t2 (index (material_key q))
                           (set_scaling e2 (color sf) (StoredScale sf)))
                | None =>
                    e <- no_pawns_factor q (generic_scaling q e2) ;;
                    e0 <- material_imbalance q (space_weight q e) ;;
                    Ret (index (material_key q),
                         store t2 (index (material_key q)) e0)
                end = Ret r2
             /\ value (entry_at r2) = - value (entry_at r1)
             /\ -29625 <= value (entry_at r1) <= 29625
             /\ factor (entry_at r2)
                = (snd (factor (entry_at r1)), fst (factor (entry_at r1)))
             /\ gamePhase (entry_at r2) = gamePhase (entry_at r1)
             /\ spaceWeight (entry_at r2) = spaceWeight (entry_at r1)
             /\ (evaluationFunction (entry_at r2) = None
                 <-> evaluationFunction (entry_at r1) = None)).
  { destruct (endgames_scale eg (material_key p)) as [sp|] eqn:Sp,
      (endgames_scale eg (material_key q)) as [sq|] eqn:Sq.
    - do 2 eexists. split; [reflexivity|]. split; [reflexivity|].
      unfold entry_at. cbn [fst snd]. rewrite !store_same.
      repeat split; try reflexivity; cbn; lia.
    - destruct Ms as (Ms & _). discriminate (Ms eq_refl).
    - destruct Ms as (_ & Ms). discriminate (Ms eq_refl).
    - rewrite G1, G2. do 2 eexists.
      split; [reflexivity|]. split; [reflexivity|].
      unfold entry_at. cbn [fst snd]. rewrite !store_same.
      rewrite Ge1, Ge2. tauto. }
  destruct (endgames_value eg (material_key p)) as [vp|] eqn:Vp,
    (endgames_value eg (material_key q)) as [vq|] eqn:Vq.
  - do 2 eexists. split; [reflexivity|]. split; [reflexivity|].
    unfold entry_at. cbn [fst snd]. rewrite !store_same.
    repeat split; try reflexivity; cbn; try lia; discriminate.
  - destruct Mv as (Mv & _). discriminate (Mv eq_refl).
  - destruct Mv as (_ & Mv). discriminate (Mv eq_refl).
  - destruct (is_KXK WHITE p), (is_KXK BLACK p);
      try (do 2 eexists; split; [reflexivity|]; split; [reflexivity|];
           unfold entry_at; cbn [fst snd]; rewrite !store_same;
           repeat split; try reflexivity; cbn; try lia; discriminate).
    destruct ((pieces p PAWN =? 0) && (pieces p ROOK =? 0)
              && (pieces p QUEEN =? 0)); [|exact Sc].
    destruct ((count p BISHOP WHITE + count p KNIGHT WHITE <=? 2)
              && (count p BISHOP BLACK + count p KNIGHT BLACK <=? 2));
      [|exact Sc].
    do 2 eexists. split; [reflexivity|]. split; [reflexivity|].
    unfold entry_at. cbn [fst snd]. rewrite !store_same.
    repeat split; try reflexivity; cbn; try lia; discriminate.
Qed.

End Facts.

Lemma game_phase_monotone_witness :
  @game_phase toy_board queen_vs_rook_bishop
  <= @game_phase toy_board rook_bishop_vs_queen
  /\ 0 <= @game_phase toy_board queen_vs_rook_bishop <= 128.
Proof.
  destruct (@game_phase_monotone toy_board queen_vs_rook_bishop
              rook_bishop_vs_queen) as (M & R & _).
  - cbn. lia.
  - cbn. lia.
  - vm_compute. discriminate.
  - split; [exact M|exact R].
Defined.

Lemma probe_caches_witness :
  exists t',
    @probe toy_board queen_vs_rook_bishop fresh_table tt
    = Ret (@index toy_board (toy_key queen_vs_rook_bishop), t')
    /\ key (t' (@index toy_board (toy_key queen_vs_rook_bishop)))
       = toy_key queen_vs_rook_bishop
    /\ @probe toy_board queen_vs_rook_bishop t' tt
       = Ret (@index toy_board (toy_key queen_vs_rook_bishop), t').
Proof.
  destruct (@probe_caches toy_board queen_vs_rook_bishop fresh_table tt)
    as (t' & P & K & _ & _ & H & _).
  - intros pt c. destruct c; cbn;
      repeat match goal with |- context [if ?b then _ else _] =>
               destruct b end; lia.
  - exists t'. split; [exact P|]. split; [exact K|].
    exact (H queen_vs_rook_bishop tt eq_refl).
Defined.

Lemma probe_entry_shape_witness :
  exists r,
    @probe toy_board queen_vs_rook_bishop fresh_table tt = Ret r
    /\ key (entry_at r) = toy_key queen_vs_rook_bishop
    /\ at_color (factor (entry_at r)) WHITE = 64.
Proof.
  destruct (@probe_entry_shape toy_board queen_vs_rook_bishop fresh_table tt)
    as (r & P & _ & K & _ & _ & _ & Fp & _).
  - intros pt c. destruct c; cbn;
      repeat match goal with |- context [if ?b then _ else _] =>
               destruct b end; lia.
  - vm_compute. discriminate.
  - exists r. split; [exact P|]. split; [exact K|].
    apply (Fp WHITE). vm_compute. discriminate.
Defined.

Lemma mirrored_entry_witness :
  exists r1 r2,
    @probe toy_board queen_vs_rook_bishop fresh_table tt = Ret r1
    /\ @probe toy_board rook_bishop_vs_queen fresh_table tt = Ret r2
    /\ value (entry_at r2) = - value (entry_at r1)
    /\ -29625 <= value (entry_at r1) <= 29625
    /\ factor (entry_at r2)
       = (snd (factor (entry_at r1)), fst (factor (entry_at r1)))
    /\ gamePhase (entry_at r2) = gamePhase (entry_at r1)
    /\ spaceWeight (entry_at r2) = spaceWeight (entry_at r1)
    /\ (evaluationFunction (entry_at r2) = None
        <-> evaluationFunction (entry_at r1) = None).
Proof.
  apply (@mirrored_entry toy_board tt queen_vs_rook_bishop
           rook_bishop_vs_queen fresh_table fresh_table).
  - split; [reflexivity|]. split; [reflexivity|].
    split; [intros pt; cbn; lia|]. split; reflexivity.
  - intros pt c. destruct c; cbn;
      repeat match goal with |- context [if ?b then _ else _] =>
               destruct b end; lia.
  - vm_compute. discriminate.
  - vm_compute. discriminate.
Defined.

End MaterialFacts.
